(** * Config library: the Value model, the YAML binder and the YAML scanner

    A shallow embedding of
    - [Value.hpp] / [Value.cpp]: the variant type, its numeric coercions,
      [IsConvertibleTo], [Elt], the object payload built on [vector_map];
    - [ValueYaml.cpp]: the event binder ([ParseScalar], [ParseSequence],
      [ParseMapping]);
    - the bundled libyaml: [yaml_parser_scan_block_scalar] and
      [yaml_parser_process_directives].

    Conventions.  A C++ integer of width w is a [Z] together with the
    wrap-around of its conversions; a [double] is an IEEE-754 binary64
    value ([spec_float] with precision 53 and emax 1024); an operation
    whose behaviour the language leaves undefined (indexing outside an
    allocation, dereferencing a null pointer, a floating to integer
    conversion whose result does not fit) yields [Undefined]. *)

From Stdlib Require Import ZArith List String Ascii Bool Lia.
From Stdlib Require Import Floats.SpecFloat.
Import ListNotations.

Open Scope Z_scope.

#[local] Set Warnings "-register-all".

(** ** Outcomes of operations that may be undefined *)

Inductive outcome (A : Type) : Type :=
| Defined (a : A)
| Undefined.

Arguments Defined {A} a.
Arguments Undefined {A}.

(** ** Fixed width integers (<stdint.h>) *)

Definition INT32_MIN : Z := -2147483648.
Definition INT32_MAX : Z := 2147483647.
Definition UINT32_MAX : Z := 4294967295.
Definition INT64_MIN : Z := -9223372036854775808.
Definition INT64_MAX : Z := 9223372036854775807.
Definition UINT64_MAX : Z := 18446744073709551615.

(** Integral conversions: the value modulo 2^w, read as signed or unsigned. *)
Definition to_uint32 (z : Z) : Z := z mod 2 ^ 32.
Definition to_uint64 (z : Z) : Z := z mod 2 ^ 64.
Definition to_int32 (z : Z) : Z := (z + 2 ^ 31) mod 2 ^ 32 - 2 ^ 31.
Definition to_int64 (z : Z) : Z := (z + 2 ^ 63) mod 2 ^ 64 - 2 ^ 63.

Definition is_int32 (z : Z) : bool := (INT32_MIN <=? z) && (z <=? INT32_MAX).
Definition is_uint32 (z : Z) : bool := (0 <=? z) && (z <=? UINT32_MAX).
Definition is_int64 (z : Z) : bool := (INT64_MIN <=? z) && (z <=? INT64_MAX).
Definition is_uint64 (z : Z) : bool := (0 <=? z) && (z <=? UINT64_MAX).

(** ** Doubles *)

Definition double : Type := spec_float.

Definition dprec : Z := 53.
Definition demax : Z := 1024.

Definition is_double (d : double) : bool := valid_binary dprec demax d.

(** [double(z)]: an integer converted to [double], rounding to nearest even. *)
Definition double_of_Z (z : Z) : double := binary_normalize dprec demax z 0 false.

(** The value of a double with its fraction dropped (rounding toward zero);
    nothing for an infinity or a NaN. *)
Definition trunc (d : double) : option Z :=
  match d with
  | S754_zero _ => Some 0
  | S754_finite s m e =>
      let a := if 0 <=? e then Zpos m * 2 ^ e else Zpos m / 2 ^ (- e) in
      Some (if s then - a else a)
  | S754_infinity _ | S754_nan => None
  end.

(** [T(d)] for an integer type [T] with range [lo .. hi]: the truncated value,
    and undefined behaviour when it cannot be represented in [T]. *)
Definition double_to_integer (lo hi : Z) (d : double) : outcome Z :=
  match trunc d with
  | Some z => if (lo <=? z) && (z <=? hi) then Defined z else Undefined
  | None => Undefined
  end.

(** The integer a double stands for, when it stands for one. *)
Definition integral_value (d : double) : option Z :=
  match d with
  | S754_zero _ => Some 0
  | S754_finite s m e =>
      if 0 <=? e then Some (if s then - (Zpos m * 2 ^ e) else Zpos m * 2 ^ e)
      else if Zpos m mod 2 ^ (- e) =? 0
           then Some (if s then - (Zpos m / 2 ^ (- e)) else Zpos m / 2 ^ (- e))
           else None
  | S754_infinity _ | S754_nan => None
  end.

Definition dzero : double := S754_zero false.

(** ** Value.hpp: ValueType and Value *)

Inductive ValueType : Type :=
| kValueNull
| kValueBool
| kValueInt
| kValueUInt
| kValueInt64
| kValueUInt64
| kValueDouble
| kValueString
| kValueArray
| kValueObject.

Definition ValueType_eqb (a b : ValueType) : bool :=
  match a, b with
  | kValueNull, kValueNull | kValueBool, kValueBool | kValueInt, kValueInt
  | kValueUInt, kValueUInt | kValueInt64, kValueInt64
  | kValueUInt64, kValueUInt64 | kValueDouble, kValueDouble
  | kValueString, kValueString | kValueArray, kValueArray
  | kValueObject, kValueObject => true
  | _, _ => false
  end.

(** The object payload: the member map (a [vector_map], kept sorted by key)
    and the modification counter. *)
Record ObjectValue_ (V : Type) : Type := mkObjectValue {
  mMap : list (string * V);
  mModCount : Z
}.

Arguments mkObjectValue {V} mMap mModCount.
Arguments mMap {V} o.
Arguments mModCount {V} o.

(** A Value: the discriminant [mType] together with the member of the union
    [mValue] it selects.  The string and array pointers may be null. *)
Inductive Value : Type :=
| VNull
| VBool (mBool : bool)
| VInt (mInt32 : Z)
| VUInt (mUInt32 : Z)
| VInt64 (mInt64 : Z)
| VUInt64 (mUInt64 : Z)
| VDouble (mDouble : double)
| VString (mString : option string)
| VArray (mArray : option (list Value))
| VObject (mObject : ObjectValue_ Value).

Definition ObjectValue : Type := ObjectValue_ Value.

Definition kNullValue : Value := VNull.

Definition Type_ (v : Value) : ValueType :=
  match v with
  | VNull => kValueNull
  | VBool _ => kValueBool
  | VInt _ => kValueInt
  | VUInt _ => kValueUInt
  | VInt64 _ => kValueInt64
  | VUInt64 _ => kValueUInt64
  | VDouble _ => kValueDouble
  | VString _ => kValueString
  | VArray _ => kValueArray
  | VObject _ => kValueObject
  end.

Definition IsNull (v : Value) : bool := ValueType_eqb (Type_ v) kValueNull.
Definition IsArray (v : Value) : bool := ValueType_eqb (Type_ v) kValueArray.
Definition IsObject (v : Value) : bool := ValueType_eqb (Type_ v) kValueObject.
Definition IsString (v : Value) : bool := ValueType_eqb (Type_ v) kValueString.
Definition IsDouble (v : Value) : bool := ValueType_eqb (Type_ v) kValueDouble.

(** The scalar payload fits the C++ type of its union member. *)
Definition payload_ok (v : Value) : bool :=
  match v with
  | VInt i => is_int32 i
  | VUInt u => is_uint32 u
  | VInt64 i => is_int64 i
  | VUInt64 u => is_uint64 u
  | VDouble d => is_double d
  | _ => true
  end.

(** ** String.hpp: comparisons on C strings

    A [string] stands for the bytes of a C string before its terminator. *)

Definition tolower (c : ascii) : ascii :=
  let n := N_of_ascii c in
  if (N.leb 65 n && N.leb n 90)%bool then ascii_of_N (n + 32) else c.

Definition Equal (s0 s1 : string) : bool := String.eqb s0 s1.

Fixpoint EqualI (s0 s1 : string) : bool :=
  match s0, s1 with
  | EmptyString, EmptyString => true
  | String c0 r0, String c1 r1 =>
      if Ascii.eqb (tolower c0) (tolower c1) then EqualI r0 r1 else false
  | _, _ => false
  end.

Fixpoint StartsWith (s prefix : string) {struct prefix} : bool :=
  match prefix with
  | EmptyString => true
  | String p prefix' =>
      match s with
      | String c s' => if Ascii.eqb c p then StartsWith s' prefix' else false
      | EmptyString => false
      end
  end.

(** ** Value.cpp: the coercions *)

Definition dlt (a b : double) : bool := SFltb a b.
Definition dle (a b : double) : bool := SFleb a b.
Definition deq (a b : double) : bool := SFeqb a b.

Definition AsInt (v : Value) (defaultValue : Z) : outcome Z :=
  match v with
  | VBool b => Defined (if b then 1 else 0)
  | VInt i => Defined i
  | VUInt u =>
      if INT32_MAX <? u then Defined INT32_MAX else Defined (to_int32 u)
  | VInt64 i =>
      if INT32_MAX <? i then Defined INT32_MAX
      else if i <? INT32_MIN then Defined INT32_MIN
      else Defined (to_int32 i)
  | VUInt64 u =>
      if INT32_MAX <? u then Defined INT32_MAX else Defined (to_int32 u)
  | VDouble d =>
      if dlt d (double_of_Z INT32_MIN) then Defined INT32_MIN
      else if dlt (double_of_Z INT32_MAX) d then Defined INT32_MAX
      else double_to_integer INT32_MIN INT32_MAX d
  | _ => Defined defaultValue
  end.

Definition AsUInt (v : Value) (defaultValue : Z) : outcome Z :=
  match v with
  | VBool b => Defined (if b then 1 else 0)
  | VInt i => if i <? 0 then Defined 0 else Defined (to_uint32 i)
  | VUInt u => Defined u
  | VInt64 i =>
      if UINT32_MAX <? i then Defined UINT32_MAX
      else if i <? 0 then Defined 0
      else Defined (to_uint32 i)
  | VUInt64 u =>
      if UINT32_MAX <? u then Defined UINT32_MAX else Defined (to_uint32 u)
  | VDouble d =>
      if dlt d dzero then Defined 0
      else if dlt (double_of_Z UINT32_MAX) d then Defined UINT32_MAX
      else double_to_integer 0 UINT32_MAX d
  | _ => Defined defaultValue
  end.

Definition AsInt64 (v : Value) (defaultValue : Z) : outcome Z :=
  match v with
  | VBool b => Defined (if b then 1 else 0)
  | VInt i => Defined (to_int64 i)
  | VUInt u => Defined (to_int64 u)
  | VInt64 i => Defined i
  | VUInt64 u =>
      if INT64_MAX <? u then Defined INT64_MAX else Defined (to_int64 u)
  | VDouble d =>
      if dlt d (double_of_Z INT64_MIN) then Defined INT64_MIN
      else if dlt (double_of_Z INT64_MAX) d then Defined INT64_MAX
      else double_to_integer INT64_MIN INT64_MAX d
  | _ => Defined defaultValue
  end.

Definition AsUInt64 (v : Value) (defaultValue : Z) : outcome Z :=
  match v with
  | VBool b => Defined (if b then 1 else 0)
  | VInt i => if i <? 0 then Defined 0 else Defined (to_uint64 i)
  | VUInt u => Defined (to_uint64 u)
  | VInt64 i => if i <? 0 then Defined 0 else Defined (to_uint64 i)
  | VUInt64 u => Defined u
  | VDouble d =>
      if dlt d dzero then Defined 0
      else if dlt (double_of_Z UINT64_MAX) d then Defined UINT64_MAX
      else double_to_integer 0 UINT64_MAX d
  | _ => Defined defaultValue
  end.

Definition AsDouble (v : Value) (defaultValue : double) : double :=
  match v with
  | VBool b => if b then double_of_Z 1 else dzero
  | VInt i => double_of_Z i
  | VUInt u => double_of_Z u
  | VInt64 i => double_of_Z i
  | VUInt64 u => double_of_Z u
  | VDouble d => d
  | _ => defaultValue
  end.

Definition AsBool (v : Value) (defaultValue : bool) : bool :=
  match v with
  | VBool b => b
  | VInt i => negb (i =? 0)
  | VUInt u => negb (u =? 0)
  | VInt64 i => negb (i =? 0)
  | VUInt64 u => negb (u =? 0)
  | VDouble d => negb (deq d dzero)
  | VString s =>
      match s with
      | Some str => EqualI str "true"
      | None => false
      end
  | VArray a =>
      match a with
      | Some data => negb (Nat.eqb (List.length data) 0)
      | None => false
      end
  | VObject o => negb (Nat.eqb (List.length (mMap o)) 0)
  | VNull => defaultValue
  end.

Definition AsCString (v : Value) (defaultValue : option string) : option string :=
  match v with
  | VString s =>
      match s with
      | Some str => Some str
      | None => Some EmptyString
      end
  | VBool b => Some (if b then "true" else "false")%string
  | _ => defaultValue
  end.

(** [(unsigned) x]: conversion to the 32-bit [unsigned int]. *)
Definition to_unsigned (z : Z) : Z := to_uint32 z.

Definition IsConvertibleTo (v : Value) (other : ValueType) : bool :=
  let to k := ValueType_eqb other k in
  match v with
  | VNull => true
  | VBool _ =>
      false || to kValueBool || to kValueInt || to kValueUInt
      || to kValueInt64 || to kValueUInt64 || to kValueDouble
  | VInt i =>
      false || to kValueBool || to kValueInt
      || (to kValueUInt && (0 <=? i))
      || to kValueInt64
      || (to kValueUInt64 && (0 <=? i))
      || to kValueDouble
  | VUInt u =>
      false || to kValueBool
      || (to kValueInt && (u <=? to_unsigned INT32_MAX))
      || to kValueUInt || to kValueInt64 || to kValueUInt64 || to kValueDouble
  | VInt64 i =>
      false || to kValueBool
      || (to kValueInt && (INT32_MIN <=? i) && (i <=? INT32_MAX))
      || (to kValueUInt && (0 <=? i) && (i <=? UINT32_MAX))
      || to kValueInt64
      || (to kValueUInt64 && (0 <=? i))
      || to kValueDouble
  | VUInt64 u =>
      false || to kValueBool
      || (to kValueInt && (u <=? to_unsigned INT32_MAX))
      || (to kValueUInt && (u <=? UINT32_MAX))
      || (to kValueInt64 && (u <=? to_unsigned INT64_MAX))
      || to kValueUInt64
      || to kValueDouble
  | VDouble d =>
      false || to kValueBool
      || (to kValueInt && dle (double_of_Z INT32_MIN) d && dle d (double_of_Z INT32_MAX))
      || (to kValueUInt && dle dzero d && dle d (double_of_Z UINT32_MAX))
      || (to kValueInt64 && dle (double_of_Z INT64_MIN) d && dle d (double_of_Z INT64_MAX))
      || (to kValueUInt64 && dle dzero d && dle d (double_of_Z UINT64_MAX))
      || to kValueDouble
  | VString _ => false || to kValueBool || to kValueString
  | VArray _ => false || to kValueBool || to kValueArray
  | VObject _ => false || to kValueBool || to kValueObject
  end.

(** ** Value.cpp: array access *)

(** [data[index]] on the array payload, [ArrayValue::operator[]]: no check
    is made, so the access is defined only inside the [count] elements. *)
Definition ArrayValue_index (data : list Value) (index : Z) : outcome Value :=
  if index <? 0 then Undefined
  else match nth_error data (Z.to_nat index) with
       | Some x => Defined x
       | None => Undefined
       end.

(** [Value::Elt(int) const].  Indexing goes through the array pointer
    [mValue.mArray], which is null for a Value made by [ToArray] or
    [Value(kValueArray)]. *)
Definition Elt (v : Value) (index : Z) : outcome Value :=
  match v with
  | VArray a =>
      match a with
      | Some data => ArrayValue_index data index
      | None => Undefined
      end
  | _ => Defined kNullValue
  end.

Definition NumElts (v : Value) : Z :=
  match v with
  | VArray a =>
      match a with
      | Some data => Z.of_nat (List.length data)
      | None => 0
      end
  | _ => 0
  end.

(** ** vector_map.hpp

    A [vector_map] is a vector of key/value pairs kept sorted by key.
    [MemberMapEqual] orders keys with [strcmp(a, b) < 0]. *)

Definition KeyLess (a b : string) : bool := String.ltb a b.

Section vector_map.
Context {V : Type}.

(** [lower_bound(begin, end, key, less)]: the position of the first
    element that is not less than [key]; on a sorted vector this is what
    the binary search of [std::lower_bound] returns.  Positions count
    from [begin]; the length of the vector is [end]. *)
Fixpoint lower_bound (m : list (string * V)) (key : string) : nat :=
  match m with
  | [] => O
  | kv :: m' => if KeyLess (fst kv) key then S (lower_bound m' key) else O
  end.

(** [find]: an iterator to the element with this key, or [end()] ([None]). *)
Definition find (m : list (string * V)) (key : string) : option nat :=
  let it := lower_bound m key in
  match nth_error m it with
  | Some kv => if negb (KeyLess key (fst kv)) then Some it else None
  | None => None
  end.

(** [super::insert(it, key_and_value)] and [super::erase(it)]. *)
Definition vector_insert (m : list (string * V)) (it : nat) (kv : string * V) : list (string * V) :=
  firstn it m ++ kv :: skipn it m.

Definition vector_erase (m : list (string * V)) (it : nat) : list (string * V) :=
  firstn it m ++ skipn (S it) m.

(** [insert]: nothing is inserted when the key is already present. *)
Definition insert (m : list (string * V)) (kv : string * V) : list (string * V) * nat * bool :=
  let it := lower_bound m (fst kv) in
  match nth_error m it with
  | Some kv' =>
      if negb (KeyLess (fst kv) (fst kv')) then (m, it, false)
      else (vector_insert m it kv, it, true)
  | None => (vector_insert m it kv, it, true)
  end.

(** Writing through a reference to the value of element [it]. *)
Fixpoint assign_at (m : list (string * V)) (it : nat) (v : V) : list (string * V) :=
  match m, it with
  | [], _ => []
  | kv :: m', O => (fst kv, v) :: m'
  | kv :: m', S it' => kv :: assign_at m' it' v
  end.
End vector_map.

(** ** Value.cpp: ObjectValue *)

(** [mModCount++] on a [uint32_t]. *)
Definition inc_mod (c : Z) : Z := to_uint32 (c + 1).

Definition IncModCount (o : ObjectValue) : ObjectValue :=
  mkObjectValue (mMap o) (inc_mod (mModCount o)).

(** The Value an iterator of the member map refers to, and the map after
    the Value behind that reference has become [v]. *)
Definition deref (o : ObjectValue) (it : nat) : Value :=
  match nth_error (mMap o) it with
  | Some kv => snd kv
  | None => kNullValue
  end.

Definition store (o : ObjectValue) (it : nat) (v : Value) : ObjectValue :=
  mkObjectValue (assign_at (mMap o) it v) (mModCount o).

(** [Value::operator=(const Value&)]: a copy of [other] is swapped in.
    [Value::Swap] on two objects swaps the member maps of the two payloads
    and increments both counters, so that the target keeps its own payload
    and counter; in every other case the union members are exchanged. *)
Definition Value_assign (this other : Value) : Value :=
  match this, other with
  | VObject to, VObject oo => VObject (mkObjectValue (mMap oo) (inc_mod (mModCount to)))
  | _, _ => other
  end.

Definition Member (o : ObjectValue) (key : string) : Value :=
  match find (mMap o) key with
  | Some it => deref o it
  | None => kNullValue
  end.

Definition HasMember (o : ObjectValue) (key : string) : bool :=
  match find (mMap o) key with
  | Some _ => true
  | None => false
  end.

Definition NumMembers (o : ObjectValue) : nat := List.length (mMap o).

(** [UpdateMember]: the counter goes up first; then the member is looked
    up, and a null Value is inserted under the key when there is none.  The
    result is the object and the position of the member referred to. *)
Definition UpdateMember (o : ObjectValue) (key : string) : ObjectValue * nat :=
  let o1 := IncModCount o in
  match find (mMap o1) key with
  | Some it => (o1, it)
  | None =>
      let '(m, it, _) := insert (mMap o1) (key, VNull) in
      (mkObjectValue m (mModCount o1), it)
  end.

(** [SetMember]: [UpdateMember(key) = v; mModCount++]. *)
Definition SetMember (o : ObjectValue) (key : string) (v : Value) : ObjectValue :=
  let '(o1, it) := UpdateMember o key in
  IncModCount (store o1 it (Value_assign (deref o1 it) v)).

(** [Value::Swap]: [this] and [other] after the call.  Two objects keep
    their payloads: [ObjectValue::Swap] exchanges the member maps and
    increments both counters.  In every other case the union members and
    the types are exchanged. *)
Definition Value_Swap (this other : Value) : Value * Value :=
  match this, other with
  | VObject to, VObject oo =>
      (VObject (mkObjectValue (mMap oo) (inc_mod (mModCount to))),
       VObject (mkObjectValue (mMap to) (inc_mod (mModCount oo))))
  | _, _ => (other, this)
  end.

(** [mMap.erase(it)] on the member map, which is [std::vector::erase]: every
    element behind [it] is move-assigned to the place before it, the first
    of them onto the element erased, and the last place is destroyed.  The
    move assignment of a Value is [Value::operator=(Value&&)], a
    [Value::Swap] with the Value moved from.  [move_down hole later]: the
    places from the one that holds [hole] on, when the elements [later]
    have been moved down. *)
Fixpoint move_down (hole : Value) (later : list (string * Value)) : list (string * Value) :=
  match later with
  | [] => []
  | kv :: later' =>
      let (this, other) := Value_Swap hole (snd kv) in
      (fst kv, this) :: move_down other later'
  end.

Definition MemberMap_erase (m : list (string * Value)) (it : nat) : list (string * Value) :=
  firstn it m ++
  match skipn it m with
  | [] => []
  | kv :: later => move_down (snd kv) later
  end.

Definition RemoveMember (o : ObjectValue) (key : string) : ObjectValue * bool :=
  match find (mMap o) key with
  | None => (o, false)
  | Some it => (IncModCount (mkObjectValue (MemberMap_erase (mMap o) it) (mModCount o)), true)
  end.

Definition RemoveMembers (o : ObjectValue) : ObjectValue :=
  match mMap o with
  | [] => o
  | _ :: _ => mkObjectValue [] (inc_mod (mModCount o))
  end.

(** One round of the loop of [ObjectValue::Merge], for the member [nv] of
    the overrides: [RemoveMember(nv.name)] for a null value, otherwise
    [UpdateMember(nv.name).Merge(nv.value)], where [merge] is
    [Value::Merge]. *)
Definition Merge_member (merge : Value -> Value -> Value)
    (this : ObjectValue) (nv : string * Value) : ObjectValue :=
  if IsNull (snd nv) then fst (RemoveMember this (fst nv))
  else
    let '(o1, it) := UpdateMember this (fst nv) in
    store o1 it (merge (deref o1 it) (snd nv)).

(** [Value::Merge], with the loop of [ObjectValue::Merge] over the members
    of the overrides. *)
Fixpoint Value_Merge (this overrides : Value) {struct overrides} : Value :=
  match overrides with
  | VNull => this
  | VObject oo =>
      match this with
      | VObject to => VObject (fold_left (Merge_member Value_Merge) (mMap oo) to)
      | _ => Value_assign this overrides
      end
  | _ => Value_assign this overrides
  end.

Definition ObjectValue_Merge (this overrides : ObjectValue) : ObjectValue :=
  fold_left (Merge_member Value_Merge) (mMap overrides) this.

(** ** <stdlib.h>: strtol

    [strtol(nptr, &last, 0)] on a 64-bit [long]: the result and the number
    of characters before [last].  White space is skipped, a sign is read, the
    base is taken from the prefix ("0x" or "0X" before a hexadecimal digit:
    16; a leading "0": 8; otherwise 10), and the longest run of digits of that
    base is converted, saturating at [LONG_MIN] and [LONG_MAX].  When no digit
    is found nothing is consumed. *)

Definition LONG_MIN : Z := INT64_MIN.
Definition LONG_MAX : Z := INT64_MAX.

Definition isspace (c : ascii) : bool :=
  let n := N_of_ascii c in
  (N.eqb n 32 || (N.leb 9 n && N.leb n 13))%bool.

Definition digit_value (c : ascii) : option Z :=
  let n := Z.of_N (N_of_ascii c) in
  if (48 <=? n) && (n <=? 57) then Some (n - 48)
  else if (97 <=? n) && (n <=? 122) then Some (n - 97 + 10)
  else if (65 <=? n) && (n <=? 90) then Some (n - 65 + 10)
  else None.

Definition is_digit_of (base : Z) (c : ascii) : bool :=
  match digit_value c with
  | Some d => d <? base
  | None => false
  end.

Fixpoint skip_spaces (s : string) : nat * string :=
  match s with
  | String c s' => if isspace c then let (n, r) := skip_spaces s' in (S n, r) else (O, s)
  | EmptyString => (O, s)
  end.

(** The digits of [s] in [base]: the value read so far and the number of
    digits consumed. *)
Fixpoint strtol_digits (base : Z) (s : string) (acc : Z) (n : nat) : Z * nat :=
  match s with
  | String c s' =>
      match digit_value c with
      | Some d => if d <? base then strtol_digits base s' (acc * base + d) (S n) else (acc, n)
      | None => (acc, n)
      end
  | EmptyString => (acc, n)
  end.

Definition clamp_long (z : Z) : Z :=
  if z <? LONG_MIN then LONG_MIN else if LONG_MAX <? z then LONG_MAX else z.

Definition strtol (nptr : string) : Z * nat :=
  let (nspace, s1) := skip_spaces nptr in
  let '(negative, nsign, s2) :=
    match s1 with
    | String "-"%char r => (true, 1%nat, r)
    | String "+"%char r => (false, 1%nat, r)
    | _ => (false, O, s1)
    end in
  let '(base, nprefix, s3) :=
    match s2 with
    | String "0"%char (String x (String h r)) =>
        if (Ascii.eqb x "x" || Ascii.eqb x "X") && is_digit_of 16 h
        then (16, 2%nat, String h r) else (8, O, s2)
    | String "0"%char _ => (8, O, s2)
    | _ => (10, O, s2)
    end in
  let (magnitude, ndigits) := strtol_digits base s3 0 O in
  match ndigits with
  | O => (0, O)
  | S _ =>
      (clamp_long (if negative then - magnitude else magnitude),
       (nspace + nsign + nprefix + ndigits)%nat)
  end.

(** ** external/yaml.h: the event stream the binder reads *)

Inductive yaml_scalar_style_t : Type :=
| YAML_ANY_SCALAR_STYLE
| YAML_PLAIN_SCALAR_STYLE
| YAML_SINGLE_QUOTED_SCALAR_STYLE
| YAML_DOUBLE_QUOTED_SCALAR_STYLE
| YAML_LITERAL_SCALAR_STYLE
| YAML_FOLDED_SCALAR_STYLE.

Definition is_plain (style : yaml_scalar_style_t) : bool :=
  match style with
  | YAML_PLAIN_SCALAR_STYLE => true
  | _ => false
  end.

(** Events with the fields the binder reads; a null [anchor] is [None]. *)
Inductive yaml_event_t : Type :=
| YAML_NO_EVENT
| YAML_STREAM_START_EVENT
| YAML_STREAM_END_EVENT
| YAML_DOCUMENT_START_EVENT
| YAML_DOCUMENT_END_EVENT
| YAML_ALIAS_EVENT (anchor : string)
| YAML_SCALAR_EVENT (anchor : option string) (value : string) (style : yaml_scalar_style_t)
| YAML_SEQUENCE_START_EVENT (anchor : option string)
| YAML_SEQUENCE_END_EVENT
| YAML_MAPPING_START_EVENT (anchor : option string)
| YAML_MAPPING_END_EVENT.

(** What the next calls of [yaml_parser_parse] will do: produce an event,
    or fail.  Once the list is used up the parser is in its end state, where
    every call succeeds with [YAML_NO_EVENT]. *)
Inductive yaml_step : Type :=
| Produce (event : yaml_event_t)
| Fail.

Definition yaml_events : Type := list yaml_step.

(** ** ValueYaml.cpp: YamlReader *)

Inductive YamlResult : Type := kYamlOk | kYamlEnd | kYamlError.

Record YamlReader : Type := mkYamlReader {
  mParser : yaml_events;
  mAnchors : list (string * Value);
  problem : option string
}.

(** How a call of the reader ends: it returns, or it dereferences a null
    pointer, or it spins on [YAML_NO_EVENT] for ever.  [OutOfFuel] and
    [Aliased] belong to the model only.  [Aliased]: the call writes into the
    payload of an object that was there before, while an anchor is bound to
    an object.  The anchor of a mapping holds the payload of the mapping
    itself (the assignment from the object pointer adds a reference), so such a write
    can show in what the aliases of the anchor give afterwards; which
    Values share a payload is not part of the Values of this model, and it
    gives no result there. *)
Inductive run (A : Type) : Type :=
| Returns (a : A) (rd : YamlReader)
| Crashes
| Hangs
| OutOfFuel
| Aliased.

Arguments Returns {A} a rd.
Arguments Crashes {A}.
Arguments Hangs {A}.
Arguments OutOfFuel {A}.
Arguments Aliased {A}.

Definition set_problem (rd : YamlReader) (msg : string) : YamlReader :=
  mkYamlReader (mParser rd) (mAnchors rd) (Some msg).

Definition with_parser (rd : YamlReader) (p : yaml_events) : YamlReader :=
  mkYamlReader p (mAnchors rd) (problem rd).

(** [mAnchors[name] = v]: [operator[]] inserts a null Value when the name is
    new, and the Value referred to is then overwritten.  For a sequence and
    for a mapping [v] is the pointer to the payload, which the anchor then
    shares with [*scalar]; what is kept here is the Value as it is at this
    point, and that is what the anchor gives as long as nothing is written
    into the payload (see [Aliased]). *)
Definition set_anchor (rd : YamlReader) (name : string) (v : Value) : YamlReader :=
  let '(m, it, _) := insert (mAnchors rd) (name, VNull) in
  mkYamlReader (mParser rd) (assign_at m it v) (problem rd).

(** Whether an anchor is bound to an object. *)
Definition anchors_share (rd : YamlReader) : bool :=
  existsb (fun a => IsObject (snd a)) (mAnchors rd).

(** Whether [this->Merge(overrides)] reaches a member of [this] that is an
    object: the member is merged into, assigned to or erased (and swapped
    with the members behind it). *)
Definition reaches_object_member (this overrides : ObjectValue) : bool :=
  existsb (fun nv => IsObject (Member this (fst nv))) (mMap overrides).

Definition find_anchor (rd : YamlReader) (name : string) : option Value :=
  match find (mAnchors rd) name with
  | Some it => option_map snd (nth_error (mAnchors rd) it)
  | None => None
  end.

(** The loop that erases every '_' of [numberStr]. *)
Fixpoint erase_underscores (s : string) : string :=
  match s with
  | String c s' => if Ascii.eqb c "_" then erase_underscores s' else String c (erase_underscores s')
  | EmptyString => EmptyString
  end.

(** [numberStr.erase(1, 1)]. *)
Definition erase_1_1 (s : string) : string :=
  match s with
  | String c (String _ s') => String c s'
  | _ => s
  end.

Definition dinfinity (negative : bool) : double := S754_infinity negative.
Definition dnan : double := S754_nan.

(** [c_str()] read as a C string: the text before the first NUL. *)
Fixpoint c_str (s : string) : string :=
  match s with
  | String c s' => if Ascii.eqb c zero then EmptyString else String c (c_str s')
  | EmptyString => EmptyString
  end.

(** [*valueStr == 0]: the first byte of the C string is its terminator. *)
Definition first_is_nul (s : string) : bool :=
  match s with
  | EmptyString => true
  | String c _ => Ascii.eqb c zero
  end.

Section Binder.
(** [strtod(nptr, &last)] of <stdlib.h>: the double read and the number of
    characters before [last]. *)
Variable strtod : string -> double * nat.

(** The [YAML_SCALAR_EVENT] case of [ParseScalar], before the anchor is
    registered: the Value stored in [*scalar].  [valueStr] holds the
    [length] bytes of the event, and every use of it is through
    [operator const char*], so as a C string.  The scanner ends a plain
    scalar at a NUL, so a plain scalar is all of [valueStr]; a quoted
    scalar can hold an escaped NUL, and [Value(valueStr)] then keeps the
    text before it. *)
Definition scalar_value (scalar : Value) (valueStr : string)
    (style : yaml_scalar_style_t) : Value :=
  let as_string :=
    Value_assign scalar
      (VString (Some (if is_plain style then valueStr else c_str valueStr))) in
  if is_plain style then
    if first_is_nul valueStr || EqualI valueStr "null" || Equal valueStr "~" then VNull
    else if EqualI valueStr "true" then Value_assign scalar (VBool true)
    else if EqualI valueStr "false" then Value_assign scalar (VBool false)
    else if Equal valueStr "-.inf" then VDouble (dinfinity true)
    else if Equal valueStr ".inf" then VDouble (dinfinity false)
    else if Equal valueStr ".nan" then VDouble dnan
    else
      let numberStr := erase_underscores valueStr in
      let numberStr := if StartsWith numberStr "0o" then erase_1_1 numberStr else numberStr in
      let (intResult, last) := strtol numberStr in
      if Nat.eqb last (String.length numberStr) then VInt (to_int32 intResult)
      else
        let (doubleResult, last) := strtod numberStr in
        if Nat.eqb last (String.length numberStr) then VDouble doubleResult
        else as_string
  else as_string.

(** What the merges under a "<<" key come to: the object and [success],
    or a call through the null pointer, or a write into an object that an
    anchor may share. *)
Inductive merging : Type :=
| Merged (object : option ObjectValue) (success : bool)
| MergeCrashes
| MergeAliased.

(** [object->Merge(mo)], where [object] is the pointer handed to
    [ParseMapping]; it is null ([None]) when the Value the mapping is
    parsed into could not be turned into an object. *)
Definition Merge_into (shares : bool) (object : option ObjectValue) (mo : ObjectValue)
    (success : bool) : merging :=
  match object with
  | Some o =>
      if shares && reaches_object_member o mo then MergeAliased
      else Merged (Some (ObjectValue_Merge o mo)) success
  | None => MergeCrashes
  end.

(** The merge of the array elements under a "<<" key: every object is
    merged in turn, anything else clears [success]. *)
Fixpoint merge_all (shares : bool) (object : option ObjectValue) (elts : list Value)
    (success : bool) : merging :=
  match elts with
  | [] => Merged object success
  | av :: elts' =>
      match av with
      | VObject ao =>
          match Merge_into shares object ao success with
          | Merged object success => merge_all shares object elts' success
          | MergeCrashes => MergeCrashes
          | MergeAliased => MergeAliased
          end
      | _ => merge_all shares object elts' false
      end
  end.

Fixpoint ParseScalar (fuel : nat) (scalar : Value) (rd : YamlReader) {struct fuel}
    : run (YamlResult * Value) :=
  match fuel with
  | O => OutOfFuel
  | S fuel' =>
      match mParser rd with
      | [] => Hangs
      | Fail :: rest => Returns (kYamlError, scalar) (with_parser rd rest)
      | Produce event :: rest =>
          let rd := with_parser rd rest in
          match event with
          | YAML_NO_EVENT | YAML_STREAM_START_EVENT | YAML_DOCUMENT_START_EVENT =>
              ParseScalar fuel' scalar rd
          | YAML_STREAM_END_EVENT | YAML_DOCUMENT_END_EVENT =>
              Returns (kYamlOk, scalar) rd
          | YAML_SEQUENCE_START_EVENT anchor =>
              match ParseSequence fuel' [] rd with
              | Returns (result, array) rd =>
                  let scalar := VArray (Some array) in
                  match anchor with
                  | Some name => Returns (result, scalar) (set_anchor rd name scalar)
                  | None => Returns (result, scalar) rd
                  end
              | Crashes => Crashes
              | Hangs => Hangs
              | OutOfFuel => OutOfFuel
              | Aliased => Aliased
              end
          | YAML_MAPPING_START_EVENT anchor =>
              if IsObject scalar && anchors_share rd then Aliased else
              let scalar := match scalar with VNull => VObject (mkObjectValue [] 0) | _ => scalar end in
              let object := match scalar with VObject o => Some o | _ => None end in
              match ParseMapping fuel' object rd with
              | Returns (result, object) rd =>
                  let scalar := match object with Some o => VObject o | None => scalar end in
                  match anchor with
                  | Some name =>
                      match scalar with
                      | VObject _ => Returns (result, scalar) (set_anchor rd name scalar)
                      | _ => Crashes
                      end
                  | None => Returns (result, scalar) rd
                  end
              | Crashes => Crashes
              | Hangs => Hangs
              | OutOfFuel => OutOfFuel
              | Aliased => Aliased
              end
          | YAML_SEQUENCE_END_EVENT | YAML_MAPPING_END_EVENT =>
              Returns (kYamlEnd, scalar) rd
          | YAML_ALIAS_EVENT anchor =>
              match find_anchor rd anchor with
              | Some v =>
                  if IsObject scalar && IsObject v then Aliased
                  else Returns (kYamlOk, Value_assign scalar v) rd
              | None =>
                  Returns (kYamlError, scalar)
                    (set_problem rd ("unknown anchor '" ++ anchor ++ "'"))
              end
          | YAML_SCALAR_EVENT anchor valueStr style =>
              let scalar := scalar_value scalar valueStr style in
              match anchor with
              | Some name => Returns (kYamlOk, scalar) (set_anchor rd name (VBool true))
              | None => Returns (kYamlOk, scalar) rd
              end
          end
      end
  end

with ParseSequence (fuel : nat) (array : list Value) (rd : YamlReader) {struct fuel}
    : run (YamlResult * list Value) :=
  match fuel with
  | O => OutOfFuel
  | S fuel' =>
      match ParseScalar fuel' VNull rd with
      | Returns (result, item) rd =>
          match result with
          | kYamlEnd => Returns (kYamlOk, array) rd
          | kYamlError => Returns (kYamlError, array) rd
          | kYamlOk => ParseSequence fuel' (array ++ [item]) rd
          end
      | Crashes => Crashes
      | Hangs => Hangs
      | OutOfFuel => OutOfFuel
      | Aliased => Aliased
      end
  end

with ParseMapping (fuel : nat) (object : option ObjectValue) (rd : YamlReader) {struct fuel}
    : run (YamlResult * option ObjectValue) :=
  match fuel with
  | O => OutOfFuel
  | S fuel' =>
      match mParser rd with
      | Fail :: rest => Returns (kYamlError, object) (with_parser rd rest)
      | Produce YAML_MAPPING_END_EVENT :: rest =>
          Returns (kYamlOk, object) (with_parser rd rest)
      | Produce (YAML_SCALAR_EVENT _ key _) :: rest =>
          let rd := with_parser rd rest in
          if String.eqb key "<<" then
            match ParseScalar fuel' VNull rd with
            | Returns (result, mergeValue) rd =>
                match result with
                | kYamlOk =>
                    let merged :=
                      match mergeValue with
                      | VObject mo => Merge_into (anchors_share rd) object mo true
                      | VArray (Some elts) => merge_all (anchors_share rd) object elts true
                      | VArray None => MergeCrashes
                      | _ => Merged object true
                      end in
                    match merged with
                    | Merged object true => ParseMapping fuel' object rd
                    | Merged object false =>
                        Returns (kYamlError, object) (set_problem rd "can't merge non-mapping")
                    | MergeCrashes => Crashes
                    | MergeAliased => Aliased
                    end
                | _ => Returns (result, object) rd
                end
            | Crashes => Crashes
            | Hangs => Hangs
            | OutOfFuel => OutOfFuel
            | Aliased => Aliased
            end
          else
            match object with
            | None => Crashes
            | Some o =>
                let (o1, it) := UpdateMember o (c_str key) in
                match ParseScalar fuel' (deref o1 it) rd with
                | Returns (result, newMember) rd =>
                    let object := Some (store o1 it newMember) in
                    match result with
                    | kYamlOk => ParseMapping fuel' object rd
                    | _ => Returns (result, object) rd
                    end
                | Crashes => Crashes
                | Hangs => Hangs
                | OutOfFuel => OutOfFuel
                | Aliased => Aliased
                end
            end
      | _ :: rest =>
          Returns (kYamlError, object)
            (set_problem (with_parser rd rest) "expecting scalar value for key")
      | [] =>
          Returns (kYamlError, object) (set_problem rd "expecting scalar value for key")
      end
  end.

(** [LoadYamlText]: the reader over the events of the text, [value] made
    null, one call of [ParseScalar]; every parse consumes an event, so one
    unit of fuel per event and one to spare is enough. *)
Definition LoadYaml (events : yaml_events) : run (bool * Value) :=
  match ParseScalar (S (List.length events)) VNull (mkYamlReader events [] None) with
  | Returns (result, value) rd =>
      Returns (match result with kYamlError => false | _ => true end, value) rd
  | Crashes => Crashes
  | Hangs => Hangs
  | OutOfFuel => OutOfFuel
  | Aliased => Aliased
  end.
End Binder.

(** ** The bundled libyaml: parser object, marks, errors, tokens *)

(** Modelled from the spec: the declarations of [external/yaml.h]
    ([yaml_mark_t], [yaml_error_type_t], [yaml_token_type_t] and the fields
    of [yaml_parser_t]) are not among the sources; the mark is the triple
    (index, line, column) of the next unread character, the token types are
    the token alphabet of the scanner. *)
Record yaml_mark_t : Type := mkMark {
  mark_index : Z;
  mark_line : Z;
  mark_column : Z
}.

Inductive yaml_error_type_t : Type :=
| YAML_NO_ERROR
| YAML_MEMORY_ERROR
| YAML_READER_ERROR
| YAML_SCANNER_ERROR
| YAML_PARSER_ERROR.

Inductive yaml_token_type_t : Type :=
| YAML_NO_TOKEN
| YAML_STREAM_START_TOKEN
| YAML_STREAM_END_TOKEN
| YAML_VERSION_DIRECTIVE_TOKEN
| YAML_TAG_DIRECTIVE_TOKEN
| YAML_DOCUMENT_START_TOKEN
| YAML_DOCUMENT_END_TOKEN
| YAML_BLOCK_SEQUENCE_START_TOKEN
| YAML_BLOCK_MAPPING_START_TOKEN
| YAML_BLOCK_END_TOKEN
| YAML_FLOW_SEQUENCE_START_TOKEN
| YAML_FLOW_SEQUENCE_END_TOKEN
| YAML_FLOW_MAPPING_START_TOKEN
| YAML_FLOW_MAPPING_END_TOKEN
| YAML_BLOCK_ENTRY_TOKEN
| YAML_FLOW_ENTRY_TOKEN
| YAML_KEY_TOKEN
| YAML_VALUE_TOKEN
| YAML_ALIAS_TOKEN
| YAML_ANCHOR_TOKEN
| YAML_TAG_TOKEN
| YAML_SCALAR_TOKEN.

(** The member of the union [data] that the token type selects. *)
Inductive yaml_token_data : Type :=
| data_none
| data_version_directive (major minor : Z)
| data_tag_directive (handle prefix : string)
| data_scalar (value : list Z) (style : yaml_scalar_style_t).

Record yaml_token_t : Type := mkToken {
  token_type : yaml_token_type_t;
  token_data : yaml_token_data;
  start_mark : yaml_mark_t;
  end_mark : yaml_mark_t
}.

Record yaml_tag_directive_t : Type := mkTagDirective {
  tag_handle : string;
  tag_prefix : string
}.

(** The fields of the parser object that block scalar scanning and directive
    processing use.  [buffer] is the decoded input from [buffer.pointer] on:
    the reader has already checked and decoded it, so it is a sequence of
    characters (code points), followed by NUL once the input has ended.
    [tokens] are the tokens that [PEEK_TOKEN] will find, the head first. *)
Record yaml_parser_t : Type := mkParser {
  error : yaml_error_type_t;
  parser_problem : option string;
  problem_mark : yaml_mark_t;
  context : option string;
  context_mark : yaml_mark_t;
  buffer : list Z;
  mark : yaml_mark_t;
  indent : Z;
  tokens : list yaml_token_t;
  tag_directives : list yaml_tag_directive_t
}.

Definition yaml_parser_set_scanner_error (parser : yaml_parser_t)
    (ctx : string) (ctx_mark : yaml_mark_t) (problem : string) : yaml_parser_t :=
  mkParser YAML_SCANNER_ERROR (Some problem) (mark parser) (Some ctx) ctx_mark
    (buffer parser) (mark parser) (indent parser) (tokens parser) (tag_directives parser).

Definition yaml_parser_set_parser_error (parser : yaml_parser_t)
    (problem : string) (pmark : yaml_mark_t) : yaml_parser_t :=
  mkParser YAML_PARSER_ERROR (Some problem) pmark (context parser) (context_mark parser)
    (buffer parser) (mark parser) (indent parser) (tokens parser) (tag_directives parser).

(** The parser with its input position moved. *)
Definition at_input (parser : yaml_parser_t) (buf : list Z) (m : yaml_mark_t) : yaml_parser_t :=
  mkParser (error parser) (parser_problem parser) (problem_mark parser)
    (context parser) (context_mark parser) buf m (indent parser)
    (tokens parser) (tag_directives parser).

(** *** The character macros

    [CACHE(parser, n)] only makes sure that [n] characters are decoded; with
    the whole input decoded it always succeeds. *)

(** The character [offset] places ahead; NUL past the end of the input. *)
Definition char_at (buf : list Z) (offset : nat) : Z := nth offset buf 0.

Definition CHECK_AT (buf : list Z) (c : Z) (offset : nat) : bool := char_at buf offset =? c.
Definition CHECK (buf : list Z) (c : Z) : bool := CHECK_AT buf c 0.

Definition ch_NUL : Z := 0.
Definition ch_TAB : Z := 9.
Definition ch_LF : Z := 10.
Definition ch_CR : Z := 13.
Definition ch_SPACE : Z := 32.
Definition ch_HASH : Z := 35.
Definition ch_PLUS : Z := 43.
Definition ch_MINUS : Z := 45.
Definition ch_0 : Z := 48.
Definition ch_9 : Z := 57.
Definition ch_NEL : Z := 133.
Definition ch_LS : Z := 8232.
Definition ch_PS : Z := 8233.

Definition is_digit_char (c : Z) : bool := (ch_0 <=? c) && (c <=? ch_9).
Definition is_break_char (c : Z) : bool :=
  (c =? ch_CR) || (c =? ch_LF) || (c =? ch_NEL) || (c =? ch_LS) || (c =? ch_PS).

Definition IS_DIGIT (buf : list Z) : bool := is_digit_char (char_at buf 0).
Definition AS_DIGIT (buf : list Z) : Z := char_at buf 0 - ch_0.
Definition IS_Z (buf : list Z) : bool := CHECK buf ch_NUL.
Definition IS_SPACE (buf : list Z) : bool := CHECK buf ch_SPACE.
Definition IS_TAB (buf : list Z) : bool := CHECK buf ch_TAB.
Definition IS_BLANK (buf : list Z) : bool := IS_SPACE buf || IS_TAB buf.
Definition IS_BREAK (buf : list Z) : bool := is_break_char (char_at buf 0).
Definition IS_CRLF (buf : list Z) : bool := CHECK_AT buf ch_CR 0 && CHECK_AT buf ch_LF 1.
Definition IS_BREAKZ (buf : list Z) : bool := IS_BREAK buf || IS_Z buf.

Definition advance (m : yaml_mark_t) : yaml_mark_t :=
  mkMark (mark_index m + 1) (mark_line m) (mark_column m + 1).

Definition next_line (m : yaml_mark_t) (n : Z) : yaml_mark_t :=
  mkMark (mark_index m + n) (mark_line m + 1) 0.

(** [SKIP], [SKIP_LINE], [READ] and [READ_LINE] on the input position. *)
Definition SKIP (parser : yaml_parser_t) : yaml_parser_t :=
  at_input parser (tl (buffer parser)) (advance (mark parser)).

Definition SKIP_LINE (parser : yaml_parser_t) : yaml_parser_t :=
  let buf := buffer parser in
  if IS_CRLF buf then at_input parser (skipn 2 buf) (next_line (mark parser) 2)
  else if IS_BREAK buf then at_input parser (skipn 1 buf) (next_line (mark parser) 1)
  else parser.

Definition READ (parser : yaml_parser_t) (str : list Z) : yaml_parser_t * list Z :=
  (at_input parser (tl (buffer parser)) (advance (mark parser)),
   str ++ [char_at (buffer parser) 0]).

Definition READ_LINE (parser : yaml_parser_t) (str : list Z) : yaml_parser_t * list Z :=
  let buf := buffer parser in
  if CHECK_AT buf ch_CR 0 && CHECK_AT buf ch_LF 1 then
    (at_input parser (skipn 2 buf) (next_line (mark parser) 2), str ++ [ch_LF])
  else if CHECK_AT buf ch_CR 0 || CHECK_AT buf ch_LF 0 then
    (at_input parser (skipn 1 buf) (next_line (mark parser) 1), str ++ [ch_LF])
  else if CHECK_AT buf ch_NEL 0 then
    (at_input parser (skipn 1 buf) (next_line (mark parser) 1), str ++ [ch_LF])
  else if CHECK_AT buf ch_LS 0 || CHECK_AT buf ch_PS 0 then
    (at_input parser (skipn 1 buf) (next_line (mark parser) 1), str ++ [char_at buf 0])
  else (parser, str).

(** [(int) parser->mark.column]. *)
Definition int_column (parser : yaml_parser_t) : Z := to_int32 (mark_column (mark parser)).

(** *** Scanning a block scalar *)

Inductive scan (A : Type) : Type :=
| ScanOk (a : A) (parser : yaml_parser_t)
| ScanError (parser : yaml_parser_t)
| ScanOutOfFuel.

Arguments ScanOk {A} a parser.
Arguments ScanError {A} parser.
Arguments ScanOutOfFuel {A}.

Definition block_scalar_context : string := "while scanning a block scalar".

(** The loop that eats the indentation spaces. *)
Fixpoint eat_indentation (n : nat) (indent_ : Z) (parser : yaml_parser_t) : yaml_parser_t :=
  match n with
  | O => parser
  | S n' =>
      if ((indent_ =? 0) || (int_column parser <? indent_)) && IS_SPACE (buffer parser)
      then eat_indentation n' indent_ (SKIP parser)
      else parser
  end.

(** The loop of [yaml_parser_scan_block_scalar_breaks]: the breaks read so
    far, the end mark and [max_indent] are carried along. *)
Fixpoint block_scalar_breaks_loop (fuel : nat) (parser : yaml_parser_t) (indent_ : Z)
    (breaks : list Z) (start : yaml_mark_t) (end_ : yaml_mark_t) (max_indent : Z)
    : scan (list Z * yaml_mark_t * Z) :=
  match fuel with
  | O => ScanOutOfFuel
  | S fuel' =>
      let parser := eat_indentation (List.length (buffer parser)) indent_ parser in
      let max_indent := if max_indent <? int_column parser then int_column parser else max_indent in
      if ((indent_ =? 0) || (int_column parser <? indent_)) && IS_TAB (buffer parser) then
        ScanError (yaml_parser_set_scanner_error parser block_scalar_context start
                     "found a tab character where an indentation space is expected")
      else if negb (IS_BREAK (buffer parser)) then ScanOk (breaks, end_, max_indent) parser
      else
        let (parser, breaks) := READ_LINE parser breaks in
        block_scalar_breaks_loop fuel' parser indent_ breaks start (mark parser) max_indent
  end.

(** [yaml_parser_scan_block_scalar_breaks]: the new values of [*indent],
    [*breaks] and [*end_mark]. *)
Definition yaml_parser_scan_block_scalar_breaks (fuel : nat) (parser : yaml_parser_t)
    (indent_ : Z) (breaks : list Z) (start : yaml_mark_t)
    : scan (Z * list Z * yaml_mark_t) :=
  match block_scalar_breaks_loop fuel parser indent_ breaks start (mark parser) 0 with
  | ScanOk (breaks, end_, max_indent) parser' =>
      let indent_ :=
        if indent_ =? 0 then
          let i := max_indent in
          let i := if i <? indent parser' + 1 then indent parser' + 1 else i in
          if i <? 1 then 1 else i
        else indent_ in
      ScanOk (indent_, breaks, end_) parser'
  | ScanError p => ScanError p
  | ScanOutOfFuel => ScanOutOfFuel
  end.

(** The header: the chomping indicator and the indentation indicator, in
    either order.  The result is [chomping] (+1 keep, -1 strip, 0 clip) and
    [increment]. *)
Definition block_scalar_header (parser : yaml_parser_t) (start : yaml_mark_t)
    : scan (Z * Z) :=
  let zero_error p :=
    ScanError (yaml_parser_set_scanner_error p block_scalar_context start
                 "found an indentation indicator equal to 0") in
  if CHECK (buffer parser) ch_PLUS || CHECK (buffer parser) ch_MINUS then
    let chomping := if CHECK (buffer parser) ch_PLUS then 1 else -1 in
    let parser := SKIP parser in
    if IS_DIGIT (buffer parser) then
      if CHECK (buffer parser) ch_0 then zero_error parser
      else
        let increment := AS_DIGIT (buffer parser) in
        ScanOk (chomping, increment) (SKIP parser)
    else ScanOk (chomping, 0) parser
  else if IS_DIGIT (buffer parser) then
    if CHECK (buffer parser) ch_0 then zero_error parser
    else
      let increment := AS_DIGIT (buffer parser) in
      let parser := SKIP parser in
      if CHECK (buffer parser) ch_PLUS || CHECK (buffer parser) ch_MINUS then
        let chomping := if CHECK (buffer parser) ch_PLUS then 1 else -1 in
        ScanOk (chomping, increment) (SKIP parser)
      else ScanOk (0, increment) parser
  else ScanOk (0, 0) parser.

(** The two loops that eat the blanks and a comment up to the end of the
    header line. *)
Fixpoint eat_blanks (n : nat) (parser : yaml_parser_t) : yaml_parser_t :=
  match n with
  | O => parser
  | S n' => if IS_BLANK (buffer parser) then eat_blanks n' (SKIP parser) else parser
  end.

Fixpoint eat_to_breakz (n : nat) (parser : yaml_parser_t) : yaml_parser_t :=
  match n with
  | O => parser
  | S n' => if negb (IS_BREAKZ (buffer parser)) then eat_to_breakz n' (SKIP parser) else parser
  end.

(** The loop that consumes the current line into [string]. *)
Fixpoint read_to_breakz (n : nat) (parser : yaml_parser_t) (str : list Z)
    : yaml_parser_t * list Z :=
  match n with
  | O => (parser, str)
  | S n' =>
      if negb (IS_BREAKZ (buffer parser)) then
        let (parser, str) := READ parser str in read_to_breakz n' parser str
      else (parser, str)
  end.

(** The locals of [yaml_parser_scan_block_scalar] that the content loop
    updates. *)
Record block_scalar_state : Type := mkBlockScalar {
  bs_string : list Z;
  bs_leading_break : list Z;
  bs_trailing_breaks : list Z;
  bs_indent : Z;
  bs_leading_blank : bool;
  bs_end_mark : yaml_mark_t
}.

(** The content loop: one line for each round. *)
Fixpoint block_scalar_content (fuel : nat) (parser : yaml_parser_t) (literal : bool)
    (start : yaml_mark_t) (st : block_scalar_state) : scan block_scalar_state :=
  match fuel with
  | O => ScanOutOfFuel
  | S fuel' =>
      if (int_column parser =? bs_indent st) && negb (IS_Z (buffer parser)) then
        let trailing_blank := IS_BLANK (buffer parser) in
        let str :=
          if negb literal && (char_at (bs_leading_break st) 0 =? ch_LF)
             && negb (bs_leading_blank st) && negb trailing_blank
          then
            if char_at (bs_trailing_breaks st) 0 =? ch_NUL
            then bs_string st ++ [ch_SPACE] else bs_string st
          else bs_string st ++ bs_leading_break st in
        let str := str ++ bs_trailing_breaks st in
        let leading_blank := IS_BLANK (buffer parser) in
        let (parser, str) := read_to_breakz (List.length (buffer parser)) parser str in
        let (parser, leading_break) := READ_LINE parser [] in
        match yaml_parser_scan_block_scalar_breaks (S (List.length (buffer parser)))
                parser (bs_indent st) [] start with
        | ScanOk (indent_, trailing_breaks, end_) parser =>
            block_scalar_content fuel' parser literal start
              (mkBlockScalar str leading_break trailing_breaks indent_ leading_blank end_)
        | ScanError p => ScanError p
        | ScanOutOfFuel => ScanOutOfFuel
        end
      else ScanOk st parser
  end.

(** [yaml_parser_scan_block_scalar]; the input is at the indicator '|' or
    '>'. *)
Definition yaml_parser_scan_block_scalar (parser : yaml_parser_t) (literal : bool)
    : scan yaml_token_t :=
  let start := mark parser in
  let parser := SKIP parser in
  match block_scalar_header parser start with
  | ScanOk (chomping, increment) parser =>
      let parser := eat_blanks (List.length (buffer parser)) parser in
      let parser :=
        if CHECK (buffer parser) ch_HASH
        then eat_to_breakz (List.length (buffer parser)) parser else parser in
      if negb (IS_BREAKZ (buffer parser)) then
        ScanError (yaml_parser_set_scanner_error parser block_scalar_context start
                     "did not find expected comment or line break")
      else
        let parser := if IS_BREAK (buffer parser) then SKIP_LINE parser else parser in
        let indent_ :=
          if negb (increment =? 0)
          then (if 0 <=? indent parser then indent parser + increment else increment)
          else 0 in
        match yaml_parser_scan_block_scalar_breaks (S (List.length (buffer parser)))
                parser indent_ [] start with
        | ScanOk (indent_, trailing_breaks, end_) parser =>
            match block_scalar_content (S (List.length (buffer parser))) parser literal start
                    (mkBlockScalar [] [] trailing_breaks indent_ false end_) with
            | ScanOk st parser =>
                let str := if negb (chomping =? -1)
                           then bs_string st ++ bs_leading_break st else bs_string st in
                let str := if chomping =? 1 then str ++ bs_trailing_breaks st else str in
                ScanOk (mkToken YAML_SCALAR_TOKEN
                          (data_scalar str (if literal then YAML_LITERAL_SCALAR_STYLE
                                            else YAML_FOLDED_SCALAR_STYLE))
                          start (bs_end_mark st)) parser
            | ScanError p => ScanError p
            | ScanOutOfFuel => ScanOutOfFuel
            end
        | ScanError p => ScanError p
        | ScanOutOfFuel => ScanOutOfFuel
        end
  | ScanError p => ScanError p
  | ScanOutOfFuel => ScanOutOfFuel
  end.

(** *** Processing the directives of a document *)

(** [yaml_parser_append_tag_directive]: [None] is the failure return, with
    the error set in the parser. *)
Fixpoint has_handle (handle : string) (ds : list yaml_tag_directive_t) : bool :=
  match ds with
  | [] => false
  | d :: ds' => if String.eqb handle (tag_handle d) then true else has_handle handle ds'
  end.

Definition with_tag_directives (parser : yaml_parser_t) (ds : list yaml_tag_directive_t)
    : yaml_parser_t :=
  mkParser (error parser) (parser_problem parser) (problem_mark parser)
    (context parser) (context_mark parser) (buffer parser) (mark parser) (indent parser)
    (tokens parser) ds.

Definition with_tokens (parser : yaml_parser_t) (ts : list yaml_token_t) : yaml_parser_t :=
  mkParser (error parser) (parser_problem parser) (problem_mark parser)
    (context parser) (context_mark parser) (buffer parser) (mark parser) (indent parser)
    ts (tag_directives parser).

Definition yaml_parser_append_tag_directive (parser : yaml_parser_t)
    (value : yaml_tag_directive_t) (allow_duplicates : bool) (m : yaml_mark_t)
    : bool * yaml_parser_t :=
  if has_handle (tag_handle value) (tag_directives parser) then
    if allow_duplicates then (true, parser)
    else (false, yaml_parser_set_parser_error parser "found duplicate %TAG directive" m)
  else (true, with_tag_directives parser (tag_directives parser ++ [value])).

Definition default_tag_directives : list yaml_tag_directive_t :=
  [mkTagDirective "!" "!"; mkTagDirective "!!" "tag:yaml.org,2002:"].

(** The loop over the directive tokens.  [PEEK_TOKEN] yields the head of
    [tokens]; with no token left the scanner has failed and the function
    leaves through [error].  The result is the version directive and the
    tag directives collected, together with the token the loop stopped at. *)
Fixpoint process_directives_loop (ts : list yaml_token_t) (parser : yaml_parser_t)
    (version_directive : option (Z * Z)) (collected : list yaml_tag_directive_t)
    : option (option (Z * Z) * list yaml_tag_directive_t * yaml_token_t) * yaml_parser_t :=
  match ts with
  | [] => (None, with_tokens parser [])
  | token :: ts' =>
      match token_type token with
      | YAML_VERSION_DIRECTIVE_TOKEN =>
          match version_directive with
          | Some _ =>
              (None, yaml_parser_set_parser_error (with_tokens parser ts)
                       "found duplicate %YAML directive" (start_mark token))
          | None =>
              let '(major, minor) :=
                match token_data token with
                | data_version_directive major minor => (major, minor)
                | _ => (0, 0)
                end in
              if negb (major =? 1) || negb (minor =? 1) then
                (None, yaml_parser_set_parser_error (with_tokens parser ts)
                         "found incompatible YAML document" (start_mark token))
              else process_directives_loop ts' parser (Some (major, minor)) collected
          end
      | YAML_TAG_DIRECTIVE_TOKEN =>
          let value :=
            match token_data token with
            | data_tag_directive handle prefix => mkTagDirective handle prefix
            | _ => mkTagDirective "" ""
            end in
          match yaml_parser_append_tag_directive (with_tokens parser ts) value false
                  (start_mark token) with
          | (false, parser') => (None, parser')
          | (true, parser') => process_directives_loop ts' parser' version_directive
                                 (collected ++ [value])
          end
      | _ => (Some (version_directive, collected, token), with_tokens parser ts)
      end
  end.

Definition append_default_tag_directives (parser : yaml_parser_t) (m : yaml_mark_t)
    : yaml_parser_t :=
  fold_left (fun p d => snd (yaml_parser_append_tag_directive p d true m))
    default_tag_directives parser.

(** [yaml_parser_process_directives], called with all three result
    pointers: [Some] of the version directive and the tag directives of the
    document on success, [None] when it returns 0. *)
Definition yaml_parser_process_directives (parser : yaml_parser_t)
    : option (option (Z * Z) * list yaml_tag_directive_t) * yaml_parser_t :=
  match process_directives_loop (tokens parser) parser None [] with
  | (Some (version_directive, collected, token), parser') =>
      (Some (version_directive, collected),
       append_default_tag_directives parser' (start_mark token))
  | (None, parser') => (None, parser')
  end.

(** ** Value.cpp with the payloads behind pointers

    The Values above carry their payloads inline, which is all that merging
    and the coercions need.  What a copy shares and what it duplicates is
    only visible with the pointers of the union: here [mArray] and
    [mObject] are locations of a store of payloads.  [new] appends a payload
    to the store; reference counts are left out, so nothing is released. *)

Module Shared.

Definition loc : Type := nat.

Inductive Value : Type :=
| VNull
| VBool (mBool : bool)
| VInt (mInt32 : Z)
| VUInt (mUInt32 : Z)
| VInt64 (mInt64 : Z)
| VUInt64 (mUInt64 : Z)
| VDouble (mDouble : double)
| VString (mString : option string)
| VArray (mArray : option loc)
| VObject (mObject : loc).

Definition ObjectValue : Type := ObjectValue_ Value.

Record store : Type := mkStore {
  objects : list ObjectValue;
  arrays : list (list Value)
}.

Definition object_at (h : store) (l : loc) : option ObjectValue := nth_error (objects h) l.

Fixpoint list_set {A : Type} (xs : list A) (i : nat) (x : A) : list A :=
  match xs, i with
  | [], _ => []
  | _ :: xs', O => x :: xs'
  | y :: xs', S i' => y :: list_set xs' i' x
  end.

Definition set_object (h : store) (l : loc) (o : ObjectValue) : store :=
  mkStore (list_set (objects h) l o) (arrays h).

(** [new ObjectValue(o)]: the payload is put at a location not in use. *)
Definition new_object (h : store) (o : ObjectValue) : loc * store :=
  (List.length (objects h), mkStore (objects h ++ [o]) (arrays h)).

(** The copy of the member vector: every key/value pair is copy
    constructed, the Values with [copy]. *)
Fixpoint copy_members (copy : Value -> store -> option (Value * store))
    (ms : list (string * Value)) (h : store) : option (list (string * Value) * store) :=
  match ms with
  | [] => Some ([], h)
  | kv :: ms' =>
      match copy (snd kv) h with
      | Some (v', h1) =>
          match copy_members copy ms' h1 with
          | Some (ms'', h2) => Some ((fst kv, v') :: ms'', h2)
          | None => None
          end
      | None => None
      end
  end.

(** [Value::Value(const Value& other)].  Scalars are copied, the string
    and array pointers are shared, and for an object a new payload is made
    with the copy constructor of [ObjectValue], which copies the member
    vector and the counter.  [None]: the fuel did not reach the leaves, or
    a pointer is dangling. *)
Fixpoint Value_copy (fuel : nat) (other : Value) (h : store) : option (Value * store) :=
  match fuel with
  | O => None
  | S fuel' =>
      match other with
      | VObject l =>
          match object_at h l with
          | Some o =>
              match copy_members (Value_copy fuel') (mMap o) h with
              | Some (ms, h1) =>
                  let (l', h2) := new_object h1 (mkObjectValue ms (mModCount o)) in
                  Some (VObject l', h2)
              | None => None
              end
          | None => None
          end
      | _ => Some (other, h)
      end
  end.

Definition IncModCount (h : store) (l : loc) : option store :=
  match object_at h l with
  | Some o => Some (set_object h l (mkObjectValue (mMap o) (inc_mod (mModCount o))))
  | None => None
  end.

(** [ObjectValue::Swap]: the member maps change places and both counters
    go up. *)
Definition ObjectValue_Swap (h : store) (l1 l2 : loc) : option store :=
  match object_at h l1, object_at h l2 with
  | Some o1, Some o2 =>
      let h1 := set_object h l1 (mkObjectValue (mMap o2) (mModCount o1)) in
      let h2 := set_object h1 l2 (mkObjectValue (mMap o1) (mModCount o2)) in
      match IncModCount h2 l1 with
      | Some h3 => IncModCount h3 l2
      | None => None
      end
  | _, _ => None
  end.

(** [Value::Swap]: [this] and [other] after the call.  Two objects keep
    their payloads, which are swapped with [ObjectValue::Swap]; in every
    other case the union members and the types are exchanged. *)
Definition Value_Swap (h : store) (this other : Value) : option (Value * Value * store) :=
  match this, other with
  | VObject l1, VObject l2 =>
      match ObjectValue_Swap h l1 l2 with
      | Some h1 => Some (this, other, h1)
      | None => None
      end
  | _, _ => Some (other, this, h)
  end.

(** [Value::operator=(const Value& other)]: [Value temp(other);
    Swap(temp)].  The result is the Value assigned to. *)
Definition Value_assign (fuel : nat) (this other : Value) (h : store)
    : option (Value * store) :=
  match Value_copy fuel other h with
  | Some (temp, h1) =>
      match Value_Swap h1 this temp with
      | Some (this, _, h2) => Some (this, h2)
      | None => None
      end
  | None => None
  end.

(** [ObjectValue::UpdateMember] on the payload at [l]: the position of the
    member referred to. *)
Definition UpdateMember (h : store) (l : loc) (key : string) : option (nat * store) :=
  match IncModCount h l with
  | Some h1 =>
      match object_at h1 l with
      | Some o =>
          match find (mMap o) key with
          | Some it => Some (it, h1)
          | None =>
              let '(m, it, _) := insert (mMap o) (key, VNull) in
              Some (it, set_object h1 l (mkObjectValue m (mModCount o)))
          end
      | None => None
      end
  | None => None
  end.

Definition deref (h : store) (l : loc) (it : nat) : Value :=
  match object_at h l with
  | Some o =>
      match nth_error (mMap o) it with
      | Some kv => snd kv
      | None => VNull
      end
  | None => VNull
  end.

Definition write (h : store) (l : loc) (it : nat) (v : Value) : option store :=
  match object_at h l with
  | Some o => Some (set_object h l (mkObjectValue (assign_at (mMap o) it v) (mModCount o)))
  | None => None
  end.

(** [UpdateMember(key) = v]. *)
Definition assign_member (fuel : nat) (h : store) (l : loc) (key : string) (v : Value)
    : option store :=
  match UpdateMember h l key with
  | Some (it, h1) =>
      match Value_assign fuel (deref h1 l it) v h1 with
      | Some (member, h2) => write h2 l it member
      | None => None
      end
  | None => None
  end.

(** [ObjectValue::SetMember]: [UpdateMember(key) = v; mModCount++]. *)
Definition SetMember (fuel : nat) (h : store) (l : loc) (key : string) (v : Value)
    : option store :=
  match assign_member fuel h l key v with
  | Some h1 => IncModCount h1 l
  | None => None
  end.

(** [mMap.erase(it)], which is [std::vector::erase]: every element behind
    [it] is move-assigned to the place before it, and the last place is
    destroyed.  The move assignment of a Value is a [Value::Swap] with the
    Value moved from.  [move_down h hole later]: the places from the one
    that holds [hole] on, when the elements [later] have been moved down. *)
Fixpoint move_down (h : store) (hole : Value) (later : list (string * Value))
    : option (list (string * Value) * store) :=
  match later with
  | [] => Some ([], h)
  | kv :: later' =>
      match Value_Swap h hole (snd kv) with
      | Some (this, other, h1) =>
          match move_down h1 other later' with
          | Some (ms, h2) => Some ((fst kv, this) :: ms, h2)
          | None => None
          end
      | None => None
      end
  end.

Definition MemberMap_erase (h : store) (m : list (string * Value)) (it : nat)
    : option (list (string * Value) * store) :=
  match skipn it m with
  | [] => Some (firstn it m, h)
  | kv :: later =>
      match move_down h (snd kv) later with
      | Some (ms, h1) => Some (firstn it m ++ ms, h1)
      | None => None
      end
  end.

(** [ObjectValue::RemoveMember].  The swaps of the erasure write into the
    payloads of the members, the member vector itself is the one of the
    payload at [l]. *)
Definition RemoveMember (h : store) (l : loc) (key : string) : option (bool * store) :=
  match object_at h l with
  | Some o =>
      match find (mMap o) key with
      | None => Some (false, h)
      | Some it =>
          match MemberMap_erase h (mMap o) it with
          | Some (m, h1) =>
              match IncModCount (set_object h1 l (mkObjectValue m (mModCount o))) l with
              | Some h2 => Some (true, h2)
              | None => None
              end
          | None => None
          end
      end
  | None => None
  end.

(** The mutations of an object Value [v]: [v.SetMember(key, x)],
    [v(key) = x], [v.RemoveMember(key)]. *)
Inductive mutation : Type :=
| MSet (key : string) (x : Value)
| MUpdate (key : string) (x : Value)
| MRemove (key : string).

Definition mutate (fuel : nat) (h : store) (l : loc) (op : mutation) : option store :=
  match op with
  | MSet key x => SetMember fuel h l key x
  | MUpdate key x => assign_member fuel h l key x
  | MRemove key => option_map snd (RemoveMember h l key)
  end.

Fixpoint mutate_all (fuel : nat) (h : store) (l : loc) (ops : list mutation) : option store :=
  match ops with
  | [] => Some h
  | op :: ops' =>
      match mutate fuel h l op with
      | Some h1 => mutate_all fuel h1 l ops'
      | None => None
      end
  end.

(** Whether the mutation changes the set of members or a member: a
    removal does when the key is there. *)
Definition structural (h : store) (l : loc) (op : mutation) : bool :=
  match op with
  | MSet _ _ | MUpdate _ _ => true
  | MRemove key =>
      match object_at h l with
      | Some o => match find (mMap o) key with Some _ => true | None => false end
      | None => false
      end
  end.

(** By how much the counter of the object goes up. *)
Definition advance_of (op : mutation) : Z :=
  match op with
  | MSet _ _ => 2
  | MUpdate _ _ | MRemove _ => 1
  end.

Definition modCount_at (h : store) (l : loc) : Z :=
  match object_at h l with
  | Some o => mModCount o
  | None => 0
  end.

End Shared.

(** [closed fuel h v]: every object pointer that [Value_copy fuel] meets
    from [v] on is to a payload of the store, and [fuel] levels reach the
    leaves.  [None] from the functions above means that one of the two
    fails; neither happens in the program, where a pointer keeps its payload
    alive and objects nest to a finite depth. *)
Fixpoint closed (fuel : nat) (h : Shared.store) (v : Shared.Value) : bool :=
  match fuel with
  | O => false
  | S fuel' =>
      match v with
      | Shared.VObject l =>
          match Shared.object_at h l with
          | Some o => forallb (fun kv => closed fuel' h (snd kv)) (mMap o)
          | None => false
          end
      | _ => true
      end
  end.

(** A mutation whose Value is one of the store [h]. *)
Definition mutation_ok (fuel : nat) (h : Shared.store) (op : Shared.mutation) : bool :=
  match op with
  | Shared.MSet _ x | Shared.MUpdate _ x => closed fuel h x
  | Shared.MRemove _ => true
  end.

(** What the frame properties of the copy are stated with: an object
    pointer is [fresh_in n m] when it points into the part [n .. m) of the
    store; a member of the object [lv] is [member_apart] from the first [n0]
    payloads when it is no object or has a payload of the store past these
    that is not [lv] itself; and [copy_apart h0 lv h] says of the store [h]
    that the payloads and arrays of [h0] are in it as they were, and that
    the object [lv] lies past them and has all its members apart from
    them. *)
Definition fresh_in (n m : nat) (v : Shared.Value) : Prop :=
  match v with
  | Shared.VObject l => (n <= l < m)%nat
  | _ => True
  end.

Definition member_apart (n0 : nat) (lv : Shared.loc) (h : Shared.store)
    (v : Shared.Value) : Prop :=
  match v with
  | Shared.VObject lm => (n0 <= lm < List.length (Shared.objects h))%nat /\ lm <> lv
  | _ => True
  end.

Definition copy_apart (h0 : Shared.store) (lv : Shared.loc) (h : Shared.store) : Prop :=
  (List.length (Shared.objects h0) <= lv)%nat
  /\ (forall l, (l < List.length (Shared.objects h0))%nat ->
                Shared.object_at h l = Shared.object_at h0 l)
  /\ Shared.arrays h = Shared.arrays h0
  /\ exists o, Shared.object_at h lv = Some o
               /\ Forall (fun kv => member_apart (List.length (Shared.objects h0)) lv h (snd kv))
                    (mMap o).

(** The payloads that were there in [h] are the same in [h']. *)
Definition preserves (h h' : Shared.store) : Prop :=
  (forall l, (l < List.length (Shared.objects h))%nat ->
             Shared.object_at h' l = Shared.object_at h l)
  /\ Shared.arrays h' = Shared.arrays h
  /\ (List.length (Shared.objects h) <= List.length (Shared.objects h'))%nat.

(** ** Reference definitions, following the words of the specification *)

(** The number a numeric Value holds, when that number is an integer. *)
Definition exact_value (v : Value) : option Z :=
  match v with
  | VBool b => Some (if b then 1 else 0)
  | VInt i | VUInt i | VInt64 i | VUInt64 i => Some i
  | VDouble d => integral_value d
  | _ => None
  end.

Definition holds_number (v : Value) (z : Z) : bool :=
  match exact_value v with
  | Some z' => z =? z'
  | None => false
  end.

Definition same_text (a b : option string) : bool :=
  match a, b with
  | Some x, Some y => String.eqb x y
  | _, _ => false
  end.

(** "[As<Kind>()] returns the source value unchanged": the coercion to
    [kind] yields the very number, truth value or text that [v] holds. *)
Definition returns_unchanged (v : Value) (kind : ValueType) : bool :=
  match kind with
  | kValueBool =>
      match v with
      | VBool _ => true
      | VString s => same_text (AsCString (VBool (AsBool v false)) None) s
      | _ => holds_number v (if AsBool v false then 1 else 0)
      end
  | kValueInt =>
      match AsInt v 0 with Defined z => holds_number v z | Undefined => false end
  | kValueUInt =>
      match AsUInt v 0 with Defined z => holds_number v z | Undefined => false end
  | kValueInt64 =>
      match AsInt64 v 0 with Defined z => holds_number v z | Undefined => false end
  | kValueUInt64 =>
      match AsUInt64 v 0 with Defined z => holds_number v z | Undefined => false end
  | kValueDouble =>
      match v with
      | VDouble _ => true
      | _ => match integral_value (AsDouble v dzero) with
             | Some z => holds_number v z
             | None => false
             end
      end
  | _ => ValueType_eqb (Type_ v) kind
  end.

(** The integer kinds, as sources and as targets of a coercion. *)
Definition is_integer_value (v : Value) : bool :=
  match v with
  | VBool _ | VInt _ | VUInt _ | VInt64 _ | VUInt64 _ => true
  | _ => false
  end.

Definition is_integer_kind (kind : ValueType) : bool :=
  match kind with
  | kValueInt | kValueUInt | kValueInt64 | kValueUInt64 => true
  | _ => false
  end.

(** The bounds of the destination of [AsInt], [AsUInt], [AsInt64] and
    [AsUInt64], and the coercion that goes with an integer kind. *)
Definition kind_min (kind : ValueType) : Z :=
  match kind with
  | kValueInt => INT32_MIN
  | kValueInt64 => INT64_MIN
  | _ => 0
  end.

Definition kind_max (kind : ValueType) : Z :=
  match kind with
  | kValueInt => INT32_MAX
  | kValueUInt => UINT32_MAX
  | kValueInt64 => INT64_MAX
  | kValueUInt64 => UINT64_MAX
  | _ => 0
  end.

Definition As (kind : ValueType) (v : Value) : outcome Z :=
  match kind with
  | kValueInt => AsInt v 0
  | kValueUInt => AsUInt v 0
  | kValueInt64 => AsInt64 v 0
  | kValueUInt64 => AsUInt64 v 0
  | _ => Undefined
  end.

(** Saturation: the nearest value of the destination range. *)
Definition saturate (lo hi z : Z) : Z := if z <? lo then lo else if hi <? z then hi else z.

(** Some doubles: 1.5, 2^63 and 2^64. *)
Definition d_1_5 : double := S754_finite false 6755399441055744 (-52).
Definition d_2_63 : double := S754_finite false 4503599627370496 11.
Definition d_2_64 : double := S754_finite false 4503599627370496 12.

(** The member map read as a sorted association list: what a look-up, an
    insertion or overwrite, and a removal amount to. *)
Section SortedMap.
Context {V : Type}.

Fixpoint is_sorted (m : list (string * V)) : bool :=
  match m with
  | [] => true
  | kv :: m' =>
      match m' with
      | [] => true
      | kv' :: _ => KeyLess (fst kv) (fst kv') && is_sorted m'
      end
  end.

Fixpoint lookup (m : list (string * V)) (k : string) : option V :=
  match m with
  | [] => None
  | kv :: m' =>
      if KeyLess (fst kv) k then lookup m' k
      else if KeyLess k (fst kv) then None
      else Some (snd kv)
  end.

Fixpoint put (m : list (string * V)) (k : string) (v : V) : list (string * V) :=
  match m with
  | [] => [(k, v)]
  | kv :: m' =>
      if KeyLess (fst kv) k then kv :: put m' k v
      else if KeyLess k (fst kv) then (k, v) :: m
      else (fst kv, v) :: m'
  end.

Fixpoint del (m : list (string * V)) (k : string) : list (string * V) :=
  match m with
  | [] => []
  | kv :: m' =>
      if KeyLess (fst kv) k then kv :: del m' k
      else if KeyLess k (fst kv) then m
      else m'
  end.
End SortedMap.

Definition or_null (v : option Value) : Value :=
  match v with
  | Some x => x
  | None => kNullValue
  end.

Definition well_formed (o : ObjectValue) : bool :=
  is_sorted (mMap o) && is_uint32 (mModCount o).

(** Two Values that are the same but for the counter of the object. *)
Definition same_members (x y : Value) : Prop :=
  match x, y with
  | VObject a, VObject b => mMap a = mMap b
  | _, _ => x = y
  end.

(** Two member maps with the same keys, whose Values are the same but for
    the counters of the members that are objects. *)
Definition alike (m1 m2 : list (string * Value)) : Prop :=
  Forall2 (fun a b => fst a = fst b /\ same_members (snd a) (snd b)) m1 m2.

(** The loop of [ObjectValue::Merge] on the association list: a null
    member of the overrides deletes the key, any other is merged into what
    is there. *)
Definition merged (m overrides : list (string * Value)) : list (string * Value) :=
  fold_left
    (fun m nv =>
       if IsNull (snd nv) then del m (fst nv)
       else put m (fst nv) (Value_Merge (or_null (lookup m (fst nv))) (snd nv)))
    overrides m.

(** The overrides remove no member that is an object. *)
Definition removes_no_object (this overrides : ObjectValue) : Prop :=
  forall k, HasMember overrides k = true -> IsNull (Member overrides k) = true ->
            IsObject (Member this k) = false.

(** How [ParseScalar] classifies a plain scalar as null, bool or an IEEE
    special. *)
Definition is_special_plain (valueStr : string) : bool :=
  first_is_nul valueStr || EqualI valueStr "null" || Equal valueStr "~"
  || EqualI valueStr "true" || EqualI valueStr "false"
  || Equal valueStr "-.inf" || Equal valueStr ".inf" || Equal valueStr ".nan".

(** The text handed to the number parsers, in the words of 4.E: "strip `_`
    digit separators; if string starts with `0o`, drop the `o` to form an
    octal prefix". *)
Definition strip_separators (s : string) : string :=
  string_of_list_ascii
    (filter (fun c => negb (Ascii.eqb c "_")) (list_ascii_of_string s)).

Definition octal_prefix (s : string) : string :=
  if String.prefix "0o" s
  then String "0" (String.substring 2 (String.length s - 2) s)
  else s.

Definition number_text (s : string) : string := octal_prefix (strip_separators s).

(** A [strtod] that reads nothing, for inputs that never reach it. *)
Definition strtod_none (nptr : string) : double * nat := (dzero, O).

(** The events of the one-line document [key: 0o17]. *)
Definition events_key_0o17 : yaml_events :=
  [ Produce YAML_STREAM_START_EVENT;
    Produce YAML_DOCUMENT_START_EVENT;
    Produce (YAML_MAPPING_START_EVENT None);
    Produce (YAML_SCALAR_EVENT None "key" YAML_PLAIN_SCALAR_STYLE);
    Produce (YAML_SCALAR_EVENT None "0o17" YAML_PLAIN_SCALAR_STYLE);
    Produce YAML_MAPPING_END_EVENT;
    Produce YAML_DOCUMENT_END_EVENT;
    Produce YAML_STREAM_END_EVENT ].

(** The events of the mapping [{ size: 2, <<: { size: 1 } }], the merge key
    after the entry it shares a key with. *)
Definition events_merge_after_entry : yaml_events :=
  [ Produce YAML_STREAM_START_EVENT;
    Produce YAML_DOCUMENT_START_EVENT;
    Produce (YAML_MAPPING_START_EVENT None);
    Produce (YAML_SCALAR_EVENT None "size" YAML_PLAIN_SCALAR_STYLE);
    Produce (YAML_SCALAR_EVENT None "2" YAML_PLAIN_SCALAR_STYLE);
    Produce (YAML_SCALAR_EVENT None "<<" YAML_PLAIN_SCALAR_STYLE);
    Produce (YAML_MAPPING_START_EVENT None);
    Produce (YAML_SCALAR_EVENT None "size" YAML_PLAIN_SCALAR_STYLE);
    Produce (YAML_SCALAR_EVENT None "1" YAML_PLAIN_SCALAR_STYLE);
    Produce YAML_MAPPING_END_EVENT;
    Produce YAML_MAPPING_END_EVENT;
    Produce YAML_DOCUMENT_END_EVENT;
    Produce YAML_STREAM_END_EVENT ].

(** The events of the document
      [base: &d { colour: red, size: 1 }]
      [item: { size: 2, <<: *d }],
    a merge key with an alias of an anchor of the same document. *)
Definition events_merge_of_anchor : yaml_events :=
  [ Produce YAML_STREAM_START_EVENT;
    Produce YAML_DOCUMENT_START_EVENT;
    Produce (YAML_MAPPING_START_EVENT None);
    Produce (YAML_SCALAR_EVENT None "base" YAML_PLAIN_SCALAR_STYLE);
    Produce (YAML_MAPPING_START_EVENT (Some "d"%string));
    Produce (YAML_SCALAR_EVENT None "colour" YAML_PLAIN_SCALAR_STYLE);
    Produce (YAML_SCALAR_EVENT None "red" YAML_PLAIN_SCALAR_STYLE);
    Produce (YAML_SCALAR_EVENT None "size" YAML_PLAIN_SCALAR_STYLE);
    Produce (YAML_SCALAR_EVENT None "1" YAML_PLAIN_SCALAR_STYLE);
    Produce YAML_MAPPING_END_EVENT;
    Produce (YAML_SCALAR_EVENT None "item" YAML_PLAIN_SCALAR_STYLE);
    Produce (YAML_MAPPING_START_EVENT None);
    Produce (YAML_SCALAR_EVENT None "size" YAML_PLAIN_SCALAR_STYLE);
    Produce (YAML_SCALAR_EVENT None "2" YAML_PLAIN_SCALAR_STYLE);
    Produce (YAML_SCALAR_EVENT None "<<" YAML_PLAIN_SCALAR_STYLE);
    Produce (YAML_ALIAS_EVENT "d");
    Produce YAML_MAPPING_END_EVENT;
    Produce YAML_MAPPING_END_EVENT;
    Produce YAML_DOCUMENT_END_EVENT;
    Produce YAML_STREAM_END_EVENT ].

(** The events of the document
      [a: &x { size: 1 }]
      [a: { size: 2, <<: *x }],
    where the second entry is parsed into the object of the first, which the
    anchor [x] shares. *)
Definition events_mapping_entered_again : yaml_events :=
  [ Produce YAML_STREAM_START_EVENT;
    Produce YAML_DOCUMENT_START_EVENT;
    Produce (YAML_MAPPING_START_EVENT None);
    Produce (YAML_SCALAR_EVENT None "a" YAML_PLAIN_SCALAR_STYLE);
    Produce (YAML_MAPPING_START_EVENT (Some "x"%string));
    Produce (YAML_SCALAR_EVENT None "size" YAML_PLAIN_SCALAR_STYLE);
    Produce (YAML_SCALAR_EVENT None "1" YAML_PLAIN_SCALAR_STYLE);
    Produce YAML_MAPPING_END_EVENT;
    Produce (YAML_SCALAR_EVENT None "a" YAML_PLAIN_SCALAR_STYLE);
    Produce (YAML_MAPPING_START_EVENT None);
    Produce (YAML_SCALAR_EVENT None "size" YAML_PLAIN_SCALAR_STYLE);
    Produce (YAML_SCALAR_EVENT None "2" YAML_PLAIN_SCALAR_STYLE);
    Produce (YAML_SCALAR_EVENT None "<<" YAML_PLAIN_SCALAR_STYLE);
    Produce (YAML_ALIAS_EVENT "x");
    Produce YAML_MAPPING_END_EVENT;
    Produce YAML_MAPPING_END_EVENT;
    Produce YAML_DOCUMENT_END_EVENT;
    Produce YAML_STREAM_END_EVENT ].

(** What a call of the reader returns, when it returns. *)
Definition returned {A : Type} (r : run A) : option A :=
  match r with
  | Returns a _ => Some a
  | _ => None
  end.

(** A mapping entry [key: value] with a scalar value. *)
Definition entry_events (key valueStr : string) (style : yaml_scalar_style_t) : yaml_events :=
  [ Produce (YAML_SCALAR_EVENT None key YAML_PLAIN_SCALAR_STYLE);
    Produce (YAML_SCALAR_EVENT None valueStr style) ].

(** The chomping method a block scalar header asks for, in the words of
    4.C.6: after the indicator comes an optional chomping indicator ('+'
    keep, '-' strip, none: clip) and an optional indentation digit, in
    either order.  [buf] starts at the indicator '|' or '>'. *)
Inductive chomping_t : Type := Strip | Clip | Keep.

Definition chomping_of_char (c : Z) : option chomping_t :=
  if c =? ch_PLUS then Some Keep else if c =? ch_MINUS then Some Strip else None.

Definition header_chomping (buf : list Z) : chomping_t :=
  match chomping_of_char (char_at buf 1) with
  | Some c => c
  | None =>
      if is_digit_char (char_at buf 1) then
        match chomping_of_char (char_at buf 2) with
        | Some c => c
        | None => Clip
        end
      else Clip
  end.

(** What the header says apart from the chomping method: the indentation
    digit, if there is one, and the input that follows the header. *)
Definition header_rest (buf : list Z) : option Z * list Z :=
  match chomping_of_char (char_at buf 1) with
  | Some _ =>
      if is_digit_char (char_at buf 2)
      then (Some (char_at buf 2), tl (tl (tl buf)))
      else (None, tl (tl buf))
  | None =>
      if is_digit_char (char_at buf 1) then
        match chomping_of_char (char_at buf 2) with
        | Some _ => (Some (char_at buf 1), tl (tl (tl buf)))
        | None => (Some (char_at buf 1), tl (tl buf))
        end
      else (None, tl buf)
  end.

Definition header_digit (buf : list Z) : option Z := fst (header_rest buf).

(** The value of the scalar from its three parts: the content up to its
    last character that is no line break, the line break that ends the last
    line, and the line breaks of the empty lines after it. *)
Definition chomp (c : chomping_t) (content leading trailing : list Z) : list Z :=
  match c with
  | Strip => content
  | Clip => content ++ leading
  | Keep => (content ++ leading) ++ trailing
  end.

Definition ends_with_break (s : list Z) : bool :=
  match rev s with
  | c :: _ => is_break_char c
  | [] => false
  end.

Definition all_breaks (s : list Z) : bool := forallb is_break_char s.

Definition at_most_one_break (s : list Z) : bool :=
  match s with
  | [] => true
  | [c] => is_break_char c
  | _ => false
  end.

Definition token_value (t : yaml_token_t) : list Z :=
  match token_data t with
  | data_scalar v _ => v
  | _ => []
  end.

(** The invariant of the content loop of the block scalar. *)
Definition content_invariant (st : block_scalar_state) (parser : yaml_parser_t) : Prop :=
  IS_BREAK (buffer parser) = false
  /\ ends_with_break (bs_string st) = false
  /\ at_most_one_break (bs_leading_break st) = true
  /\ all_breaks (bs_trailing_breaks st) = true.

(** What the scanning of a block scalar depends on in the parser, and what
    of a result is compared between two runs: the byte index and the line
    of the marks are left out. *)
Definition position (parser : yaml_parser_t) : list Z * Z * Z :=
  (buffer parser, indent parser, mark_column (mark parser)).

Definition observe {A B : Type} (f : A -> yaml_parser_t -> B) (r : scan A)
    : option (option B) :=
  match r with
  | ScanOk a parser => Some (Some (f a parser))
  | ScanError _ => Some None
  | ScanOutOfFuel => None
  end.

Definition state_text (st : block_scalar_state) : list Z * list Z * list Z * Z * bool :=
  (bs_string st, bs_leading_break st, bs_trailing_breaks st, bs_indent st,
   bs_leading_blank st).

(** A block scalar as it is written: the indicator, the chomping
    indicator, the end of the header line; then the lines of the body, each
    indented by [d] spaces and given by its text and the number of empty
    lines after it; then [rest], which is not part of the scalar.  The
    line breaks are line feeds. *)
Definition chomping_indicator (c : chomping_t) : list Z :=
  match c with
  | Strip => [ch_MINUS]
  | Clip => []
  | Keep => [ch_PLUS]
  end.

Definition spaces (d : nat) : list Z := repeat ch_SPACE d.
Definition line_feeds (k : nat) : list Z := repeat ch_LF k.

Definition body_line (d : nat) (line : list Z * nat) : list Z :=
  spaces d ++ fst line ++ ch_LF :: line_feeds (snd line).

Definition block_scalar_text (indicator : Z) (c : chomping_t) (d : nat)
    (lines : list (list Z * nat)) (rest : list Z) : list Z :=
  indicator :: chomping_indicator c ++ ch_LF :: flat_map (body_line d) lines ++ rest.

(** A text begins with a character that is no space, no tab and no line
    break; the text of a line is not empty and holds no line break and no
    NUL. *)
Definition begins_text (s : list Z) : bool :=
  negb (char_at s 0 =? ch_SPACE) && negb (char_at s 0 =? ch_TAB)
  && negb (is_break_char (char_at s 0)).

Definition is_line_char (c : Z) : bool := negb (is_break_char c) && negb (c =? ch_NUL).

Definition line_ok (line : list Z * nat) : bool :=
  negb (Nat.eqb (List.length (fst line)) 0) && begins_text (fst line)
  && forallb is_line_char (fst line).

(** The content of the scalar: the texts of the lines and what stands for
    the line breaks between them.  In a literal scalar these are kept; in a
    folded scalar one line break becomes a space, and of more the first is
    dropped. *)
Definition separator (literal : bool) (k : nat) : list Z :=
  if literal then ch_LF :: line_feeds k
  else match k with
       | O => [ch_SPACE]
       | S _ => line_feeds k
       end.

Fixpoint joined (literal : bool) (k : nat) (lines : list (list Z * nat)) : list Z :=
  match lines with
  | [] => []
  | line :: lines' => separator literal k ++ fst line ++ joined literal (snd line) lines'
  end.

Definition block_content (literal : bool) (lines : list (list Z * nat)) : list Z :=
  match lines with
  | [] => []
  | line :: lines' => fst line ++ joined literal (snd line) lines'
  end.

(** The number of empty lines after the last line. *)
Definition empty_lines_at_end (lines : list (list Z * nat)) : nat :=
  snd (last lines ([], O)).

(** Where the parser stands: the input that is left, the column, and the
    indentation level of the block context. *)
Definition reads_at (parser : yaml_parser_t) (buf : list Z) (column ind : Z) : Prop :=
  buffer parser = buf /\ mark_column (mark parser) = column /\ indent parser = ind.

(** A parser that is about to scan [text], in the block context of the
    top level. *)
Definition scanner_at (text : list Z) : yaml_parser_t :=
  mkParser YAML_NO_ERROR None (mkMark 0 0 0) None (mkMark 0 0 0)
    text (mkMark 0 0 0) (-1) [] [].

(** %TAG directive tokens that [yaml_parser_process_directives] accepts:
    each handle is new, given the directives [known] to the parser. *)
Definition directive_of (token : yaml_token_t) : yaml_tag_directive_t :=
  match token_data token with
  | data_tag_directive handle prefix => mkTagDirective handle prefix
  | _ => mkTagDirective "" ""
  end.

Fixpoint fresh_tag_directives (ts : list yaml_token_t) (known : list yaml_tag_directive_t)
    : bool :=
  match ts with
  | [] => true
  | token :: ts' =>
      match token_type token with
      | YAML_TAG_DIRECTIVE_TOKEN =>
          negb (has_handle (tag_handle (directive_of token)) known)
          && fresh_tag_directives ts' (known ++ [directive_of token])
      | _ => false
      end
  end.

(** The parser has failed with the parser error [problem] at [m]. *)
Definition fails_with {A : Type} (r : option A * yaml_parser_t) (problem : string)
    (m : yaml_mark_t) : Prop :=
  fst r = None
  /\ error (snd r) = YAML_PARSER_ERROR
  /\ parser_problem (snd r) = Some problem
  /\ problem_mark (snd r) = m.

(** * More of the library *)

(** ** vector_map.hpp: erasing by key and the subscript *)

Section vector_map_more.
Context {V : Type}.

(** [erase(const Key&)]: the vector after the call and the count of erased
    items. *)
Definition erase (m : list (string * V)) (key : string) : list (string * V) * Z :=
  let it := lower_bound m key in
  match nth_error m it with
  | Some kv => if negb (KeyLess key (fst kv)) then (vector_erase m it, 1) else (m, 0)
  | None => (m, 0)
  end.

(** [operator[](const Key&) const]: [find(key)->second].  With the key
    missing this dereferences [end()]. *)
Definition subscript_const (m : list (string * V)) (key : string) : outcome V :=
  match find m key with
  | Some it =>
      match nth_error m it with
      | Some kv => Defined (snd kv)
      | None => Undefined
      end
  | None => Undefined
  end.

End vector_map_more.

(** ** Value.hpp and Value.cpp: the object API of Value, and the STL-alike
    API *)

(** [Value::ToObject] and [Value::ToArray]: the Value after the call and
    the result.  A null Value becomes an empty object, or an array with a
    null array pointer. *)
Definition ToObject (v : Value) : Value * bool :=
  match v with
  | VNull => (VObject (mkObjectValue [] 0), true)
  | VObject _ => (v, true)
  | _ => (v, false)
  end.

Definition ToArray (v : Value) : Value * bool :=
  match v with
  | VNull => (VArray None, true)
  | VArray _ => (v, true)
  | _ => (v, false)
  end.

(** [Value::Member], [Value::HasMember], [Value::NumMembers]. *)
Definition Value_Member (v : Value) (key : string) : Value :=
  match v with
  | VObject o => Member o key
  | _ => kNullValue
  end.

Definition Value_HasMember (v : Value) (key : string) : bool :=
  match v with
  | VObject o => HasMember o key
  | _ => false
  end.

Definition Value_NumMembers (v : Value) : nat :=
  match v with
  | VObject o => NumMembers o
  | _ => O
  end.

(** [Value::SetMember]: [if (ToObject()) mValue.mObject->SetMember(key, v)]. *)
Definition Value_SetMember (v : Value) (key : string) (x : Value) : Value :=
  let (v1, ok) := ToObject v in
  if ok then
    match v1 with
    | VObject o => VObject (SetMember o key x)
    | _ => v1
    end
  else v1.

(** [Value::RemoveMember]: the Value after the call and the result. *)
Definition Value_RemoveMember (v : Value) (key : string) : Value * bool :=
  match v with
  | VObject o => let (o1, found) := RemoveMember o key in (VObject o1, found)
  | _ => (v, false)
  end.

(** [(size_t) int(n)] for a length [n]: the lengths of strings and arrays
    go through [int] on their way to [size_t]. *)
Definition size_of_int (n : nat) : Z := to_uint64 (to_int32 (Z.of_nat n)).

(** [Value::size], [Value::empty], [Value::clear]. *)
Definition size (v : Value) : Z :=
  match v with
  | VString s =>
      match s with
      | Some str => size_of_int (String.length str)
      | None => 0
      end
  | VArray a =>
      match a with
      | Some data => size_of_int (List.length data)
      | None => 0
      end
  | VObject o => size_of_int (NumMembers o)
  | _ => 0
  end.

Definition empty (v : Value) : bool :=
  match v with
  | VNull => true
  | VString s =>
      match s with
      | Some str => Nat.eqb (String.length str) 0
      | None => true
      end
  | VArray a =>
      match a with
      | Some data => Nat.eqb (List.length data) 0
      | None => true
      end
  | VObject o => Nat.eqb (List.length (mMap o)) 0
  | _ => false
  end.

Definition clear (v : Value) : Value :=
  match v with
  | VString _ => VString None
  | VArray _ => VArray None
  | VObject o => VObject (RemoveMembers o)
  | _ => v
  end.

(** The lengths of the payload of [v] are lengths an [int] can hold, as
    they are for every string and array the library makes. *)
Definition lengths_fit_int (v : Value) : bool :=
  match v with
  | VString (Some str) => Z.of_nat (String.length str) <=? INT32_MAX
  | VArray (Some data) => Z.of_nat (List.length data) <=? INT32_MAX
  | VObject o => Z.of_nat (List.length (mMap o)) <=? INT32_MAX
  | _ => true
  end.

(** ** Value.cpp: MemberPath *)

(** [s[n]] on a C string: past the last char stands the terminator. *)
Definition char_at_or_nul (s : string) (n : nat) : ascii :=
  match String.get n s with
  | Some c => c
  | None => zero
  end.

(** [s + n] on a C string, for [n] up to the terminator. *)
Fixpoint advance_by (n : nat) (s : string) : string :=
  match n with
  | O => s
  | S n' =>
      match s with
      | String _ s' => advance_by n' s'
      | EmptyString => EmptyString
      end
  end.

(** [strcspn] of <string.h>: the length of the longest prefix of [s] with
    no char of [reject]. *)
Fixpoint one_of (c : ascii) (set : string) : bool :=
  match set with
  | String d set' => if Ascii.eqb c d then true else one_of c set'
  | EmptyString => false
  end.

Fixpoint strcspn (s reject : string) : nat :=
  match s with
  | String c s' => if one_of c reject then O else S (strcspn s' reject)
  | EmptyString => O
  end.

(** [strtol(nptr, &end, 10)]: white space, a sign, and the longest run of
    decimal digits; the result and the number of chars before [end]. *)
Definition strtol_10 (nptr : string) : Z * nat :=
  let (nspace, s1) := skip_spaces nptr in
  let '(negative, nsign, s2) :=
    match s1 with
    | String "-"%char r => (true, 1%nat, r)
    | String "+"%char r => (false, 1%nat, r)
    | _ => (false, O, s1)
    end in
  let (magnitude, ndigits) := strtol_digits 10 s2 0 O in
  match ndigits with
  | O => (0, O)
  | S _ =>
      (clamp_long (if negative then - magnitude else magnitude),
       (nspace + nsign + ndigits)%nat)
  end.

(** [PathField]: one step of a path.  On an array a field that starts with
    '[' is an index, which is read with [strtol], converted to [size_t] and
    compared with [size()] before [operator[]] narrows it to [int] for
    [Elt]; any other field is a member name, after a leading '.'. *)
Definition PathField (v : Value) (key : string) : outcome Value :=
  if IsArray v && Ascii.eqb (char_at_or_nul key 0) "[" then
    let key := advance_by 1 key in
    let (n, last) := strtol_10 key in
    let index := to_uint64 n in
    if negb (Ascii.eqb (char_at_or_nul key last) "]") || (size v <=? index)
    then Defined kNullValue
    else Elt v (to_int32 index)
  else
    let key := if Ascii.eqb (char_at_or_nul key 0) "." then advance_by 1 key else key in
    Defined (Value_Member v key).

(** [MemberPath].  [strcspn(path + 1, ".[")] starts at the second char, so
    on the empty path it reads past the terminator.  Every call on the rest
    of the path has at least one char less, so the length of the path is fuel
    enough. *)
Fixpoint MemberPath_from (fuel : nat) (v : Value) (path : string) : outcome Value :=
  match fuel with
  | O => Undefined
  | S fuel' =>
      match path with
      | EmptyString => Undefined
      | String _ path1 =>
          let sep_pos := S (strcspn path1 ".[") in
          if negb (Ascii.eqb (char_at_or_nul path sep_pos) zero) then
            let field := substring 0 sep_pos path in
            match PathField v field with
            | Defined f => MemberPath_from fuel' f (advance_by sep_pos path)
            | Undefined => Undefined
            end
          else PathField v path
      end
  end.

Definition MemberPath (v : Value) (path : string) : outcome Value :=
  MemberPath_from (String.length path) v path.

(** A member name that a path can hold: not empty, and without '.' or '['. *)
Definition is_path_key (k : string) : bool :=
  negb (String.eqb k "") && Nat.eqb (strcspn k ".[") (String.length k).

(** The arrays in [v] have lengths an [int] can hold, as [ArrayValue]
    keeps its count in an [int]. *)
Fixpoint counts_fit_int (v : Value) : bool :=
  match v with
  | VArray (Some data) =>
      (Z.of_nat (List.length data) <=? INT32_MAX) && forallb counts_fit_int data
  | VObject o => forallb (fun kv => counts_fit_int (snd kv)) (mMap o)
  | _ => true
  end.

(** What one step of a path returns: the null Value, an element of the
    array, or a member of the object. *)
Definition part_of (r v : Value) : Prop :=
  r = kNullValue
  \/ (exists data, v = VArray (Some data) /\ In r data)
  \/ (exists o, v = VObject o /\ In r (map snd (mMap o))).

(** ** String.hpp: Compare *)

Section Characters.
(** Whether the plain [char] of the platform is signed. *)
Variable char_is_signed : bool.

(** The value of a [char] as an [int]. *)
Definition char_to_int (c : ascii) : Z :=
  let n := Z.of_N (N_of_ascii c) in
  if char_is_signed && (127 <? n) then n - 256 else n.

(** [HL::Compare]: the loop stops at the first position where the chars
    differ or the strings end, and the difference of the two chars is
    returned. *)
Fixpoint HL_Compare (s0 s1 : string) : Z :=
  match s0, s1 with
  | String c0 r0, String c1 r1 =>
      if Ascii.eqb c0 c1 then HL_Compare r0 r1 else char_to_int c0 - char_to_int c1
  | String c0 _, EmptyString => char_to_int c0 - 0
  | EmptyString, String c1 _ => 0 - char_to_int c1
  | EmptyString, EmptyString => 0
  end.

(** ** Value.cpp: comparisons *)

(** [strcmp] of <string.h>, of which the standard fixes the sign only. *)
Variable strcmp : string -> string -> Z.

(** The enumerators of [ValueType] as numbers. *)
Definition ValueType_index (t : ValueType) : Z :=
  match t with
  | kValueNull => 0
  | kValueBool => 1
  | kValueInt => 2
  | kValueUInt => 3
  | kValueInt64 => 4
  | kValueUInt64 => 5
  | kValueDouble => 6
  | kValueString => 7
  | kValueArray => 8
  | kValueObject => 9
  end.

(** [CompareT] at the integer types, at [bool] and at [double]. *)
Definition CompareT (a b : Z) : Z := if a <? b then -1 else if b <? a then 1 else 0.

Definition CompareT_bool (a b : bool) : Z := CompareT (Z.b2z a) (Z.b2z b).

Definition CompareT_double (a b : double) : Z :=
  if dlt a b then -1 else if dlt b a then 1 else 0.

(** [ArrayValue::Compare] and [ObjectValue::Compare], with [compare] for
    [Value::Compare] on the elements and on the member values. *)
Definition ArrayValue_Compare (compare : Value -> Value -> Z) (a b : list Value) : Z :=
  let n1 := Z.of_nat (List.length a) in
  let n2 := Z.of_nat (List.length b) in
  if negb (n1 =? n2) then (if n1 <? n2 then -1 else 1)
  else
    (fix elements (xs ys : list Value) {struct xs} : Z :=
       match xs, ys with
       | x :: xs', y :: ys' =>
           let eltCompare := compare x y in
           if negb (eltCompare =? 0) then eltCompare else elements xs' ys'
       | _, _ => 0
       end) a b.

Definition ObjectValue_Compare (compare : Value -> Value -> Z) (a b : ObjectValue) : Z :=
  let n1 := Z.of_nat (List.length (mMap a)) in
  let n2 := Z.of_nat (List.length (mMap b)) in
  if negb (n1 =? n2) then (if n1 <? n2 then -1 else 1)
  else
    (fix members (xs ys : list (string * Value)) {struct xs} : Z :=
       match xs, ys with
       | m1 :: xs', m2 :: ys' =>
           let keyCompare := HL_Compare (fst m1) (fst m2) in
           if negb (keyCompare =? 0) then keyCompare
           else
             let valueCompare := compare (snd m1) (snd m2) in
             if negb (valueCompare =? 0) then valueCompare else members xs' ys'
       | _, _ => 0
       end) (mMap a) (mMap b).

(** [Value::Compare]. *)
Fixpoint Value_Compare (a b : Value) {struct a} : Z :=
  if negb (ValueType_eqb (Type_ a) (Type_ b)) then
    if ValueType_index (Type_ a) <? ValueType_index (Type_ b) then -1 else 1
  else
    match a with
    | VNull => 0
    | VBool x => match b with VBool y => CompareT_bool x y | _ => 0 end
    | VInt x => match b with VInt y => CompareT x y | _ => 0 end
    | VUInt x => match b with VUInt y => CompareT x y | _ => 0 end
    | VInt64 x => match b with VInt64 y => CompareT x y | _ => 0 end
    | VUInt64 x => match b with VUInt64 y => CompareT x y | _ => 0 end
    | VDouble x => match b with VDouble y => CompareT_double x y | _ => 0 end
    | VString x =>
        match b with
        | VString y =>
            match x, y with
            | Some s, Some t => strcmp s t
            | Some _, None => CompareT_bool true false
            | None, Some _ => CompareT_bool false true
            | None, None => CompareT_bool false false
            end
        | _ => 0
        end
    | VArray x =>
        match b with
        | VArray y =>
            match x, y with
            | Some xs, Some ys => ArrayValue_Compare Value_Compare xs ys
            | Some _, None => CompareT_bool true false
            | None, Some _ => CompareT_bool false true
            | None, None => CompareT_bool false false
            end
        | _ => 0
        end
    | VObject x =>
        match b with
        | VObject y => ObjectValue_Compare Value_Compare x y
        | _ => 0
        end
    end.

(** [operator <], [operator >], [operator <=] and [operator >=]. *)
Definition Value_lt (a b : Value) : bool :=
  let typeDelta := ValueType_index (Type_ a) - ValueType_index (Type_ b) in
  if negb (typeDelta =? 0) then typeDelta <? 0
  else
    match a, b with
    | VNull, _ => false
    | VBool x, VBool y => Z.b2z x <? Z.b2z y
    | VInt x, VInt y => x <? y
    | VUInt x, VUInt y => x <? y
    | VInt64 x, VInt64 y => x <? y
    | VUInt64 x, VUInt64 y => x <? y
    | VDouble x, VDouble y => dlt x y
    | _, _ => Value_Compare a b <? 0
    end.

Definition Value_gt (a b : Value) : bool := Value_lt b a.

(** [operator <=] returns the negation of [other > this], and that is
    [operator >] called on [other] with this Value as its argument. *)
Definition Value_le (a b : Value) : bool := negb (Value_gt b a).

Definition Value_ge (a b : Value) : bool := negb (Value_lt a b).
End Characters.

(** ** ValueYaml.cpp: event streams of scalars *)

(** The events of a run of scalars without anchors, each given by its text
    and its style; and the events of a run of mapping entries [key: value]
    with scalar values. *)
Definition scalar_events (items : list (string * yaml_scalar_style_t)) : yaml_events :=
  map (fun item => Produce (YAML_SCALAR_EVENT None (fst item) (snd item))) items.

Definition entries_events (entries : list (string * (string * yaml_scalar_style_t)))
    : yaml_events :=
  flat_map (fun e => entry_events (fst e) (fst (snd e)) (snd (snd e))) entries.

(** The last entry of [entries] under the key [k]; the key of an entry
    is what [UpdateMember] is handed, the text before the first NUL. *)
Definition last_entry (entries : list (string * (string * yaml_scalar_style_t)))
    (k : string) : option (string * yaml_scalar_style_t) :=
  option_map snd (List.find (fun e => String.eqb (c_str (fst e)) k) (rev entries)).

(** ** ValueYaml.cpp: mappings with merge keys

    A mapping whose values are scalars, and whose merge keys are paired
    with an alias, with a mapping of scalars, or with a sequence of these:
    the entries in the order of the document, and their events. *)
Inductive merge_item : Type :=
| ItemAlias (anchor : string)
| ItemMapping (entries : list (string * (string * yaml_scalar_style_t))).

Inductive mapping_entry : Type :=
| Plain (key valueStr : string) (style : yaml_scalar_style_t)
| MergeOne (item : merge_item)
| MergeSeveral (items : list merge_item).

Definition merge_key : yaml_step :=
  Produce (YAML_SCALAR_EVENT None "<<" YAML_PLAIN_SCALAR_STYLE).

Definition item_events (item : merge_item) : yaml_events :=
  match item with
  | ItemAlias anchor => [Produce (YAML_ALIAS_EVENT anchor)]
  | ItemMapping entries =>
      Produce (YAML_MAPPING_START_EVENT None)
      :: entries_events entries ++ [Produce YAML_MAPPING_END_EVENT]
  end.

Definition mapping_entry_events (e : mapping_entry) : yaml_events :=
  match e with
  | Plain key valueStr style => entry_events key valueStr style
  | MergeOne item => merge_key :: item_events item
  | MergeSeveral items =>
      merge_key :: Produce (YAML_SEQUENCE_START_EVENT None)
      :: flat_map item_events items ++ [Produce YAML_SEQUENCE_END_EVENT]
  end.

Definition mapping_events (entries : list mapping_entry) : yaml_events :=
  Produce (YAML_MAPPING_START_EVENT None)
  :: flat_map mapping_entry_events entries ++ [Produce YAML_MAPPING_END_EVENT].

(** No member of the object is an object. *)
Definition flat (o : ObjectValue) : bool :=
  forallb (fun kv => negb (IsObject (snd kv))) (mMap o).

Definition no_merge_key (entries : list (string * (string * yaml_scalar_style_t))) : bool :=
  forallb (fun e => negb (String.eqb (fst e) "<<")) entries.

(** An alias names an anchor that is bound to an object with scalar
    members; the keys of the entries are no merge keys. *)
Definition item_ok (rd : YamlReader) (item : merge_item) : bool :=
  match item with
  | ItemAlias anchor =>
      match find_anchor rd anchor with
      | Some (VObject M) => is_sorted (mMap M) && flat M
      | _ => false
      end
  | ItemMapping entries => no_merge_key entries
  end.

Definition mapping_entry_ok (rd : YamlReader) (e : mapping_entry) : bool :=
  match e with
  | Plain key _ _ => negb (String.eqb key "<<")
  | MergeOne item => item_ok rd item
  | MergeSeveral items => forallb (item_ok rd) items
  end.

Section MergeKeys.
Variable strtod : string -> double * nat.

(** The member that the object of a merge item has under [k]. *)
Definition item_member (rd : YamlReader) (item : merge_item) (k : string) : option Value :=
  match item with
  | ItemAlias anchor =>
      match find_anchor rd anchor with
      | Some (VObject M) => lookup (mMap M) k
      | _ => None
      end
  | ItemMapping entries =>
      option_map (fun e => scalar_value strtod VNull (fst e) (snd e)) (last_entry entries k)
  end.

(** What an entry makes of the member under [k], given the member [before]
    it: a scalar entry under that key sets it; a merged object that has
    the key sets it too, or removes it where its own member is null; any
    other entry leaves it. *)
Definition item_effect (rd : YamlReader) (k : string) (before : option Value)
    (item : merge_item) : option Value :=
  match item_member rd item k with
  | Some bv => if IsNull bv then None else Some bv
  | None => before
  end.

Definition entry_effect (rd : YamlReader) (k : string) (before : option Value)
    (e : mapping_entry) : option Value :=
  match e with
  | Plain key valueStr style =>
      if String.eqb (c_str key) k then Some (scalar_value strtod VNull valueStr style)
      else before
  | MergeOne item => item_effect rd k before item
  | MergeSeveral items => fold_left (item_effect rd k) items before
  end.

(** The member under [k] after the entries, each applied in its turn. *)
Definition bound_member (rd : YamlReader) (entries : list mapping_entry) (k : string)
    : option Value :=
  fold_left (entry_effect rd k) entries None.
End MergeKeys.

(** * ValueJson.cpp: numbers and strings, written and read back *)

(** ** JsonWriter: integers *)

(** [(value % 10) + '0']. *)
Definition digit_char (d : Z) : ascii := ascii_of_N (Z.to_N (d + 48)).

(** [UIntToString]: the terminator is stored at [--current], then the
    digits of [value] from the last one back, one at least.  The result is
    the string [current] points to afterwards.  A [uint64_t] has twenty
    digits at most, which is the fuel of the loop. *)
Fixpoint UIntToString_loop (fuel : nat) (value : Z) (current : string) : string :=
  match fuel with
  | O => current
  | S fuel' =>
      let current := String (digit_char (value mod 10)) current in
      let value := value / 10 in
      if negb (value =? 0) then UIntToString_loop fuel' value current else current
  end.

Definition UIntToString (value : Z) : string := UIntToString_loop 20 value "".

(** [ValueToString] at [int64_t] and at [uint64_t]: the text appended to
    the string.  [value = -value] overflows for
    [INT64_MIN]. *)
Definition ValueToString_int64 (value : Z) : outcome string :=
  let isNegative := value <? 0 in
  if isNegative && (value =? INT64_MIN) then Undefined
  else
    let value := if isNegative then - value else value in
    let digits := UIntToString (to_uint64 value) in
    Defined (if isNegative then String "-" digits else digits).

Definition ValueToString_uint64 (value : Z) : string := UIntToString value.

(** The integer cases of [JsonWriter::WriteValue]: the text handed to
    [PushValue]; the other cases are not among these. *)
Definition WriteValue_integer (v : Value) : option (outcome string) :=
  match v with
  | VInt x => Some (ValueToString_int64 (to_int64 x))
  | VUInt x => Some (Defined (ValueToString_uint64 (to_uint64 x)))
  | VInt64 x => Some (ValueToString_int64 x)
  | VUInt64 x => Some (Defined (ValueToString_uint64 x))
  | _ => None
  end.

(** ** JsonReader: numbers *)

(** [In(c, s)]: the first char of [s] is compared before the terminator is
    looked for. *)
Definition In_ (c : ascii) (s : string) : bool :=
  match s with
  | EmptyString => Ascii.eqb zero c
  | String _ _ => one_of c s
  end.

(** [*mCurrent >= '0' && *mCurrent <= '9']. *)
Definition is_decimal_digit (c : ascii) : bool :=
  let n := Z.of_N (N_of_ascii c) in (48 <=? n) && (n <=? 57).

(** [ReadNumber]: the number of chars [mCurrent] moves over; [input] is the
    text from [mCurrent] to [mEnd]. *)
Fixpoint ReadNumber (input : string) : nat :=
  match input with
  | String c input' =>
      if negb (is_decimal_digit c) && negb (In_ c ".eE+-") then O
      else S (ReadNumber input')
  | EmptyString => O
  end.

(** The first loop of [DecodeNumber], over the chars of the token. *)
Fixpoint inspect_token (inspect : string) (at_start isDouble : bool) : bool :=
  match inspect with
  | EmptyString => isDouble
  | String c rest =>
      inspect_token rest false
        (isDouble || In_ c ".eE+" || (Ascii.eqb c "-" && negb at_start))
  end.

(** The loop over the signs: the number of chars passed and [isNegative].
    The loop does not look at [token.mEnd]; [text] is the text from the
    start of the token to the terminator of the document. *)
Fixpoint skip_signs (text : string) (isNegative : bool) : nat * bool :=
  match text with
  | String c text' =>
      if Ascii.eqb c "-" then
        let (n, b) := skip_signs text' (negb isNegative) in (S n, b)
      else if Ascii.eqb c "+" then
        let (n, b) := skip_signs text' isNegative in (S n, b)
      else (O, isNegative)
  | EmptyString => (O, isNegative)
  end.

(** The loop over the digits, from [current] to [token.mEnd]: the value
    read, or the way the loop is left early. *)
Inductive digits_result : Type :=
| Digits (value : Z)
| TooLarge
| NotADigit.

Fixpoint decode_digits (text : string) (value : Z) : digits_result :=
  match text with
  | EmptyString => Digits value
  | String c text' =>
      if UINT64_MAX / 10 <? value then TooLarge
      else if negb (is_decimal_digit c) then NotADigit
      else
        let c := Z.of_N (N_of_ascii c) - 48 in
        let value := value * 10 in
        if UINT64_MAX - c <? value then TooLarge
        else decode_digits text' (value + c)
  end.

Section JsonReader.
(** [sscanf(buffer, "%lf", &value)] of <stdio.h>: the value, when the
    count returned is 1. *)
Variable sscanf_lf : string -> option double.

(** [DecodeDouble] and [DecodeNumber]: the Value assigned to the current
    node, or nothing when an error is added and [false] returned.  [token]
    is the text of the token and [after] the text that follows it in the
    document.  [-int32_t(value)] and [-int64_t(value)] overflow for 2^31
    and 2^63. *)
Definition DecodeDouble (token : string) : option Value :=
  match sscanf_lf token with
  | Some value => Some (VDouble value)
  | None => None
  end.

Definition DecodeNumber (token after : string) : outcome (option Value) :=
  if inspect_token token true false then Defined (DecodeDouble token)
  else
    let (n, isNegative) := skip_signs (token ++ after) false in
    match decode_digits (advance_by n token) 0 with
    | TooLarge => Defined (DecodeDouble token)
    | NotADigit => Defined None
    | Digits value =>
        if isNegative then
          if value <=? 2147483648 then
            if to_int32 value =? INT32_MIN then Undefined
            else Defined (Some (VInt (- to_int32 value)))
          else if value <=? 9223372036854775808 then
            if to_int64 value =? INT64_MIN then Undefined
            else Defined (Some (VInt64 (- to_int64 value)))
          else Defined (Some (VDouble (SFopp (double_of_Z value))))
        else if value <=? INT32_MAX then Defined (Some (VInt (to_int32 value)))
        else if value <=? UINT32_MAX then Defined (Some (VUInt (to_uint32 value)))
        else if value <=? INT64_MAX then Defined (Some (VInt64 (to_int64 value)))
        else Defined (Some (VUInt64 value))
    end.
End JsonReader.

(** The integer Value of the narrowest kind that holds [z], the signed kind
    before the unsigned one. *)
Definition narrowest (z : Z) : Value :=
  if is_int32 z then VInt z
  else if is_uint32 z then VUInt z
  else if is_int64 z then VInt64 z
  else VUInt64 z.

(** The value of a run of decimal digits read after [value]. *)
Fixpoint digits_value (text : string) (value : Z) : Z :=
  match text with
  | EmptyString => value
  | String c text' => digits_value text' (value * 10 + (Z.of_N (N_of_ascii c) - 48))
  end.

Fixpoint all_digits (text : string) : bool :=
  match text with
  | EmptyString => true
  | String c text' => is_decimal_digit c && all_digits text'
  end.

(** ** JsonWriter: strings *)

Definition quote : ascii := "034"%char.
Definition backslash : ascii := "092"%char.
Definition ch_b : ascii := "008"%char.
Definition ch_f : ascii := "012"%char.
Definition ch_n : ascii := "010"%char.
Definition ch_r : ascii := "013"%char.
Definition ch_t : ascii := "009"%char.

(** [IsControlCharacter]: [ch > 0 && ch <= 0x1F], which a signed and an
    unsigned [char] answer alike. *)
Definition IsControlCharacter (ch : ascii) : bool :=
  let n := Z.of_N (N_of_ascii ch) in (0 <? n) && (n <=? 31).

Fixpoint ContainsControlCharacter (str : string) : bool :=
  match str with
  | String c str' => if IsControlCharacter c then true else ContainsControlCharacter str'
  | EmptyString => false
  end.

(** [strpbrk(s, accept) == NULL]. *)
Fixpoint strpbrk_is_null (s accept : string) : bool :=
  match s with
  | String c s' => if one_of c accept then false else strpbrk_is_null s' accept
  | EmptyString => true
  end.

(** The chars the writer looks for before it escapes: the quote, the
    backslash, and the five controls with an escape of their own. *)
Definition escaped_chars : string :=
  String quote (String backslash (String ch_b (String ch_f (String ch_n
    (String ch_r (String ch_t EmptyString)))))).

(** [snprintf(buffer, 7, "\\u%04x", n)] for a control char [n]: four
    hexadecimal digits in lower case. *)
Definition hex_char (d : Z) : ascii :=
  ascii_of_N (Z.to_N (if d <? 10 then d + 48 else d - 10 + 97)).

Definition format_u04x (n : Z) : string :=
  String backslash (String "u"
    (String (hex_char (n / 4096 mod 16)) (String (hex_char (n / 256 mod 16))
      (String (hex_char (n / 16 mod 16)) (String (hex_char (n mod 16)) EmptyString))))).

(** The [switch] of [ValueToStringInternal]: what is appended for one
    char. *)
Definition escape_char (c : ascii) : string :=
  if Ascii.eqb c quote then String backslash (String quote EmptyString)
  else if Ascii.eqb c backslash then String backslash (String backslash EmptyString)
  else if Ascii.eqb c ch_b then String backslash (String "b" EmptyString)
  else if Ascii.eqb c ch_f then String backslash (String "f" EmptyString)
  else if Ascii.eqb c ch_n then String backslash (String "n" EmptyString)
  else if Ascii.eqb c ch_r then String backslash (String "r" EmptyString)
  else if Ascii.eqb c ch_t then String backslash (String "t" EmptyString)
  else if IsControlCharacter c then format_u04x (Z.of_N (N_of_ascii c))
  else String c EmptyString.

Fixpoint escape_chars (value : string) : string :=
  match value with
  | String c value' => escape_char c ++ escape_chars value'
  | EmptyString => EmptyString
  end.

(** [ValueToStringInternal]: the text appended to the string. *)
Definition ValueToStringInternal (value : string) (quoted : bool) : string :=
  let q := if quoted then String quote EmptyString else EmptyString in
  if strpbrk_is_null value escaped_chars && negb (ContainsControlCharacter value)
  then q ++ value ++ q
  else q ++ escape_chars value ++ q.

Definition ValueToQuotedString (value : string) : string := ValueToStringInternal value true.

(** The string case of [JsonWriter::WriteValue]; [AsString()] of a null
    string pointer is the empty string. *)
Definition WriteValue_string (s : option string) : string :=
  ValueToQuotedString (match s with Some str => str | None => EmptyString end).

(** ** JsonReader: strings *)

(** [ReadString], called behind the opening quote: the number of chars
    [mCurrent] moves over, and the result.  [input] is the text from
    [mCurrent] to [mEnd]. *)
Fixpoint ReadString (input : string) : nat * bool :=
  match input with
  | EmptyString => (O, false)
  | String c rest =>
      if Ascii.eqb c backslash then
        match rest with
        | EmptyString => (1%nat, false)
        | String _ rest' => let (n, ok) := ReadString rest' in (S (S n), ok)
        end
      else if Ascii.eqb c quote then (1%nat, true)
      else let (n, ok) := ReadString rest in (S n, ok)
  end.

Definition is_hex_digit (c : ascii) : bool :=
  let n := Z.of_N (N_of_ascii c) in
  ((48 <=? n) && (n <=? 57)) || ((97 <=? n) && (n <=? 102)) || ((65 <=? n) && (n <=? 70)).

Section JsonStrings.
(** [isalnum] of <ctype.h>. *)
Variable isalnum : ascii -> bool.

Definition IsTokenChar (c : ascii) : bool := isalnum c || In_ c "_@.-+=".

(** The loop of [DecodeString(Token&, String&)] from [current] to [end]:
    the decoded string, or nothing when an error is added and [false]
    returned.  The number read by [DecodeUnicodeEscapeSequence] is not
    used. *)
Fixpoint decode_chars (quoted : bool) (text decoded : string) : option string :=
  match text with
  | EmptyString => Some decoded
  | String c rest =>
      if (if quoted then Ascii.eqb c quote else negb (IsTokenChar c)) then Some decoded
      else if Ascii.eqb c backslash then
        match rest with
        | EmptyString => None
        | String escape rest' =>
            if Ascii.eqb escape quote
            then decode_chars quoted rest' (decoded ++ String quote EmptyString)
            else if Ascii.eqb escape "/"
            then decode_chars quoted rest' (decoded ++ "/")
            else if Ascii.eqb escape backslash
            then decode_chars quoted rest' (decoded ++ String backslash EmptyString)
            else if Ascii.eqb escape "b"
            then decode_chars quoted rest' (decoded ++ String ch_b EmptyString)
            else if Ascii.eqb escape "f"
            then decode_chars quoted rest' (decoded ++ String ch_f EmptyString)
            else if Ascii.eqb escape "n"
            then decode_chars quoted rest' (decoded ++ String ch_n EmptyString)
            else if Ascii.eqb escape "r"
            then decode_chars quoted rest' (decoded ++ String ch_r EmptyString)
            else if Ascii.eqb escape "t"
            then decode_chars quoted rest' (decoded ++ String ch_t EmptyString)
            else if Ascii.eqb escape "u" then
              match rest' with
              | String h1 (String h2 (String h3 (String h4 rest''))) =>
                  if is_hex_digit h1 && is_hex_digit h2 && is_hex_digit h3 && is_hex_digit h4
                  then decode_chars quoted rest'' decoded
                  else None
              | _ => None
              end
            else None
        end
      else decode_chars quoted rest (decoded ++ String c EmptyString)
  end.

(** [end--]: the text without its last char. *)
Fixpoint without_last (text : string) : string :=
  match text with
  | EmptyString => EmptyString
  | String c EmptyString => EmptyString
  | String c text' => String c (without_last text')
  end.

(** [DecodeString]: [token] is the text of the token, with its quotes when
    it has them. *)
Definition DecodeString (token : string) : option string :=
  let quoted := Ascii.eqb (char_at_or_nul token 0) quote in
  let text := if quoted then without_last (advance_by 1 token) else token in
  decode_chars quoted text EmptyString.
End JsonStrings.

(** The chars that do not come back: the controls that are written as
    [\u00XX]. *)
Definition is_lost (c : ascii) : bool :=
  IsControlCharacter c && negb (one_of c escaped_chars).

Fixpoint without_lost (s : string) : string :=
  match s with
  | String c s' => if is_lost c then without_lost s' else String c (without_lost s')
  | EmptyString => EmptyString
  end.

Fixpoint has_lost_char (s : string) : bool :=
  match s with
  | String c s' => is_lost c || has_lost_char s'
  | EmptyString => false
  end.

(** ** String.hpp: IDFromString; Value.cpp: AsID *)

Definition kFNVPrime32 : Z := 16777619.
Definition kFNVOffset32 : Z := 2166136261.

Section IDs.
(** Whether the plain [char] of the platform is signed. *)
Variable char_is_signed : bool.

(** The loop of [IDFromString]: [(hashValue ^ tolower(c)) * kFNVPrime32] in
    [uint32_t]; the [int] that [tolower] returns is converted to
    [uint32_t] for the xor.  [tolower] is the one of [EqualI]. *)
Fixpoint IDFromString_loop (s : string) (hashValue : Z) : Z :=
  match s with
  | String c s' =>
      IDFromString_loop s'
        (to_uint32 (Z.lxor hashValue (to_uint32 (char_to_int char_is_signed (tolower c)))
                    * kFNVPrime32))
  | EmptyString => hashValue
  end.

Definition IDFromString (s : string) : Z :=
  Z.lor (IDFromString_loop s kFNVOffset32) 2147483648.

(** [Value::AsID]. *)
Definition AsID (v : Value) (defaultValue : Z) : Z :=
  match v with
  | VString s =>
      match s with
      | Some str => IDFromString str
      | None => defaultValue
      end
  | VUInt u => u
  | VInt i => if i <? 0 then 0 else to_uint32 i
  | VInt64 i => if i <? 0 then 0 else to_uint32 i
  | VUInt64 u => if UINT32_MAX <? u then UINT32_MAX else to_uint32 u
  | _ => defaultValue
  end.
End IDs.

(** ** Value.cpp: SetFromValue and SetFromArray at [int] *)

Definition IsNumeric (v : Value) : bool :=
  match v with
  | VBool _ | VInt _ | VUInt _ | VInt64 _ | VUInt64 _ | VDouble _ => true
  | _ => false
  end.

Fixpoint map_outcome {A B : Type} (f : A -> outcome B) (l : list A) : outcome (list B) :=
  match l with
  | [] => Defined []
  | a :: l' =>
      match f a, map_outcome f l' with
      | Defined b, Defined r => Defined (b :: r)
      | _, _ => Undefined
      end
  end.

(** [SetFromValue] into a [std::vector<int>]: the result and the vector
    after the call.  [AsArray()] dereferences the array pointer,
    which is null for a Value made by [ToArray] or [Value(kValueArray)];
    only the first element is tested with [IsNumeric]. *)
Definition SetFromValue_int (value : Value) (v : list Z) : outcome (bool * list Z) :=
  match value with
  | VArray a =>
      match a with
      | None => Undefined
      | Some av =>
          match av with
          | [] => Defined (false, v)
          | first :: _ =>
              if negb (IsNumeric first) then Defined (false, v)
              else
                match map_outcome (fun x => AsInt x 0) av with
                | Defined r => Defined (true, r)
                | Undefined => Undefined
                end
          end
      end
  | _ =>
      if IsNumeric value then
        match AsInt value 0 with
        | Defined x => Defined (true, [x])
        | Undefined => Undefined
        end
      else Defined (false, v)
  end.

(** [SetFromArray] from a [std::vector<int>]: [MakeArray(n)], and each
    element assigned from its [int]. *)
Definition SetFromArray_int (array : list Z) : Value := VArray (Some (map VInt array)).

(** ** Strings of chars below 128, without the terminator inside *)

Fixpoint is_ascii_text (s : string) : bool :=
  match s with
  | String c s' =>
      let n := Z.of_N (N_of_ascii c) in (0 <? n) && (n <? 128) && is_ascii_text s'
  | EmptyString => true
  end.

Fixpoint has_no_nul (s : string) : bool :=
  match s with
  | String c s' => negb (Ascii.eqb c zero) && has_no_nul s'
  | EmptyString => true
  end.

(** * ValueJson.cpp: the reader, and the writer on one line *)

(** ** JsonReader: tokens *)

Inductive TokenType : Type :=
| kTokenEndOfStream
| kTokenObjectBegin
| kTokenObjectEnd
| kTokenArrayBegin
| kTokenArrayEnd
| kTokenString
| kTokenNumber
| kTokenMinusInfinity
| kTokenInfinity
| kTokenNaN
| kTokenTrue
| kTokenFalse
| kTokenNull
| kTokenArraySeparator
| kTokenMemberSeparator
| kTokenComment
| kTokenError.

Definition TokenType_index (t : TokenType) : Z :=
  match t with
  | kTokenEndOfStream => 0
  | kTokenObjectBegin => 1
  | kTokenObjectEnd => 2
  | kTokenArrayBegin => 3
  | kTokenArrayEnd => 4
  | kTokenString => 5
  | kTokenNumber => 6
  | kTokenMinusInfinity => 7
  | kTokenInfinity => 8
  | kTokenNaN => 9
  | kTokenTrue => 10
  | kTokenFalse => 11
  | kTokenNull => 12
  | kTokenArraySeparator => 13
  | kTokenMemberSeparator => 14
  | kTokenComment => 15
  | kTokenError => 16
  end.

Definition TokenType_eqb (a b : TokenType) : bool :=
  TokenType_index a =? TokenType_index b.

(** A token: its type and the text from [mStart] to [mEnd]. *)
Record Token : Type := mkJsonToken {
  mType : TokenType;
  mText : string
}.

(** The reader: the text from [mCurrent] to [mEnd], and the number of
    errors in [mErrors], whose messages are left out.  The options have
    the values they are initialised with: no comments are collected,
    unquoted strings and trailing commas are allowed. *)
Record JsonReader : Type := mkJsonReader {
  mCurrent : string;
  mErrors : nat
}.

Definition at_text (rd : JsonReader) (text : string) : JsonReader :=
  mkJsonReader text (mErrors rd).

Definition AddError (rd : JsonReader) : JsonReader :=
  mkJsonReader (mCurrent rd) (S (mErrors rd)).

(** How a call of the reader ends: it returns, or it negates a number
    that cannot be negated; [ReadOutOfFuel] belongs to the model only. *)
Inductive reading (A : Type) : Type :=
| ReadDone (a : A)
| ReadUndefined
| ReadOutOfFuel.

Arguments ReadDone {A} a.
Arguments ReadUndefined {A}.
Arguments ReadOutOfFuel {A}.

Definition ch_space : ascii := "032"%char.

Definition is_json_space (c : ascii) : bool :=
  Ascii.eqb c ch_space || Ascii.eqb c ch_t || Ascii.eqb c ch_r || Ascii.eqb c ch_n.

Fixpoint SkipSpaces (input : string) : string :=
  match input with
  | String c rest => if is_json_space c then SkipSpaces rest else input
  | EmptyString => input
  end.

(** [GetNextChar]: the char, and the text from [mCurrent] on afterwards. *)
Definition GetNextChar (input : string) : ascii * string :=
  match input with
  | EmptyString => (zero, input)
  | String c rest => (c, rest)
  end.

(** [ReadCStyleComment] and [ReadCppStyleComment]: the result and the text
    left. *)
Fixpoint ReadCStyleComment (input : string) : bool * string :=
  match input with
  | EmptyString => (false, input)
  | String c rest =>
      if Ascii.eqb c "*" && Ascii.eqb (char_at_or_nul rest 0) "/"
      then (true, advance_by 1 rest)
      else ReadCStyleComment rest
  end.

Fixpoint ReadCppStyleComment (input : string) : bool * string :=
  match input with
  | EmptyString => (true, input)
  | String c rest =>
      if Ascii.eqb c ch_r || Ascii.eqb c ch_n then (true, rest)
      else ReadCppStyleComment rest
  end.

Definition ReadComment (input : string) : bool * string :=
  let (c, cur) := GetNextChar input in
  if Ascii.eqb c "*" then ReadCStyleComment cur
  else if Ascii.eqb c "/" then ReadCppStyleComment cur
  else (false, cur).

Section JsonReaderModel.
(** [isalpha] and [isalnum] of <ctype.h>, and [sscanf(buffer, "%lf", &value)]
    of <stdio.h>. *)
Variable isalpha : ascii -> bool.
Variable isalnum : ascii -> bool.
Variable sscanf_lf : string -> option double.

Definition IsStartTokenChar (c : ascii) : bool :=
  isalpha c || Ascii.eqb c "_" || Ascii.eqb c "@".

(** [Match]: the result and the text left. *)
Definition Match (input pattern : string) : bool * string :=
  let patternLength := String.length pattern in
  if (String.length input <? patternLength)%nat then (false, input)
  else if negb (String.eqb (substring 0 patternLength input) pattern) then (false, input)
  else if (patternLength + 1 <? String.length input)%nat
          && IsTokenChar isalnum (char_at_or_nul input patternLength)
  then (false, input)
  else (true, advance_by patternLength input).

Fixpoint ReadUnquotedString (input : string) : string :=
  match input with
  | String c rest => if negb (IsTokenChar isalnum c) then input else ReadUnquotedString rest
  | EmptyString => input
  end.

(** The [switch] of [ReadToken] on the first char [c], with [cur] the text
    behind it: the token type, [ok], [validUnquoted] and the text left. *)
Definition ReadToken_switch (c : ascii) (cur : string) : TokenType * bool * bool * string :=
  let number := (kTokenNumber, true, false, advance_by (ReadNumber cur) cur) in
  if Ascii.eqb c "{" then (kTokenObjectBegin, true, false, cur)
  else if Ascii.eqb c "}" then (kTokenObjectEnd, true, false, cur)
  else if Ascii.eqb c "[" then (kTokenArrayBegin, true, false, cur)
  else if Ascii.eqb c "]" then (kTokenArrayEnd, true, false, cur)
  else if Ascii.eqb c quote then
    let (n, ok) := ReadString cur in (kTokenString, ok, false, advance_by n cur)
  else if Ascii.eqb c "/" then
    let (ok, cur') := ReadComment cur in (kTokenComment, ok, false, cur')
  else if Ascii.eqb c "-" then
    let (m1, cur1) := Match cur "Infinity" in
    if m1 then (kTokenMinusInfinity, true, false, cur1)
    else
      let (m2, cur2) := Match cur "inf" in
      if m2 then (kTokenMinusInfinity, true, false, cur2)
      else number
  else if is_decimal_digit c || Ascii.eqb c "+" then number
  else if Ascii.eqb c "I" then
    let (ok, cur') := Match cur "nfinity" in (kTokenInfinity, ok, true, cur')
  else if Ascii.eqb c "i" then
    let (ok, cur') := Match cur "nf" in (kTokenInfinity, ok, true, cur')
  else if Ascii.eqb c "N" then
    let (ok, cur') := Match cur "aN" in (kTokenNaN, ok, true, cur')
  else if Ascii.eqb c "t" then
    let (ok, cur') := Match cur "rue" in (kTokenTrue, ok, true, cur')
  else if Ascii.eqb c "f" then
    let (ok, cur') := Match cur "alse" in (kTokenFalse, ok, true, cur')
  else if Ascii.eqb c "n" then
    let (m1, cur1) := Match cur "ull" in
    if m1 then (kTokenNull, true, true, cur1)
    else
      let (m2, cur2) := Match cur "an" in
      if m2 then (kTokenNaN, true, true, cur2)
      else (kTokenError, false, true, cur2)
  else if Ascii.eqb c "," then (kTokenArraySeparator, true, false, cur)
  else if Ascii.eqb c ":" then (kTokenMemberSeparator, true, false, cur)
  else if Ascii.eqb c zero then (kTokenEndOfStream, true, false, cur)
  else (kTokenError, false, IsStartTokenChar c, cur).

(** [ReadToken]: the token and the text left. *)
Definition ReadToken (input : string) : Token * string :=
  let start := SkipSpaces input in
  let (c, cur) := GetNextChar start in
  let '(type, ok, validUnquoted, cur) := ReadToken_switch c cur in
  let '(type, ok, cur) :=
    if negb ok && validUnquoted then (kTokenString, true, ReadUnquotedString cur)
    else (type, ok, cur) in
  let type := if negb ok then kTokenError else type in
  (mkJsonToken type (substring 0 (String.length start - String.length cur) start), cur).

(** [ReadNonCommentToken]; a comment token takes two chars at least, so the
    length of the text is fuel enough. *)
Fixpoint ReadNonCommentToken_from (fuel : nat) (input : string) : Token * string :=
  let (token, cur) := ReadToken input in
  match fuel with
  | O => (token, cur)
  | S fuel' =>
      if TokenType_eqb (mType token) kTokenComment
      then ReadNonCommentToken_from fuel' cur
      else (token, cur)
  end.

Definition ReadNonCommentToken (input : string) : Token * string :=
  ReadNonCommentToken_from (String.length input) input.

(** [RecoverFromError]: tokens are read up to one of the type given, or to
    the end of the stream; the errors stay as they are. *)
Fixpoint RecoverFromError_from (fuel : nat) (skipUntilToken : TokenType) (input : string)
    : string :=
  let (skip, cur) := ReadToken input in
  match fuel with
  | O => cur
  | S fuel' =>
      if TokenType_eqb (mType skip) skipUntilToken
         || TokenType_eqb (mType skip) kTokenEndOfStream
      then cur
      else RecoverFromError_from fuel' skipUntilToken cur
  end.

Definition RecoverFromError (skipUntilToken : TokenType) (rd : JsonReader) : JsonReader :=
  at_text rd (RecoverFromError_from (String.length (mCurrent rd)) skipUntilToken (mCurrent rd)).

Definition AddErrorAndRecover (skipUntilToken : TokenType) (rd : JsonReader) : JsonReader :=
  RecoverFromError skipUntilToken (AddError rd).

(** ** JsonReader: values

    Each function gives its result, the Value of the current node
    ([*mNodes.back()]) after the call, and the reader.  [token] is the token
    being looked at and [rd] the reader behind it. *)

Definition read_result : Type := reading (bool * Value * JsonReader).

Definition assigned (v : Value) (rd : JsonReader) : read_result := ReadDone (true, v, rd).

Definition failed (node : Value) (rd : JsonReader) : read_result := ReadDone (false, node, rd).

Fixpoint ReadValue_token (fuel : nat) (token : Token) (node : Value) (rd : JsonReader)
    {struct fuel} : read_result :=
  match fuel with
  | O => ReadOutOfFuel
  | S fuel' =>
      match mType token with
      | kTokenObjectBegin => ReadObject fuel' (mkObjectValue [] 0) rd
      | kTokenArrayBegin => ReadArray fuel' [] node rd
      | kTokenNumber =>
          match DecodeNumber sscanf_lf (mText token) (mCurrent rd) with
          | Defined (Some v) => assigned v rd
          | Defined None => failed node (AddError rd)
          | Undefined => ReadUndefined
          end
      | kTokenString =>
          match DecodeString isalnum (mText token) with
          | Some decoded => assigned (VString (Some decoded)) rd
          | None => failed node (AddError rd)
          end
      | kTokenMinusInfinity => assigned (VDouble (dinfinity true)) rd
      | kTokenInfinity => assigned (VDouble (dinfinity false)) rd
      | kTokenNaN => assigned (VDouble dnan) rd
      | kTokenTrue => assigned (VBool true) rd
      | kTokenFalse => assigned (VBool false) rd
      | kTokenNull => assigned VNull rd
      | _ => failed node (AddError rd)
      end
  end

with ReadObject (fuel : nat) (objectValue : ObjectValue) (rd : JsonReader)
    {struct fuel} : read_result :=
  match fuel with
  | O => ReadOutOfFuel
  | S fuel' =>
      let (tokenName, cur) := ReadNonCommentToken (mCurrent rd) in
      let rd := at_text rd cur in
      if TokenType_eqb (mType tokenName) kTokenObjectEnd
      then assigned (VObject objectValue) rd
      else if negb (TokenType_eqb (mType tokenName) kTokenString)
      then failed (VObject objectValue) (AddErrorAndRecover kTokenObjectEnd rd)
      else
        match DecodeString isalnum (mText tokenName) with
        | None => failed (VObject objectValue) (RecoverFromError kTokenObjectEnd (AddError rd))
        | Some name =>
            let (colon, cur) := ReadNonCommentToken (mCurrent rd) in
            let rd := at_text rd cur in
            if negb (TokenType_eqb (mType colon) kTokenMemberSeparator)
            then failed (VObject objectValue) (AddErrorAndRecover kTokenObjectEnd rd)
            else
              let (o1, it) := UpdateMember objectValue name in
              let (token, cur) := ReadNonCommentToken (mCurrent rd) in
              match ReadValue_token fuel' token (deref o1 it) (at_text rd cur) with
              | ReadDone (ok, member, rd) =>
                  let objectValue := store o1 it member in
                  if negb ok
                  then failed (VObject objectValue) (RecoverFromError kTokenObjectEnd rd)
                  else
                    let (comma, cur) := ReadNonCommentToken (mCurrent rd) in
                    let rd := at_text rd cur in
                    if negb (TokenType_eqb (mType comma) kTokenObjectEnd)
                       && negb (TokenType_eqb (mType comma) kTokenArraySeparator)
                    then failed (VObject objectValue) (AddErrorAndRecover kTokenObjectEnd rd)
                    else if TokenType_eqb (mType comma) kTokenObjectEnd
                    then assigned (VObject objectValue) rd
                    else ReadObject fuel' objectValue rd
              | ReadUndefined => ReadUndefined
              | ReadOutOfFuel => ReadOutOfFuel
              end
        end
  end

with ReadArray (fuel : nat) (array : list Value) (node : Value) (rd : JsonReader)
    {struct fuel} : read_result :=
  match fuel with
  | O => ReadOutOfFuel
  | S fuel' =>
      let (token, cur) := ReadNonCommentToken (mCurrent rd) in
      let rd := at_text rd cur in
      if TokenType_eqb (mType token) kTokenArrayEnd
      then assigned (VArray (Some array)) rd
      else
        match ReadValue_token fuel' token VNull rd with
        | ReadDone (ok, element, rd) =>
            if negb ok then failed node (RecoverFromError kTokenArrayEnd rd)
            else
              let array := array ++ [element] in
              let (token, cur) := ReadNonCommentToken (mCurrent rd) in
              let rd := at_text rd cur in
              if TokenType_eqb (mType token) kTokenArrayEnd
              then assigned (VArray (Some array)) rd
              else if negb (TokenType_eqb (mType token) kTokenArraySeparator)
              then failed node (AddErrorAndRecover kTokenArrayEnd rd)
              else ReadArray fuel' array node rd
        | ReadUndefined => ReadUndefined
        | ReadOutOfFuel => ReadOutOfFuel
        end
  end.

(** [ReadValue()]. *)
Definition ReadValue (fuel : nat) (node : Value) (rd : JsonReader) : read_result :=
  let (token, cur) := ReadNonCommentToken (mCurrent rd) in
  ReadValue_token fuel token node (at_text rd cur).

(** [Read] on a document, and so [LoadJsonText]: the result and the Value of
    the root. *)
Definition Read (fuel : nat) (document : string) : reading (bool * Value) :=
  match ReadValue fuel VNull (mkJsonReader document O) with
  | ReadDone (successful, root, rd) =>
      let cur := SkipSpaces (mCurrent rd) in
      if Nat.eqb (mErrors rd) O && negb (String.eqb cur EmptyString)
      then ReadDone (false, root)
      else ReadDone (successful, root)
  | ReadUndefined => ReadUndefined
  | ReadOutOfFuel => ReadOutOfFuel
  end.
End JsonReaderModel.

(** ** JsonWriter on one line

    The writer for a format with [indent < 0], where no array is written on
    several lines: [spaces] says that [indent] is -1, for which the items
    are set apart by spaces, and [quoteKeys] is the option of that name.
    The Values carry no comments. *)

Section JsonWriterModel.
Variable isalpha : ascii -> bool.
Variable isalnum : ascii -> bool.
(** [ValueToString] at [double], with the options of the format. *)
Variable ValueToString_double : double -> string.
Variable spaces : bool.
Variable quoteKeys : bool.

(** [IsToken]: the second char is stepped over, and on a name of one char
    the loop starts behind the terminator. *)
Definition IsToken (name : string) : outcome bool :=
  if negb (IsStartTokenChar isalpha (char_at_or_nul name 0)) then Defined false
  else
    match name with
    | String _ (String _ rest) =>
        Defined (Nat.eqb (String.length (ReadUnquotedString isalnum rest)) O)
    | _ => Undefined
    end.

(** [WriteIndent] and [WriteWithIndent] for [indent < 0]. *)
Definition WriteIndent (mDocument : string) : string :=
  if spaces && negb (String.eqb mDocument EmptyString)
  then (mDocument ++ String ch_space EmptyString)%string
  else mDocument.

Definition WriteWithIndent (value mDocument : string) : string :=
  (WriteIndent mDocument ++ value)%string.

(** The name of a member, written to the document. *)
Definition write_name (name mDocument : string) : outcome string :=
  if quoteKeys then Defined (mDocument ++ ValueToQuotedString name)%string
  else
    match IsToken name with
    | Defined true => Defined (mDocument ++ ValueToStringInternal name false)%string
    | Defined false => Defined (mDocument ++ ValueToQuotedString name)%string
    | Undefined => Undefined
    end.

(** The loop of [WriteArrayValue] over the elements, for an array on one
    line, and the loop of [WriteValue] over the members of an object;
    [WriteValue] is the function called on each of them. *)
Fixpoint WriteArrayValue_elements (WriteValue : Value -> string -> outcome string)
    (xs : list Value) (first : bool) (mDocument : string) {struct xs} : outcome string :=
  match xs with
  | [] => Defined mDocument
  | x :: xs' =>
      let mDocument :=
        if first then mDocument
        else if spaces then (mDocument ++ String "," (String ch_space EmptyString))%string
        else (mDocument ++ ",")%string in
      match WriteValue x mDocument with
      | Defined mDocument => WriteArrayValue_elements WriteValue xs' false mDocument
      | Undefined => Undefined
      end
  end.

Fixpoint WriteValue_members (WriteValue : Value -> string -> outcome string)
    (ms : list (string * Value)) (mDocument : string) {struct ms} : outcome string :=
  match ms with
  | [] => Defined mDocument
  | m :: ms' =>
      match write_name (fst m) (WriteIndent mDocument) with
      | Defined mDocument =>
          let mDocument :=
            if spaces then (mDocument ++ String ":" (String ch_space EmptyString))%string
            else (mDocument ++ ":")%string in
          match WriteValue (snd m) mDocument with
          | Defined mDocument =>
              let mDocument :=
                match ms' with
                | [] => mDocument
                | _ :: _ => (mDocument ++ ",")%string
                end in
              WriteValue_members WriteValue ms' mDocument
          | Undefined => Undefined
          end
      | Undefined => Undefined
      end
  end.

(** [PushValue] while no child values are collected. *)
Definition PushValue (text : outcome string) (mDocument : string) : outcome string :=
  match text with
  | Defined t => Defined (mDocument ++ t)%string
  | Undefined => Undefined
  end.

(** [WriteValue] and [WriteArrayValue]: the document after the call. *)
Fixpoint WriteValue (value : Value) (mDocument : string) {struct value} : outcome string :=
  match value with
  | VNull => PushValue (Defined "null"%string) mDocument
  | VInt x => PushValue (ValueToString_int64 (to_int64 x)) mDocument
  | VUInt x => PushValue (Defined (ValueToString_uint64 (to_uint64 x))) mDocument
  | VInt64 x => PushValue (ValueToString_int64 x) mDocument
  | VUInt64 x => PushValue (Defined (ValueToString_uint64 x)) mDocument
  | VDouble d => PushValue (Defined (ValueToString_double d)) mDocument
  | VString s => PushValue (Defined (WriteValue_string s)) mDocument
  | VBool b => PushValue (Defined (if b then "true" else "false")%string) mDocument
  | VArray a =>
      match a with
      | None | Some [] => PushValue (Defined "[]"%string) mDocument
      | Some data =>
          match WriteArrayValue_elements WriteValue data true (mDocument ++ "[")%string with
          | Defined mDocument => Defined (mDocument ++ "]")%string
          | Undefined => Undefined
          end
      end
  | VObject o =>
      match mMap o with
      | [] => PushValue (Defined "{}"%string) mDocument
      | members =>
          match WriteValue_members WriteValue members (WriteWithIndent "{" mDocument) with
          | Defined mDocument => Defined (WriteWithIndent "}" mDocument)
          | Undefined => Undefined
          end
      end
  end.

(** [JsonWriter::Write], and so [AsJson]. *)
Definition Write (root : Value) : outcome string := WriteValue root EmptyString.
End JsonWriterModel.

(** ** What a written Value is read as *)

(** The Values whose text is read back: no double, which goes through
    [snprintf] and [sscanf]; no [INT64_MIN] and no -2^31, which the
    writer and the reader negate; numbers that fit their type; and in an
    object, members sorted by key whose names have no char that is lost. *)
Fixpoint writable (v : Value) : bool :=
  match v with
  | VNull => true
  | VBool _ => true
  | VInt x => is_int32 x && negb (x =? INT32_MIN)
  | VUInt x => is_uint32 x
  | VInt64 x => is_int64 x && negb (x =? INT64_MIN) && negb (x =? INT32_MIN)
  | VUInt64 x => is_uint64 x
  | VDouble _ => false
  | VString _ => true
  | VArray a =>
      match a with
      | Some data => forallb writable data
      | None => true
      end
  | VObject o =>
      is_sorted (mMap o)
      && forallb (fun m => negb (has_lost_char (fst m)) && writable (snd m)) (mMap o)
  end.

(** The Value read: an integer in the narrowest kind, a string without the
    chars that are lost, an array with an array of its own, and an object
    whose counter has counted its members. *)
Fixpoint read_back (v : Value) : Value :=
  match v with
  | VInt x => narrowest x
  | VUInt x => narrowest x
  | VInt64 x => narrowest x
  | VUInt64 x => narrowest x
  | VString s =>
      VString (Some (without_lost (match s with Some str => str | None => EmptyString end)))
  | VArray a =>
      match a with
      | Some data => VArray (Some (map read_back data))
      | None => VArray (Some [])
      end
  | VObject o =>
      VObject (mkObjectValue (map (fun m => (fst m, read_back (snd m))) (mMap o))
                 (to_uint32 (Z.of_nat (List.length (mMap o)))))
  | _ => v
  end.

(** Fuel that is enough to read the text of [v]. *)
Fixpoint fuel_for (v : Value) : nat :=
  match v with
  | VArray a =>
      match a with
      | Some data => S (S (fold_right (fun x n => S (fuel_for x + n)) O data))
      | None => 2
      end
  | VObject o => S (S (fold_right (fun m n => S (fuel_for (snd m) + n)) O (mMap o)))
  | _ => 1
  end%nat.

(** The text behind a value: nothing, or a separator, a closing bracket or
    a space. *)
Definition is_delimiter (c : ascii) : bool :=
  Ascii.eqb c "," || Ascii.eqb c "]" || Ascii.eqb c "}" || Ascii.eqb c ch_space.

Definition delimited (rest : string) : bool :=
  match rest with
  | EmptyString => true
  | String c _ => is_delimiter c
  end.

(** The text [t] is read as [read_back v]: in front of any text [rest] of
    that kind its first token is no comment and no closing bracket, and
    [ReadValue] on that token, with fuel enough, takes the text up to [rest]
    and assigns [read_back v] to the current node, without an error. *)
Definition reads_back (isalpha isalnum : ascii -> bool) (sscanf_lf : string -> option double)
    (v : Value) (t : string) : Prop :=
  forall rest : string,
    delimited rest = true ->
    exists (token : Token) (cur : string),
      ReadToken isalpha isalnum (t ++ rest) = (token, cur)
      /\ TokenType_eqb (mType token) kTokenComment = false
      /\ TokenType_eqb (mType token) kTokenArrayEnd = false
      /\ forall (fuel : nat) (node : Value) (errors : nat),
           (fuel_for v <= fuel)%nat ->
           ReadValue_token isalpha isalnum sscanf_lf fuel token node (mkJsonReader cur errors)
           = ReadDone (true, read_back v, mkJsonReader rest errors).

(** [v] is written, and what is written is read as [read_back v]: with
    member names in quotes, the writer adds a text [t] to any document,
    and that text is read back. *)
Definition written_and_read (isalpha isalnum : ascii -> bool)
    (sscanf_lf : string -> option double) (ValueToString_double : double -> string)
    (spaces : bool) (v : Value) : Prop :=
  writable v = true ->
  forall doc : string,
  exists t : string,
    WriteValue isalpha isalnum ValueToString_double spaces true v doc
    = Defined (doc ++ t)%string
    /\ reads_back isalpha isalnum sscanf_lf v t.

(** [isalpha] and [isalnum] in the "C" locale. *)
Definition isalpha_C (c : ascii) : bool :=
  let n := Z.of_N (N_of_ascii c) in
  ((65 <=? n) && (n <=? 90)) || ((97 <=? n) && (n <=? 122)).

Definition isalnum_C (c : ascii) : bool := isalpha_C c || is_decimal_digit c.

(** A call of the reader returns, or stops at a number that it cannot
    negate, and leaves at most [n] chars of the text. *)
Definition returns_within (n : nat) (r : read_result) : Prop :=
  match r with
  | ReadDone (_, _, rd) => (String.length (mCurrent rd) <= n)%nat
  | ReadUndefined => True
  | ReadOutOfFuel => False
  end.

(** The text holds the two chars that end a comment in C style; the text
    holds the end of a line. *)
Fixpoint has_comment_end (s : string) : bool :=
  match s with
  | String c rest =>
      (Ascii.eqb c "*" && Ascii.eqb (char_at_or_nul rest 0) "/") || has_comment_end rest
  | EmptyString => false
  end.

Fixpoint has_line_end (s : string) : bool :=
  match s with
  | String c rest => Ascii.eqb c ch_r || Ascii.eqb c ch_n || has_line_end rest
  | EmptyString => false
  end.

(** The result of a call of the reader tells whether an error was added:
    [rd] is the reader before the call, and [rd'] the reader after it. *)
Definition errors_tell (rd : JsonReader) (ok : bool) (rd' : JsonReader) : Prop :=
  if ok then mErrors rd' = mErrors rd else (mErrors rd < mErrors rd')%nat.

(** * Properties *)

(** ** Integers and doubles *)

Lemma to_int32_id z : is_int32 z = true -> to_int32 z = z.
Proof.
  unfold is_int32, to_int32, INT32_MIN, INT32_MAX. intros H.
  apply andb_prop in H as [H1 H2]. apply Z.leb_le in H1, H2.
  rewrite Z.mod_small by lia. lia.
Qed.

Lemma to_uint32_id z : is_uint32 z = true -> to_uint32 z = z.
Proof.
  unfold is_uint32, to_uint32, UINT32_MAX. intros H.
  apply andb_prop in H as [H1 H2]. apply Z.leb_le in H1, H2.
  apply Z.mod_small. lia.
Qed.

Lemma to_int64_id z : is_int64 z = true -> to_int64 z = z.
Proof.
  unfold is_int64, to_int64, INT64_MIN, INT64_MAX. intros H.
  apply andb_prop in H as [H1 H2]. apply Z.leb_le in H1, H2.
  rewrite Z.mod_small by lia. lia.
Qed.

Lemma to_uint64_id z : is_uint64 z = true -> to_uint64 z = z.
Proof.
  unfold is_uint64, to_uint64, UINT64_MAX. intros H.
  apply andb_prop in H as [H1 H2]. apply Z.leb_le in H1, H2.
  apply Z.mod_small. lia.
Qed.

Lemma inc_mod_range c : is_uint32 (inc_mod c) = true.
Proof.
  unfold inc_mod, to_uint32, is_uint32, UINT32_MAX.
  pose proof (Z.mod_pos_bound (c + 1) (2 ^ 32) ltac:(lia)) as H.
  apply andb_true_intro. split; apply Z.leb_le; lia.
Qed.

Lemma inc_mod_neq c : is_uint32 c = true -> inc_mod c <> c.
Proof.
  unfold inc_mod, to_uint32, is_uint32, UINT32_MAX. intros H.
  apply andb_prop in H as [H1 H2]. apply Z.leb_le in H1, H2.
  destruct (Z.eq_dec c 4294967295) as [->|Hc].
  - vm_compute. discriminate.
  - rewrite Z.mod_small by lia. lia.
Qed.

Lemma inc_mod_twice c : inc_mod (inc_mod c) = to_uint32 (c + 2).
Proof.
  unfold inc_mod, to_uint32.
  rewrite Z.add_mod_idemp_l by lia. f_equal. lia.
Qed.

Lemma inc_mod_twice_neq c : is_uint32 c = true -> inc_mod (inc_mod c) <> c.
Proof.
  intros H. rewrite inc_mod_twice.
  unfold to_uint32, is_uint32, UINT32_MAX in *.
  apply andb_prop in H as [H1 H2]. apply Z.leb_le in H1, H2.
  destruct (Z_lt_ge_dec (c + 2) (2 ^ 32)) as [Hlt|Hge].
  - rewrite Z.mod_small by lia. lia.
  - replace (c + 2) with ((c + 2 - 2 ^ 32) + 1 * 2 ^ 32) by lia.
    rewrite Z.mod_add by lia. rewrite Z.mod_small by lia. lia.
Qed.

(** ** C6: the integer sources saturate *)

Ltac bool_to_Z :=
  repeat match goal with
  | H : (_ && _)%bool = true |- _ => apply andb_prop in H as [? ?]
  | H : (_ <=? _) = true |- _ => apply Z.leb_le in H
  | H : (_ <? _) = true |- _ => apply Z.ltb_lt in H
  | H : (_ <? _) = false |- _ => apply Z.ltb_ge in H
  | H : (_ <=? _) = false |- _ => apply Z.leb_gt in H
  | H : (_ =? _) = true |- _ => apply Z.eqb_eq in H
  | H : (_ =? _) = false |- _ => apply Z.eqb_neq in H
  end.

Ltac case_ltb :=
  repeat match goal with
  | |- context [?a <? ?b] => destruct (a <? b) eqn:?
  end.

Lemma mod_small_32 z : 0 <= z < 2 ^ 32 -> z mod 2 ^ 32 = z.
Proof. intros. apply Z.mod_small. lia. Qed.

Lemma mod_small_64 z : 0 <= z < 2 ^ 64 -> z mod 2 ^ 64 = z.
Proof. intros. apply Z.mod_small. lia. Qed.

(** Every integer source: the coercion yields the payload saturated at the
    bounds of the destination. *)
Lemma integer_sources_saturate (v : Value) (kind : ValueType) (z : Z) :
  is_integer_value v = true -> payload_ok v = true -> is_integer_kind kind = true ->
  exact_value v = Some z ->
  As kind v = Defined (saturate (kind_min kind) (kind_max kind) z).
Proof.
  intros Hv Hok Hk Hz.
  destruct v; try discriminate Hv; simpl in Hz; injection Hz as <-;
    destruct kind; try discriminate Hk; simpl in Hok;
    unfold As, AsInt, AsUInt, AsInt64, AsUInt64, saturate, kind_min, kind_max,
      is_int32, is_uint32, is_int64, is_uint64,
      to_int32, to_uint32, to_int64, to_uint64,
      INT32_MIN, INT32_MAX, UINT32_MAX, INT64_MIN, INT64_MAX, UINT64_MAX in *;
    try (destruct mBool; reflexivity);
    bool_to_Z; case_ltb; bool_to_Z; try lia; f_equal;
    try (rewrite mod_small_32 by lia); try (rewrite mod_small_64 by lia); lia.
Qed.

Lemma integer_sources_saturate_witness :
  As kValueUInt (VInt64 (-5)) = Defined 0 /\ As kValueInt (VUInt64 5000000000) = Defined INT32_MAX.
Proof.
  split.
  - apply (integer_sources_saturate (VInt64 (-5)) kValueUInt (-5)); reflexivity.
  - apply (integer_sources_saturate (VUInt64 5000000000) kValueInt 5000000000); reflexivity.
Defined.

(** C6, where the code leaves the claim.  [double(INT64_MAX)] rounds up to
    2^63, so the double 2^63 is not greater than it and reaches the
    conversion [int64_t(mValue.mDouble)], whose value 2^63 is outside
    [int64_t]: the result is undefined, not [INT64_MAX].  The same happens
    to [AsUInt64] at 2^64, since [double(UINT64_MAX)] is 2^64. *)
Theorem AsInt64_double_limit_not_saturated :
  is_double d_2_63 = true
  /\ trunc d_2_63 = Some (INT64_MAX + 1)
  /\ double_of_Z INT64_MAX = d_2_63
  /\ AsInt64 (VDouble d_2_63) 0 = Undefined
  /\ AsInt64 (VDouble d_2_63) 0 <> Defined INT64_MAX
  /\ trunc d_2_64 = Some (UINT64_MAX + 1)
  /\ AsUInt64 (VDouble d_2_64) 0 = Undefined.
Proof.
  repeat split; try reflexivity. vm_compute. discriminate.
Qed.

(** ** C2: Elt *)

Lemma Elt_not_array (v : Value) (index : Z) :
  IsArray v = false -> Elt v index = Defined kNullValue.
Proof. destruct v; simpl; intros H; try reflexivity; discriminate H. Qed.

Lemma Elt_in_range (data : list Value) (index : Z) :
  0 <= index < NumElts (VArray (Some data)) ->
  exists x, nth_error data (Z.to_nat index) = Some x
            /\ Elt (VArray (Some data)) index = Defined x.
Proof.
  simpl. intros [H0 H1]. unfold ArrayValue_index.
  destruct (index <? 0) eqn:E; [apply Z.ltb_lt in E; lia|].
  destruct (nth_error data (Z.to_nat index)) as [x|] eqn:Hn.
  - exists x. split; reflexivity.
  - apply nth_error_None in Hn. lia.
Qed.

Lemma Elt_out_of_range (data : list Value) (index : Z) :
  index < 0 \/ NumElts (VArray (Some data)) <= index ->
  Elt (VArray (Some data)) index = Undefined.
Proof.
  simpl. intros H. unfold ArrayValue_index.
  destruct (index <? 0) eqn:E; [reflexivity|]. apply Z.ltb_ge in E.
  destruct (nth_error data (Z.to_nat index)) as [x|] eqn:Hn; [|reflexivity].
  assert (nth_error data (Z.to_nat index) <> None) as Hs by congruence.
  apply nth_error_Some in Hs. lia.
Qed.

(** C2, where the code leaves the claim.  On an array, [Elt] indexes the
    payload without comparing the index with [NumElts()]: one past the end,
    a negative index, or any index on a null array pointer is an access
    outside the payload, not the null Value. *)
Theorem Elt_index_is_not_checked :
  NumElts (VArray (Some [VInt 1])) = 1
  /\ Elt (VArray (Some [VInt 1])) 1 = Undefined
  /\ Elt (VArray (Some [VInt 1])) (-1) = Undefined
  /\ Elt (VArray None) 0 = Undefined
  /\ Elt (VArray (Some [VInt 1])) 1 <> Defined kNullValue.
Proof. repeat split; try reflexivity. discriminate. Qed.

(** ** C3: what IsConvertibleTo tests *)

Lemma digits2_pos_bound (m : positive) : Zpos m < 2 ^ Zpos (digits2_pos m).
Proof.
  induction m as [m IH|m IH|]; simpl digits2_pos.
  - rewrite Pos2Z.inj_succ, Z.pow_succ_r by lia. lia.
  - rewrite Pos2Z.inj_succ, Z.pow_succ_r by lia. lia.
  - reflexivity.
Qed.

Lemma double_mantissa_bound (s : bool) (m : positive) (e : Z) :
  is_double (S754_finite s m e) = true -> Zpos m < 2 ^ 53.
Proof.
  unfold is_double, valid_binary, bounded, canonical_mantissa, fexp, emin, dprec, demax.
  intros H. apply andb_prop in H as [H _]. apply Z.eqb_eq in H.
  pose proof (digits2_pos_bound m) as Hm.
  assert (Zpos (digits2_pos m) <= 53) as Hd by lia.
  eapply Z.lt_le_trans; [exact Hm|]. apply Z.pow_le_mono_r; lia.
Qed.

Lemma double_of_INT32_MIN : double_of_Z INT32_MIN = S754_finite true 4503599627370496 (-21).
Proof. vm_compute. reflexivity. Qed.

Lemma double_of_INT32_MAX : double_of_Z INT32_MAX = S754_finite false 9007199250546688 (-22).
Proof. vm_compute. reflexivity. Qed.

Lemma double_of_UINT32_MAX : double_of_Z UINT32_MAX = S754_finite false 9007199252643840 (-21).
Proof. vm_compute. reflexivity. Qed.

(** A quotient by a power of two that is at least 2^k. *)
Lemma shift_bound (m k n : Z) : 0 <= m < 2 ^ 53 -> 0 <= k <= 53 -> k <= n ->
  0 <= m / 2 ^ n < 2 ^ (53 - k) + 1.
Proof.
  intros Hm Hk Hn.
  assert (0 < 2 ^ n) as Hp by (apply Z.pow_pos_nonneg; lia).
  split; [apply Z.div_pos; lia|].
  assert (m / 2 ^ n <= m / 2 ^ k) as Hle.
  { apply Z.div_le_compat_l; [lia|]. split; [apply Z.pow_pos_nonneg; lia|].
    apply Z.pow_le_mono_r; lia. }
  assert (m / 2 ^ k < 2 ^ (53 - k)) as Hlt.
  { apply Z.div_lt_upper_bound; [apply Z.pow_pos_nonneg; lia|].
    rewrite <- Z.pow_add_r by lia. replace (k + (53 - k)) with 53 by lia. lia. }
  lia.
Qed.

Lemma compare_cont_Z (a b : positive) :
  Pos.compare_cont Eq a b = Z.compare (Zpos a) (Zpos b).
Proof. reflexivity. Qed.

(** A double inside the range of int32_t truncates to an int32_t. *)
Lemma double_in_int32_range (d : double) :
  is_double d = true ->
  dle (double_of_Z INT32_MIN) d = true -> dle d (double_of_Z INT32_MAX) = true ->
  exists z, trunc d = Some z /\ INT32_MIN <= z <= INT32_MAX.
Proof.
  rewrite double_of_INT32_MIN, double_of_INT32_MAX. unfold dle, SFleb.
  intros Hd Hlo Hhi. destruct d as [s|s| |s m e].
  - exists 0. split; [reflexivity|]. unfold INT32_MIN, INT32_MAX. lia.
  - destruct s; discriminate.
  - discriminate.
  - pose proof (double_mantissa_bound s m e Hd) as Hm.
    assert (0 <= Zpos m < 2 ^ 53) as Hm' by lia.
    clear Hd. cbn [SFcompare] in Hlo, Hhi. unfold trunc.
    destruct s.
    + (* negative *)
      clear Hhi.
      destruct (Z.compare_spec (-21) e) as [He|He|He]; try discriminate.
      * subst e. rewrite compare_cont_Z in Hlo.
        assert (Zpos m <= 4503599627370496) as Hle.
        { destruct (Z.compare_spec 4503599627370496 (Zpos m)); try discriminate; lia. }
        exists (- (Zpos m / 2 ^ 21)). split; [reflexivity|].
        assert (Zpos m / 2 ^ 21 <= 4503599627370496 / 2 ^ 21) by (apply Z.div_le_mono; lia).
        assert (0 <= Zpos m / 2 ^ 21) by (apply Z.div_pos; lia).
        replace (4503599627370496 / 2 ^ 21) with 2147483648 in * by (vm_compute; reflexivity).
        unfold INT32_MIN, INT32_MAX. lia.
      * destruct (0 <=? e) eqn:E; [apply Z.leb_le in E; lia|].
        eexists. split; [reflexivity|].
        pose proof (shift_bound (Zpos m) 22 (- e) Hm' ltac:(lia) ltac:(lia)) as Hb.
        replace (2 ^ (53 - 22) + 1) with 2147483649 in Hb by (vm_compute; reflexivity).
        unfold INT32_MIN, INT32_MAX. lia.
    + (* positive *)
      clear Hlo.
      destruct (Z.compare_spec e (-22)) as [He|He|He]; try discriminate.
      * subst e. rewrite compare_cont_Z in Hhi.
        exists (Zpos m / 2 ^ 22). split; [reflexivity|].
        assert (Zpos m <= 9007199250546688) as Hle.
        { destruct (Z.compare_spec (Zpos m) 9007199250546688); try discriminate; lia. }
        assert (Zpos m / 2 ^ 22 <= 9007199250546688 / 2 ^ 22) by (apply Z.div_le_mono; lia).
        assert (0 <= Zpos m / 2 ^ 22) by (apply Z.div_pos; lia).
        replace (9007199250546688 / 2 ^ 22) with 2147483647 in * by (vm_compute; reflexivity).
        unfold INT32_MIN, INT32_MAX. lia.
      * destruct (0 <=? e) eqn:E; [apply Z.leb_le in E; lia|].
        eexists. split; [reflexivity|].
        pose proof (shift_bound (Zpos m) 23 (- e) Hm' ltac:(lia) ltac:(lia)) as Hb.
        replace (2 ^ (53 - 23) + 1) with 1073741825 in Hb by (vm_compute; reflexivity).
        unfold INT32_MIN, INT32_MAX. lia.
Qed.

(** A double inside the range of uint32_t truncates to a uint32_t. *)
Lemma double_in_uint32_range (d : double) :
  is_double d = true ->
  dle dzero d = true -> dle d (double_of_Z UINT32_MAX) = true ->
  exists z, trunc d = Some z /\ 0 <= z <= UINT32_MAX.
Proof.
  rewrite double_of_UINT32_MAX. unfold dle, SFleb, dzero.
  intros Hd Hlo Hhi. destruct d as [s|s| |s m e].
  - exists 0. split; [reflexivity|]. unfold UINT32_MAX. lia.
  - destruct s; discriminate.
  - discriminate.
  - pose proof (double_mantissa_bound s m e Hd) as Hm.
    assert (0 <= Zpos m < 2 ^ 53) as Hm' by lia.
    clear Hd. cbn [SFcompare] in Hlo, Hhi. unfold trunc.
    destruct s; [discriminate|]. clear Hlo.
    destruct (Z.compare_spec e (-21)) as [He|He|He]; try discriminate.
    + subst e. rewrite compare_cont_Z in Hhi.
      exists (Zpos m / 2 ^ 21). split; [reflexivity|].
      assert (Zpos m <= 9007199252643840) as Hle.
      { destruct (Z.compare_spec (Zpos m) 9007199252643840); try discriminate; lia. }
      assert (Zpos m / 2 ^ 21 <= 9007199252643840 / 2 ^ 21) by (apply Z.div_le_mono; lia).
      assert (0 <= Zpos m / 2 ^ 21) by (apply Z.div_pos; lia).
      replace (9007199252643840 / 2 ^ 21) with 4294967295 in * by (vm_compute; reflexivity).
      unfold UINT32_MAX. lia.
    + destruct (0 <=? e) eqn:E; [apply Z.leb_le in E; lia|].
      eexists. split; [reflexivity|].
      pose proof (shift_bound (Zpos m) 22 (- e) Hm' ltac:(lia) ltac:(lia)) as Hb.
      replace (2 ^ (53 - 22) + 1) with 2147483649 in Hb by (vm_compute; reflexivity).
      unfold UINT32_MAX. lia.
Qed.

Lemma SFcompare_antisym (a b : double) :
  SFcompare b a = option_map CompOpp (SFcompare a b).
Proof.
  destruct a as [sa|sa| |sa ma ea], b as [sb|sb| |sb mb eb]; simpl;
    try reflexivity;
    try (destruct sa; reflexivity); try (destruct sb; reflexivity);
    try (destruct sa, sb; reflexivity).
  rewrite (Z.compare_antisym ea eb).
  pose proof (Pos.compare_cont_antisym ma mb Eq) as Hm.
  change (CompOpp Eq) with Eq in Hm. rewrite <- Hm. clear Hm.
  destruct sa, sb; simpl; try reflexivity;
    destruct (ea ?= eb)%Z; simpl; try reflexivity;
    destruct (Pos.compare_cont Eq ma mb); reflexivity.
Qed.

Lemma dle_not_dlt (a b : double) : dle a b = true -> dlt b a = false.
Proof.
  unfold dle, dlt, SFleb, SFltb. rewrite (SFcompare_antisym a b).
  destruct (SFcompare a b) as [[| |]|]; simpl; try discriminate; reflexivity.
Qed.

(** When a double has an integral value, it is the truncated one. *)
Lemma integral_value_trunc (d : double) (z : Z) :
  integral_value d = Some z -> trunc d = Some z.
Proof.
  destruct d as [s|s| |s m e]; simpl; try discriminate; try (intros H; exact H).
  destruct (0 <=? e); [intros H; exact H|].
  destruct (Zpos m mod 2 ^ (- e) =? 0); [intros H; exact H|discriminate].
Qed.

(** C3.  [IsConvertibleTo] is documented in [Value.hpp] as returning true
    if the Value is losslessly convertible to the kind.  It tests ranges:
    1.5 is reported convertible to int32, and AsInt returns 1; the string
    "hello" is reported convertible to bool, and AsBool returns false.  And
    for a uint64 and the kind int64 it compares with [(unsigned) INT64_MAX],
    which is 4294967295: the uint64 4294967296 is reported not convertible
    to int64, and AsInt64 returns it unchanged.  So the result is not that
    of the round trip, in either direction. *)
Lemma IsConvertibleTo_accepts_lossy_coercions :
  is_double d_1_5 = true
  /\ IsConvertibleTo (VDouble d_1_5) kValueInt = true
  /\ AsInt (VDouble d_1_5) 0 = Defined 1
  /\ integral_value d_1_5 = None
  /\ returns_unchanged (VDouble d_1_5) kValueInt = false
  /\ IsConvertibleTo (VString (Some "hello"%string)) kValueBool = true
  /\ AsBool (VString (Some "hello"%string)) false = false
  /\ returns_unchanged (VString (Some "hello"%string)) kValueBool = false
  /\ to_unsigned INT64_MAX = 4294967295
  /\ IsConvertibleTo (VUInt64 4294967296) kValueInt64 = false
  /\ AsInt64 (VUInt64 4294967296) 0 = Defined 4294967296
  /\ returns_unchanged (VUInt64 4294967296) kValueInt64 = true
  /\ ~ (forall v kind, IsConvertibleTo v kind = true -> returns_unchanged v kind = true)
  /\ ~ (forall v kind, returns_unchanged v kind = true -> IsConvertibleTo v kind = true).
Proof.
  repeat split; try reflexivity.
  - intros H. specialize (H (VDouble d_1_5) kValueInt eq_refl). discriminate H.
  - intros H. specialize (H (VUInt64 4294967296) kValueInt64 eq_refl). discriminate H.
Qed.

Lemma to_unsigned_INT32_MAX : to_unsigned INT32_MAX = 2147483647.
Proof. vm_compute. reflexivity. Qed.

Lemma IsConvertibleTo_double_Int (d : double) :
  IsConvertibleTo (VDouble d) kValueInt
  = dle (double_of_Z INT32_MIN) d && dle d (double_of_Z INT32_MAX).
Proof.
  unfold IsConvertibleTo; cbn [ValueType_eqb].
  destruct (dle (double_of_Z INT32_MIN) d), (dle d (double_of_Z INT32_MAX)); reflexivity.
Qed.

Lemma IsConvertibleTo_double_UInt (d : double) :
  IsConvertibleTo (VDouble d) kValueUInt
  = dle dzero d && dle d (double_of_Z UINT32_MAX).
Proof.
  unfold IsConvertibleTo; cbn [ValueType_eqb].
  destruct (dle dzero d), (dle d (double_of_Z UINT32_MAX)); reflexivity.
Qed.

Lemma saturate_fixed (lo hi z : Z) : lo <= hi ->
  (saturate lo hi z =? z) = true <-> lo <= z <= hi.
Proof.
  intros Hlh. unfold saturate.
  destruct (z <? lo) eqn:E1; [|destruct (hi <? z) eqn:E2]; bool_to_Z;
    rewrite Z.eqb_eq; lia.
Qed.

(** Where the test does say what the coercion does.  Between the integer
    kinds (the pair uint64 to int64 apart) it holds exactly when the
    coercion returns the source value; for a double and a 32-bit integer
    kind it says that the double lies in the range of the kind, and the
    coercion then returns the double truncated, which is the source value
    when and only when that was integral; and every Value is reported
    convertible to bool. *)
Theorem IsConvertibleTo_is_a_range_test (v : Value) (kind : ValueType) :
  payload_ok v = true ->
  IsConvertibleTo v kValueBool = true
  /\ (is_integer_value v = true -> is_integer_kind kind = true ->
      ~ (Type_ v = kValueUInt64 /\ kind = kValueInt64) ->
      (IsConvertibleTo v kind = true <-> returns_unchanged v kind = true))
  /\ (forall d, v = VDouble d -> kind = kValueInt \/ kind = kValueUInt ->
      IsConvertibleTo v kind = true ->
      exists z, trunc d = Some z /\ kind_min kind <= z <= kind_max kind
        /\ As kind v = Defined z
        /\ (returns_unchanged v kind = true <-> integral_value d = Some z)).
Proof.
  intros Hok. split; [|split].
  - destruct v; reflexivity.
  - intros Hv Hk Hpair.
    assert (exists z, exact_value v = Some z) as [z Hz].
    { destruct v; try discriminate Hv; simpl; eauto. }
    pose proof (integer_sources_saturate v kind z Hv Hok Hk Hz) as Has.
    assert (returns_unchanged v kind = (saturate (kind_min kind) (kind_max kind) z =? z)) as ->.
    { destruct kind; try discriminate Hk; unfold As in Has; simpl;
        rewrite Has; unfold holds_number; rewrite Hz; reflexivity. }
    rewrite saturate_fixed
      by (destruct kind; try discriminate Hk; vm_compute; discriminate).
    destruct v; try discriminate Hv; simpl in Hz; injection Hz as <-;
      destruct kind; try discriminate Hk; simpl in Hok;
      try (exfalso; apply Hpair; split; reflexivity);
      unfold IsConvertibleTo, kind_min, kind_max, is_int32, is_uint32, is_int64, is_uint64 in *;
      simpl;
      try rewrite to_unsigned_INT32_MAX;
      unfold INT32_MIN, INT32_MAX, UINT32_MAX, INT64_MIN, INT64_MAX, UINT64_MAX in *;
      try (destruct mBool); bool_to_Z;
      rewrite ?andb_true_iff, ?Z.leb_le; split; intros; try lia; try (repeat split; lia);
      try reflexivity.
  - intros d -> Hkind Hconv. simpl in Hok.
    destruct Hkind as [-> | ->].
    + rewrite IsConvertibleTo_double_Int in Hconv.
      apply andb_prop in Hconv as [Hlo Hhi].
      destruct (double_in_int32_range d Hok Hlo Hhi) as [z [Ht Hz]].
      exists z. split; [exact Ht|]. split; [exact Hz|].
      assert (AsInt (VDouble d) 0 = Defined z) as Has.
      { unfold AsInt. rewrite (dle_not_dlt _ _ Hlo), (dle_not_dlt _ _ Hhi).
        unfold double_to_integer. rewrite Ht.
        destruct Hz as [Hz1 Hz2]. apply Z.leb_le in Hz1, Hz2. rewrite Hz1, Hz2. reflexivity. }
      split; [exact Has|].
      unfold returns_unchanged. rewrite Has. unfold holds_number, exact_value.
      destruct (integral_value d) as [z'|] eqn:Hi.
      * apply integral_value_trunc in Hi. rewrite Ht in Hi. injection Hi as <-.
        rewrite Z.eqb_refl. split; reflexivity.
      * split; discriminate.
    + rewrite IsConvertibleTo_double_UInt in Hconv.
      apply andb_prop in Hconv as [Hlo Hhi].
      destruct (double_in_uint32_range d Hok Hlo Hhi) as [z [Ht Hz]].
      exists z. split; [exact Ht|]. split; [exact Hz|].
      assert (AsUInt (VDouble d) 0 = Defined z) as Has.
      { unfold AsUInt. rewrite (dle_not_dlt _ _ Hlo), (dle_not_dlt _ _ Hhi).
        unfold double_to_integer. rewrite Ht.
        destruct Hz as [Hz1 Hz2]. apply Z.leb_le in Hz1, Hz2. rewrite Hz1, Hz2. reflexivity. }
      split; [exact Has|].
      unfold returns_unchanged. rewrite Has. unfold holds_number, exact_value.
      destruct (integral_value d) as [z'|] eqn:Hi.
      * apply integral_value_trunc in Hi. rewrite Ht in Hi. injection Hi as <-.
        rewrite Z.eqb_refl. split; reflexivity.
      * split; discriminate.
Qed.

Lemma IsConvertibleTo_is_a_range_test_witness :
  payload_ok (VInt64 5000000000) = true
  /\ (IsConvertibleTo (VInt64 5000000000) kValueInt = true
      <-> returns_unchanged (VInt64 5000000000) kValueInt = true).
Proof.
  split; [reflexivity|].
  destruct (IsConvertibleTo_is_a_range_test (VInt64 5000000000) kValueInt eq_refl)
    as [_ [H _]].
  apply H; [reflexivity|reflexivity|]. intros [_ H']. discriminate H'.
Defined.

(** ** The order of the keys *)

Lemma ascii_compare_refl (c : ascii) : Ascii.compare c c = Eq.
Proof. unfold Ascii.compare. apply N.compare_refl. Qed.

Lemma string_compare_refl (s : string) : String.compare s s = Eq.
Proof.
  induction s as [|c s IH]; simpl; [reflexivity|].
  rewrite ascii_compare_refl. exact IH.
Qed.

Lemma string_compare_lt_trans (a b c : string) :
  String.compare a b = Lt -> String.compare b c = Lt -> String.compare a c = Lt.
Proof.
  revert b c. induction a as [|x a IH]; intros [|y b] [|z c]; simpl;
    try discriminate; try reflexivity.
  destruct (Ascii.compare x y) eqn:Exy; try discriminate;
    destruct (Ascii.compare y z) eqn:Eyz; try discriminate; intros Hab Hbc.
  - apply Ascii.compare_eq_iff in Exy, Eyz. subst.
    rewrite ascii_compare_refl. eapply IH; eassumption.
  - apply Ascii.compare_eq_iff in Exy. subst. rewrite Eyz. reflexivity.
  - apply Ascii.compare_eq_iff in Eyz. subst. rewrite Exy. reflexivity.
  - unfold Ascii.compare in *. rewrite N.compare_lt_iff in *.
    assert (N_of_ascii x < N_of_ascii z)%N as H by (eapply N.lt_trans; eassumption).
    apply N.compare_lt_iff in H. rewrite H. reflexivity.
Qed.

Lemma KeyLess_irrefl (a : string) : KeyLess a a = false.
Proof. unfold KeyLess, String.ltb. rewrite string_compare_refl. reflexivity. Qed.

Lemma KeyLess_trans (a b c : string) :
  KeyLess a b = true -> KeyLess b c = true -> KeyLess a c = true.
Proof.
  unfold KeyLess, String.ltb. intros Hab Hbc.
  destruct (String.compare a b) eqn:E1; try discriminate.
  destruct (String.compare b c) eqn:E2; try discriminate.
  rewrite (string_compare_lt_trans a b c E1 E2). reflexivity.
Qed.

Lemma KeyLess_asym (a b : string) : KeyLess a b = true -> KeyLess b a = false.
Proof.
  unfold KeyLess, String.ltb. rewrite (String.compare_antisym b a).
  destruct (String.compare a b); simpl; intros H; try discriminate; reflexivity.
Qed.

Lemma KeyLess_total (a b : string) :
  KeyLess a b = false -> KeyLess b a = false -> a = b.
Proof.
  unfold KeyLess, String.ltb. rewrite (String.compare_antisym b a).
  destruct (String.compare a b) eqn:E; simpl; intros H1 H2; try discriminate.
  apply String.compare_eq_iff. exact E.
Qed.

Lemma KeyLess_neq (a b : string) : KeyLess a b = true -> a <> b.
Proof. intros H ->. rewrite KeyLess_irrefl in H. discriminate. Qed.

(** [k] not below [a], and [a] below [b]: [k] is below [b]. *)
Lemma KeyLess_le_lt (k a b : string) :
  KeyLess a k = false -> KeyLess a b = true -> KeyLess k b = true.
Proof.
  intros Hak Hab. destruct (KeyLess k a) eqn:Hka.
  - eapply KeyLess_trans; eassumption.
  - rewrite (KeyLess_total _ _ Hka Hak). exact Hab.
Qed.

Ltac key_cases a b :=
  let E1 := fresh "Hlt" in
  let E2 := fresh "Hgt" in
  destruct (KeyLess a b) eqn:E1;
  [ pose proof (KeyLess_asym _ _ E1) as E2
  | destruct (KeyLess b a) eqn:E2;
    [ | pose proof (KeyLess_total _ _ E1 E2); subst ] ].

(** ** The member map as a sorted association list *)

Section SortedMapFacts.
Context {V : Type}.
Implicit Types (m : list (string * V)) (k : string) (v : V).

Lemma find_cons kv m k :
  find (kv :: m) k =
    if KeyLess (fst kv) k then option_map S (find m k)
    else if KeyLess k (fst kv) then None else Some O.
Proof.
  unfold find. simpl. destruct (KeyLess (fst kv) k); simpl.
  - destruct (nth_error m (lower_bound m k)) as [kv'|]; [|reflexivity].
    destruct (negb (KeyLess k (fst kv'))); reflexivity.
  - destruct (KeyLess k (fst kv)); reflexivity.
Qed.

Lemma find_lookup m k :
  match find m k with
  | Some it => exists kv, nth_error m it = Some kv /\ fst kv = k
                          /\ lookup m k = Some (snd kv)
  | None => lookup m k = None
  end.
Proof.
  induction m as [|kv m IH]; [reflexivity|].
  rewrite find_cons. simpl lookup.
  destruct (KeyLess (fst kv) k) eqn:E1.
  - destruct (find m k) as [it|]; simpl; exact IH.
  - destruct (KeyLess k (fst kv)) eqn:E2; [reflexivity|].
    exists kv. repeat split. apply KeyLess_total; assumption.
Qed.

Lemma lower_bound_length m k : (lower_bound m k <= List.length m)%nat.
Proof.
  induction m as [|kv m IH]; simpl; [lia|].
  destruct (KeyLess (fst kv) k); simpl; lia.
Qed.

(** Overwriting the value found by [find] is a [put]. *)
Lemma assign_at_found m k v it :
  find m k = Some it -> assign_at m it v = put m k v.
Proof.
  revert it. induction m as [|kv m IH]; intros it; [discriminate|].
  rewrite find_cons. simpl put.
  destruct (KeyLess (fst kv) k) eqn:E1.
  - destruct (find m k) as [it'|]; simpl; [|discriminate].
    intros H. injection H as <-. simpl. f_equal. apply IH. reflexivity.
  - destruct (KeyLess k (fst kv)) eqn:E2; [discriminate|].
    intros H. injection H as <-. reflexivity.
Qed.

Lemma find_absent_insert m k v0 :
  find m k = None ->
  insert m (k, v0) = (vector_insert m (lower_bound m k) (k, v0), lower_bound m k, true).
Proof.
  unfold find, insert. simpl fst.
  destruct (nth_error m (lower_bound m k)) as [kv'|]; [|reflexivity].
  destruct (negb (KeyLess k (fst kv'))); [discriminate|reflexivity].
Qed.

(** Inserting under a key that [find] does not find, and then writing the
    value, is a [put]. *)
Lemma insert_absent_put m k v0 v :
  find m k = None ->
  nth_error (vector_insert m (lower_bound m k) (k, v0)) (lower_bound m k) = Some (k, v0)
  /\ assign_at (vector_insert m (lower_bound m k) (k, v0)) (lower_bound m k) v = put m k v.
Proof.
  unfold vector_insert. induction m as [|kv m IH]; [intros _; split; reflexivity|].
  rewrite find_cons. simpl lower_bound. simpl put.
  destruct (KeyLess (fst kv) k) eqn:E1.
  - destruct (find m k) as [it|]; simpl; [discriminate|]. intros _.
    destruct (IH eq_refl) as [Hn Ha]. split; [exact Hn|]. f_equal. exact Ha.
  - destruct (KeyLess k (fst kv)) eqn:E2; [|discriminate].
    intros _. split; reflexivity.
Qed.

Lemma erase_found m k it :
  find m k = Some it -> vector_erase m it = del m k.
Proof.
  unfold vector_erase. revert it.
  induction m as [|kv m IH]; intros it; [discriminate|].
  rewrite find_cons. simpl del.
  destruct (KeyLess (fst kv) k) eqn:E1.
  - destruct (find m k) as [it'|]; simpl; [|discriminate].
    intros H. injection H as <-. simpl. f_equal. apply IH. reflexivity.
  - destruct (KeyLess k (fst kv)) eqn:E2; [discriminate|].
    intros H. injection H as <-. reflexivity.
Qed.

Lemma del_absent m k : lookup m k = None -> del m k = m.
Proof.
  induction m as [|kv m IH]; simpl; [reflexivity|].
  destruct (KeyLess (fst kv) k); [intros H; f_equal; auto|].
  destruct (KeyLess k (fst kv)); [reflexivity|discriminate].
Qed.

Lemma lookup_put m k v k' :
  lookup (put m k v) k' = if String.eqb k k' then Some v else lookup m k'.
Proof.
  induction m as [|kv m IH]; simpl.
  - destruct (String.eqb_spec k k') as [->|Hne].
    + rewrite KeyLess_irrefl. reflexivity.
    + key_cases k k'; try reflexivity. contradiction.
  - destruct (String.eqb_spec k k') as [->|Hne].
    + key_cases (fst kv) k'; simpl; rewrite ?Hlt, ?Hgt, ?KeyLess_irrefl; try reflexivity.
      rewrite IH, ?String.eqb_refl. reflexivity.
    + key_cases (fst kv) k; simpl.
      * rewrite IH. destruct (String.eqb_spec k k'); [contradiction|]. reflexivity.
      * key_cases k k'; try reflexivity; try contradiction.
        assert (KeyLess k' (fst kv) = true) as Hx by (eapply KeyLess_trans; eassumption).
        rewrite (KeyLess_asym _ _ Hx), Hx. reflexivity.
      * key_cases (fst kv) k'; try reflexivity. contradiction.
Qed.

Lemma lookup_above kv m k :
  is_sorted (kv :: m) = true -> KeyLess (fst kv) k = false -> lookup m k = None.
Proof.
  destruct m as [|kv' m]; simpl; [reflexivity|].
  intros Hs Hk. apply andb_prop in Hs as [Hlt _].
  rewrite (KeyLess_le_lt _ _ _ Hk Hlt).
  rewrite (KeyLess_asym _ _ (KeyLess_le_lt _ _ _ Hk Hlt)). reflexivity.
Qed.

Lemma is_sorted_tail kv m : is_sorted (kv :: m) = true -> is_sorted m = true.
Proof.
  destruct m as [|kv' m]; [reflexivity|]. simpl. intros H.
  apply andb_prop in H as [_ H]. exact H.
Qed.

Lemma lookup_del m k k' :
  is_sorted m = true ->
  lookup (del m k) k' = if String.eqb k k' then None else lookup m k'.
Proof.
  induction m as [|kv m IH]; intros Hs.
  - simpl. destruct (String.eqb k k'); reflexivity.
  - pose proof (is_sorted_tail _ _ Hs) as Hs'. simpl.
    destruct (String.eqb_spec k k') as [->|Hne].
    + key_cases (fst kv) k'; simpl; rewrite ?Hlt, ?Hgt; try reflexivity.
      * apply IH in Hs'. exact Hs'.
      * eapply lookup_above; [exact Hs|]. apply KeyLess_irrefl.
    + key_cases (fst kv) k; simpl.
      * rewrite (IH Hs'). reflexivity.
      * reflexivity.
      * key_cases (fst kv) k'; try reflexivity; try contradiction.
        eapply lookup_above; [exact Hs|assumption].
Qed.

Lemma put_head_bound m k v a :
  is_sorted m = true ->
  (forall kv, nth_error m 0 = Some kv -> KeyLess a (fst kv) = true) ->
  KeyLess a k = true ->
  forall kv', nth_error (put m k v) 0 = Some kv' -> KeyLess a (fst kv') = true.
Proof.
  destruct m as [|kv m]; simpl.
  - intros _ _ Hk kv' H. injection H as <-. exact Hk.
  - intros _ Hh Hk kv'.
    destruct (KeyLess (fst kv) k); [|destruct (KeyLess k (fst kv))]; simpl;
      intros H; injection H as <-; simpl; auto.
Qed.

Lemma is_sorted_cons kv m :
  is_sorted m = true ->
  (forall kv', nth_error m 0 = Some kv' -> KeyLess (fst kv) (fst kv') = true) ->
  is_sorted (kv :: m) = true.
Proof.
  destruct m as [|kv' m]; [reflexivity|]. intros Hs Hh. simpl.
  rewrite (Hh kv' eq_refl). exact Hs.
Qed.

Lemma is_sorted_head kv kv' m :
  is_sorted (kv :: m) = true -> nth_error m 0 = Some kv' ->
  KeyLess (fst kv) (fst kv') = true.
Proof.
  destruct m as [|kv'' m]; simpl; [discriminate|].
  intros H E. injection E as <-. apply andb_prop in H as [H _]. exact H.
Qed.

Lemma is_sorted_put m k v : is_sorted m = true -> is_sorted (put m k v) = true.
Proof.
  induction m as [|kv m IH]; intros Hs; [reflexivity|].
  pose proof (is_sorted_tail _ _ Hs) as Hs'. simpl.
  key_cases (fst kv) k.
  - apply is_sorted_cons; [auto|].
    apply put_head_bound; [exact Hs'| |exact Hlt].
    intros kv' E. eapply is_sorted_head; eassumption.
  - apply is_sorted_cons; [exact Hs|]. simpl. intros kv' E. injection E as <-. exact Hgt.
  - apply is_sorted_cons; [exact Hs'|]. simpl.
    intros kv' E. eapply is_sorted_head; eassumption.
Qed.

Lemma del_head_bound m k a :
  is_sorted m = true ->
  (forall kv, nth_error m 0 = Some kv -> KeyLess a (fst kv) = true) ->
  forall kv', nth_error (del m k) 0 = Some kv' -> KeyLess a (fst kv') = true.
Proof.
  destruct m as [|kv m]; simpl; [intros _ _ kv' H; discriminate|].
  intros Hs Hh kv'.
  destruct (KeyLess (fst kv) k); [|destruct (KeyLess k (fst kv))]; simpl.
  - intros H. injection H as <-. auto.
  - intros H. injection H as <-. auto.
  - intros E. pose proof (is_sorted_head _ _ _ Hs E) as H1.
    eapply KeyLess_trans; [|exact H1]. auto.
Qed.

Lemma is_sorted_del m k : is_sorted m = true -> is_sorted (del m k) = true.
Proof.
  induction m as [|kv m IH]; intros Hs; [reflexivity|].
  pose proof (is_sorted_tail _ _ Hs) as Hs'. simpl.
  destruct (KeyLess (fst kv) k); [|destruct (KeyLess k (fst kv))].
  - apply is_sorted_cons; [auto|].
    apply del_head_bound; [exact Hs'|].
    intros kv' E. eapply is_sorted_head; eassumption.
  - exact Hs.
  - exact Hs'.
Qed.
End SortedMapFacts.

(** Whether a member map is sorted is a matter of its keys. *)
Lemma is_sorted_keys {V : Type} (l1 : list (string * V)) :
  forall l2 : list (string * V),
    map fst l1 = map fst l2 -> is_sorted l1 = is_sorted l2.
Proof.
  induction l1 as [|a l1 IH]; intros [|b l2] H; try discriminate H; [reflexivity|].
  cbn [map] in H. injection H as Hab H.
  specialize (IH l2 H).
  destruct l1 as [|a' l1]; destruct l2 as [|b' l2]; try discriminate H; [reflexivity|].
  cbn [map] in H. injection H as Hab' H.
  change (KeyLess (fst a) (fst a') && is_sorted (a' :: l1)
          = KeyLess (fst b) (fst b') && is_sorted (b' :: l2)).
  rewrite Hab, Hab', IH. reflexivity.
Qed.

(** ** ObjectValue: members and the modification counter *)

Lemma Member_lookup (o : ObjectValue) (k : string) :
  Member o k = or_null (lookup (mMap o) k).
Proof.
  unfold Member, deref. pose proof (find_lookup (mMap o) k) as H.
  destruct (find (mMap o) k) as [it|].
  - destruct H as [kv [Hn [_ Hl]]]. rewrite Hn, Hl. reflexivity.
  - rewrite H. reflexivity.
Qed.

Lemma HasMember_lookup (o : ObjectValue) (k : string) :
  HasMember o k = match lookup (mMap o) k with Some _ => true | None => false end.
Proof.
  unfold HasMember. pose proof (find_lookup (mMap o) k) as H.
  destruct (find (mMap o) k) as [it|].
  - destruct H as [kv [_ [_ Hl]]]. rewrite Hl. reflexivity.
  - rewrite H. reflexivity.
Qed.

Lemma UpdateMember_spec (o : ObjectValue) (k : string) :
  mModCount (fst (UpdateMember o k)) = inc_mod (mModCount o)
  /\ deref (fst (UpdateMember o k)) (snd (UpdateMember o k)) = or_null (lookup (mMap o) k)
  /\ (HasMember o k = true -> mMap (fst (UpdateMember o k)) = mMap o)
  /\ forall v,
       mMap (store (fst (UpdateMember o k)) (snd (UpdateMember o k)) v) = put (mMap o) k v
       /\ mModCount (store (fst (UpdateMember o k)) (snd (UpdateMember o k)) v)
          = inc_mod (mModCount o).
Proof.
  unfold UpdateMember, HasMember, IncModCount. cbn [mMap mModCount].
  pose proof (find_lookup (mMap o) k) as H.
  destruct (find (mMap o) k) as [it|] eqn:Ef.
  - cbn [fst snd mMap mModCount]. destruct H as [kv [Hn [_ Hl]]].
    repeat split.
    + unfold deref. cbn [mMap]. rewrite Hn, Hl. reflexivity.
    + unfold store. cbn [mMap]. apply assign_at_found. exact Ef.
  - rewrite (find_absent_insert (mMap o) k VNull Ef).
    cbn [fst snd mMap mModCount].
    destruct (insert_absent_put (mMap o) k VNull VNull Ef) as [Hn _].
    repeat split.
    + unfold deref. cbn [mMap]. rewrite Hn, H. reflexivity.
    + discriminate.
    + unfold store. cbn [mMap]. apply insert_absent_put. exact Ef.
Qed.

(** *** Erasing a member

    The members behind an erased member are moved down with [Value::Swap],
    which leaves an object its payload: the keys that remain are those of
    [del], and so are the Values but for the counters of objects. *)

Lemma same_members_refl (x : Value) : same_members x x.
Proof. destruct x; reflexivity. Qed.

Lemma same_members_trans (x y z : Value) :
  same_members x y -> same_members y z -> same_members x z.
Proof. destruct x, y, z; simpl; intros H1 H2; congruence. Qed.

Lemma same_members_not_object (x y : Value) :
  same_members x y -> IsObject x = false \/ IsObject y = false -> x = y.
Proof.
  destruct x, y; simpl; intros H [E|E]; try exact H; discriminate E.
Qed.

Lemma alike_refl (m : list (string * Value)) : alike m m.
Proof.
  induction m as [|kv m IH]; constructor; [|exact IH].
  split; [reflexivity|apply same_members_refl].
Qed.

Lemma alike_trans (m1 m2 m3 : list (string * Value)) :
  alike m1 m2 -> alike m2 m3 -> alike m1 m3.
Proof.
  intros H. revert m3. induction H as [|a b m1 m2 [Hk Hv] H IH]; intros m3 H3.
  - exact H3.
  - inversion H3 as [|b' c m2' m3' [Hk' Hv'] H3']; subst. constructor.
    + split; [congruence|eapply same_members_trans; eassumption].
    + apply IH, H3'.
Qed.

Lemma alike_keys (m1 m2 : list (string * Value)) :
  alike m1 m2 -> map fst m1 = map fst m2.
Proof.
  intros H. induction H as [|a b m1 m2 [Hk _] _ IH]; [reflexivity|].
  cbn [map]. rewrite Hk, IH. reflexivity.
Qed.

Lemma alike_app (m1 m2 n1 n2 : list (string * Value)) :
  alike m1 m2 -> alike n1 n2 -> alike (m1 ++ n1) (m2 ++ n2).
Proof. apply Forall2_app. Qed.

Lemma alike_lookup (m1 m2 : list (string * Value)) (k : string) :
  alike m1 m2 ->
  match lookup m1 k, lookup m2 k with
  | Some a, Some b => same_members a b
  | None, None => True
  | _, _ => False
  end.
Proof.
  intros H. induction H as [|a b m1 m2 [Hk Hv] _ IH]; [exact I|].
  cbn [lookup]. rewrite Hk.
  destruct (KeyLess (fst b) k); [exact IH|].
  destruct (KeyLess k (fst b)); [exact I|exact Hv].
Qed.

Lemma alike_or_null (m1 m2 : list (string * Value)) (k : string) :
  alike m1 m2 -> same_members (or_null (lookup m1 k)) (or_null (lookup m2 k)).
Proof.
  intros H. pose proof (alike_lookup m1 m2 k H) as Hl.
  destruct (lookup m1 k), (lookup m2 k); try contradiction; [exact Hl|reflexivity].
Qed.

Lemma alike_has (m1 m2 : list (string * Value)) (k : string) :
  alike m1 m2 ->
  match lookup m1 k with Some _ => true | None => false end
  = match lookup m2 k with Some _ => true | None => false end.
Proof.
  intros H. pose proof (alike_lookup m1 m2 k H) as Hl.
  destruct (lookup m1 k), (lookup m2 k); try contradiction; reflexivity.
Qed.

Lemma alike_put (m1 m2 : list (string * Value)) (k : string) (v1 v2 : Value) :
  alike m1 m2 -> same_members v1 v2 -> alike (put m1 k v1) (put m2 k v2).
Proof.
  intros H Hv. induction H as [|a b m1 m2 [Hk Hab] H IH].
  - constructor; [split; [reflexivity|exact Hv]|constructor].
  - cbn [put]. rewrite Hk.
    destruct (KeyLess (fst b) k).
    + constructor; [split; assumption|exact IH].
    + destruct (KeyLess k (fst b)).
      * constructor; [split; [reflexivity|exact Hv]|].
        constructor; [split; assumption|exact H].
      * constructor; [split; [reflexivity|exact Hv]|exact H].
Qed.

Lemma alike_del (m1 m2 : list (string * Value)) (k : string) :
  alike m1 m2 -> alike (del m1 k) (del m2 k).
Proof.
  intros H. induction H as [|a b m1 m2 [Hk Hab] H IH]; [constructor|].
  cbn [del]. rewrite Hk.
  destruct (KeyLess (fst b) k).
  - constructor; [split; assumption|exact IH].
  - destruct (KeyLess k (fst b)); [|exact H].
    constructor; [split; assumption|exact H].
Qed.

Lemma alike_sorted (m1 m2 : list (string * Value)) :
  alike m1 m2 -> is_sorted m1 = is_sorted m2.
Proof. intros H. apply is_sorted_keys, alike_keys, H. Qed.

Lemma move_down_alike (later : list (string * Value)) :
  forall hole : Value, alike (move_down hole later) later.
Proof.
  induction later as [|kv later IH]; intros hole; [constructor|].
  cbn [move_down].
  destruct (Value_Swap hole (snd kv)) as [this other] eqn:E.
  constructor; [|apply IH]. cbn [fst snd]. split; [reflexivity|].
  destruct hole, (snd kv); cbn in E; injection E as <- <-; reflexivity.
Qed.

(** Nothing but the places changes when the member erased is no object. *)
Lemma move_down_no_object (later : list (string * Value)) (hole : Value) :
  IsObject hole = false -> move_down hole later = later.
Proof.
  intros Hh. induction later as [|[k v] later IH]; [reflexivity|].
  cbn [move_down snd fst].
  assert (Value_Swap hole v = (v, hole)) as ->
    by (destruct hole; try reflexivity; discriminate Hh).
  rewrite IH. reflexivity.
Qed.

Lemma MemberMap_erase_cons (kv : string * Value) (m : list (string * Value)) (it : nat) :
  MemberMap_erase (kv :: m) (S it) = kv :: MemberMap_erase m it.
Proof. reflexivity. Qed.

Lemma MemberMap_erase_found (m : list (string * Value)) (k : string) (it : nat) :
  find m k = Some it -> alike (MemberMap_erase m it) (del m k).
Proof.
  revert it. induction m as [|kv m IH]; intros it; [discriminate|].
  rewrite find_cons. cbn [del].
  destruct (KeyLess (fst kv) k) eqn:E1.
  - destruct (find m k) as [it'|]; cbn [option_map]; [|discriminate].
    intros H. injection H as <-. rewrite MemberMap_erase_cons.
    constructor; [split; [reflexivity|apply same_members_refl]|]. apply IH. reflexivity.
  - destruct (KeyLess k (fst kv)) eqn:E2; [discriminate|].
    intros H. injection H as <-. apply move_down_alike.
Qed.

Lemma MemberMap_erase_no_object (m : list (string * Value)) (k : string) (it : nat) :
  find m k = Some it -> IsObject (or_null (lookup m k)) = false ->
  MemberMap_erase m it = del m k.
Proof.
  revert it. induction m as [|kv m IH]; intros it; [discriminate|].
  rewrite find_cons. cbn [del lookup].
  destruct (KeyLess (fst kv) k) eqn:E1.
  - destruct (find m k) as [it'|]; cbn [option_map]; [|discriminate].
    intros H Ho. injection H as <-. rewrite MemberMap_erase_cons.
    f_equal. apply IH; [reflexivity|exact Ho].
  - destruct (KeyLess k (fst kv)) eqn:E2; [discriminate|].
    intros H Ho. injection H as <-. apply move_down_no_object. exact Ho.
Qed.

(** The members before the one erased stay as they are. *)
Lemma MemberMap_erase_before (m : list (string * Value)) (k k' : string) (it : nat) :
  is_sorted m = true -> find m k = Some it -> KeyLess k' k = true ->
  lookup (MemberMap_erase m it) k' = lookup (del m k) k'.
Proof.
  revert it. induction m as [|kv m IH]; intros it Hs; [discriminate|].
  pose proof (is_sorted_tail _ _ Hs) as Hs'.
  rewrite find_cons. cbn [del].
  destruct (KeyLess (fst kv) k) eqn:E1.
  - destruct (find m k) as [it'|]; cbn [option_map]; [|discriminate].
    intros H Hk. injection H as <-. rewrite MemberMap_erase_cons. cbn [lookup].
    rewrite (IH it' Hs' eq_refl Hk). reflexivity.
  - destruct (KeyLess k (fst kv)) eqn:E2; [discriminate|].
    intros H Hk. injection H as <-.
    pose proof (KeyLess_total _ _ E1 E2) as Ek.
    assert (lookup m k' = None) as Hn.
    { eapply lookup_above; [exact Hs|]. rewrite Ek. apply KeyLess_asym, Hk. }
    pose proof (alike_lookup _ _ k' (move_down_alike m (snd kv))) as Hl.
    unfold MemberMap_erase. cbn [firstn skipn app].
    rewrite Hn in Hl |- *.
    destruct (lookup (move_down (snd kv) m) k'); [contradiction|reflexivity].
Qed.

Lemma RemoveMember_spec (o : ObjectValue) (k : string) :
  alike (mMap (fst (RemoveMember o k))) (del (mMap o) k)
  /\ snd (RemoveMember o k) = HasMember o k
  /\ mModCount (fst (RemoveMember o k))
     = (if HasMember o k then inc_mod (mModCount o) else mModCount o)
  /\ (IsObject (Member o k) = false -> mMap (fst (RemoveMember o k)) = del (mMap o) k)
  /\ (is_sorted (mMap o) = true -> forall k', KeyLess k' k = true ->
        lookup (mMap (fst (RemoveMember o k))) k' = lookup (del (mMap o) k) k').
Proof.
  rewrite Member_lookup.
  unfold RemoveMember, HasMember, IncModCount.
  pose proof (find_lookup (mMap o) k) as H.
  destruct (find (mMap o) k) as [it|] eqn:Ef; cbn [fst snd mMap mModCount].
  - split; [apply MemberMap_erase_found, Ef|]. repeat split.
    + intros Ho. apply MemberMap_erase_no_object; assumption.
    + intros Hs k' Hk. apply MemberMap_erase_before; assumption.
  - rewrite (del_absent _ _ H). split; [apply alike_refl|]. repeat split.
Qed.

Lemma RemoveMember_sorted (o : ObjectValue) (k : string) :
  is_sorted (mMap o) = true -> is_sorted (mMap (fst (RemoveMember o k))) = true.
Proof.
  intros Hs. destruct (RemoveMember_spec o k) as [Hm _].
  rewrite (alike_sorted _ _ Hm). apply is_sorted_del, Hs.
Qed.

Lemma SetMember_spec (o : ObjectValue) (k : string) (v : Value) :
  mMap (SetMember o k v) = put (mMap o) k (Value_assign (or_null (lookup (mMap o) k)) v)
  /\ mModCount (SetMember o k v) = inc_mod (inc_mod (mModCount o)).
Proof.
  unfold SetMember.
  destruct (UpdateMember_spec o k) as [_ [Hd [_ Hs]]].
  destruct (UpdateMember o k) as [o1 it]. cbn [fst snd] in *.
  unfold IncModCount. cbn [mMap mModCount].
  destruct (Hs (Value_assign (deref o1 it) v)) as [Hm Hc].
  rewrite Hm, Hc, Hd. split; reflexivity.
Qed.

(** C10.  UpdateMember raises the counter whether or not the key is there,
    so the counter can move while the members stay as they are; SetMember
    raises it twice; and a call of UpdateMember, SetMember or RemoveMember
    that changes the member map never leaves the counter where it was. *)
Theorem modCount_is_an_upper_bound_indicator (o : ObjectValue) (key : string) (v : Value) :
  is_uint32 (mModCount o) = true ->
  mModCount (fst (UpdateMember o key)) = to_uint32 (mModCount o + 1)
  /\ (HasMember o key = true -> mMap (fst (UpdateMember o key)) = mMap o)
  /\ mModCount (SetMember o key v) = to_uint32 (mModCount o + 2)
  /\ mModCount (fst (UpdateMember o key)) <> mModCount o
  /\ mModCount (SetMember o key v) <> mModCount o
  /\ (mMap (fst (RemoveMember o key)) <> mMap o ->
      mModCount (fst (RemoveMember o key)) <> mModCount o).
Proof.
  intros Hc.
  destruct (UpdateMember_spec o key) as [Hu [_ [Hsame _]]].
  destruct (SetMember_spec o key v) as [_ Hs].
  destruct (RemoveMember_spec o key) as [_ [_ [Hrc _]]].
  repeat split.
  - exact Hu.
  - exact Hsame.
  - rewrite Hs. apply inc_mod_twice.
  - rewrite Hu. apply inc_mod_neq. exact Hc.
  - rewrite Hs. apply inc_mod_twice_neq. exact Hc.
  - intros Hchanged. rewrite Hrc. rewrite HasMember_lookup.
    destruct (lookup (mMap o) key) eqn:El.
    + apply inc_mod_neq. exact Hc.
    + exfalso. apply Hchanged. unfold RemoveMember.
      pose proof (find_lookup (mMap o) key) as Hf.
      destruct (find (mMap o) key) as [it|]; [|reflexivity].
      destruct Hf as [kv [_ [_ Hl]]]. congruence.
Qed.

Lemma modCount_is_an_upper_bound_indicator_witness :
  is_uint32 4294967295 = true
  /\ mModCount (SetMember (mkObjectValue [("a"%string, VInt 1)] 4294967295) "a" (VInt 1))
     = to_uint32 (4294967295 + 2).
Proof.
  split; [reflexivity|].
  apply (modCount_is_an_upper_bound_indicator
           (mkObjectValue [("a"%string, VInt 1)] 4294967295) "a" (VInt 1)).
  reflexivity.
Defined.

(** ** C4: Merge *)

Lemma Merge_member_map (merge : Value -> Value -> Value) (this : ObjectValue)
    (nv : string * Value) :
  IsNull (snd nv) = false ->
  mMap (Merge_member merge this nv)
  = put (mMap this) (fst nv) (merge (or_null (lookup (mMap this) (fst nv))) (snd nv)).
Proof.
  intros Hn. unfold Merge_member. rewrite Hn.
  destruct (UpdateMember_spec this (fst nv)) as [_ [Hd [_ Hs]]].
  destruct (UpdateMember this (fst nv)) as [o1 it]. cbn [fst snd] in *.
  rewrite <- Hd. apply Hs.
Qed.

Lemma Merge_member_alike (merge : Value -> Value -> Value) (this : ObjectValue)
    (nv : string * Value) :
  alike (mMap (Merge_member merge this nv))
    (if IsNull (snd nv) then del (mMap this) (fst nv)
     else put (mMap this) (fst nv) (merge (or_null (lookup (mMap this) (fst nv))) (snd nv))).
Proof.
  destruct (IsNull (snd nv)) eqn:Hn.
  - unfold Merge_member. rewrite Hn. apply RemoveMember_spec.
  - rewrite (Merge_member_map merge this nv Hn). apply alike_refl.
Qed.

Lemma Merge_member_sorted (merge : Value -> Value -> Value) (this : ObjectValue)
    (nv : string * Value) :
  is_sorted (mMap this) = true -> is_sorted (mMap (Merge_member merge this nv)) = true.
Proof.
  intros Hs. rewrite (alike_sorted _ _ (Merge_member_alike merge this nv)).
  destruct (IsNull (snd nv)); [apply is_sorted_del|apply is_sorted_put]; exact Hs.
Qed.

Lemma String_eqb_false (a b : string) : a <> b -> String.eqb a b = false.
Proof. intros H. destruct (String.eqb_spec a b); [contradiction|reflexivity]. Qed.

(** The member map after a round of the loop depends on the member map
    before it, not on the counter. *)
Lemma Merge_member_map_only (merge : Value -> Value -> Value) (o1 o2 : ObjectValue)
    (nv : string * Value) :
  mMap o1 = mMap o2 -> mMap (Merge_member merge o1 nv) = mMap (Merge_member merge o2 nv).
Proof.
  destruct o1 as [m1 c1], o2 as [m2 c2]. cbn [mMap]. intros ->.
  unfold Merge_member, RemoveMember, UpdateMember, IncModCount, store, deref.
  cbn [mMap mModCount].
  destruct (IsNull (snd nv)).
  - destruct (find m2 (fst nv)); reflexivity.
  - destruct (find m2 (fst nv)); [reflexivity|].
    destruct (insert m2 (fst nv, VNull)) as [[m it] added]. reflexivity.
Qed.

Lemma Merge_members_map_only (merge : Value -> Value -> Value)
    (oo : list (string * Value)) :
  forall o1 o2 : ObjectValue,
    mMap o1 = mMap o2 ->
    mMap (fold_left (Merge_member merge) oo o1) = mMap (fold_left (Merge_member merge) oo o2).
Proof.
  induction oo as [|nv oo IH]; intros o1 o2 H; [exact H|].
  cbn [fold_left]. apply IH, Merge_member_map_only, H.
Qed.

Lemma Value_Merge_same_members (x y overrides : Value) :
  same_members x y -> same_members (Value_Merge x overrides) (Value_Merge y overrides).
Proof.
  intros H. destruct overrides; try (destruct x, y; exact H || apply same_members_refl).
  destruct x, y; try discriminate H; try apply same_members_refl.
  cbn [Value_Merge same_members]. apply Merge_members_map_only. exact H.
Qed.

(** The members after the loop of [ObjectValue::Merge], on the association
    list. *)
Lemma merged_lookup (oo : list (string * Value)) :
  is_sorted oo = true ->
  forall (m : list (string * Value)) (k : string),
    is_sorted m = true ->
    is_sorted (merged m oo) = true
    /\ lookup (merged m oo) k =
         match lookup oo k with
         | Some bv =>
             if IsNull bv then None
             else Some (Value_Merge (or_null (lookup m k)) bv)
         | None => lookup m k
         end.
Proof.
  unfold merged.
  induction oo as [|nv oo IH]; intros Hoo m k Hs.
  - simpl. split; [exact Hs|reflexivity].
  - pose proof (is_sorted_tail _ _ Hoo) as Hoo'.
    cbn [fold_left].
    set (m1 := if IsNull (snd nv) then del m (fst nv)
               else put m (fst nv) (Value_Merge (or_null (lookup m (fst nv))) (snd nv))).
    assert (is_sorted m1 = true) as Hs1
      by (unfold m1; destruct (IsNull (snd nv));
          [apply is_sorted_del|apply is_sorted_put]; exact Hs).
    assert (forall k', lookup m1 k' =
              if String.eqb (fst nv) k'
              then (if IsNull (snd nv) then None
                    else Some (Value_Merge (or_null (lookup m (fst nv))) (snd nv)))
              else lookup m k') as Hl1.
    { intros k'. unfold m1. destruct (IsNull (snd nv)).
      - rewrite lookup_del by exact Hs. reflexivity.
      - rewrite lookup_put. reflexivity. }
    destruct (IH Hoo' m1 k Hs1) as [Hr Hl].
    split; [exact Hr|]. rewrite Hl, Hl1. simpl lookup.
    key_cases (fst nv) k.
    + rewrite (String_eqb_false _ _ (KeyLess_neq _ _ Hlt)). reflexivity.
    + rewrite (lookup_above nv oo k Hoo Hlt).
      rewrite String_eqb_false; [reflexivity|].
      intros E. apply (KeyLess_neq _ _ Hgt). symmetry. exact E.
    + rewrite (lookup_above nv oo (fst nv) Hoo Hlt), String.eqb_refl. reflexivity.
Qed.

Lemma Merge_members_alike (oo : list (string * Value)) :
  forall (this : ObjectValue) (m : list (string * Value)),
    alike (mMap this) m ->
    alike (mMap (fold_left (Merge_member Value_Merge) oo this)) (merged m oo).
Proof.
  unfold merged. induction oo as [|nv oo IH]; intros this m H; [exact H|].
  cbn [fold_left]. apply IH.
  eapply alike_trans; [apply Merge_member_alike|].
  destruct (IsNull (snd nv)).
  - apply alike_del, H.
  - apply alike_put; [exact H|]. apply Value_Merge_same_members, alike_or_null, H.
Qed.

(** A key of the tail of a sorted list lies above the head. *)
Lemma lookup_Some_above {V : Type} (kv : string * V) (m : list (string * V)) (k : string)
    (v : V) :
  is_sorted (kv :: m) = true -> lookup m k = Some v -> KeyLess (fst kv) k = true.
Proof.
  intros Hs Hl. destruct (KeyLess (fst kv) k) eqn:E; [reflexivity|].
  rewrite (lookup_above kv m k Hs E) in Hl. discriminate Hl.
Qed.

(** When no member removed is an object the loop is the one on the
    association list. *)
Lemma Merge_members_exact (oo : list (string * Value)) :
  is_sorted oo = true ->
  forall this : ObjectValue,
    is_sorted (mMap this) = true ->
    (forall k bv, lookup oo k = Some bv -> IsNull bv = true ->
                  IsObject (or_null (lookup (mMap this) k)) = false) ->
    mMap (fold_left (Merge_member Value_Merge) oo this) = merged (mMap this) oo.
Proof.
  unfold merged. induction oo as [|nv oo IH]; intros Hoo this Hs Hrm; [reflexivity|].
  pose proof (is_sorted_tail _ _ Hoo) as Hoo'.
  assert (lookup (nv :: oo) (fst nv) = Some (snd nv)) as Hnv
    by (cbn [lookup]; rewrite KeyLess_irrefl; reflexivity).
  cbn [fold_left].
  assert (mMap (Merge_member Value_Merge this nv)
          = if IsNull (snd nv) then del (mMap this) (fst nv)
            else put (mMap this) (fst nv)
                   (Value_Merge (or_null (lookup (mMap this) (fst nv))) (snd nv))) as Hstep.
  { destruct (IsNull (snd nv)) eqn:Hn.
    - unfold Merge_member. rewrite Hn.
      apply RemoveMember_spec. rewrite Member_lookup. apply (Hrm _ _ Hnv Hn).
    - apply Merge_member_map, Hn. }
  rewrite <- Hstep. apply IH; [exact Hoo'|apply Merge_member_sorted, Hs|].
  intros k bv Hl Hn.
  pose proof (lookup_Some_above nv oo k bv Hoo Hl) as Hlt.
  assert (lookup (mMap (Merge_member Value_Merge this nv)) k = lookup (mMap this) k) as ->.
  { rewrite Hstep. destruct (IsNull (snd nv)).
    - rewrite lookup_del by exact Hs.
      rewrite (String_eqb_false _ _ (KeyLess_neq _ _ Hlt)). reflexivity.
    - rewrite lookup_put.
      rewrite (String_eqb_false _ _ (KeyLess_neq _ _ Hlt)). reflexivity. }
  apply (Hrm k bv); [|exact Hn].
  cbn [lookup]. rewrite Hlt. exact Hl.
Qed.

Lemma removes_no_object_lookup (this overrides : ObjectValue) :
  removes_no_object this overrides ->
  forall k bv, lookup (mMap overrides) k = Some bv -> IsNull bv = true ->
               IsObject (or_null (lookup (mMap this) k)) = false.
Proof.
  intros H k bv Hl Hn. rewrite <- Member_lookup. apply H.
  - rewrite HasMember_lookup, Hl. reflexivity.
  - rewrite Member_lookup, Hl. exact Hn.
Qed.

(** The members after the loop of ObjectValue::Merge. *)
Lemma Merge_members_lookup (this overrides : ObjectValue) (k : string) :
  is_sorted (mMap this) = true -> is_sorted (mMap overrides) = true ->
  removes_no_object this overrides ->
  is_sorted (mMap (ObjectValue_Merge this overrides)) = true
  /\ lookup (mMap (ObjectValue_Merge this overrides)) k =
       match lookup (mMap overrides) k with
       | Some bv =>
           if IsNull bv then None
           else Some (Value_Merge (or_null (lookup (mMap this) k)) bv)
       | None => lookup (mMap this) k
       end.
Proof.
  intros Hs Hoo Hrm. unfold ObjectValue_Merge.
  rewrite (Merge_members_exact _ Hoo this Hs (removes_no_object_lookup _ _ Hrm)).
  apply merged_lookup; assumption.
Qed.

Lemma Value_assign_not_both (this other : Value) :
  IsObject this && IsObject other = false -> Value_assign this other = other.
Proof. destruct this, other; simpl; intros H; try reflexivity; discriminate H. Qed.

(** C4.  Value::Merge leaves the target alone for a null [overrides]; for
    two objects it merges member by member: a null member of the overrides
    removes the key; any other member is merged into the member of the
    target under that key, which is the recursion on object-typed members;
    and the remaining members of the target stay.  Removing a member moves
    the members behind it down with [Value::Swap], which raises the
    counters of the objects among them, so in general a member is what is
    said here but for the counter of that object ([same_members]); it is
    exactly that when no member removed is an object
    ([removes_no_object]).  Otherwise the target becomes [overrides]. *)
Theorem Value_Merge_cases (this overrides : Value) :
  (IsNull overrides = true -> Value_Merge this overrides = this)
  /\ (forall to oo, this = VObject to -> overrides = VObject oo ->
        is_sorted (mMap to) = true -> is_sorted (mMap oo) = true ->
        Value_Merge this overrides = VObject (ObjectValue_Merge to oo)
        /\ is_sorted (mMap (ObjectValue_Merge to oo)) = true
        /\ (forall k,
             (HasMember oo k = true -> IsNull (Member oo k) = true ->
                HasMember (ObjectValue_Merge to oo) k = false)
             /\ (HasMember oo k = true -> IsNull (Member oo k) = false ->
                   HasMember (ObjectValue_Merge to oo) k = true
                   /\ same_members (Member (ObjectValue_Merge to oo) k)
                        (Value_Merge (Member to k) (Member oo k)))
             /\ (HasMember oo k = false ->
                   HasMember (ObjectValue_Merge to oo) k = HasMember to k
                   /\ same_members (Member (ObjectValue_Merge to oo) k) (Member to k)))
        /\ (removes_no_object to oo ->
            forall k,
              (HasMember oo k = true -> IsNull (Member oo k) = false ->
                 Member (ObjectValue_Merge to oo) k
                 = Value_Merge (Member to k) (Member oo k))
              /\ (HasMember oo k = false ->
                    Member (ObjectValue_Merge to oo) k = Member to k)))
  /\ (IsNull overrides = false -> IsObject this && IsObject overrides = false ->
        Value_Merge this overrides = overrides).
Proof.
  split; [|split].
  - destruct overrides; simpl; intros H; try discriminate H. reflexivity.
  - intros to oo -> -> Hto Hoo. split; [reflexivity|].
    pose proof (Merge_members_alike (mMap oo) to (mMap to) (alike_refl _)) as Ha.
    fold (ObjectValue_Merge to oo) in Ha.
    split; [|split].
    + rewrite (alike_sorted _ _ Ha). apply (merged_lookup _ Hoo _ EmptyString Hto).
    + intros k.
      destruct (merged_lookup (mMap oo) Hoo (mMap to) k Hto) as [_ Hl].
      pose proof (alike_has _ _ k Ha) as Hh.
      pose proof (alike_or_null _ _ k Ha) as Hm.
      rewrite !HasMember_lookup, !Member_lookup, Hh. rewrite Hl in Hh, Hm |- *.
      destruct (lookup (mMap oo) k) as [bv|]; simpl or_null.
      * split; [|split].
        -- intros _ H2. rewrite H2. reflexivity.
        -- intros _ H2. rewrite H2 in Hm |- *. split; [reflexivity|exact Hm].
        -- intros H1. discriminate H1.
      * split; [|split].
        -- intros H1. discriminate H1.
        -- intros H1. discriminate H1.
        -- intros _. split; [reflexivity|exact Hm].
    + intros Hrm k.
      destruct (Merge_members_lookup to oo k Hto Hoo Hrm) as [_ Hl].
      rewrite !HasMember_lookup, !Member_lookup, Hl.
      destruct (lookup (mMap oo) k) as [bv|]; simpl or_null.
      * split; [|intros H1; discriminate H1].
        intros _ H2. rewrite H2. reflexivity.
      * split; [intros H1; discriminate H1|]. intros _. reflexivity.
  - intros Hn Hb. destruct overrides; try discriminate Hn;
      try (destruct this; reflexivity).
    destruct this; try reflexivity. discriminate Hb.
Qed.

(** The overrides [{a: null, c: 3}] merged into [{a: 1, b: 2}]. *)
Lemma Value_Merge_cases_witness :
  let to := mkObjectValue [("a"%string, VInt 1); ("b"%string, VInt 2)] 0 in
  let oo := mkObjectValue [("a"%string, VNull); ("c"%string, VInt 3)] 0 in
  (is_sorted (mMap to) = true /\ is_sorted (mMap oo) = true)
  /\ Value_Merge (VObject to) (VObject oo) = VObject (ObjectValue_Merge to oo)
  /\ HasMember (ObjectValue_Merge to oo) "a" = false
  /\ same_members (Member (ObjectValue_Merge to oo) "c")
       (Value_Merge (Member to "c") (Member oo "c"))
  /\ same_members (Member (ObjectValue_Merge to oo) "b") (Member to "b").
Proof.
  intros to oo. split; [split; reflexivity|].
  destruct (Value_Merge_cases (VObject to) (VObject oo)) as [_ [H _]].
  destruct (H to oo eq_refl eq_refl eq_refl eq_refl) as [H1 [_ [H3 _]]].
  split; [exact H1|].
  split; [exact (proj1 (H3 "a"%string) eq_refl eq_refl)|].
  split; [exact (proj2 (proj1 (proj2 (H3 "c"%string)) eq_refl eq_refl))|].
  exact (proj2 (proj2 (proj2 (H3 "b"%string)) eq_refl)).
Defined.

(** The removal that the merge of [{a: null}] makes in
    [{a: {}, b: {z: 1}}], whose members have the counters 5 and 1: [b] is
    moved down onto the place of [a] with a swap of the two payloads, and
    comes out with the counter 6. *)
Example Merge_removal_raises_the_counter_behind :
  ObjectValue_Merge
    (mkObjectValue [("a"%string, VObject (mkObjectValue [] 5));
                    ("b"%string, VObject (mkObjectValue [("z"%string, VInt 1)] 1))] 0)
    (mkObjectValue [("a"%string, VNull)] 0)
  = mkObjectValue [("b"%string, VObject (mkObjectValue [("z"%string, VInt 1)] 6))] 1.
Proof. reflexivity. Qed.

(** ** The binder: plain scalars (C7) *)

Lemma erase_underscores_strip (s : string) : erase_underscores s = strip_separators s.
Proof.
  unfold strip_separators. induction s as [|c s IH]; simpl; [reflexivity|].
  destruct (Ascii.eqb c "_"); simpl; rewrite IH; reflexivity.
Qed.

Lemma substring_all (s : string) : String.substring 0 (String.length s) s = s.
Proof. induction s as [|c s IH]; simpl; [reflexivity|]. rewrite IH. reflexivity. Qed.

Lemma ascii_eqb_dec (a b : ascii) :
  Ascii.eqb b a = if ascii_dec a b then true else false.
Proof.
  destruct (ascii_dec a b) as [E|N].
  - subst. apply Ascii.eqb_refl.
  - apply Ascii.eqb_neq. intros E. apply N. symmetry. exact E.
Qed.

Lemma StartsWith_0o (s : string) : StartsWith s "0o" = String.prefix "0o" s.
Proof.
  destruct s as [|c [|c2 r]]; cbn [StartsWith String.prefix];
    rewrite ?(ascii_eqb_dec "0" c), ?(ascii_eqb_dec "o" c2).
  - reflexivity.
  - destruct (ascii_dec "0" c); reflexivity.
  - destruct (ascii_dec "0" c); [|reflexivity].
    destruct (ascii_dec "o" c2); [|reflexivity]. destruct r; reflexivity.
Qed.

Lemma erase_octal_prefix (s : string) :
  (if StartsWith s "0o" then erase_1_1 s else s) = octal_prefix s.
Proof.
  unfold octal_prefix. rewrite <- StartsWith_0o.
  destruct s as [|c [|c2 r]]; try reflexivity.
  - cbn [StartsWith]. destruct (Ascii.eqb c "0"); reflexivity.
  - destruct (StartsWith (String c (String c2 r)) "0o") eqn:E; [|reflexivity].
    cbn [StartsWith] in E. destruct (Ascii.eqb_spec c "0") as [->|]; [|discriminate].
    unfold erase_1_1. f_equal.
    change (String.length (String "0" (String c2 r)) - 2)%nat with (String.length r - 0)%nat.
    rewrite Nat.sub_0_r. simpl. symmetry. apply substring_all.
Qed.

Lemma Value_assign_scalar (this other : Value) :
  IsObject other = false -> Value_assign this other = other.
Proof. destruct this, other; simpl; intros H; try reflexivity; discriminate H. Qed.

Section BinderFacts.
Variable strtod : string -> double * nat.

(** The Value a scalar event leaves does not depend on the Value that was
    there, and it is never an object. *)
Lemma scalar_value_fresh (scalar : Value) (valueStr : string) (style : yaml_scalar_style_t) :
  scalar_value strtod scalar valueStr style = scalar_value strtod VNull valueStr style
  /\ IsObject (scalar_value strtod scalar valueStr style) = false.
Proof.
  unfold scalar_value. rewrite !Value_assign_scalar by reflexivity.
  split; [reflexivity|].
  destruct (is_plain style); [|reflexivity].
  repeat match goal with
         | |- context [if ?c then _ else _] => destruct c; try reflexivity
         | |- context [let (_, _) := ?p in _] => destruct p; try reflexivity
         end.
Qed.

Lemma scalar_value_number (scalar : Value) (valueStr : string) :
  is_special_plain valueStr = false ->
  scalar_value strtod scalar valueStr YAML_PLAIN_SCALAR_STYLE =
    let text := number_text valueStr in
    if Nat.eqb (snd (strtol text)) (String.length text)
    then VInt (to_int32 (fst (strtol text)))
    else if Nat.eqb (snd (strtod text)) (String.length text)
         then VDouble (fst (strtod text))
         else VString (Some valueStr).
Proof.
  unfold is_special_plain, scalar_value. intros H.
  repeat (apply orb_false_elim in H; destruct H as [H ?]).
  cbn [is_plain].
  repeat match goal with E : _ = false |- _ => rewrite E; clear E end.
  cbn [orb]. rewrite erase_underscores_strip, erase_octal_prefix.
  rewrite !Value_assign_scalar by reflexivity.
  unfold number_text. cbv zeta.
  destruct (strtol (octal_prefix (strip_separators valueStr))) as [intResult last].
  cbn [fst snd].
  destruct (Nat.eqb last _); [reflexivity|].
  destruct (strtod (octal_prefix (strip_separators valueStr))) as [doubleResult last'].
  reflexivity.
Qed.

(** C7.  A plain scalar that is not null, bool or an IEEE special: the
    separators are stripped and a leading 0o becomes 0; when strtol reads
    all of that text the Value is the integer (narrowed to int), else when
    strtod reads all of it the Value is the double, else it is the string
    as written.  And the events of [key: 0o17] give { "key": int(15) }. *)
Theorem plain_scalar_number_inference :
  (forall (fuel : nat) (scalar : Value) (valueStr : string)
          (rest : yaml_events) (anchors : list (string * Value)) (pb : option string),
     is_special_plain valueStr = false ->
     exists v,
       ParseScalar strtod (S fuel) scalar
         (mkYamlReader
            (Produce (YAML_SCALAR_EVENT None valueStr YAML_PLAIN_SCALAR_STYLE) :: rest)
            anchors pb)
       = Returns (kYamlOk, v) (mkYamlReader rest anchors pb)
       /\ (snd (strtol (number_text valueStr)) = String.length (number_text valueStr) ->
           v = VInt (to_int32 (fst (strtol (number_text valueStr)))))
       /\ (snd (strtol (number_text valueStr)) <> String.length (number_text valueStr) ->
           snd (strtod (number_text valueStr)) = String.length (number_text valueStr) ->
           v = VDouble (fst (strtod (number_text valueStr))))
       /\ (snd (strtol (number_text valueStr)) <> String.length (number_text valueStr) ->
           snd (strtod (number_text valueStr)) <> String.length (number_text valueStr) ->
           v = VString (Some valueStr)))
  /\ number_text "0o17" = "017"%string
  /\ strtol "017" = (15, 3%nat)
  /\ returned (LoadYaml strtod events_key_0o17)
     = Some (true, VObject (mkObjectValue [("key"%string, VInt 15)] 1)).
Proof.
  split; [|repeat split; reflexivity].
  intros fuel scalar valueStr rest anchors pb Hs.
  eexists. split; [reflexivity|].
  rewrite (scalar_value_number scalar valueStr Hs). cbv zeta.
  split; [|split].
  - intros E. apply Nat.eqb_eq in E. rewrite E. reflexivity.
  - intros N E. apply Nat.eqb_neq in N. apply Nat.eqb_eq in E. rewrite N, E. reflexivity.
  - intros N N'. apply Nat.eqb_neq in N, N'. rewrite N, N'. reflexivity.
Qed.
End BinderFacts.

Lemma plain_scalar_number_inference_witness :
  is_special_plain "1_000" = false
  /\ exists v,
       ParseScalar strtod_none 1 VNull
         (mkYamlReader [Produce (YAML_SCALAR_EVENT None "1_000" YAML_PLAIN_SCALAR_STYLE)] [] None)
       = Returns (kYamlOk, v) (mkYamlReader [] [] None)
       /\ v = VInt 1000.
Proof.
  split; [reflexivity|].
  destruct (plain_scalar_number_inference strtod_none) as [H _].
  destruct (H O VNull "1_000"%string [] [] None eq_refl) as [v [Hr [Hi _]]].
  exists v. split; [exact Hr|]. rewrite (Hi eq_refl). reflexivity.
Defined.
(** ** The binder: merge keys (C1) *)


Lemma Value_Merge_onto_scalar (this overrides : Value) :
  IsObject this = false -> IsNull overrides = false ->
  Value_Merge this overrides = overrides.
Proof.
  intros Ht Hn.
  destruct overrides; try discriminate Hn; destruct this; try discriminate Ht; reflexivity.
Qed.

Lemma IsNull_eq (v : Value) : IsNull v = true -> v = VNull.
Proof. destruct v; simpl; intros H; try discriminate H. reflexivity. Qed.

Lemma with_parser_twice (rd : YamlReader) (p q : yaml_events) :
  with_parser (with_parser rd p) q = with_parser rd q.
Proof. reflexivity. Qed.

Lemma find_anchor_with_parser (rd : YamlReader) (p : yaml_events) (anchor : string) :
  find_anchor (with_parser rd p) anchor = find_anchor rd anchor.
Proof. reflexivity. Qed.

Lemma anchors_share_with_parser (rd : YamlReader) (p : yaml_events) :
  anchors_share (with_parser rd p) = anchors_share rd.
Proof. reflexivity. Qed.

(** *** Objects whose members are scalars, strings or arrays *)

Lemma lookup_forallb {V : Type} (P : V -> bool) (m : list (string * V)) (k : string) (v : V) :
  forallb (fun kv => P (snd kv)) m = true -> lookup m k = Some v -> P v = true.
Proof.
  induction m as [|kv m IH]; [discriminate|].
  cbn [forallb lookup]. intros H. apply andb_prop in H as [H1 H2].
  destruct (KeyLess (fst kv) k); [apply IH, H2|].
  destruct (KeyLess k (fst kv)); [discriminate|].
  intros E. injection E as <-. exact H1.
Qed.

Lemma flat_Member (o : ObjectValue) :
  flat o = true -> forall k, IsObject (Member o k) = false.
Proof.
  intros H k. rewrite Member_lookup.
  destruct (lookup (mMap o) k) as [v|] eqn:E; [|reflexivity].
  apply negb_true_iff.
  exact (lookup_forallb (fun v => negb (IsObject v)) _ _ _ H E).
Qed.

Lemma no_object_member_reaches (o mo : ObjectValue) :
  (forall k, IsObject (Member o k) = false) -> reaches_object_member o mo = false.
Proof.
  intros H. unfold reaches_object_member.
  induction (mMap mo) as [|nv m IH]; [reflexivity|].
  cbn [existsb]. rewrite H, IH. reflexivity.
Qed.

Lemma no_object_member_removes (o mo : ObjectValue) :
  (forall k, IsObject (Member o k) = false) -> removes_no_object o mo.
Proof. intros H k _ _. apply H. Qed.

(** Merging an object into one whose members are no objects: the members
    of the overrides go over those of the target, and a null member removes
    the key. *)
Lemma Merge_onto_scalars (o M : ObjectValue) :
  is_sorted (mMap o) = true -> is_sorted (mMap M) = true ->
  (forall k, IsObject (Member o k) = false) ->
  is_sorted (mMap (ObjectValue_Merge o M)) = true
  /\ forall k,
       lookup (mMap (ObjectValue_Merge o M)) k
       = match lookup (mMap M) k with
         | Some bv => if IsNull bv then None else Some bv
         | None => lookup (mMap o) k
         end.
Proof.
  intros Ho HM Hflat.
  pose proof (no_object_member_removes o M Hflat) as Hrm.
  split; [apply (Merge_members_lookup o M EmptyString Ho HM Hrm)|].
  intros k. rewrite (proj2 (Merge_members_lookup o M k Ho HM Hrm)).
  destruct (lookup (mMap M) k) as [bv|]; [|reflexivity].
  destruct (IsNull bv) eqn:En; [reflexivity|]. f_equal.
  apply Value_Merge_onto_scalar; [|exact En].
  rewrite <- Member_lookup. apply Hflat.
Qed.

Lemma Member_no_object_lookup (o : ObjectValue) :
  (forall k v, lookup (mMap o) k = Some v -> IsObject v = false) ->
  forall k, IsObject (Member o k) = false.
Proof.
  intros H k. rewrite Member_lookup.
  destruct (lookup (mMap o) k) as [v|] eqn:E; [exact (H k v E)|reflexivity].
Qed.

Lemma Merge_onto_scalars_flat (o M : ObjectValue) :
  is_sorted (mMap o) = true -> is_sorted (mMap M) = true ->
  (forall k, IsObject (Member o k) = false) ->
  (forall k, IsObject (Member M k) = false) ->
  forall k, IsObject (Member (ObjectValue_Merge o M) k) = false.
Proof.
  intros Ho HM Hflat HflatM k.
  rewrite Member_lookup, (proj2 (Merge_onto_scalars o M Ho HM Hflat) k).
  specialize (Hflat k). specialize (HflatM k). rewrite Member_lookup in Hflat, HflatM.
  destruct (lookup (mMap M) k) as [bv|]; [|exact Hflat].
  destruct (IsNull bv); [reflexivity|exact HflatM].
Qed.

Section MergeKeyFacts.
Variable strtod : string -> double * nat.

Lemma ParseMapping_end (fuel : nat) (object : option ObjectValue) (rd : YamlReader)
    (rest : yaml_events) :
  ParseMapping strtod (S fuel) object
    (with_parser rd (Produce YAML_MAPPING_END_EVENT :: rest))
  = Returns (kYamlOk, object) (with_parser rd rest).
Proof. reflexivity. Qed.

(** An entry [key: value] with a scalar value. *)
Lemma ParseMapping_entry (fuel : nat) (o : ObjectValue) (rd : YamlReader)
    (key valueStr : string) (style : yaml_scalar_style_t) (rest : yaml_events) :
  String.eqb key "<<" = false ->
  ParseMapping strtod (S (S fuel)) (Some o)
    (with_parser rd (entry_events key valueStr style ++ rest))
  = ParseMapping strtod (S fuel)
      (Some (store (fst (UpdateMember o (c_str key))) (snd (UpdateMember o (c_str key)))
               (scalar_value strtod
                  (deref (fst (UpdateMember o (c_str key))) (snd (UpdateMember o (c_str key))))
                  valueStr style)))
      (with_parser rd rest).
Proof.
  intros Hk.
  cbn [ParseMapping entry_events app mParser with_parser mAnchors problem].
  rewrite Hk. destruct (UpdateMember o (c_str key)) as [o1 it].
  cbn [ParseScalar mParser with_parser mAnchors problem fst snd].
  rewrite !with_parser_twice. reflexivity.
Qed.

(** A mapping is parsed into a null Value: a new object. *)
Lemma ParseScalar_mapping_start (fuel : nat) (rd : YamlReader) (rest rest' : yaml_events)
    (o : ObjectValue) :
  ParseMapping strtod fuel (Some (mkObjectValue [] 0)) (with_parser rd rest)
  = Returns (kYamlOk, Some o) (with_parser rd rest') ->
  ParseScalar strtod (S fuel) VNull
    (with_parser rd (Produce (YAML_MAPPING_START_EVENT None) :: rest))
  = Returns (kYamlOk, VObject o) (with_parser rd rest').
Proof.
  intros H.
  cbn [ParseScalar mParser with_parser mAnchors problem IsObject Type_ ValueType_eqb andb].
  rewrite !with_parser_twice, H. reflexivity.
Qed.

(** An alias read into a null Value gives the Value of the anchor. *)
Lemma ParseScalar_alias (fuel : nat) (rd : YamlReader) (anchor : string) (v : Value)
    (rest : yaml_events) :
  find_anchor rd anchor = Some v ->
  ParseScalar strtod (S fuel) VNull (with_parser rd (Produce (YAML_ALIAS_EVENT anchor) :: rest))
  = Returns (kYamlOk, v) (with_parser rd rest).
Proof.
  intros H.
  cbn [ParseScalar mParser with_parser mAnchors problem].
  rewrite !with_parser_twice, find_anchor_with_parser, H. destruct v; reflexivity.
Qed.

(** A merge key paired with something that is read as an object, into an
    object none of whose members the merge reaches is an object. *)
Lemma ParseMapping_merge_object (fuel : nat) (o M : ObjectValue) (rd : YamlReader)
    (rest rest' : yaml_events) :
  ParseScalar strtod fuel VNull (with_parser rd rest)
  = Returns (kYamlOk, VObject M) (with_parser rd rest') ->
  reaches_object_member o M = false ->
  ParseMapping strtod (S fuel) (Some o) (with_parser rd (merge_key :: rest))
  = ParseMapping strtod fuel (Some (ObjectValue_Merge o M)) (with_parser rd rest').
Proof.
  intros H Hr.
  cbn [ParseMapping merge_key mParser with_parser mAnchors problem String.eqb Ascii.eqb
       Bool.eqb].
  rewrite !with_parser_twice, H. unfold Merge_into. rewrite Hr, andb_false_r. reflexivity.
Qed.

Lemma ParseMapping_merge_array (fuel : nat) (o o' : ObjectValue) (elts : list Value)
    (rd : YamlReader) (rest rest' : yaml_events) :
  ParseScalar strtod fuel VNull (with_parser rd rest)
  = Returns (kYamlOk, VArray (Some elts)) (with_parser rd rest') ->
  merge_all (anchors_share rd) (Some o) elts true = Merged (Some o') true ->
  ParseMapping strtod (S fuel) (Some o) (with_parser rd (merge_key :: rest))
  = ParseMapping strtod fuel (Some o') (with_parser rd rest').
Proof.
  intros H Hm.
  cbn [ParseMapping merge_key mParser with_parser mAnchors problem String.eqb Ascii.eqb
       Bool.eqb].
  rewrite !with_parser_twice, H, anchors_share_with_parser, Hm. reflexivity.
Qed.

(** The member map after entries with scalar values: each is a [put]. *)
Lemma ParseMapping_entries (entries : list (string * (string * yaml_scalar_style_t))) :
  forall (fuel : nat) (o : ObjectValue) (rd : YamlReader) (rest : yaml_events),
    no_merge_key entries = true ->
    (List.length entries < fuel)%nat ->
    exists o',
      ParseMapping strtod fuel (Some o)
        (with_parser rd (entries_events entries ++ Produce YAML_MAPPING_END_EVENT :: rest))
      = Returns (kYamlOk, Some o') (with_parser rd rest)
      /\ mMap o'
         = fold_left (fun m e => put m (c_str (fst e))
                                   (scalar_value strtod VNull (fst (snd e)) (snd (snd e))))
             entries (mMap o).
Proof.
  unfold no_merge_key.
  induction entries as [|[key [valueStr style]] entries IH]; intros fuel o rd rest Hkeys Hf.
  - destruct fuel as [|fuel]; [cbn in Hf; lia|]. exists o. split; reflexivity.
  - cbn [forallb fst] in Hkeys. apply andb_prop in Hkeys. destruct Hkeys as [Hk Hkeys].
    apply negb_true_iff in Hk. cbn [List.length] in Hf.
    destruct fuel as [|[|fuel]]; [lia|lia|].
    cbn [entries_events flat_map fst snd].
    fold (entries_events entries). rewrite <- app_assoc.
    rewrite (ParseMapping_entry _ o rd key valueStr style _ Hk).
    destruct (UpdateMember_spec o (c_str key)) as [_ [_ [_ Hs]]].
    set (sv := scalar_value strtod _ valueStr style) in *.
    destruct (Hs sv) as [Hm _].
    destruct (IH (S fuel) (store (fst (UpdateMember o (c_str key)))
                             (snd (UpdateMember o (c_str key))) sv)
                rd rest Hkeys ltac:(lia)) as (o' & Hrun & Hmap).
    exists o'. split; [exact Hrun|].
    rewrite Hmap, Hm. cbn [fold_left fst snd]. unfold sv.
    rewrite (proj1 (scalar_value_fresh strtod _ valueStr style)). reflexivity.
Qed.

Lemma is_sorted_fold_put {V : Type} (entries : list (string * V)) :
  forall m : list (string * V),
    is_sorted m = true ->
    is_sorted (fold_left (fun m e => put m (fst e) (snd e)) entries m) = true.
Proof.
  induction entries as [|e entries IH]; intros m Hm; [exact Hm|].
  cbn [fold_left]. apply IH, is_sorted_put, Hm.
Qed.

Lemma lookup_fold_put {V : Type} (entries : list (string * V)) (k : string) :
  forall m : list (string * V),
    lookup (fold_left (fun m e => put m (fst e) (snd e)) entries m) k
    = match List.find (fun e => String.eqb (fst e) k) (rev entries) with
      | Some e => Some (snd e)
      | None => lookup m k
      end.
Proof.
  induction entries as [|e entries IH] using rev_ind; intros m; [reflexivity|].
  rewrite fold_left_app, rev_app_distr. cbn [fold_left rev app List.find].
  rewrite lookup_put. destruct (String.eqb (fst e) k); [reflexivity|apply IH].
Qed.

Lemma fold_put_map {V W : Type} (g : string -> string) (f : W -> V)
    (entries : list (string * W)) :
  forall m : list (string * V),
    fold_left (fun m e => put m (g (fst e)) (f (snd e))) entries m
    = fold_left (fun m e => put m (fst e) (snd e))
        (map (fun e => (g (fst e), f (snd e))) entries) m.
Proof.
  induction entries as [|e entries IH]; intros m; [reflexivity|].
  cbn [fold_left map fst snd]. apply IH.
Qed.

Lemma find_map_key {V W : Type} (g : string -> string) (f : W -> V)
    (entries : list (string * W)) (k : string) :
  List.find (fun e => String.eqb (fst e) k) (map (fun e => (g (fst e), f (snd e))) entries)
  = option_map (fun e => (g (fst e), f (snd e)))
      (List.find (fun e => String.eqb (g (fst e)) k) entries).
Proof.
  induction entries as [|e entries IH]; [reflexivity|].
  cbn [map List.find fst]. destruct (String.eqb (g (fst e)) k); [reflexivity|exact IH].
Qed.

(** The members of a mapping of scalars: the last entry under a key
    counts. *)
Lemma entries_members (entries : list (string * (string * yaml_scalar_style_t)))
    (m : list (string * Value)) :
  m = fold_left (fun m e => put m (c_str (fst e))
                              (scalar_value strtod VNull (fst (snd e)) (snd (snd e))))
        entries [] ->
  is_sorted m = true
  /\ forall k, lookup m k
               = option_map (fun item => scalar_value strtod VNull (fst item) (snd item))
                   (last_entry entries k).
Proof.
  intros ->.
  rewrite (fold_put_map c_str (fun item => scalar_value strtod VNull (fst item) (snd item))).
  split; [apply is_sorted_fold_put; reflexivity|].
  intros k. rewrite lookup_fold_put, <- map_rev.
  rewrite (find_map_key c_str (fun item => scalar_value strtod VNull (fst item) (snd item))).
  unfold last_entry.
  destruct (List.find (fun e => String.eqb (c_str (fst e)) k) (rev entries)) as [e|];
    reflexivity.
Qed.

Lemma entries_events_length (entries : list (string * (string * yaml_scalar_style_t))) :
  List.length (entries_events entries) = (2 * List.length entries)%nat.
Proof.
  induction entries as [|e entries IH]; [reflexivity|].
  cbn [entries_events flat_map entry_events app List.length].
  fold (entries_events entries). rewrite IH. lia.
Qed.

Lemma item_events_length (item : merge_item) : (1 <= List.length (item_events item))%nat.
Proof. destruct item; cbn; lia. Qed.

(** *** What a merge key is paired with *)

(** An alias of an object, or a mapping of scalars, is read as an object
    whose members are no objects. *)
Lemma ParseScalar_item (rd : YamlReader) (item : merge_item) (fuel : nat)
    (rest : yaml_events) :
  item_ok rd item = true ->
  (List.length (item_events item) < fuel)%nat ->
  exists M,
    ParseScalar strtod fuel VNull (with_parser rd (item_events item ++ rest))
    = Returns (kYamlOk, VObject M) (with_parser rd rest)
    /\ is_sorted (mMap M) = true
    /\ (forall k, IsObject (Member M k) = false)
    /\ forall k, lookup (mMap M) k = item_member strtod rd item k.
Proof.
  destruct item as [anchor|entries]; cbn [item_ok item_events item_member]; intros Hok Hf.
  - destruct (find_anchor rd anchor) as [v|] eqn:Ea; [|discriminate Hok].
    destruct v as [| | | | | | | | |M]; try discriminate Hok.
    apply andb_prop in Hok as [Hs Hflat].
    destruct fuel as [|fuel]; [cbn in Hf; lia|].
    exists M. split; [apply ParseScalar_alias, Ea|].
    split; [exact Hs|]. split; [apply flat_Member, Hflat|reflexivity].
  - cbn [List.length] in Hf. rewrite length_app, entries_events_length in Hf.
    cbn [List.length] in Hf.
    destruct fuel as [|fuel]; [lia|].
    destruct (ParseMapping_entries entries fuel (mkObjectValue [] 0) rd rest Hok ltac:(lia))
      as (M & Hrun & Hmap).
    cbn [mMap] in Hmap.
    destruct (entries_members entries (mMap M) Hmap) as [Hs Hl].
    exists M. split; [|split; [exact Hs|split; [|exact Hl]]].
    + cbn [app]. rewrite <- app_assoc. cbn [app].
      apply ParseScalar_mapping_start, Hrun.
    + apply Member_no_object_lookup. intros k v. rewrite Hl.
      destruct (last_entry entries k) as [e|]; [|discriminate].
      cbn [option_map]. intros E. injection E as <-. apply scalar_value_fresh.
Qed.

Lemma ParseSequence_end (fuel : nat) (array : list Value) (rd : YamlReader)
    (rest : yaml_events) :
  ParseSequence strtod (S (S fuel)) array
    (with_parser rd (Produce YAML_SEQUENCE_END_EVENT :: rest))
  = Returns (kYamlOk, array) (with_parser rd rest).
Proof. reflexivity. Qed.

Lemma ParseSequence_item (fuel : nat) (array : list Value) (rd : YamlReader)
    (events rest : yaml_events) (item : Value) :
  ParseScalar strtod fuel VNull (with_parser rd events)
  = Returns (kYamlOk, item) (with_parser rd rest) ->
  ParseSequence strtod (S fuel) array (with_parser rd events)
  = ParseSequence strtod fuel (array ++ [item]) (with_parser rd rest).
Proof. intros H. cbn [ParseSequence]. rewrite H. reflexivity. Qed.

Lemma ParseScalar_sequence_start (fuel : nat) (scalar : Value) (rd : YamlReader)
    (rest rest' : yaml_events) (array : list Value) :
  ParseSequence strtod fuel [] (with_parser rd rest)
  = Returns (kYamlOk, array) (with_parser rd rest') ->
  ParseScalar strtod (S fuel) scalar
    (with_parser rd (Produce (YAML_SEQUENCE_START_EVENT None) :: rest))
  = Returns (kYamlOk, VArray (Some array)) (with_parser rd rest').
Proof.
  intros H.
  cbn [ParseScalar mParser with_parser mAnchors problem].
  rewrite !with_parser_twice, H. reflexivity.
Qed.

(** A sequence of such items is read as the array of their objects. *)
Lemma ParseSequence_items (rd : YamlReader) (items : list merge_item) :
  forall (fuel : nat) (array : list Value) (rest : yaml_events),
    forallb (item_ok rd) items = true ->
    (List.length (flat_map item_events items) + 1 < fuel)%nat ->
    exists Ms,
      ParseSequence strtod fuel array
        (with_parser rd (flat_map item_events items
                         ++ Produce YAML_SEQUENCE_END_EVENT :: rest))
      = Returns (kYamlOk, array ++ map VObject Ms) (with_parser rd rest)
      /\ Forall2 (fun item M =>
                    is_sorted (mMap M) = true
                    /\ (forall k, IsObject (Member M k) = false)
                    /\ forall k, lookup (mMap M) k = item_member strtod rd item k)
           items Ms.
Proof.
  induction items as [|item items IH]; intros fuel array rest Hok Hf.
  - destruct fuel as [|[|fuel]]; [cbn in Hf; lia|cbn in Hf; lia|].
    exists []. split; [|constructor].
    cbn [flat_map app map]. rewrite ParseSequence_end, app_nil_r. reflexivity.
  - cbn [forallb] in Hok. apply andb_prop in Hok as [Hi Hok].
    cbn [flat_map] in Hf |- *. rewrite length_app in Hf. rewrite <- app_assoc.
    destruct fuel as [|fuel]; [lia|].
    destruct (ParseScalar_item rd item fuel
                (flat_map item_events items ++ Produce YAML_SEQUENCE_END_EVENT :: rest)
                Hi ltac:(lia)) as (M & Hrun & HM).
    pose proof (item_events_length item) as Hpos.
    destruct (IH fuel (array ++ [VObject M]) rest Hok ltac:(lia)) as (Ms & Hseq & HMs).
    exists (M :: Ms). split; [|constructor; assumption].
    rewrite (ParseSequence_item _ _ _ _ _ _ Hrun), Hseq.
    cbn [map]. rewrite <- app_assoc. reflexivity.
Qed.

(** The objects of the items merged in turn. *)
Lemma merge_all_items (shares : bool) (rd : YamlReader) (items : list merge_item)
    (Ms : list ObjectValue) :
  Forall2 (fun item M =>
             is_sorted (mMap M) = true
             /\ (forall k, IsObject (Member M k) = false)
             /\ forall k, lookup (mMap M) k = item_member strtod rd item k)
    items Ms ->
  forall o : ObjectValue,
    is_sorted (mMap o) = true ->
    (forall k, IsObject (Member o k) = false) ->
    exists o',
      merge_all shares (Some o) (map VObject Ms) true = Merged (Some o') true
      /\ is_sorted (mMap o') = true
      /\ (forall k, IsObject (Member o' k) = false)
      /\ forall k, lookup (mMap o') k
                   = fold_left (item_effect strtod rd k) items (lookup (mMap o) k).
Proof.
  intros H. induction H as [|item M items Ms (HsM & HflatM & HlM) _ IH]; intros o Hs Hflat.
  - exists o. repeat split; assumption.
  - destruct (Merge_onto_scalars o M Hs HsM Hflat) as [Hs1 Hl1].
    pose proof (Merge_onto_scalars_flat o M Hs HsM Hflat HflatM) as Hflat1.
    destruct (IH (ObjectValue_Merge o M) Hs1 Hflat1) as (o' & Hrun & Hs' & Hflat' & Hl').
    exists o'. split; [|split; [exact Hs'|split; [exact Hflat'|]]].
    + cbn [map merge_all]. unfold Merge_into.
      rewrite (no_object_member_reaches o M Hflat), andb_false_r. exact Hrun.
    + intros k. rewrite Hl', Hl1. cbn [fold_left]. f_equal. unfold item_effect.
      rewrite <- HlM. reflexivity.
Qed.

(** *** The entries of a mapping, each applied in its turn *)
Lemma ParseMapping_with_merge_keys (rd : YamlReader) (entries : list mapping_entry) :
  forall (fuel : nat) (o : ObjectValue) (rest : yaml_events),
    forallb (mapping_entry_ok rd) entries = true ->
    (List.length (flat_map mapping_entry_events entries) < fuel)%nat ->
    is_sorted (mMap o) = true ->
    (forall k, IsObject (Member o k) = false) ->
    exists o',
      ParseMapping strtod fuel (Some o)
        (with_parser rd (flat_map mapping_entry_events entries
                         ++ Produce YAML_MAPPING_END_EVENT :: rest))
      = Returns (kYamlOk, Some o') (with_parser rd rest)
      /\ is_sorted (mMap o') = true
      /\ (forall k, IsObject (Member o' k) = false)
      /\ forall k, lookup (mMap o') k
                   = fold_left (entry_effect strtod rd k) entries (lookup (mMap o) k).
Proof.
  induction entries as [|e entries IH]; intros fuel o rest Hok Hf Hs Hflat.
  - destruct fuel as [|fuel]; [cbn in Hf; lia|].
    exists o. repeat split; assumption.
  - cbn [forallb] in Hok. apply andb_prop in Hok as [He Hok].
    cbn [flat_map] in Hf |- *. rewrite length_app in Hf. rewrite <- app_assoc.
    set (tail := flat_map mapping_entry_events entries
                 ++ Produce YAML_MAPPING_END_EVENT :: rest) in *.
    destruct e as [key valueStr style|item|items];
      cbn [mapping_entry_events mapping_entry_ok] in Hf, He |- *.
    + (* a scalar entry *)
      apply negb_true_iff in He. cbn [entry_events List.length] in Hf.
      destruct fuel as [|[|fuel]]; [lia|lia|].
      rewrite (ParseMapping_entry _ o rd key valueStr style _ He).
      destruct (UpdateMember_spec o (c_str key)) as [_ [_ [_ Hput]]].
      set (sv := scalar_value strtod _ valueStr style) in *.
      assert (sv = scalar_value strtod VNull valueStr style) as Esv
        by apply scalar_value_fresh.
      destruct (Hput sv) as [Hm _].
      set (o1 := store (fst (UpdateMember o (c_str key))) (snd (UpdateMember o (c_str key))) sv)
        in *.
      assert (forall k, lookup (mMap o1) k
                        = if String.eqb (c_str key) k then Some sv else lookup (mMap o) k)
        as Hl1 by (intros k; rewrite Hm; apply lookup_put).
      destruct (IH (S fuel) o1 rest Hok ltac:(lia)) as (o' & Hrun & Hs' & Hflat' & Hl').
      * rewrite Hm. apply is_sorted_put, Hs.
      * intros k. rewrite Member_lookup, Hl1.
        destruct (String.eqb (c_str key) k).
        -- cbn [or_null]. rewrite Esv. apply scalar_value_fresh.
        -- rewrite <- Member_lookup. apply Hflat.
      * exists o'. split; [exact Hrun|]. split; [exact Hs'|]. split; [exact Hflat'|].
        intros k. rewrite Hl', Hl1. cbn [fold_left entry_effect]. rewrite Esv. reflexivity.
    + (* a merge key with one item *)
      cbn [List.length] in Hf.
      destruct fuel as [|fuel]; [lia|].
      destruct (ParseScalar_item rd item fuel tail He ltac:(lia))
        as (M & HrunM & HsM & HflatM & HlM).
      destruct (Merge_onto_scalars o M Hs HsM Hflat) as [Hs1 Hl1].
      pose proof (Merge_onto_scalars_flat o M Hs HsM Hflat HflatM) as Hflat1.
      destruct (IH fuel (ObjectValue_Merge o M) rest Hok ltac:(lia) Hs1 Hflat1)
        as (o' & Hrun & Hs' & Hflat' & Hl').
      exists o'. split; [|split; [exact Hs'|split; [exact Hflat'|]]].
      * cbn [app].
        rewrite (ParseMapping_merge_object _ o M rd _ _ HrunM
                   (no_object_member_reaches o M Hflat)).
        exact Hrun.
      * intros k. rewrite Hl', Hl1. cbn [fold_left entry_effect]. f_equal.
        unfold item_effect. rewrite <- HlM. reflexivity.
    + (* a merge key with a sequence of items *)
      cbn [List.length] in Hf. rewrite length_app in Hf. cbn [List.length] in Hf.
      destruct fuel as [|[|fuel]]; [lia|lia|].
      destruct (ParseSequence_items rd items fuel [] tail He ltac:(lia)) as (Ms & Hseq & HMs).
      destruct (merge_all_items (anchors_share rd) rd items Ms HMs o Hs Hflat)
        as (o1 & Hmerge & Hs1 & Hflat1 & Hl1).
      destruct (IH (S fuel) o1 rest Hok ltac:(lia) Hs1 Hflat1)
        as (o' & Hrun & Hs' & Hflat' & Hl').
      exists o'. split; [|split; [exact Hs'|split; [exact Hflat'|]]].
      * cbn [app]. rewrite <- app_assoc. cbn [app].
        rewrite (ParseMapping_merge_array (S fuel) o o1 (map VObject Ms) rd _ tail);
          [exact Hrun| |exact Hmerge].
        apply ParseScalar_sequence_start. exact Hseq.
      * intros k. rewrite Hl', Hl1. reflexivity.
Qed.

End MergeKeyFacts.


(** The whole of a document with an anchor and a merge key:
    [base: &d { colour: red, size: 1 }], [item: { size: 2, <<: *d }].  The
    merge key stands after [size: 2], and [item] has the size of [base]. *)
Example merge_key_with_an_anchor_of_the_document :
  exists o rd,
    LoadYaml strtod_none events_merge_of_anchor = Returns (true, VObject o) rd
    /\ Member o "item"
       = VObject (mkObjectValue [("colour"%string, VString (Some "red"%string));
                                 ("size"%string, VInt 1)] 3)
    /\ find_anchor rd "d"
       = Some (VObject (mkObjectValue [("colour"%string, VString (Some "red"%string));
                                       ("size"%string, VInt 1)] 2)).
Proof. eexists. eexists. split; [vm_compute; reflexivity|]. split; reflexivity. Qed.

(** Where the model gives no result: in [a: &x { size: 1 }],
    [a: { size: 2, <<: *x }] the second mapping is parsed into the object
    that the anchor [x] shares, so that the alias reads what the second
    mapping has written so far. *)
Example mapping_entered_again_is_aliased :
  LoadYaml strtod_none events_mapping_entered_again = Aliased.
Proof. reflexivity. Qed.

(** ** The scanner: block scalars (C8) *)

Lemma SKIP_buffer (parser : yaml_parser_t) : buffer (SKIP parser) = tl (buffer parser).
Proof. reflexivity. Qed.

Lemma tl_length (buf : list Z) : (List.length (tl buf) <= List.length buf)%nat.
Proof. destruct buf; simpl; lia. Qed.

Lemma IS_BREAK_nonempty (buf : list Z) :
  IS_BREAK buf = true -> exists c r, buf = c :: r /\ is_break_char c = true.
Proof.
  destruct buf as [|c r]; [discriminate|]. intros H. exists c, r. split; [reflexivity|exact H].
Qed.

Lemma is_break_LF : is_break_char ch_LF = true.
Proof. reflexivity. Qed.

(** READ_LINE at a line break: one line break is appended, and input is
    consumed. *)
Lemma READ_LINE_at_break (parser : yaml_parser_t) (str : list Z) :
  IS_BREAK (buffer parser) = true ->
  exists b, snd (READ_LINE parser str) = str ++ [b] /\ is_break_char b = true
    /\ (List.length (buffer (fst (READ_LINE parser str))) < List.length (buffer parser))%nat.
Proof.
  intros H. destruct (IS_BREAK_nonempty _ H) as [c [r [Hb Hc]]].
  unfold READ_LINE. rewrite Hb. unfold CHECK_AT, char_at. cbn [nth].
  destruct (c =? ch_CR) eqn:E1.
  - destruct r as [|c2 r]; cbn [nth andb].
    + cbn [orb]. exists ch_LF. repeat split. cbn. lia.
    + destruct (c2 =? ch_LF); cbn [andb orb]; exists ch_LF; repeat split; cbn; lia.
  - cbn [andb orb]. destruct (c =? ch_LF) eqn:E2.
    + exists ch_LF. repeat split. cbn. lia.
    + destruct (c =? ch_NEL) eqn:E3.
      * exists ch_LF. repeat split. cbn. lia.
      * unfold is_break_char in Hc. rewrite E1, E2, E3 in Hc. cbn [orb] in Hc.
        rewrite Hc. exists c. repeat split.
        -- unfold is_break_char. rewrite E1, E2, E3. exact Hc.
        -- cbn. lia.
Qed.

(** READ_LINE elsewhere leaves everything as it is. *)
Lemma READ_LINE_not_at_break (parser : yaml_parser_t) (str : list Z) :
  IS_BREAK (buffer parser) = false -> READ_LINE parser str = (parser, str).
Proof.
  unfold IS_BREAK, is_break_char, READ_LINE, CHECK_AT. intros H.
  repeat (apply orb_false_elim in H; destruct H as [H ?]).
  repeat match goal with E : _ = false |- _ => rewrite E; clear E end.
  reflexivity.
Qed.

Lemma eat_indentation_length (n : nat) (indent_ : Z) (parser : yaml_parser_t) :
  (List.length (buffer (eat_indentation n indent_ parser)) <= List.length (buffer parser))%nat.
Proof.
  revert parser. induction n as [|n IH]; intros parser; simpl; [lia|].
  destruct (_ && _); [|lia].
  etransitivity; [apply IH|]. rewrite SKIP_buffer. apply tl_length.
Qed.

(** The loop over the line breaks: with more fuel than characters it
    does not run out; it stops at a character that is no line break, and
    what it added to [breaks] are line breaks. *)
Lemma block_scalar_breaks_loop_spec (fuel : nat) :
  forall (parser : yaml_parser_t) (indent_ : Z) (breaks : list Z)
         (start end_ : yaml_mark_t) (max_indent : Z),
    (List.length (buffer parser) < fuel)%nat ->
    match block_scalar_breaks_loop fuel parser indent_ breaks start end_ max_indent with
    | ScanOk (breaks', _, _) parser' =>
        IS_BREAK (buffer parser') = false
        /\ (List.length (buffer parser') <= List.length (buffer parser))%nat
        /\ exists added, breaks' = breaks ++ added /\ all_breaks added = true
    | ScanError parser' =>
        error parser' = YAML_SCANNER_ERROR
    | ScanOutOfFuel => False
    end.
Proof.
  induction fuel as [|fuel IH]; intros parser indent_ breaks start end_ max_indent Hf; [lia|].
  cbn [block_scalar_breaks_loop].
  pose proof (eat_indentation_length (List.length (buffer parser)) indent_ parser) as Hlen.
  set (p1 := eat_indentation (List.length (buffer parser)) indent_ parser) in *.
  destruct (_ && IS_TAB (buffer p1)); [reflexivity|].
  destruct (IS_BREAK (buffer p1)) eqn:Eb; cbn [negb].
  - destruct (READ_LINE_at_break p1 breaks Eb) as [b [Hs [Hb Hl]]].
    destruct (READ_LINE p1 breaks) as [p2 breaks2]. cbn [fst snd] in *.
    match goal with
    | |- match block_scalar_breaks_loop fuel p2 indent_ breaks2 start ?e ?m with _ => _ end =>
        specialize (IH p2 indent_ breaks2 start e m ltac:(lia));
        destruct (block_scalar_breaks_loop fuel p2 indent_ breaks2 start e m)
          as [[[breaks' e'] m'] p'|p'|]
    end; try exact IH.
    destruct IH as [H1 [H2 [added [H3 H4]]]].
    split; [exact H1|]. split; [lia|].
    exists (b :: added). split.
    + rewrite H3, Hs, <- app_assoc. reflexivity.
    + cbn. rewrite Hb. exact H4.
  - split; [exact Eb|]. split; [exact Hlen|].
    exists []. split; [rewrite app_nil_r; reflexivity|reflexivity].
Qed.

Lemma scan_block_scalar_breaks_spec (parser : yaml_parser_t) (indent_ : Z)
    (breaks : list Z) (start : yaml_mark_t) :
  match yaml_parser_scan_block_scalar_breaks (S (List.length (buffer parser)))
          parser indent_ breaks start with
  | ScanOk (_, breaks', _) parser' =>
      IS_BREAK (buffer parser') = false
      /\ (List.length (buffer parser') <= List.length (buffer parser))%nat
      /\ exists added, breaks' = breaks ++ added /\ all_breaks added = true
  | ScanError parser' => error parser' = YAML_SCANNER_ERROR
  | ScanOutOfFuel => False
  end.
Proof.
  unfold yaml_parser_scan_block_scalar_breaks.
  pose proof (block_scalar_breaks_loop_spec (S (List.length (buffer parser))) parser
                indent_ breaks start (mark parser) 0 ltac:(lia)) as H.
  destruct (block_scalar_breaks_loop _ _ _ _ _ _ _) as [[[breaks' e'] m'] p'|p'|];
    exact H.
Qed.

Lemma ends_with_break_snoc (s : list Z) (c : Z) :
  ends_with_break (s ++ [c]) = is_break_char c.
Proof. unfold ends_with_break. rewrite rev_app_distr. reflexivity. Qed.

(** The loop that reads a line: it reads up to a line break or the end of
    the input, and what it reads are no line breaks. *)
Lemma read_to_breakz_spec (n : nat) :
  forall (parser : yaml_parser_t) (str : list Z),
    (List.length (buffer parser) <= n)%nat ->
    let r := read_to_breakz n parser str in
    (List.length (buffer (fst r)) <= List.length (buffer parser))%nat
    /\ (IS_BREAKZ (buffer parser) = false ->
        ends_with_break (snd r) = false
        /\ (List.length (buffer (fst r)) < List.length (buffer parser))%nat)
    /\ (IS_BREAKZ (buffer parser) = true -> r = (parser, str)).
Proof.
  induction n as [|n IH]; intros parser str Hn.
  - cbn [read_to_breakz]. cbv zeta. cbn [fst snd].
    destruct (buffer parser) eqn:Eb; [|simpl in Hn; lia].
    split; [lia|]. split; [discriminate|reflexivity].
  - cbn [read_to_breakz]. destruct (IS_BREAKZ (buffer parser)) eqn:Ez; cbn [negb].
    + cbv zeta. cbn [fst snd]. split; [lia|]. split; [discriminate|reflexivity].
    + unfold READ.
      assert (exists c r, buffer parser = c :: r /\ is_break_char c = false) as [c [r [Eb Hc]]].
      { unfold IS_BREAKZ, IS_BREAK, IS_Z, CHECK, CHECK_AT, char_at in Ez.
        destruct (buffer parser) as [|c r]; [discriminate Ez|].
        exists c, r. split; [reflexivity|]. cbn [nth] in Ez.
        apply orb_false_elim in Ez. apply Ez. }
      rewrite Eb. cbn [tl char_at nth].
      set (p1 := at_input parser r (advance (mark parser))).
      rewrite Eb in Hn. cbn [List.length] in Hn.
      assert (buffer p1 = r) as Ep1 by reflexivity.
      specialize (IH p1 (str ++ [c]) ltac:(rewrite Ep1; lia)).
      cbv zeta in IH. rewrite Ep1 in IH. destruct IH as [H1 [H2 H3]].
      cbv zeta. cbn [List.length].
      split; [lia|]. split; [|discriminate].
      intros _. destruct (IS_BREAKZ r) eqn:Ez'.
      * rewrite (H3 eq_refl). cbn [fst snd].
        split; [rewrite ends_with_break_snoc; exact Hc|rewrite Ep1; lia].
      * destruct (H2 eq_refl) as [H4 H5]. split; [exact H4|lia].
Qed.

Lemma at_most_one_break_READ_LINE (parser : yaml_parser_t) :
  at_most_one_break (snd (READ_LINE parser [])) = true
  /\ (List.length (buffer (fst (READ_LINE parser []))) <= List.length (buffer parser))%nat.
Proof.
  destruct (IS_BREAK (buffer parser)) eqn:Eb.
  - destruct (READ_LINE_at_break parser [] Eb) as [b [Hs [Hb Hl]]].
    rewrite Hs. split; [exact Hb|lia].
  - rewrite (READ_LINE_not_at_break parser [] Eb). split; [reflexivity|cbn; lia].
Qed.

Lemma block_scalar_content_spec (fuel : nat) :
  forall (parser : yaml_parser_t) (literal : bool) (start : yaml_mark_t)
         (st : block_scalar_state),
    (List.length (buffer parser) < fuel)%nat ->
    content_invariant st parser ->
    match block_scalar_content fuel parser literal start st with
    | ScanOk st' parser' => content_invariant st' parser'
    | ScanError parser' => error parser' = YAML_SCANNER_ERROR
    | ScanOutOfFuel => False
    end.
Proof.
  induction fuel as [|fuel IH]; intros parser literal start st Hf Hinv; [lia|].
  cbn [block_scalar_content].
  destruct ((int_column parser =? bs_indent st) && negb (IS_Z (buffer parser))) eqn:Ec;
    [|exact Hinv].
  apply andb_prop in Ec as [_ Ez]. apply negb_true_iff in Ez.
  destruct Hinv as [Hb [Hs [Hl Ht]]].
  assert (IS_BREAKZ (buffer parser) = false) as Hbz
    by (unfold IS_BREAKZ; rewrite Hb, Ez; reflexivity).
  match goal with
  | |- context [read_to_breakz ?n parser ?s] =>
      pose proof (read_to_breakz_spec n parser s ltac:(lia)) as Hr;
      destruct (read_to_breakz n parser s) as [p1 str1]
  end.
  cbv zeta in Hr. cbn [fst snd] in Hr. destruct Hr as [_ [Hr _]].
  destruct (Hr Hbz) as [Hend Hlt].
  pose proof (at_most_one_break_READ_LINE p1) as [Hlb Hlen2].
  destruct (READ_LINE p1 []) as [p2 lb]. cbn [fst snd] in *.
  pose proof (scan_block_scalar_breaks_spec p2 (bs_indent st) [] start) as Hbr.
  destruct (yaml_parser_scan_block_scalar_breaks _ p2 (bs_indent st) [] start)
    as [[[indent' tb] e'] p3|p3|]; [|exact Hbr|exact Hbr].
  destruct Hbr as [Hb3 [Hlen3 [added [Hadd Hall]]]].
  apply IH; [lia|].
  unfold content_invariant. cbn [bs_string bs_leading_break bs_trailing_breaks].
  repeat split; try assumption.
  rewrite Hadd. exact Hall.
Qed.

(** *** Two runs from the same position *)

Lemma position_eq (p q : yaml_parser_t) :
  position p = position q ->
  buffer p = buffer q /\ indent p = indent q /\ int_column p = int_column q.
Proof.
  unfold position, int_column. intros H. injection H as Hb Hi Hc.
  rewrite Hc. repeat split; assumption.
Qed.

Lemma SKIP_position (p q : yaml_parser_t) :
  position p = position q -> position (SKIP p) = position (SKIP q).
Proof.
  unfold position, SKIP. cbn. intros H. injection H as Hb Hi Hc.
  rewrite Hb, Hi, Hc. reflexivity.
Qed.

Lemma READ_position (p q : yaml_parser_t) (str : list Z) :
  position p = position q ->
  position (fst (READ p str)) = position (fst (READ q str))
  /\ snd (READ p str) = snd (READ q str).
Proof.
  unfold position, READ. cbn. intros H. injection H as Hb Hi Hc.
  rewrite Hb, Hi, Hc. split; reflexivity.
Qed.

Lemma READ_LINE_position (p q : yaml_parser_t) (str : list Z) :
  position p = position q ->
  position (fst (READ_LINE p str)) = position (fst (READ_LINE q str))
  /\ snd (READ_LINE p str) = snd (READ_LINE q str).
Proof.
  intros H. pose proof H as H'. unfold position in H'. injection H' as Hb Hi Hc.
  unfold READ_LINE. rewrite Hb.
  repeat match goal with
         | |- context [if ?c then _ else _] => destruct c
         end;
    cbn [fst snd]; (split; [|reflexivity]); try exact H;
    unfold position; cbn; rewrite Hi; reflexivity.
Qed.

Lemma eat_indentation_position (n : nat) (indent_ : Z) :
  forall p q : yaml_parser_t,
    position p = position q ->
    position (eat_indentation n indent_ p) = position (eat_indentation n indent_ q).
Proof.
  induction n as [|n IH]; intros p q H; [exact H|].
  cbn [eat_indentation].
  destruct (position_eq p q H) as [Hb [_ Hc]]. rewrite Hb, Hc.
  destruct (_ && _); [|exact H].
  apply IH, SKIP_position, H.
Qed.

Lemma block_scalar_breaks_loop_position (fuel : nat) :
  forall (p q : yaml_parser_t) (indent_ : Z) (breaks : list Z)
         (sp sq ep eq_ : yaml_mark_t) (max_indent : Z),
    position p = position q ->
    observe (fun '(b, _, m) parser => (b, m, position parser))
      (block_scalar_breaks_loop fuel p indent_ breaks sp ep max_indent)
    = observe (fun '(b, _, m) parser => (b, m, position parser))
        (block_scalar_breaks_loop fuel q indent_ breaks sq eq_ max_indent).
Proof.
  induction fuel as [|fuel IH]; intros p q indent_ breaks sp sq ep eq_ max_indent H;
    [reflexivity|].
  cbn [block_scalar_breaks_loop].
  destruct (position_eq p q H) as [Hb _]. rewrite Hb.
  pose proof (eat_indentation_position (List.length (buffer q)) indent_ p q H) as H1.
  set (p1 := eat_indentation (List.length (buffer q)) indent_ p) in *.
  set (q1 := eat_indentation (List.length (buffer q)) indent_ q) in *.
  destruct (position_eq p1 q1 H1) as [Hb1 [_ Hc1]]. rewrite Hb1, Hc1.
  destruct (_ && IS_TAB (buffer q1)); [reflexivity|].
  destruct (negb (IS_BREAK (buffer q1))).
  - cbn [observe]. rewrite H1. reflexivity.
  - destruct (READ_LINE_position p1 q1 breaks H1) as [H2 H3].
    destruct (READ_LINE p1 breaks) as [p2 b2], (READ_LINE q1 breaks) as [q2 b2'].
    cbn [fst snd] in H2, H3. subst b2'. apply IH, H2.
Qed.

Lemma scan_block_scalar_breaks_position (fuel : nat) (p q : yaml_parser_t) (indent_ : Z)
    (breaks : list Z) (sp sq : yaml_mark_t) :
  position p = position q ->
  observe (fun '(i, b, _) parser => (i, b, position parser))
    (yaml_parser_scan_block_scalar_breaks fuel p indent_ breaks sp)
  = observe (fun '(i, b, _) parser => (i, b, position parser))
      (yaml_parser_scan_block_scalar_breaks fuel q indent_ breaks sq).
Proof.
  intros H. unfold yaml_parser_scan_block_scalar_breaks.
  pose proof (block_scalar_breaks_loop_position fuel p q indent_ breaks sp sq
                (mark p) (mark q) 0 H) as Hl.
  destruct (block_scalar_breaks_loop fuel p _ _ _ _ _) as [[[b1 e1] m1] p1|p1|],
           (block_scalar_breaks_loop fuel q _ _ _ _ _) as [[[b2 e2] m2] q1|q1|];
    cbn [observe] in *; try discriminate Hl; try reflexivity.
  assert (position p1 = position q1) as Hp by congruence.
  assert (b1 = b2) by congruence. assert (m1 = m2) by congruence. subst b2 m2.
  destruct (position_eq p1 q1 Hp) as [_ [Hi _]]. rewrite Hi, Hp. reflexivity.
Qed.

Lemma read_to_breakz_position (n : nat) :
  forall (p q : yaml_parser_t) (str : list Z),
    position p = position q ->
    position (fst (read_to_breakz n p str)) = position (fst (read_to_breakz n q str))
    /\ snd (read_to_breakz n p str) = snd (read_to_breakz n q str).
Proof.
  induction n as [|n IH]; intros p q str H; [split; [exact H|reflexivity]|].
  cbn [read_to_breakz].
  destruct (position_eq p q H) as [Hb _]. rewrite Hb.
  destruct (negb _); [|split; [exact H|reflexivity]].
  destruct (READ_position p q str H) as [H1 H2].
  destruct (READ p str) as [p1 s1], (READ q str) as [q1 s1'].
  cbn [fst snd] in H1, H2. subst s1'. apply IH, H1.
Qed.

Lemma block_scalar_content_position (fuel : nat) :
  forall (p q : yaml_parser_t) (literal : bool) (sp sq : yaml_mark_t)
         (stp stq : block_scalar_state),
    position p = position q ->
    state_text stp = state_text stq ->
    observe (fun st _ => state_text st) (block_scalar_content fuel p literal sp stp)
    = observe (fun st _ => state_text st) (block_scalar_content fuel q literal sq stq).
Proof.
  induction fuel as [|fuel IH]; intros p q literal sp sq stp stq H Hst; [reflexivity|].
  cbn [block_scalar_content].
  destruct (position_eq p q H) as [Hb [_ Hc]]. rewrite Hb, Hc.
  pose proof Hst as Hst'. unfold state_text in Hst'.
  injection Hst' as Hs Hl Ht Hi Hk. rewrite Hs, Hl, Ht, Hi, Hk.
  destruct (_ && negb (IS_Z (buffer q))); [|cbn [observe]; rewrite Hst; reflexivity].
  match goal with
  | |- context [read_to_breakz ?n p ?s] =>
      destruct (read_to_breakz_position n p q s H) as [H1 H2];
      destruct (read_to_breakz n p s) as [p1 s1], (read_to_breakz n q s) as [q1 s1']
  end.
  cbn [fst snd] in H1, H2. subst s1'.
  destruct (READ_LINE_position p1 q1 [] H1) as [H3 H4].
  destruct (READ_LINE p1 []) as [p2 lb], (READ_LINE q1 []) as [q2 lb'].
  cbn [fst snd] in H3, H4. subst lb'.
  destruct (position_eq p2 q2 H3) as [Hb2 _]. rewrite Hb2.
  pose proof (scan_block_scalar_breaks_position (S (List.length (buffer q2))) p2 q2
                (bs_indent stq) [] sp sq H3) as Hbr.
  destruct (yaml_parser_scan_block_scalar_breaks _ p2 _ _ _) as [[[i1 b1] e1] p3|p3|],
           (yaml_parser_scan_block_scalar_breaks _ q2 _ _ _) as [[[i2 b2] e2] q3|q3|];
    cbn [observe] in Hbr; try discriminate Hbr; try reflexivity.
  assert (position p3 = position q3) as Hp' by congruence.
  assert (i1 = i2) by congruence. assert (b1 = b2) by congruence. subst i2 b2.
  apply IH; [exact Hp'|reflexivity].
Qed.

(** *** At the end of the input *)

Lemma IS_Z_no_break (buf : list Z) :
  IS_Z buf = true -> IS_BREAK buf = false /\ IS_SPACE buf = false /\ IS_TAB buf = false.
Proof.
  unfold IS_Z, IS_BREAK, IS_SPACE, IS_TAB, CHECK, CHECK_AT. intros H.
  apply Z.eqb_eq in H. rewrite H. repeat split.
Qed.

Lemma eat_indentation_at_Z (n : nat) (indent_ : Z) (parser : yaml_parser_t) :
  IS_Z (buffer parser) = true -> eat_indentation n indent_ parser = parser.
Proof.
  intros H. destruct (IS_Z_no_break _ H) as [_ [Hs _]].
  destruct n; cbn [eat_indentation]; [reflexivity|].
  rewrite Hs, andb_false_r. reflexivity.
Qed.

Lemma scan_block_scalar_breaks_at_Z (fuel : nat) (parser : yaml_parser_t) (indent_ : Z)
    (start : yaml_mark_t) :
  IS_Z (buffer parser) = true ->
  exists i, yaml_parser_scan_block_scalar_breaks (S fuel) parser indent_ [] start
            = ScanOk (i, [], mark parser) parser.
Proof.
  intros H. destruct (IS_Z_no_break _ H) as [Hb [_ Ht]].
  unfold yaml_parser_scan_block_scalar_breaks. cbn [block_scalar_breaks_loop].
  rewrite (eat_indentation_at_Z _ _ _ H), Ht, Hb, andb_false_r. cbn [negb].
  eexists. reflexivity.
Qed.

Lemma block_scalar_content_at_Z (fuel : nat) (parser : yaml_parser_t) (literal : bool)
    (start : yaml_mark_t) (st : block_scalar_state) :
  IS_Z (buffer parser) = true ->
  block_scalar_content (S fuel) parser literal start st = ScanOk st parser.
Proof.
  intros H. cbn [block_scalar_content]. rewrite H, andb_false_r. reflexivity.
Qed.

(** *** The header *)

Lemma char_at_tl (buf : list Z) (n : nat) : char_at (tl buf) n = char_at buf (S n).
Proof. destruct buf; [destruct n; reflexivity|reflexivity]. Qed.

Lemma block_scalar_header_spec (parser : yaml_parser_t) (start : yaml_mark_t) :
  match block_scalar_header (SKIP parser) start with
  | ScanOk (chomping, increment) parser' =>
      header_digit (buffer parser) <> Some ch_0
      /\ chomping = match header_chomping (buffer parser) with
                    | Strip => -1 | Clip => 0 | Keep => 1
                    end
      /\ increment = match header_digit (buffer parser) with
                     | Some c => c - ch_0 | None => 0
                     end
      /\ buffer parser' = snd (header_rest (buffer parser))
      /\ indent parser' = indent parser
  | ScanError parser' =>
      header_digit (buffer parser) = Some ch_0
      /\ error parser' = YAML_SCANNER_ERROR
      /\ parser_problem parser' = Some "found an indentation indicator equal to 0"%string
      /\ context parser' = Some "while scanning a block scalar"%string
      /\ context_mark parser' = start
  | ScanOutOfFuel => False
  end.
Proof.
  unfold block_scalar_header, header_digit, header_rest, header_chomping,
    chomping_of_char, CHECK, CHECK_AT, IS_DIGIT, AS_DIGIT.
  rewrite ?SKIP_buffer, ?char_at_tl.
  set (c1 := char_at (buffer parser) 1). set (c2 := char_at (buffer parser) 2).
  destruct (c1 =? ch_PLUS) eqn:E1; cbn [orb]; [|destruct (c1 =? ch_MINUS) eqn:E2].
  1,2: destruct (is_digit_char c2) eqn:Ed;
       [destruct (c2 =? ch_0) eqn:E0;
        [apply Z.eqb_eq in E0; rewrite E0; repeat split
        |apply Z.eqb_neq in E0; cbn [fst snd]; repeat split; congruence]
       |cbn [fst snd]; repeat split; discriminate].
  destruct (is_digit_char c1) eqn:Ed.
  - destruct (c1 =? ch_0) eqn:E0.
    + apply Z.eqb_eq in E0. rewrite E0.
      destruct (c2 =? ch_PLUS); [|destruct (c2 =? ch_MINUS)]; repeat split.
    + apply Z.eqb_neq in E0.
      destruct (c2 =? ch_PLUS); cbn [orb]; [|destruct (c2 =? ch_MINUS)];
        cbn [fst snd]; repeat split; congruence.
  - cbn [fst snd]. repeat split. discriminate.
Qed.

Lemma eat_blanks_input (n : nat) :
  forall p q : yaml_parser_t,
    buffer p = buffer q -> indent p = indent q ->
    buffer (eat_blanks n p) = buffer (eat_blanks n q)
    /\ indent (eat_blanks n p) = indent (eat_blanks n q).
Proof.
  induction n as [|n IH]; intros p q Hb Hi; [split; assumption|].
  cbn [eat_blanks]. rewrite Hb. destruct (IS_BLANK (buffer q)); [|split; assumption].
  apply IH; [rewrite !SKIP_buffer, Hb; reflexivity|exact Hi].
Qed.

Lemma eat_to_breakz_input (n : nat) :
  forall p q : yaml_parser_t,
    buffer p = buffer q -> indent p = indent q ->
    buffer (eat_to_breakz n p) = buffer (eat_to_breakz n q)
    /\ indent (eat_to_breakz n p) = indent (eat_to_breakz n q).
Proof.
  induction n as [|n IH]; intros p q Hb Hi; [split; assumption|].
  cbn [eat_to_breakz]. rewrite Hb. destruct (negb _); [|split; assumption].
  apply IH; [rewrite !SKIP_buffer, Hb; reflexivity|exact Hi].
Qed.

Lemma SKIP_LINE_position (p q : yaml_parser_t) :
  buffer p = buffer q -> indent p = indent q -> IS_BREAK (buffer q) = true ->
  position (SKIP_LINE p) = position (SKIP_LINE q).
Proof.
  intros Hb Hi Hbr. unfold SKIP_LINE. rewrite Hb, Hbr.
  destruct (IS_CRLF (buffer q)); unfold position; cbn; rewrite Hi; reflexivity.
Qed.

(** Two block scalars are scanned whose headers differ at most in the
    chomping indicator and whose bodies are the same, whatever they are.
    Both scans fail with a scanner error or both give a token, never
    running without end; the body has three parts, the same for both: the
    content, which does not end in a line break, the line break after it
    (one at most) and the line breaks of the trailing empty lines.  Strip
    gives the content, clip the content and the one line break, keep all
    three. *)
Lemma block_scalars_differ_in_chomping_only (p q : yaml_parser_t) (literal : bool) :
  indent p = indent q ->
  header_rest (buffer p) = header_rest (buffer q) ->
  match yaml_parser_scan_block_scalar p literal, yaml_parser_scan_block_scalar q literal with
  | ScanOk tp _, ScanOk tq _ =>
      header_digit (buffer p) <> Some ch_0
      /\ exists content leading trailing : list Z,
           ends_with_break content = false
           /\ at_most_one_break leading = true
           /\ all_breaks trailing = true
           /\ token_value tp = chomp (header_chomping (buffer p)) content leading trailing
           /\ token_value tq = chomp (header_chomping (buffer q)) content leading trailing
  | ScanError p', ScanError q' =>
      error p' = YAML_SCANNER_ERROR
      /\ error q' = YAML_SCANNER_ERROR
      /\ (header_digit (buffer p) = Some ch_0 ->
          parser_problem p' = Some "found an indentation indicator equal to 0"%string
          /\ context p' = Some "while scanning a block scalar"%string)
  | _, _ => False
  end.
Proof.
  intros Hind Hrest.
  assert (header_digit (buffer p) = header_digit (buffer q)) as Hdigit
    by (unfold header_digit; rewrite Hrest; reflexivity).
  unfold yaml_parser_scan_block_scalar. cbv zeta.
  pose proof (block_scalar_header_spec p (mark p)) as Hp.
  pose proof (block_scalar_header_spec q (mark q)) as Hq.
  destruct (block_scalar_header (SKIP p) (mark p)) as [[chp incp] p1|p'|];
    [| |contradiction];
    (destruct (block_scalar_header (SKIP q) (mark q)) as [[chq incq] q1|q'|];
     [| |contradiction]).
  2: { destruct Hp as [Hnz _], Hq as [Hz _]. rewrite Hdigit in Hnz. contradiction. }
  2: { destruct Hp as [Hz _], Hq as [Hnz _]. rewrite Hdigit in Hz. contradiction. }
  2: { destruct Hp as (_ & He & Hpr & Hc & _), Hq as (_ & He' & _).
       repeat split; assumption. }
  destruct Hp as (Hnz & Hchp & Hincp & Hbp & Hip), Hq as (_ & Hchq & Hincq & Hbq & Hiq).
  assert (incp = incq) as Hinc by (rewrite Hincp, Hincq, Hdigit; reflexivity).
  assert (buffer p1 = buffer q1) as Hb1 by (rewrite Hbp, Hbq, Hrest; reflexivity).
  assert (indent p1 = indent q1) as Hi1 by (rewrite Hip, Hiq; exact Hind).
  clear Hincq. subst incq. rewrite Hb1.
  destruct (eat_blanks_input (List.length (buffer q1)) p1 q1 Hb1 Hi1) as [Hb2 Hi2].
  set (p2 := eat_blanks (List.length (buffer q1)) p1) in *.
  set (q2 := eat_blanks (List.length (buffer q1)) q1) in *.
  rewrite Hb2.
  assert (buffer (if CHECK (buffer q2) ch_HASH
                  then eat_to_breakz (List.length (buffer q2)) p2 else p2)
          = buffer (if CHECK (buffer q2) ch_HASH
                    then eat_to_breakz (List.length (buffer q2)) q2 else q2)
          /\ indent (if CHECK (buffer q2) ch_HASH
                     then eat_to_breakz (List.length (buffer q2)) p2 else p2)
             = indent (if CHECK (buffer q2) ch_HASH
                       then eat_to_breakz (List.length (buffer q2)) q2 else q2))
    as [Hb3 Hi3]
    by (destruct (CHECK (buffer q2) ch_HASH);
        [apply eat_to_breakz_input; assumption|split; assumption]).
  set (p3 := if CHECK (buffer q2) ch_HASH
             then eat_to_breakz (List.length (buffer q2)) p2 else p2) in *.
  set (q3 := if CHECK (buffer q2) ch_HASH
             then eat_to_breakz (List.length (buffer q2)) q2 else q2) in *.
  rewrite Hb3.
  destruct (IS_BREAKZ (buffer q3)) eqn:Ebz; cbn [negb].
  2: { split; [reflexivity|]. split; [reflexivity|]. intros Hz. contradiction. }
  subst chp chq.
  destruct (IS_BREAK (buffer q3)) eqn:Ebr.
  - (* the header line ends in a line break *)
    pose proof (SKIP_LINE_position p3 q3 Hb3 Hi3 Ebr) as H4.
    set (p4 := SKIP_LINE p3) in *. set (q4 := SKIP_LINE q3) in *.
    destruct (position_eq p4 q4 H4) as [Hb4 [Hi4 _]]. rewrite Hb4, Hi4.
    set (i0 := if negb (incp =? 0)
               then if 0 <=? indent q4 then indent q4 + incp else incp else 0).
    pose proof (scan_block_scalar_breaks_position (S (List.length (buffer q4))) p4 q4
                  i0 [] (mark p) (mark q) H4) as Hsim.
    pose proof (scan_block_scalar_breaks_spec q4 i0 [] (mark q)) as Hspec.
    pose proof (scan_block_scalar_breaks_spec p4 i0 [] (mark p)) as Hspec'.
    rewrite Hb4 in Hspec'.
    destruct (yaml_parser_scan_block_scalar_breaks _ p4 _ _ _) as [[[i1 b1] e1] p5|p5|],
             (yaml_parser_scan_block_scalar_breaks _ q4 _ _ _) as [[[i2 b2] e2] q5|q5|];
      cbn [observe] in Hsim; try discriminate Hsim; try contradiction; cbv beta iota.
    2: { split; [assumption|]. split; [assumption|]. intros Hz. contradiction. }
    assert (position p5 = position q5) as H5 by congruence.
    assert (i1 = i2) by congruence. assert (b1 = b2) by congruence. subst i2 b2.
    destruct Hspec as [Hbr5 [_ [added [Hadd Hall]]]]. cbn [app] in Hadd. subst b1.
    destruct (position_eq p5 q5 H5) as [Hb5 _]. rewrite Hb5.
    pose proof (block_scalar_content_position (S (List.length (buffer q5))) p5 q5 literal
                  (mark p) (mark q)
                  (mkBlockScalar [] [] added i1 false e1)
                  (mkBlockScalar [] [] added i1 false e2) H5 eq_refl) as Hsim2.
    assert (content_invariant (mkBlockScalar [] [] added i1 false e2) q5) as Hinv
      by (repeat split; assumption).
    pose proof (block_scalar_content_spec (S (List.length (buffer q5))) q5 literal (mark q)
                  _ ltac:(lia) Hinv) as Hc.
    assert (content_invariant (mkBlockScalar [] [] added i1 false e1) p5) as Hinv'
      by (repeat split; try assumption; rewrite Hb5; assumption).
    pose proof (block_scalar_content_spec (S (List.length (buffer q5))) p5 literal (mark p)
                  _ ltac:(rewrite Hb5; lia) Hinv') as Hc'.
    destruct (block_scalar_content _ p5 _ _ _) as [stp p6|p6|],
             (block_scalar_content _ q5 _ _ _) as [stq q6|q6|];
      cbn [observe] in Hsim2; try discriminate Hsim2; try contradiction; cbv beta iota.
    2: { split; [assumption|]. split; [assumption|]. intros Hz. contradiction. }
    split; [exact Hnz|].
    assert (state_text stp = state_text stq) as Hst by congruence.
    unfold state_text in Hst. injection Hst as Hs Hl Ht _ _.
    destruct Hc as (_ & Hc1 & Hc2 & Hc3).
    exists (bs_string stq), (bs_leading_break stq), (bs_trailing_breaks stq).
    unfold token_value. cbn [token_data]. rewrite Hs, Hl, Ht.
    repeat split; try assumption.
    + destruct (header_chomping (buffer p)); reflexivity.
    + destruct (header_chomping (buffer q)); reflexivity.
  - (* the input ends with the header *)
    assert (IS_Z (buffer q3) = true) as Ez
      by (unfold IS_BREAKZ in Ebz; rewrite Ebr in Ebz; exact Ebz).
    rewrite Hb3, Hi3.
    set (i0 := if negb (incp =? 0)
               then if 0 <=? indent q3 then indent q3 + incp else incp else 0).
    destruct (scan_block_scalar_breaks_at_Z (List.length (buffer q3)) p3 i0 (mark p)
                ltac:(rewrite Hb3; exact Ez)) as [ip Hsp].
    destruct (scan_block_scalar_breaks_at_Z (List.length (buffer q3)) q3 i0 (mark q) Ez)
      as [iq Hsq].
    rewrite Hsp, Hsq, Hb3.
    rewrite !block_scalar_content_at_Z by (rewrite ?Hb3; exact Ez).
    split; [exact Hnz|]. exists [], [], [].
    unfold token_value. cbn [token_data].
    repeat split.
    + destruct (header_chomping (buffer p)); reflexivity.
    + destruct (header_chomping (buffer q)); reflexivity.
Qed.

(** *** A block scalar of indented lines *)

Lemma SKIP_reads_at (p : yaml_parser_t) (c : Z) (buf : list Z) (col ind : Z) :
  reads_at p (c :: buf) col ind -> reads_at (SKIP p) buf (col + 1) ind.
Proof.
  intros (Hb & Hc & Hi). unfold SKIP, reads_at. cbn. rewrite Hb, Hc, Hi. repeat split.
Qed.

Lemma int_column_small (p : yaml_parser_t) (col : Z) :
  mark_column (mark p) = col -> 0 <= col <= INT32_MAX -> int_column p = col.
Proof.
  intros H Hc. unfold int_column. rewrite H. apply to_int32_id.
  unfold is_int32, INT32_MIN, INT32_MAX in *. apply andb_true_intro.
  split; apply Z.leb_le; lia.
Qed.

Lemma IS_SPACE_spaces (j : nat) (tail : list Z) :
  IS_SPACE (spaces (S j) ++ tail) = true.
Proof. reflexivity. Qed.

Lemma begins_text_facts (s : list Z) :
  begins_text s = true ->
  IS_SPACE s = false /\ IS_TAB s = false /\ IS_BREAK s = false.
Proof.
  unfold begins_text, IS_SPACE, IS_TAB, IS_BREAK, CHECK, CHECK_AT. intros H.
  apply andb_prop in H as [H H3]. apply andb_prop in H as [H1 H2].
  apply negb_true_iff in H1, H2, H3. repeat split; assumption.
Qed.

(** The loop that eats the indentation, at [j] spaces. *)
Lemma eat_indentation_spaces (indent_ : Z) (tail : list Z) (ind : Z) (j : nat) :
  forall (n : nat) (p : yaml_parser_t) (col : Z),
    reads_at p (spaces j ++ tail) col ind ->
    0 <= col -> col + Z.of_nat j <= INT32_MAX ->
    indent_ = 0 \/ col + Z.of_nat j <= indent_ ->
    IS_SPACE tail = false \/ (indent_ <> 0 /\ indent_ <= col + Z.of_nat j) ->
    (j <= n)%nat ->
    reads_at (eat_indentation n indent_ p) tail (col + Z.of_nat j) ind.
Proof.
  induction j as [|j IH]; intros n p col Hp Hc Hmax Hgo Hstop Hn.
  - cbn [spaces repeat app] in Hp. rewrite Z.add_0_r in *.
    destruct n as [|n]; [exact Hp|]. cbn [eat_indentation].
    pose proof Hp as (Hb & Hcol & _).
    rewrite (int_column_small p col Hcol ltac:(lia)), Hb.
    destruct Hstop as [Hs|[Hnz Hle]].
    + rewrite Hs, andb_false_r. exact Hp.
    + apply Z.eqb_neq in Hnz. rewrite Hnz.
      assert ((col <? indent_) = false) as -> by (apply Z.ltb_ge; lia).
      exact Hp.
  - destruct n as [|n]; [lia|]. cbn [eat_indentation].
    pose proof Hp as (Hb & Hcol & _).
    rewrite (int_column_small p col Hcol ltac:(lia)), Hb, IS_SPACE_spaces.
    assert (((indent_ =? 0) || (col <? indent_)) = true) as ->.
    { destruct Hgo as [->|Hle]; [reflexivity|].
      apply orb_true_iff. right. apply Z.ltb_lt. lia. }
    cbn [andb]. cbn [spaces repeat app] in Hp.
    apply SKIP_reads_at in Hp.
    replace (col + Z.of_nat (S j)) with (col + 1 + Z.of_nat j) in * by lia.
    apply IH; try assumption; lia.
Qed.

Lemma READ_LINE_line_feed (p : yaml_parser_t) (tail : list Z) (col ind : Z)
    (str : list Z) :
  reads_at p (ch_LF :: tail) col ind ->
  exists p', READ_LINE p str = (p', str ++ [ch_LF]) /\ reads_at p' tail 0 ind.
Proof.
  intros (Hb & Hc & Hi). unfold READ_LINE. rewrite Hb. cbn [CHECK_AT char_at nth].
  change (ch_LF =? ch_CR) with false. change (ch_LF =? ch_LF) with true.
  cbn [andb orb skipn]. eexists. split; [reflexivity|].
  unfold reads_at. cbn. rewrite Hi. repeat split.
Qed.

(** The loop that reads a line, at the text of a line. *)
Lemma read_to_breakz_text (tail : list Z) (ind : Z) (t : list Z) :
  forall (n : nat) (p : yaml_parser_t) (col : Z) (str : list Z),
    reads_at p (t ++ ch_LF :: tail) col ind ->
    forallb is_line_char t = true ->
    (List.length t <= n)%nat ->
    exists p', read_to_breakz n p str = (p', str ++ t)
               /\ reads_at p' (ch_LF :: tail) (col + Z.of_nat (List.length t)) ind.
Proof.
  induction t as [|c t IH]; intros n p col str Hp Ht Hn.
  - cbn [app List.length] in *. rewrite Z.add_0_r, app_nil_r.
    exists p. split; [|exact Hp].
    destruct n as [|n]; [reflexivity|]. cbn [read_to_breakz].
    destruct Hp as (Hb & _). rewrite Hb. reflexivity.
  - destruct n as [|n]; [cbn in Hn; lia|].
    cbn [forallb] in Ht. apply andb_prop in Ht as [Hc Ht].
    unfold is_line_char in Hc. apply andb_prop in Hc as [Hc1 Hc2].
    apply negb_true_iff in Hc1, Hc2.
    cbn [read_to_breakz]. pose proof Hp as (Hb & _).
    assert (IS_BREAKZ (buffer p) = false) as ->.
    { rewrite Hb. unfold IS_BREAKZ, IS_BREAK, IS_Z, CHECK, CHECK_AT. cbn [app char_at nth].
      rewrite Hc1, Hc2. reflexivity. }
    cbn [negb]. unfold READ. rewrite Hb. cbn [app char_at nth tl].
    cbn [app] in Hp. apply SKIP_reads_at in Hp. unfold SKIP in Hp. rewrite Hb in Hp.
    cbn [tl] in Hp.
    destruct (IH n _ (col + 1) (str ++ [c]) Hp Ht ltac:(cbn in Hn; lia)) as (p' & E & Hp').
    exists p'. split.
    + cbn [app tl] in E. rewrite E, <- app_assoc. reflexivity.
    + cbn [List.length]. replace (col + Z.of_nat (S (List.length t)))
        with (col + 1 + Z.of_nat (List.length t)) by lia. exact Hp'.
Qed.

(** The loop over the line breaks with the indentation known: over [k]
    empty lines, and then over the indentation of the next line of the
    body ([j] is the indentation) or up to what follows the scalar ([j] is
    0). *)
Lemma block_scalar_breaks_loop_lines (D : Z) (tail : list Z) (ind : Z) (j : nat)
    (start : yaml_mark_t) (k : nat) :
  0 < D <= INT32_MAX -> (j = O \/ Z.of_nat j = D) -> begins_text tail = true ->
  forall (fuel : nat) (p : yaml_parser_t) (breaks : list Z) (e : yaml_mark_t) (m : Z),
    reads_at p (line_feeds k ++ spaces j ++ tail) 0 ind ->
    (k < fuel)%nat ->
    exists p' e' m',
      block_scalar_breaks_loop fuel p D breaks start e m
      = ScanOk (breaks ++ line_feeds k, e', m') p'
      /\ reads_at p' tail (Z.of_nat j) ind.
Proof.
  intros HD Hj Htail. destruct (begins_text_facts _ Htail) as (Hsp & Htab & Hbr).
  assert (Z.of_nat j <= D) as HjD by (destruct Hj as [->|<-]; [cbn; lia|lia]).
  induction k as [|k IH]; intros fuel p breaks e m Hp Hf.
  - destruct fuel as [|fuel]; [lia|]. cbn [line_feeds repeat app] in Hp.
    cbn [block_scalar_breaks_loop].
    pose proof (eat_indentation_spaces D tail ind j (List.length (buffer p)) p 0 Hp
                  ltac:(lia) ltac:(lia) ltac:(right; lia) ltac:(left; exact Hsp)
                  ltac:(destruct Hp as (-> & _); rewrite length_app;
                        unfold spaces; rewrite repeat_length; lia)) as Hp1.
    set (p1 := eat_indentation (List.length (buffer p)) D p) in *.
    cbn [Z.add] in Hp1. pose proof Hp1 as (Hb1 & _).
    rewrite Hb1, Htab, Hbr, andb_false_r. cbn [negb].
    eexists. eexists. eexists. split; [rewrite app_nil_r; reflexivity|exact Hp1].
  - destruct fuel as [|fuel]; [lia|].
    cbn [block_scalar_breaks_loop].
    pose proof (eat_indentation_spaces D (line_feeds (S k) ++ spaces j ++ tail) ind O
                  (List.length (buffer p)) p 0 Hp
                  ltac:(lia) ltac:(cbn; unfold INT32_MAX; lia) ltac:(right; cbn; lia)
                  ltac:(left; reflexivity) ltac:(lia)) as Hp1.
    set (p1 := eat_indentation (List.length (buffer p)) D p) in *.
    cbn [Z.add Z.of_nat] in Hp1. pose proof Hp1 as (Hb1 & _).
    rewrite Hb1.
    change (IS_TAB (line_feeds (S k) ++ spaces j ++ tail)) with false.
    change (IS_BREAK (line_feeds (S k) ++ spaces j ++ tail)) with true.
    rewrite andb_false_r. cbn [negb].
    cbn [line_feeds repeat app] in Hp1.
    destruct (READ_LINE_line_feed p1 _ 0 ind breaks Hp1) as (p2 & -> & Hp2).
    destruct (IH fuel p2 (breaks ++ [ch_LF]) (mark p2)
                (if m <? int_column p1 then int_column p1 else m) Hp2 ltac:(lia))
      as (p' & e' & m' & E & Hp').
    exists p', e', m'. split; [|exact Hp'].
    rewrite E, <- app_assoc. reflexivity.
Qed.

Lemma scan_block_scalar_breaks_lines (D : Z) (tail : list Z) (ind : Z) (j : nat)
    (start : yaml_mark_t) (k : nat) (fuel : nat) (p : yaml_parser_t) :
  0 < D <= INT32_MAX -> (j = O \/ Z.of_nat j = D) -> begins_text tail = true ->
  reads_at p (line_feeds k ++ spaces j ++ tail) 0 ind ->
  (k < fuel)%nat ->
  exists p' e',
    yaml_parser_scan_block_scalar_breaks fuel p D [] start
    = ScanOk (D, line_feeds k, e') p'
    /\ reads_at p' tail (Z.of_nat j) ind.
Proof.
  intros HD Hj Htail Hp Hf. unfold yaml_parser_scan_block_scalar_breaks.
  destruct (block_scalar_breaks_loop_lines D tail ind j start k HD Hj Htail fuel p []
              (mark p) 0 Hp Hf) as (p' & e' & m' & -> & Hp').
  assert ((D =? 0) = false) as -> by (apply Z.eqb_neq; lia).
  exists p', e'. split; [reflexivity|exact Hp'].
Qed.

(** The same loop when the indentation is to be found: at the first line
    of the body. *)
Lemma scan_block_scalar_breaks_detects (d : nat) (tail : list Z) (ind : Z)
    (start : yaml_mark_t) (fuel : nat) (p : yaml_parser_t) :
  (0 < d)%nat -> Z.of_nat d <= INT32_MAX -> ind < Z.of_nat d ->
  begins_text tail = true ->
  reads_at p (spaces d ++ tail) 0 ind ->
  exists p' e',
    yaml_parser_scan_block_scalar_breaks (S fuel) p 0 [] start
    = ScanOk (Z.of_nat d, [], e') p'
    /\ reads_at p' tail (Z.of_nat d) ind.
Proof.
  intros Hd Hmax Hind Htail Hp.
  destruct (begins_text_facts _ Htail) as (Hsp & Htab & Hbr).
  unfold yaml_parser_scan_block_scalar_breaks. cbn [block_scalar_breaks_loop].
  pose proof (eat_indentation_spaces 0 tail ind d (List.length (buffer p)) p 0 Hp
                ltac:(lia) ltac:(lia) ltac:(left; reflexivity) ltac:(left; exact Hsp)
                ltac:(destruct Hp as (-> & _); rewrite length_app;
                      unfold spaces; rewrite repeat_length; lia)) as Hp1.
  set (p1 := eat_indentation (List.length (buffer p)) 0 p) in *.
  cbn [Z.add] in Hp1. pose proof Hp1 as (Hb1 & Hc1 & Hi1).
  rewrite Hb1, Htab, Hbr, andb_false_r. cbn [negb].
  rewrite (int_column_small p1 _ Hc1 ltac:(lia)), Hi1.
  cbn [Z.eqb].
  assert ((0 <? Z.of_nat d) = true) as -> by (apply Z.ltb_lt; lia).
  assert ((Z.of_nat d <? ind + 1) = false) as -> by (apply Z.ltb_ge; lia).
  assert ((Z.of_nat d <? 1) = false) as -> by (apply Z.ltb_ge; lia).
  exists p1. eexists. split; [reflexivity|exact Hp1].
Qed.

Lemma line_ok_facts (line : list Z * nat) (tail : list Z) :
  line_ok line = true ->
  forallb is_line_char (fst line) = true
  /\ begins_text (fst line ++ tail) = true
  /\ IS_Z (fst line ++ tail) = false
  /\ IS_BLANK (fst line ++ tail) = false.
Proof.
  unfold line_ok. intros H. apply andb_prop in H as [H H3]. apply andb_prop in H as [H1 H2].
  destruct (fst line) as [|c t]; [discriminate H1|].
  split; [exact H3|]. split; [exact H2|].
  cbn [forallb] in H3. apply andb_prop in H3 as [Hc _].
  unfold is_line_char in Hc. apply andb_prop in Hc as [_ Hc]. apply negb_true_iff in Hc.
  destruct (begins_text_facts _ H2) as (Hs & Ht & _).
  split; [exact Hc|].
  unfold IS_BLANK. change (IS_SPACE ((c :: t) ++ tail)) with (IS_SPACE (c :: t)).
  change (IS_TAB ((c :: t) ++ tail)) with (IS_TAB (c :: t)). rewrite Hs, Ht. reflexivity.
Qed.

Lemma separator_entering (literal : bool) (str : list Z) (k : nat) :
  (if negb literal && (char_at [ch_LF] 0 =? ch_LF)
   then (if char_at (line_feeds k) 0 =? ch_NUL then str ++ [ch_SPACE] else str)
   else str ++ [ch_LF]) ++ line_feeds k
  = str ++ separator literal k.
Proof.
  destruct literal; cbn [negb andb separator].
  - rewrite <- app_assoc. reflexivity.
  - change (char_at [ch_LF] 0 =? ch_LF) with true. cbn [andb].
    destruct k as [|k].
    + cbn. rewrite app_nil_r. reflexivity.
    + reflexivity.
Qed.

(** The content loop over the lines of the body, from the text of a line
    on, whose indentation has been eaten. *)
Lemma block_scalar_content_lines (d : nat) (literal : bool) (rest : list Z) (ind : Z)
    (start : yaml_mark_t) :
  (0 < d)%nat -> Z.of_nat d <= INT32_MAX -> begins_text rest = true ->
  forall (lines : list (list Z * nat)) (line : list Z * nat) (fuel : nat)
         (p : yaml_parser_t) (st : block_scalar_state) (str_in : list Z),
    reads_at p (fst line ++ ch_LF :: line_feeds (snd line)
                ++ flat_map (body_line d) lines ++ rest) (Z.of_nat d) ind ->
    line_ok line = true -> forallb line_ok lines = true ->
    bs_indent st = Z.of_nat d -> bs_leading_blank st = false ->
    (if negb literal && (char_at (bs_leading_break st) 0 =? ch_LF)
     then (if char_at (bs_trailing_breaks st) 0 =? ch_NUL
           then bs_string st ++ [ch_SPACE] else bs_string st)
     else bs_string st ++ bs_leading_break st) ++ bs_trailing_breaks st = str_in ->
    (S (List.length lines) < fuel)%nat ->
    exists st' p',
      block_scalar_content fuel p literal start st = ScanOk st' p'
      /\ reads_at p' rest 0 ind
      /\ bs_string st' = str_in ++ fst line ++ joined literal (snd line) lines
      /\ bs_leading_break st' = [ch_LF]
      /\ bs_trailing_breaks st' = line_feeds (empty_lines_at_end (line :: lines)).
Proof.
  intros Hd Hmax Hrest.
  induction lines as [|next lines IH]; intros line fuel p st str_in Hp Hline Hlines
    Hind Hblank Hstr Hf.
  - (* the last line *)
    destruct fuel as [|[|fuel]]; [cbn in Hf; lia|cbn in Hf; lia|].
    cbn [flat_map app] in Hp.
    destruct (line_ok_facts line (ch_LF :: line_feeds (snd line) ++ rest) Hline)
      as (Hchars & _ & Hz & Hbl).
    pose proof Hp as (Hb & Hc & _).
    cbn [block_scalar_content].
    rewrite (int_column_small p _ Hc ltac:(lia)), Hind, Z.eqb_refl, Hb, Hz, Hbl, Hblank.
    cbn [negb andb]. rewrite !andb_true_r, Hstr.
    destruct (read_to_breakz_text _ ind (fst line) (List.length
                 (fst line ++ ch_LF :: line_feeds (snd line) ++ rest)) p _ str_in Hp Hchars
                ltac:(rewrite length_app; lia)) as (p1 & -> & Hp1).
    destruct (READ_LINE_line_feed p1 _ _ ind [] Hp1) as (p2 & -> & Hp2).
    cbn [app].
    destruct (scan_block_scalar_breaks_lines (Z.of_nat d) rest ind O start (snd line)
                (S (List.length (buffer p2))) p2 ltac:(lia) ltac:(left; reflexivity) Hrest
                Hp2 ltac:(destruct Hp2 as (-> & _); rewrite length_app;
                          unfold line_feeds; rewrite repeat_length; lia))
      as (p3 & e3 & -> & Hp3).
    pose proof Hp3 as (_ & Hc3 & _).
    rewrite (int_column_small p3 _ Hc3 ltac:(cbn; unfold INT32_MAX; lia)).
    cbn [bs_indent Z.of_nat].
    assert ((0 =? Z.of_nat d) = false) as -> by (apply Z.eqb_neq; lia).
    cbn [andb]. eexists. eexists. split; [reflexivity|].
    split; [exact Hp3|]. cbn [bs_string bs_leading_break bs_trailing_breaks joined].
    rewrite app_nil_r. repeat split.
  - (* a line with more lines after it *)
    destruct fuel as [|fuel]; [lia|].
    cbn [forallb] in Hlines. apply andb_prop in Hlines as [Hnext Hlines].
    cbn [flat_map] in Hp. unfold body_line at 1 in Hp. rewrite <- !app_assoc in Hp.
    set (tail := fst next ++ (ch_LF :: line_feeds (snd next))
                 ++ flat_map (body_line d) lines ++ rest) in *.
    destruct (line_ok_facts line (ch_LF :: line_feeds (snd line) ++ spaces d ++ tail) Hline)
      as (Hchars & _ & Hz & Hbl).
    destruct (line_ok_facts next ((ch_LF :: line_feeds (snd next))
                                  ++ flat_map (body_line d) lines ++ rest) Hnext)
      as (_ & Htail & _).
    fold tail in Htail.
    pose proof Hp as (Hb & Hc & _).
    cbn [block_scalar_content].
    rewrite (int_column_small p _ Hc ltac:(lia)), Hind, Z.eqb_refl, Hb, Hz, Hbl, Hblank.
    cbn [negb andb]. rewrite !andb_true_r, Hstr.
    destruct (read_to_breakz_text _ ind (fst line) (List.length
                 (fst line ++ ch_LF :: line_feeds (snd line) ++ spaces d ++ tail)) p _ str_in
                Hp Hchars ltac:(rewrite length_app; lia)) as (p1 & -> & Hp1).
    destruct (READ_LINE_line_feed p1 _ _ ind [] Hp1) as (p2 & -> & Hp2).
    cbn [app].
    destruct (scan_block_scalar_breaks_lines (Z.of_nat d) tail ind d start (snd line)
                (S (List.length (buffer p2))) p2 ltac:(lia) ltac:(right; reflexivity) Htail
                Hp2 ltac:(destruct Hp2 as (-> & _); rewrite length_app;
                          unfold line_feeds; rewrite repeat_length; lia))
      as (p3 & e3 & -> & Hp3).
    unfold tail in Hp3. cbn [app] in Hp3. cbn [List.length] in Hf.
    destruct (IH next fuel p3
                (mkBlockScalar (str_in ++ fst line) [ch_LF] (line_feeds (snd line))
                   (Z.of_nat d) false e3)
                ((str_in ++ fst line) ++ separator literal (snd line))
                Hp3 Hnext Hlines eq_refl eq_refl
                (separator_entering literal (str_in ++ fst line) (snd line))
                ltac:(lia))
      as (st' & p' & E & Hp' & Hs' & Hl' & Ht').
    exists st', p'. split; [exact E|]. split; [exact Hp'|].
    split; [|split; [exact Hl'|exact Ht']].
    rewrite Hs'. cbn [joined]. rewrite <- !app_assoc. reflexivity.
Qed.

(** *** The scalar of a body of indented lines *)

Lemma block_scalar_header_text (p : yaml_parser_t) (start : yaml_mark_t) (indicator : Z)
    (c : chomping_t) (body : list Z) :
  buffer p = indicator :: chomping_indicator c ++ ch_LF :: body ->
  exists p1,
    block_scalar_header (SKIP p) start
    = ScanOk (match c with Strip => -1 | Clip => 0 | Keep => 1 end, 0) p1
    /\ buffer p1 = ch_LF :: body /\ indent p1 = indent p.
Proof.
  intros Hb. unfold block_scalar_header.
  destruct c; cbn [chomping_indicator app] in Hb;
    rewrite ?SKIP_buffer, Hb; cbn [tl];
    unfold CHECK, CHECK_AT, IS_DIGIT, char_at; cbn [nth];
    eexists; (split; [reflexivity|]); rewrite ?SKIP_buffer, Hb; split; reflexivity.
Qed.

Lemma eat_blanks_at_break (n : nat) (p : yaml_parser_t) (body : list Z) :
  buffer p = ch_LF :: body -> eat_blanks n p = p.
Proof.
  intros Hb. destruct n as [|n]; [reflexivity|]. cbn [eat_blanks]. rewrite Hb. reflexivity.
Qed.

Lemma body_length (d : nat) (lines : list (list Z * nat)) :
  (List.length lines <= List.length (flat_map (body_line d) lines))%nat.
Proof.
  induction lines as [|line lines IH]; [reflexivity|].
  cbn [flat_map List.length]. unfold body_line at 1.
  rewrite !length_app. cbn [List.length]. lia.
Qed.

(** C8 (4.C.6, block scalars).  A header with the indentation digit 0 is
    rejected with the scanner error [found an indentation indicator equal
    to 0], whatever follows.  A block scalar, literal or folded, is scanned
    whose header is the indicator and a chomping indicator and whose body
    is a number of lines, each indented by the same [d] spaces and followed
    by any number of empty lines, up to something that is not indented:
    the scan gives a scalar token and stops before what follows the body.
    The value of the token is the content of the lines with what the
    chomping method leaves of the end: strip nothing, clip the line break
    of the last line, keep that line break and one more for each empty line
    after it.  And for any two block scalars with one body whose headers
    differ in the chomping indicator at most, the scans both fail or both
    give a token, and the values differ as said. *)
Theorem block_scalar_zero_digit_and_chomping :
  (forall (p : yaml_parser_t) (literal : bool),
     header_digit (buffer p) = Some ch_0 ->
     exists p',
       yaml_parser_scan_block_scalar p literal = ScanError p'
       /\ error p' = YAML_SCANNER_ERROR
       /\ parser_problem p' = Some "found an indentation indicator equal to 0"%string
       /\ context p' = Some "while scanning a block scalar"%string)
  /\ (forall (p : yaml_parser_t) (literal : bool) (indicator : Z) (c : chomping_t)
             (d : nat) (lines : list (list Z * nat)) (rest : list Z),
        buffer p = block_scalar_text indicator c d lines rest ->
        lines <> [] -> forallb line_ok lines = true -> begins_text rest = true ->
        (0 < d)%nat -> Z.of_nat d <= INT32_MAX -> indent p < Z.of_nat d ->
        exists token p',
          yaml_parser_scan_block_scalar p literal = ScanOk token p'
          /\ token_type token = YAML_SCALAR_TOKEN
          /\ buffer p' = rest
          /\ token_value token
             = match c with
               | Strip => block_content literal lines
               | Clip => block_content literal lines ++ [ch_LF]
               | Keep => block_content literal lines
                         ++ ch_LF :: line_feeds (empty_lines_at_end lines)
               end)
  /\ (forall (p q : yaml_parser_t) (literal : bool),
        indent p = indent q ->
        header_rest (buffer p) = header_rest (buffer q) ->
        match yaml_parser_scan_block_scalar p literal,
              yaml_parser_scan_block_scalar q literal with
        | ScanOk tp _, ScanOk tq _ =>
            header_digit (buffer p) <> Some ch_0
            /\ exists content leading trailing : list Z,
                 ends_with_break content = false
                 /\ at_most_one_break leading = true
                 /\ all_breaks trailing = true
                 /\ token_value tp
                    = chomp (header_chomping (buffer p)) content leading trailing
                 /\ token_value tq
                    = chomp (header_chomping (buffer q)) content leading trailing
        | ScanError p', ScanError q' =>
            error p' = YAML_SCANNER_ERROR /\ error q' = YAML_SCANNER_ERROR
        | _, _ => False
        end).
Proof.
  split; [|split].
  - intros p literal Hz. unfold yaml_parser_scan_block_scalar. cbv zeta.
    pose proof (block_scalar_header_spec p (mark p)) as H.
    destruct (block_scalar_header (SKIP p) (mark p)) as [[ch inc] p1|p'|];
      [destruct H as [H _]; contradiction| |contradiction].
    destruct H as (_ & He & Hpr & Hc & _).
    exists p'. repeat split; assumption.
  - intros p literal indicator c d lines rest Hb Hne Hlines Hrest Hd Hmax Hind.
    destruct lines as [|line lines]; [contradiction Hne; reflexivity|].
    cbn [forallb] in Hlines. apply andb_prop in Hlines as [Hline Hlines].
    unfold block_scalar_text in Hb. cbn [flat_map] in Hb. unfold body_line at 1 in Hb.
    rewrite <- !app_assoc in Hb.
    set (tail := fst line ++ (ch_LF :: line_feeds (snd line))
                 ++ flat_map (body_line d) lines ++ rest) in *.
    destruct (line_ok_facts line ((ch_LF :: line_feeds (snd line))
                                  ++ flat_map (body_line d) lines ++ rest) Hline)
      as (_ & Htail & _).
    fold tail in Htail.
    unfold yaml_parser_scan_block_scalar. cbv zeta.
    destruct (block_scalar_header_text p (mark p) indicator c (spaces d ++ tail) Hb)
      as (p1 & -> & Hb1 & Hi1).
    rewrite (eat_blanks_at_break _ p1 _ Hb1), Hb1.
    change (CHECK (ch_LF :: spaces d ++ tail) ch_HASH) with false.
    cbv beta iota. rewrite Hb1.
    change (IS_BREAKZ (ch_LF :: spaces d ++ tail)) with true.
    change (IS_BREAK (ch_LF :: spaces d ++ tail)) with true.
    cbn [negb Z.eqb]. cbv beta iota.
    assert (reads_at (SKIP_LINE p1) (spaces d ++ tail) 0 (indent p)) as Hp2.
    { unfold SKIP_LINE. rewrite Hb1.
      change (IS_CRLF (ch_LF :: spaces d ++ tail)) with false.
      change (IS_BREAK (ch_LF :: spaces d ++ tail)) with true.
      unfold reads_at. cbn. rewrite Hi1. repeat split. }
    set (p2 := SKIP_LINE p1) in *.
    destruct (scan_block_scalar_breaks_detects d tail (indent p) (mark p)
                (List.length (buffer p2)) p2 Hd Hmax Hind Htail Hp2)
      as (p3 & e3 & -> & Hp3).
    unfold tail in Hp3. cbn [app] in Hp3.
    destruct (block_scalar_content_lines d literal rest (indent p) (mark p) Hd Hmax Hrest
                lines line (S (List.length (buffer p3))) p3
                (mkBlockScalar [] [] [] (Z.of_nat d) false e3) [] Hp3 Hline Hlines
                eq_refl eq_refl)
      as (st & p4 & -> & Hp4 & Hs & Hl & Ht).
    { cbn [bs_string bs_leading_break bs_trailing_breaks char_at nth app].
      change (0 =? ch_LF) with false. rewrite andb_false_r. reflexivity. }
    { destruct Hp3 as (-> & _). rewrite !length_app. cbn [List.length].
      rewrite !length_app. pose proof (body_length d lines). lia. }
    eexists. exists p4. split; [reflexivity|]. split; [reflexivity|].
    split; [apply Hp4|].
    unfold token_value. cbn [token_data block_content app].
    rewrite Hs, Hl, Ht. cbn [app].
    destruct c; cbn [negb Z.eqb]; rewrite <- ?app_assoc; reflexivity.
  - intros p q literal Hind Hrest.
    pose proof (block_scalars_differ_in_chomping_only p q literal Hind Hrest) as H.
    destruct (yaml_parser_scan_block_scalar p literal) as [tp p'|p'|],
             (yaml_parser_scan_block_scalar q literal) as [tq q'|q'|];
      try exact H.
    destruct H as (H1 & H2 & _). split; assumption.
Qed.

(** The literal block scalars [|-], [|] and [|+] and the folded [>+] over
    the lines [ab] and [c] indented by two spaces, with one empty line
    between them and two after them, followed by the line [k: 1].  And the
    header [|0]. *)
Lemma block_scalar_zero_digit_and_chomping_witness :
  let lines := [([97; 98], 1%nat); ([99], 2%nat)] in
  let rest := [107; 58; 32; 49; 10] in
  let value (indicator : Z) (c : chomping_t) (literal : bool) :=
    match yaml_parser_scan_block_scalar
            (scanner_at (block_scalar_text indicator c 2 lines rest)) literal with
    | ScanOk token p' => Some (token_value token, buffer p')
    | _ => None
    end in
  block_scalar_text 124 Keep 2 lines rest
  = [124; 43; 10; 32; 32; 97; 98; 10; 10; 32; 32; 99; 10; 10; 10; 107; 58; 32; 49; 10]
  /\ value 124 Strip true = Some ([97; 98; 10; 10; 99], rest)
  /\ value 124 Clip true = Some ([97; 98; 10; 10; 99; 10], rest)
  /\ value 124 Keep true = Some ([97; 98; 10; 10; 99; 10; 10; 10], rest)
  /\ value 62 Keep false = Some ([97; 98; 10; 99; 10; 10; 10], rest)
  /\ exists p',
       yaml_parser_scan_block_scalar (scanner_at [124; 48; 10; 32; 97; 10]) true
       = ScanError p'
       /\ parser_problem p' = Some "found an indentation indicator equal to 0"%string.
Proof.
  intros lines rest value.
  destruct block_scalar_zero_digit_and_chomping as (Hzero & Hlines & _).
  assert (forall indicator c literal,
            exists token p',
              yaml_parser_scan_block_scalar
                (scanner_at (block_scalar_text indicator c 2 lines rest)) literal
              = ScanOk token p'
              /\ token_type token = YAML_SCALAR_TOKEN
              /\ buffer p' = rest
              /\ token_value token
                 = match c with
                   | Strip => block_content literal lines
                   | Clip => block_content literal lines ++ [ch_LF]
                   | Keep => block_content literal lines
                             ++ ch_LF :: line_feeds (empty_lines_at_end lines)
                   end) as H.
  { intros indicator c literal.
    apply (Hlines (scanner_at (block_scalar_text indicator c 2 lines rest)) literal
             indicator c 2%nat lines rest eq_refl);
      [discriminate|reflexivity|reflexivity|lia|unfold INT32_MAX; cbn; lia|cbn; lia]. }
  split; [reflexivity|].
  split; [destruct (H 124 Strip true) as (t & p' & E & _ & Hb & Hv);
          unfold value; rewrite E, Hb, Hv; reflexivity|].
  split; [destruct (H 124 Clip true) as (t & p' & E & _ & Hb & Hv);
          unfold value; rewrite E, Hb, Hv; reflexivity|].
  split; [destruct (H 124 Keep true) as (t & p' & E & _ & Hb & Hv);
          unfold value; rewrite E, Hb, Hv; reflexivity|].
  split; [destruct (H 62 Keep false) as (t & p' & E & _ & Hb & Hv);
          unfold value; rewrite E, Hb, Hv; reflexivity|].
  destruct (Hzero (scanner_at [124; 48; 10; 32; 97; 10]) true eq_refl)
    as (p' & E & _ & Hpr & _).
  exists p'. split; assumption.
Defined.

(** ** The parser: the directives of a document (C9) *)

(** The loop goes through %TAG directives with new handles without an
    error; the version directive seen so far stays as it is. *)
Lemma process_directives_loop_tags (pre : list yaml_token_t) :
  forall (ts : list yaml_token_t) (parser : yaml_parser_t)
         (version_directive : option (Z * Z)) (collected : list yaml_tag_directive_t),
    fresh_tag_directives pre (tag_directives parser) = true ->
    exists (parser' : yaml_parser_t) (collected' : list yaml_tag_directive_t),
      process_directives_loop (pre ++ ts) parser version_directive collected
      = process_directives_loop ts parser' version_directive collected'
      /\ tag_directives parser' = tag_directives parser ++ map directive_of pre.
Proof.
  induction pre as [|token pre IH]; intros ts parser version_directive collected Hfresh.
  - exists parser, collected. split; [reflexivity|]. cbn [map]. rewrite app_nil_r. reflexivity.
  - cbn [fresh_tag_directives] in Hfresh. cbn [app process_directives_loop].
    destruct (token_type token); try discriminate Hfresh.
    apply andb_prop in Hfresh as [Hnew Hfresh]. apply negb_true_iff in Hnew.
    unfold yaml_parser_append_tag_directive.
    fold (directive_of token).
    change (tag_directives (with_tokens parser (token :: pre ++ ts)))
      with (tag_directives parser).
    rewrite Hnew.
    set (parser1 := with_tag_directives (with_tokens parser (token :: pre ++ ts))
                      (tag_directives parser ++ [directive_of token])).
    destruct (IH ts parser1 version_directive (collected ++ [directive_of token]) Hfresh)
      as [parser' [collected' [Heq Htags]]].
    exists parser', collected'. split; [exact Heq|].
    rewrite Htags. cbn [map]. change (tag_directives parser1)
      with (tag_directives parser ++ [directive_of token]).
    rewrite <- app_assoc. reflexivity.
Qed.

Lemma process_directives_fails (parser parser' : yaml_parser_t) :
  process_directives_loop (tokens parser) parser None [] = (None, parser') ->
  yaml_parser_process_directives parser = (None, parser').
Proof. unfold yaml_parser_process_directives. intros H. rewrite H. reflexivity. Qed.

(** C9 (%YAML directives).  The directives of a document are processed
    from a %YAML directive token [t] on, after %TAG directives with new
    handles.  With a version other than 1.1 the parser fails with
    [found incompatible YAML document] at [t].  With the version 1.1, a
    second %YAML directive [t2] of the document, whatever its version, makes
    the parser fail with [found duplicate %YAML directive] at [t2]. *)
Theorem version_directive_errors (parser : yaml_parser_t)
    (pre rest : list yaml_token_t) (t : yaml_token_t) (major minor : Z) :
  tokens parser = pre ++ t :: rest ->
  fresh_tag_directives pre (tag_directives parser) = true ->
  token_type t = YAML_VERSION_DIRECTIVE_TOKEN ->
  token_data t = data_version_directive major minor ->
  ((major, minor) <> (1, 1) ->
   fails_with (yaml_parser_process_directives parser)
     "found incompatible YAML document" (start_mark t))
  /\ ((major, minor) = (1, 1) ->
      forall (mid rest' : list yaml_token_t) (t2 : yaml_token_t),
        rest = mid ++ t2 :: rest' ->
        fresh_tag_directives mid (tag_directives parser ++ map directive_of pre) = true ->
        token_type t2 = YAML_VERSION_DIRECTIVE_TOKEN ->
        fails_with (yaml_parser_process_directives parser)
          "found duplicate %YAML directive" (start_mark t2)).
Proof.
  intros Htokens Hpre Htype Hdata.
  destruct (process_directives_loop_tags pre (t :: rest) parser None [] Hpre)
    as [parser1 [collected1 [Hloop Htags]]].
  split.
  - intros Hversion.
    erewrite process_directives_fails.
    2: { rewrite Htokens, Hloop. cbn [process_directives_loop]. rewrite Htype, Hdata.
         assert (negb (major =? 1) || negb (minor =? 1) = true) as Hne.
         { destruct (Z.eqb_spec major 1) as [->|]; [|reflexivity].
           destruct (Z.eqb_spec minor 1) as [->|]; [|reflexivity].
           contradiction Hversion; reflexivity. }
         rewrite Hne. reflexivity. }
    repeat split.
  - intros Hversion mid rest' t2 Hrest Hmid Htype2.
    injection Hversion as -> ->.
    rewrite <- Htags in Hmid.
    destruct (process_directives_loop_tags mid (t2 :: rest') parser1 (Some (1, 1))
                collected1 Hmid) as [parser2 [collected2 [Hloop2 _]]].
    erewrite process_directives_fails.
    2: { rewrite Htokens, Hloop. cbn [process_directives_loop]. rewrite Htype, Hdata.
         cbn [Z.eqb Pos.eqb negb orb]. rewrite Hrest, Hloop2.
         cbn [process_directives_loop]. rewrite Htype2. reflexivity. }
    repeat split.
Qed.

(** The directives [%TAG !e! tag:e.org,2000:], [%YAML 1.2]; and the
    directives [%YAML 1.1], [%TAG !e! tag:e.org,2000:], [%YAML 1.1]. *)
Lemma version_directive_errors_witness :
  let tag := mkToken YAML_TAG_DIRECTIVE_TOKEN
               (data_tag_directive "!e!" "tag:e.org,2000:") (mkMark 0 0 0) (mkMark 25 0 25) in
  let v12 := mkToken YAML_VERSION_DIRECTIVE_TOKEN
               (data_version_directive 1 2) (mkMark 26 1 0) (mkMark 35 1 9) in
  let v11 := mkToken YAML_VERSION_DIRECTIVE_TOKEN
               (data_version_directive 1 1) (mkMark 0 0 0) (mkMark 9 0 9) in
  let tag' := mkToken YAML_TAG_DIRECTIVE_TOKEN
                (data_tag_directive "!e!" "tag:e.org,2000:") (mkMark 10 1 0) (mkMark 35 1 25) in
  let v11' := mkToken YAML_VERSION_DIRECTIVE_TOKEN
                (data_version_directive 1 1) (mkMark 36 2 0) (mkMark 45 2 9) in
  let doc := mkToken YAML_DOCUMENT_START_TOKEN data_none (mkMark 46 3 0) (mkMark 49 3 3) in
  fails_with (yaml_parser_process_directives (with_tokens (scanner_at []) [tag; v12; doc]))
    "found incompatible YAML document" (mkMark 26 1 0)
  /\ fails_with
       (yaml_parser_process_directives (with_tokens (scanner_at []) [v11; tag'; v11'; doc]))
       "found duplicate %YAML directive" (mkMark 36 2 0).
Proof.
  intros tag v12 v11 tag' v11' doc. split.
  - apply (version_directive_errors (with_tokens (scanner_at []) [tag; v12; doc])
             [tag] [doc] v12 1 2 eq_refl eq_refl eq_refl eq_refl).
    discriminate.
  - apply (proj2 (version_directive_errors
                    (with_tokens (scanner_at []) [v11; tag'; v11'; doc])
                    [] [tag'; v11'; doc] v11 1 1 eq_refl eq_refl eq_refl eq_refl)
             eq_refl [tag'] [doc] v11' eq_refl eq_refl eq_refl).
Defined.

(** ** Copies of objects (C5) *)

Lemma inc_mod_changes (c : Z) : inc_mod c <> c.
Proof.
  destruct (is_uint32 c) eqn:E; [apply inc_mod_neq, E|].
  intros H. rewrite <- H, inc_mod_range in E. discriminate.
Qed.

Lemma inc_mod_twice_changes (c : Z) : inc_mod (inc_mod c) <> c.
Proof.
  destruct (is_uint32 c) eqn:E; [apply inc_mod_twice_neq, E|].
  intros H. rewrite <- H, inc_mod_range in E. discriminate.
Qed.

Section SharedFacts.
Import Shared.

Lemma list_set_length {A : Type} (xs : list A) (i : nat) (x : A) :
  List.length (list_set xs i x) = List.length xs.
Proof.
  revert i. induction xs as [|y xs IH]; intros i; [reflexivity|].
  destruct i; cbn; [reflexivity|]. rewrite IH. reflexivity.
Qed.

Lemma nth_error_list_set_other {A : Type} (xs : list A) (i j : nat) (x : A) :
  i <> j -> nth_error (list_set xs i x) j = nth_error xs j.
Proof.
  revert i j. induction xs as [|y xs IH]; intros i j Hij; [reflexivity|].
  destruct i, j; cbn; try reflexivity; [contradiction Hij; reflexivity|].
  apply IH. intros ->. apply Hij. reflexivity.
Qed.

Lemma nth_error_list_set_same {A : Type} (xs : list A) (i : nat) (x y : A) :
  nth_error xs i = Some y -> nth_error (list_set xs i x) i = Some x.
Proof.
  revert i. induction xs as [|z xs IH]; intros i H; [destruct i; discriminate H|].
  destruct i; cbn in *; [reflexivity|]. apply IH, H.
Qed.

Lemma object_at_valid (h : store) (l : loc) (o : ObjectValue) :
  object_at h l = Some o -> (l < List.length (objects h))%nat.
Proof. intros H. apply nth_error_Some. unfold object_at in H. rewrite H. discriminate. Qed.

Lemma set_object_other (h : store) (l l' : loc) (o : ObjectValue) :
  l <> l' -> object_at (set_object h l o) l' = object_at h l'.
Proof. intros H. apply nth_error_list_set_other, H. Qed.

Lemma set_object_same (h : store) (l : loc) (o o0 : ObjectValue) :
  object_at h l = Some o0 -> object_at (set_object h l o) l = Some o.
Proof. intros H. eapply nth_error_list_set_same, H. Qed.

Lemma set_object_length (h : store) (l : loc) (o : ObjectValue) :
  List.length (objects (set_object h l o)) = List.length (objects h).
Proof. apply list_set_length. Qed.

Lemma preserves_refl (h : store) : preserves h h.
Proof. repeat split; intros; reflexivity || lia. Qed.

Lemma preserves_trans (h1 h2 h3 : store) :
  preserves h1 h2 -> preserves h2 h3 -> preserves h1 h3.
Proof.
  intros [Ha [Hb Hc]] [Ha' [Hb' Hc']]. repeat split.
  - intros l Hl. rewrite Ha' by lia. apply Ha, Hl.
  - rewrite Hb'. exact Hb.
  - lia.
Qed.

Lemma fresh_in_weaken (n n' m m' : nat) (v : Value) :
  (n' <= n)%nat -> (m <= m')%nat -> fresh_in n m v -> fresh_in n' m' v.
Proof. intros Hn Hm. destruct v; cbn; try exact (fun H => H). lia. Qed.

(** Copying never touches a payload that is there, and an object that
    comes out of it has a new payload. *)
Lemma copy_members_spec (copy : Value -> store -> option (Value * store)) :
  (forall v h v' h', copy v h = Some (v', h') ->
     preserves h h'
     /\ fresh_in (List.length (objects h)) (List.length (objects h')) v') ->
  forall (ms : list (string * Value)) (h : store) (ms' : list (string * Value))
         (h' : store),
    copy_members copy ms h = Some (ms', h') ->
    preserves h h'
    /\ Forall (fun kv => fresh_in (List.length (objects h)) (List.length (objects h'))
                           (snd kv)) ms'.
Proof.
  intros Hcopy. induction ms as [|kv ms IH]; intros h ms' h' H; cbn in H.
  - injection H as <- <-. split; [apply preserves_refl|constructor].
  - destruct (copy (snd kv) h) as [[v1 h1]|] eqn:E1; [|discriminate H].
    destruct (copy_members copy ms h1) as [[ms2 h2]|] eqn:E2; [|discriminate H].
    injection H as <- <-.
    destruct (Hcopy _ _ _ _ E1) as [Hp1 Hf1]. destruct (IH _ _ _ E2) as [Hp2 Hf2].
    pose proof Hp1 as [_ [_ Hl1]]. pose proof Hp2 as [_ [_ Hl2]].
    split; [eapply preserves_trans; eassumption|].
    constructor.
    + cbn [snd]. eapply fresh_in_weaken; [| |exact Hf1]; lia.
    + eapply Forall_impl; [|exact Hf2]. intros kv'.
      apply fresh_in_weaken; lia.
Qed.

Lemma new_object_preserves (h : store) (o : ObjectValue) :
  preserves h (snd (new_object h o))
  /\ object_at (snd (new_object h o)) (List.length (objects h)) = Some o
  /\ List.length (objects (snd (new_object h o))) = S (List.length (objects h)).
Proof.
  unfold new_object, preserves, object_at. cbn [snd objects arrays].
  repeat split.
  - intros l Hl. apply nth_error_app1, Hl.
  - rewrite length_app. lia.
  - rewrite nth_error_app2, Nat.sub_diag by lia. reflexivity.
  - rewrite length_app. cbn. lia.
Qed.

Lemma Value_copy_spec (fuel : nat) :
  forall (other : Value) (h : store) (v : Value) (h' : store),
    Value_copy fuel other h = Some (v, h') ->
    preserves h h'
    /\ fresh_in (List.length (objects h)) (List.length (objects h')) v.
Proof.
  induction fuel as [|fuel IH]; intros other h v h' H; [discriminate H|].
  cbn [Value_copy] in H.
  destruct other; try (injection H as <- <-; split; [apply preserves_refl|exact I]).
  destruct (object_at h mObject) as [o|]; [|discriminate H].
  destruct (copy_members (Value_copy fuel) (mMap o) h) as [[ms h1]|] eqn:E;
    [|discriminate H].
  destruct (copy_members_spec _ IH _ _ _ _ E) as [Hp _].
  pose proof (new_object_preserves h1 (mkObjectValue ms (mModCount o))) as [Hn [_ Hl]].
  destruct (new_object h1 _) as [l' h2] eqn:En.
  assert (l' = List.length (objects h1)) as -> by (unfold new_object in En; congruence).
  cbn [snd] in *. injection H as <- <-.
  split; [eapply preserves_trans; eassumption|].
  destruct Hp as [_ [_ Hp]]. cbn. lia.
Qed.

(** The copy of an object: a new payload with the counter of the old one,
    whose members that are objects have new payloads too. *)
Lemma Value_copy_object (fuel : nat) (h : store) (lu : loc) (v : Value) (h1 : store) :
  Value_copy fuel (VObject lu) h = Some (v, h1) ->
  exists lv, v = VObject lv
             /\ copy_apart h lv h1
             /\ modCount_at h1 lv = modCount_at h lu.
Proof.
  destruct fuel as [|fuel]; intros H; [discriminate H|].
  cbn [Value_copy] in H.
  destruct (object_at h lu) as [o|] eqn:Eo; [|discriminate H].
  destruct (copy_members (Value_copy fuel) (mMap o) h) as [[ms h0]|] eqn:E;
    [|discriminate H].
  destruct (copy_members_spec _ (Value_copy_spec fuel) _ _ _ _ E) as [Hp Hf].
  pose proof (new_object_preserves h0 (mkObjectValue ms (mModCount o))) as [Hn [Hat Hl]].
  destruct (new_object h0 _) as [l' h2] eqn:En.
  assert (l' = List.length (objects h0)) as -> by (unfold new_object in En; congruence).
  cbn [snd] in *. injection H as <- <-.
  exists (List.length (objects h0)).
  pose proof (preserves_trans _ _ _ Hp Hn) as [Hp1 [Hp2 Hp3]].
  pose proof Hp as [_ [_ Hlen]].
  split; [reflexivity|]. split.
  - split; [exact Hlen|]. split; [exact Hp1|]. split; [exact Hp2|].
    eexists. split; [exact Hat|]. cbn [mMap].
    eapply Forall_impl; [|exact Hf]. intros [k x]. cbn [snd].
    destruct x; cbn; try exact (fun _ => I). lia.
  - unfold modCount_at. rewrite Hat, Eo. reflexivity.
Qed.

(** *** A copy returns

    [Value_copy] gives a result from every Value that is [closed] in the
    store. *)
Lemma closed_preserves (fuel : nat) :
  forall (v : Value) (h h' : store),
    (forall l, (l < List.length (objects h))%nat -> object_at h' l = object_at h l) ->
    closed fuel h v = true -> closed fuel h' v = true.
Proof.
  induction fuel as [|fuel IH]; intros v h h' Hp H; [discriminate H|].
  cbn [closed] in H |- *. destruct v; try reflexivity.
  destruct (object_at h mObject) as [o|] eqn:Eo; [|discriminate H].
  rewrite (Hp _ (object_at_valid _ _ _ Eo)), Eo.
  rewrite forallb_forall in H |- *. intros kv Hin. eapply IH; [exact Hp|]. apply H, Hin.
Qed.

Lemma copy_members_total (fuel : nat) :
  (forall v h, closed fuel h v = true -> exists v' h', Value_copy fuel v h = Some (v', h')) ->
  forall (ms : list (string * Value)) (h : store),
    forallb (fun kv => closed fuel h (snd kv)) ms = true ->
    exists ms' h', copy_members (Value_copy fuel) ms h = Some (ms', h').
Proof.
  intros Hcopy. induction ms as [|kv ms IH]; intros h H.
  - eexists. eexists. reflexivity.
  - cbn [forallb] in H. apply andb_prop in H as [H1 H2].
    destruct (Hcopy _ _ H1) as (v' & h1 & E1). cbn [copy_members]. rewrite E1.
    destruct (Value_copy_spec _ _ _ _ _ E1) as [[Hp _] _].
    destruct (IH h1) as (ms' & h2 & E2).
    + rewrite forallb_forall in H2 |- *. intros kv' Hin.
      eapply closed_preserves; [exact Hp|]. apply H2, Hin.
    + rewrite E2. eexists. eexists. reflexivity.
Qed.

Lemma Value_copy_total (fuel : nat) :
  forall (v : Value) (h : store),
    closed fuel h v = true -> exists v' h', Value_copy fuel v h = Some (v', h').
Proof.
  induction fuel as [|fuel IH]; intros v h H; [discriminate H|].
  cbn [closed] in H. cbn [Value_copy].
  destruct v; try (eexists; eexists; reflexivity).
  destruct (object_at h mObject) as [o|]; [|discriminate H].
  destruct (copy_members_total fuel IH _ _ H) as (ms & h1 & E). rewrite E.
  destruct (new_object h1 _) as [l' h2]. eexists. eexists. reflexivity.
Qed.

(** *** The member vector *)

Lemma Forall_firstn_skipn {A : Type} (P : A -> Prop) (n : nat) (xs : list A) :
  Forall P xs -> Forall P (firstn n xs) /\ Forall P (skipn n xs).
Proof.
  intros H. rewrite <- (firstn_skipn n xs) in H. apply Forall_app in H. exact H.
Qed.

Lemma Forall_vector_insert {V : Type} (P : string * V -> Prop) (m : list (string * V))
    (it : nat) (kv : string * V) :
  Forall P m -> P kv -> Forall P (vector_insert m it kv).
Proof.
  intros H Hkv. destruct (Forall_firstn_skipn P it m H) as [H1 H2].
  unfold vector_insert. apply Forall_app. split; [exact H1|]. constructor; assumption.
Qed.

Lemma Forall_vector_erase {V : Type} (P : string * V -> Prop) (m : list (string * V))
    (it : nat) :
  Forall P m -> Forall P (vector_erase m it).
Proof.
  intros H. unfold vector_erase. apply Forall_app. split.
  - apply (Forall_firstn_skipn P it m H).
  - apply (Forall_firstn_skipn P (S it) m H).
Qed.

Lemma Forall_insert {V : Type} (P : string * V -> Prop) (m : list (string * V))
    (kv : string * V) :
  Forall P m -> P kv -> Forall P (fst (fst (insert m kv))).
Proof.
  intros H Hkv. unfold insert.
  destruct (nth_error m (lower_bound m (fst kv))) as [kv'|].
  - destruct (negb _); cbn [fst]; [exact H|apply Forall_vector_insert; assumption].
  - cbn [fst]. apply Forall_vector_insert; assumption.
Qed.

Lemma Forall_assign_at {V : Type} (P : V -> Prop) (m : list (string * V)) (it : nat)
    (v : V) :
  Forall (fun kv => P (snd kv)) m -> P v ->
  Forall (fun kv => P (snd kv)) (assign_at m it v).
Proof.
  intros H Hv. revert it. induction H as [|kv m Hkv H IH]; intros it; [constructor|].
  destruct it; cbn [assign_at]; constructor; try assumption. apply IH.
Qed.

Lemma Forall_nth_error {A : Type} (P : A -> Prop) (xs : list A) (i : nat) (x : A) :
  Forall P xs -> nth_error xs i = Some x -> P x.
Proof.
  intros H Hx. rewrite Forall_forall in H. apply H. eapply nth_error_In, Hx.
Qed.

(** *** The mutations of the copy

    Each of them returns, and leaves the payloads that were there before
    the copy alone. *)

Lemma member_apart_mono (n0 : nat) (lv : loc) (h h' : store) (v : Value) :
  (List.length (objects h) <= List.length (objects h'))%nat ->
  member_apart n0 lv h v -> member_apart n0 lv h' v.
Proof. intros Hl. destruct v; cbn; try exact (fun H => H). lia. Qed.

Lemma members_apart_mono (n0 : nat) (lv : loc) (h h' : store) (m : list (string * Value)) :
  (List.length (objects h) <= List.length (objects h'))%nat ->
  Forall (fun kv => member_apart n0 lv h (snd kv)) m ->
  Forall (fun kv => member_apart n0 lv h' (snd kv)) m.
Proof.
  intros Hl. apply Forall_impl. intros kv. apply member_apart_mono, Hl.
Qed.

Lemma object_at_some (h : store) (l : loc) :
  (l < List.length (objects h))%nat -> exists o, object_at h l = Some o.
Proof.
  intros H. unfold object_at. destruct (nth_error (objects h) l) as [o|] eqn:E.
  - exists o. reflexivity.
  - apply nth_error_None in E. lia.
Qed.

Lemma IncModCount_spec (h : store) (l : loc) (o : ObjectValue) :
  object_at h l = Some o ->
  exists h', IncModCount h l = Some h'
             /\ object_at h' l = Some (mkObjectValue (mMap o) (inc_mod (mModCount o)))
             /\ (forall l', l <> l' -> object_at h' l' = object_at h l')
             /\ arrays h' = arrays h
             /\ List.length (objects h') = List.length (objects h).
Proof.
  intros E. unfold IncModCount. rewrite E. eexists. split; [reflexivity|]. split.
  - eapply set_object_same, E.
  - split; [intros l' Hl; apply set_object_other, Hl|].
    split; [reflexivity|apply set_object_length].
Qed.

Lemma ObjectValue_Swap_spec (h : store) (l1 l2 : loc) :
  (l1 < List.length (objects h))%nat -> (l2 < List.length (objects h))%nat ->
  exists h', ObjectValue_Swap h l1 l2 = Some h'
             /\ (forall l, l <> l1 -> l <> l2 -> object_at h' l = object_at h l)
             /\ arrays h' = arrays h
             /\ List.length (objects h') = List.length (objects h).
Proof.
  intros H1 H2. unfold ObjectValue_Swap.
  destruct (object_at_some h l1 H1) as [o1 E1]. destruct (object_at_some h l2 H2) as [o2 E2].
  rewrite E1, E2. cbv zeta.
  set (h1 := set_object h l1 _). set (h2 := set_object h1 l2 _).
  assert (List.length (objects h2) = List.length (objects h)) as Hlen
    by (unfold h2, h1; rewrite !set_object_length; reflexivity).
  destruct (object_at_some h2 l1 ltac:(lia)) as [o3 E3].
  destruct (IncModCount_spec _ _ _ E3) as (h3 & -> & _ & F3 & A3 & L3).
  destruct (object_at_some h3 l2 ltac:(lia)) as [o4 E4].
  destruct (IncModCount_spec _ _ _ E4) as (h4 & -> & _ & F4 & A4 & L4).
  exists h4. split; [reflexivity|]. split; [|split].
  - intros l Hl1 Hl2. rewrite F4, F3 by congruence.
    unfold h2, h1. rewrite !set_object_other by congruence. reflexivity.
  - rewrite A4, A3. reflexivity.
  - lia.
Qed.

(** A swap of two members of the copy, or of a member and a Value with a
    payload of its own. *)
Lemma Value_Swap_apart (h : store) (this other : Value) (n0 : nat) (lv : loc) :
  member_apart n0 lv h this -> member_apart n0 lv h other ->
  exists this' other' h',
    Value_Swap h this other = Some (this', other', h')
    /\ member_apart n0 lv h' this' /\ member_apart n0 lv h' other'
    /\ (forall l, (l < n0)%nat \/ l = lv -> object_at h' l = object_at h l)
    /\ arrays h' = arrays h
    /\ List.length (objects h') = List.length (objects h).
Proof.
  intros Ht Ho. unfold Value_Swap.
  destruct this as [| | | | | | | | |l1];
    try (eexists; eexists; exists h; split; [reflexivity|];
         split; [assumption|]; split; [assumption|];
         split; [intros; reflexivity|]; split; reflexivity).
  destruct other as [| | | | | | | | |l2];
    try (eexists; eexists; exists h; split; [reflexivity|];
         split; [assumption|]; split; [assumption|];
         split; [intros; reflexivity|]; split; reflexivity).
  cbn in Ht, Ho.
  destruct (ObjectValue_Swap_spec h l1 l2 ltac:(lia) ltac:(lia)) as (h' & -> & F & A & L).
  exists (VObject l1), (VObject l2), h'. split; [reflexivity|].
  cbn [member_apart]. rewrite L.
  split; [exact Ht|]. split; [exact Ho|]. split; [|split; [exact A|reflexivity]].
  intros l Hl. apply F; lia.
Qed.

(** Assigning to a member of the copy a Value of the store before the
    copy. *)
Lemma Value_assign_apart (fuel : nat) (this x : Value) (h0 h : store) (lv : loc) :
  copy_apart h0 lv h ->
  member_apart (List.length (objects h0)) lv h this ->
  closed fuel h0 x = true ->
  exists member h',
    Value_assign fuel this x h = Some (member, h')
    /\ member_apart (List.length (objects h0)) lv h' member
    /\ (forall l, (l < List.length (objects h0))%nat \/ l = lv ->
                  object_at h' l = object_at h l)
    /\ arrays h' = arrays h
    /\ (List.length (objects h) <= List.length (objects h'))%nat.
Proof.
  intros (Hn & Hbase & Ha & o & Ho & Hm) Hthis Hx. unfold Value_assign.
  destruct (Value_copy_total fuel x h) as (temp & h1 & Ec).
  { eapply closed_preserves; [|exact Hx]. intros l Hl. apply Hbase, Hl. }
  rewrite Ec.
  destruct (Value_copy_spec _ _ _ _ _ Ec) as [[Hp [Ha1 Hlen]] Hfresh].
  pose proof (object_at_valid _ _ _ Ho) as Hlv.
  assert (member_apart (List.length (objects h0)) lv h1 temp) as Htemp
    by (destruct temp; cbn in *; try exact I; lia).
  pose proof (member_apart_mono _ _ _ _ _ Hlen Hthis) as Hthis1.
  destruct (Value_Swap_apart h1 this temp _ lv Hthis1 Htemp)
    as (this' & other' & h2 & -> & Ht' & _ & F & A & L).
  exists this', h2. split; [reflexivity|]. split; [exact Ht'|].
  split; [|split].
  - intros l Hl. rewrite (F l Hl). apply Hp. lia.
  - rewrite A. exact Ha1.
  - lia.
Qed.

Lemma modCount_at_eq (h : store) (l : loc) (o : ObjectValue) :
  object_at h l = Some o -> modCount_at h l = mModCount o.
Proof. unfold modCount_at. intros ->. reflexivity. Qed.

Lemma IncModCount_apart (h0 h : store) (lv : loc) :
  copy_apart h0 lv h ->
  exists h', IncModCount h lv = Some h'
             /\ copy_apart h0 lv h'
             /\ modCount_at h' lv = inc_mod (modCount_at h lv).
Proof.
  intros (Hn & Hbase & Ha & o & Ho & Hm).
  destruct (IncModCount_spec _ _ _ Ho) as (h' & E & Hnew & F & A & L).
  exists h'. split; [exact E|]. split.
  - split; [exact Hn|]. split; [intros l Hl; rewrite F by lia; apply Hbase, Hl|].
    split; [rewrite A; exact Ha|].
    eexists. split; [exact Hnew|]. cbn [mMap].
    eapply members_apart_mono; [|exact Hm]. lia.
  - rewrite (modCount_at_eq _ _ _ Hnew), (modCount_at_eq _ _ _ Ho). reflexivity.
Qed.

Lemma UpdateMember_apart (h0 h : store) (lv : loc) (key : string) :
  copy_apart h0 lv h ->
  exists it h',
    UpdateMember h lv key = Some (it, h')
    /\ copy_apart h0 lv h'
    /\ modCount_at h' lv = inc_mod (modCount_at h lv)
    /\ member_apart (List.length (objects h0)) lv h' (deref h' lv it).
Proof.
  intros Hinv. unfold UpdateMember.
  destruct (IncModCount_apart _ _ _ Hinv) as (h1 & -> & Hinv1 & Hc).
  destruct Hinv1 as (Hn & Hbase & Ha & o & Ho & Hm). rewrite Ho.
  destruct (find (mMap o) key) as [it'|] eqn:Ef.
  - exists it', h1. split; [reflexivity|].
    split; [split; [exact Hn|split; [exact Hbase|split; [exact Ha|]]];
            exists o; split; assumption|].
    split; [exact Hc|].
    unfold deref. rewrite Ho.
    destruct (nth_error (mMap o) it') as [kv|] eqn:En; [|exact I].
    apply (Forall_nth_error _ _ _ _ Hm En).
  - pose proof (Forall_insert _ (mMap o) (key, VNull) Hm I) as Hins.
    destruct (insert (mMap o) (key, VNull)) as [[m it'] added]. cbn [fst] in Hins.
    set (h2 := set_object h1 lv (mkObjectValue m (mModCount o))).
    assert (object_at h2 lv = Some (mkObjectValue m (mModCount o))) as Hnew
      by (eapply set_object_same, Ho).
    assert (List.length (objects h2) = List.length (objects h1)) as L
      by apply set_object_length.
    assert (Forall (fun kv => member_apart (List.length (objects h0)) lv h2 (snd kv)) m)
      as Hm2 by (eapply members_apart_mono; [|exact Hins]; lia).
    exists it', h2. split; [reflexivity|]. split; [|split].
    + split; [exact Hn|]. split.
      * intros l Hl. unfold h2. rewrite set_object_other by lia. apply Hbase, Hl.
      * split; [exact Ha|]. eexists. split; [exact Hnew|exact Hm2].
    + rewrite (modCount_at_eq _ _ _ Hnew), <- Hc, (modCount_at_eq _ _ _ Ho). reflexivity.
    + unfold deref. rewrite Hnew. cbn [mMap].
      destruct (nth_error m it') as [kv|] eqn:En; [|exact I].
      apply (Forall_nth_error _ _ _ _ Hm2 En).
Qed.

Lemma write_apart (h0 h : store) (lv : loc) (it : nat) (v : Value) :
  copy_apart h0 lv h ->
  member_apart (List.length (objects h0)) lv h v ->
  exists h', write h lv it v = Some h'
             /\ copy_apart h0 lv h'
             /\ modCount_at h' lv = modCount_at h lv.
Proof.
  intros (Hn & Hbase & Ha & o & Ho & Hm) Hv. unfold write. rewrite Ho.
  set (h' := set_object h lv (mkObjectValue (assign_at (mMap o) it v) (mModCount o))).
  assert (object_at h' lv = Some (mkObjectValue (assign_at (mMap o) it v) (mModCount o)))
    as Hnew by (eapply set_object_same, Ho).
  assert (List.length (objects h') = List.length (objects h)) as L by apply set_object_length.
  exists h'. split; [reflexivity|]. split.
  - split; [exact Hn|]. split.
    + intros l Hl. unfold h'. rewrite set_object_other by lia. apply Hbase, Hl.
    + split; [exact Ha|]. eexists. split; [exact Hnew|]. cbn [mMap].
      apply (members_apart_mono _ lv h h'); [lia|].
      apply (Forall_assign_at (member_apart (List.length (objects h0)) lv h)); assumption.
  - rewrite (modCount_at_eq _ _ _ Hnew), (modCount_at_eq _ _ _ Ho). reflexivity.
Qed.

Lemma assign_member_apart (fuel : nat) (h0 h : store) (lv : loc) (key : string)
    (x : Value) :
  copy_apart h0 lv h -> closed fuel h0 x = true ->
  exists h', assign_member fuel h lv key x = Some h'
             /\ copy_apart h0 lv h'
             /\ modCount_at h' lv = inc_mod (modCount_at h lv).
Proof.
  intros Hinv Hx. unfold assign_member.
  destruct (UpdateMember_apart _ _ _ key Hinv) as (it & h1 & -> & Hinv1 & Hc1 & Hd).
  destruct (Value_assign_apart fuel _ x h0 h1 lv Hinv1 Hd Hx)
    as (member & h2 & -> & Hmem & F2 & A2 & L2).
  assert (copy_apart h0 lv h2) as Hinv2.
  { destruct Hinv1 as (Hn & Hbase & Ha & o & Ho & Hm).
    split; [exact Hn|]. split; [intros l Hl; rewrite F2 by (left; exact Hl); apply Hbase, Hl|].
    split; [rewrite A2; exact Ha|].
    exists o. split; [rewrite F2 by (right; reflexivity); exact Ho|].
    eapply members_apart_mono; [exact L2|exact Hm]. }
  destruct (write_apart h0 h2 lv it member Hinv2 Hmem) as (h3 & -> & Hinv3 & Hc3).
  exists h3. split; [reflexivity|]. split; [exact Hinv3|].
  rewrite Hc3. unfold modCount_at at 1. rewrite F2 by (right; reflexivity).
  fold (modCount_at h1 lv). exact Hc1.
Qed.

(** The members behind an erased member are moved down. *)
Lemma move_down_apart (n0 : nat) (lv : loc) (later : list (string * Value)) :
  forall (h : store) (hole : Value),
    member_apart n0 lv h hole ->
    Forall (fun kv => member_apart n0 lv h (snd kv)) later ->
    exists ms h',
      move_down h hole later = Some (ms, h')
      /\ Forall (fun kv => member_apart n0 lv h' (snd kv)) ms
      /\ (forall l, (l < n0)%nat \/ l = lv -> object_at h' l = object_at h l)
      /\ arrays h' = arrays h
      /\ List.length (objects h') = List.length (objects h).
Proof.
  induction later as [|kv later IH]; intros h hole Hh Hl.
  - exists [], h. repeat split. constructor.
  - inversion Hl as [|kv' later' Hkv Hl']; subst.
    destruct (Value_Swap_apart h hole (snd kv) n0 lv Hh Hkv)
      as (this & other & h1 & E1 & Ht & Ho & F1 & A1 & L1).
    destruct (IH h1 other Ho) as (ms & h2 & E2 & Hms & F2 & A2 & L2).
    { eapply members_apart_mono; [|exact Hl']. lia. }
    cbn [move_down]. rewrite E1, E2.
    exists ((fst kv, this) :: ms), h2. split; [reflexivity|].
    split; [|split; [|split]].
    + constructor; [|exact Hms]. cbn [snd].
      eapply member_apart_mono; [|exact Ht]. lia.
    + intros l Hl0. rewrite (F2 l Hl0). apply F1, Hl0.
    + rewrite A2. exact A1.
    + lia.
Qed.

Lemma RemoveMember_apart (h0 h : store) (lv : loc) (key : string) :
  copy_apart h0 lv h ->
  exists found h',
    RemoveMember h lv key = Some (found, h')
    /\ copy_apart h0 lv h'
    /\ found = structural h lv (MRemove key)
    /\ modCount_at h' lv = if found then inc_mod (modCount_at h lv) else modCount_at h lv.
Proof.
  intros Hinv. pose proof Hinv as (Hn & Hbase & Ha & o & Ho & Hm).
  unfold RemoveMember, structural. rewrite Ho.
  destruct (find (mMap o) key) as [it|].
  2: { exists false, h. repeat split; assumption || (exists o; split; assumption). }
  unfold MemberMap_erase.
  destruct (Forall_firstn_skipn _ it (mMap o) Hm) as [Hfirst Hskip].
  assert (exists m h1,
             match skipn it (mMap o) with
             | [] => Some (firstn it (mMap o), h)
             | kv :: later =>
                 match move_down h (snd kv) later with
                 | Some (ms, h1) => Some (firstn it (mMap o) ++ ms, h1)
                 | None => None
                 end
             end = Some (m, h1)
             /\ Forall (fun kv => member_apart (List.length (objects h0)) lv h1 (snd kv)) m
             /\ (forall l, (l < List.length (objects h0))%nat \/ l = lv ->
                           object_at h1 l = object_at h l)
             /\ arrays h1 = arrays h
             /\ List.length (objects h1) = List.length (objects h))
    as (m & h1 & -> & Hm1 & F1 & A1 & L1).
  { destruct (skipn it (mMap o)) as [|kv later].
    - exists (firstn it (mMap o)), h. repeat split. exact Hfirst.
    - inversion Hskip as [|kv' later' Hkv Hlater]; subst.
      destruct (move_down_apart _ lv later h (snd kv) Hkv Hlater)
        as (ms & h1 & -> & Hms & F1 & A1 & L1).
      exists (firstn it (mMap o) ++ ms), h1. split; [reflexivity|].
      split; [|split; [exact F1|split; [exact A1|exact L1]]].
      apply Forall_app. split; [|exact Hms].
      eapply members_apart_mono; [|exact Hfirst]. lia. }
  set (h2 := set_object h1 lv (mkObjectValue m (mModCount o))).
  assert (object_at h1 lv = Some o) as Ho1 by (rewrite F1 by (right; reflexivity); exact Ho).
  assert (object_at h2 lv = Some (mkObjectValue m (mModCount o))) as Hnew
    by (eapply set_object_same, Ho1).
  assert (List.length (objects h2) = List.length (objects h1)) as L2
    by apply set_object_length.
  assert (copy_apart h0 lv h2) as Hinv2.
  { split; [exact Hn|]. split.
    - intros l Hl. unfold h2. rewrite set_object_other by lia.
      rewrite F1 by (left; exact Hl). apply Hbase, Hl.
    - split; [transitivity (arrays h1); [reflexivity|rewrite A1; exact Ha]|].
      eexists. split; [exact Hnew|]. cbn [mMap].
      eapply members_apart_mono; [|exact Hm1]. lia. }
  destruct (IncModCount_apart _ _ _ Hinv2) as (h3 & -> & Hinv3 & Hc3).
  exists true, h3. split; [reflexivity|]. split; [exact Hinv3|]. split; [reflexivity|].
  rewrite Hc3, (modCount_at_eq _ _ _ Hnew), (modCount_at_eq _ _ _ Ho). reflexivity.
Qed.

(** One mutation of the copy. *)
Lemma mutate_apart (fuel : nat) (h0 h : store) (lv : loc) (op : mutation) :
  copy_apart h0 lv h -> mutation_ok fuel h0 op = true ->
  exists h',
    mutate fuel h lv op = Some h'
    /\ copy_apart h0 lv h'
    /\ modCount_at h' lv
       = if structural h lv op
         then Nat.iter (Z.to_nat (advance_of op)) inc_mod (modCount_at h lv)
         else modCount_at h lv.
Proof.
  intros Hinv Hok. destruct op as [key x|key x|key]; cbn [mutation_ok] in Hok.
  - cbn [mutate]. unfold SetMember.
    destruct (assign_member_apart fuel h0 h lv key x Hinv Hok) as (h1 & -> & Hinv1 & Hc1).
    destruct (IncModCount_apart _ _ _ Hinv1) as (h2 & -> & Hinv2 & Hc2).
    exists h2. split; [reflexivity|]. split; [exact Hinv2|].
    rewrite Hc2, Hc1. reflexivity.
  - cbn [mutate].
    destruct (assign_member_apart fuel h0 h lv key x Hinv Hok) as (h1 & -> & Hinv1 & Hc1).
    exists h1. split; [reflexivity|]. split; [exact Hinv1|exact Hc1].
  - cbn [mutate].
    destruct (RemoveMember_apart h0 h lv key Hinv) as (found & h1 & -> & Hinv1 & Hs & Hc).
    exists h1. split; [reflexivity|]. split; [exact Hinv1|].
    rewrite Hc, Hs. reflexivity.
Qed.

Lemma mutate_all_apart (fuel : nat) (h0 : store) (lv : loc) (ops : list mutation) :
  forall h : store,
    copy_apart h0 lv h -> forallb (mutation_ok fuel h0) ops = true ->
    exists h', mutate_all fuel h lv ops = Some h' /\ copy_apart h0 lv h'.
Proof.
  induction ops as [|op ops IH]; intros h Hinv Hok.
  - exists h. split; [reflexivity|exact Hinv].
  - cbn [forallb] in Hok. apply andb_prop in Hok as [Hop Hok].
    destruct (mutate_apart fuel h0 h lv op Hinv Hop) as (h1 & E & Hinv1 & _).
    destruct (IH h1 Hinv1 Hok) as (h2 & E2 & Hinv2).
    exists h2. split; [|exact Hinv2]. cbn [mutate_all]. rewrite E. exact E2.
Qed.

(** C5 (P3, object mutation visibility).  [u] is an object Value with the
    payload [lu], [closed] in the store [h].  Its copy is made, a Value [v]
    with a payload [lv] of its own and the counter of [u].  Then [v] is
    mutated any number of times: members are set, assigned to and removed,
    the Values set being Values of [h].  Every mutation returns, and
    afterwards the payload of [u] is what it was, the same members and the
    same counter; so is every payload and array that was there before the
    copy, those that the members of [u] point to among them.  Every
    further mutation returns too, and one that is structural moves the
    counter of [v] on: by one for an assignment to a member and for a
    removal, by two for [SetMember]. *)
Theorem object_copy_is_deep (fuel : nat) (h : store) (lu : loc) :
  closed fuel h (VObject lu) = true ->
  exists (lv : loc) (h1 : store),
    Value_copy fuel (VObject lu) h = Some (VObject lv, h1)
    /\ lv <> lu
    /\ object_at h1 lu = object_at h lu
    /\ modCount_at h1 lv = modCount_at h lu
    /\ forall (fuel' : nat) (ops : list mutation),
         forallb (mutation_ok fuel' h) ops = true ->
         exists h2 : store,
           mutate_all fuel' h1 lv ops = Some h2
           /\ object_at h2 lu = object_at h lu
           /\ (forall l, (l < List.length (objects h))%nat -> object_at h2 l = object_at h l)
           /\ arrays h2 = arrays h
           /\ forall op : mutation,
                mutation_ok fuel' h op = true ->
                exists h3 : store,
                  mutate fuel' h2 lv op = Some h3
                  /\ object_at h3 lu = object_at h lu
                  /\ (structural h2 lv op = true ->
                      modCount_at h3 lv
                      = Nat.iter (Z.to_nat (advance_of op)) inc_mod (modCount_at h2 lv)
                      /\ modCount_at h3 lv <> modCount_at h2 lv).
Proof.
  intros Hclosed.
  assert (lu < List.length (objects h))%nat as Hlu.
  { destruct fuel as [|fuel]; [discriminate Hclosed|]. cbn [closed] in Hclosed.
    destruct (object_at h lu) as [o|] eqn:E; [|discriminate Hclosed].
    eapply object_at_valid, E. }
  destruct (Value_copy_total fuel _ _ Hclosed) as (v & h1 & Hcopy).
  destruct (Value_copy_object _ _ _ _ _ Hcopy) as (lv & -> & Hinv & Hcount).
  exists lv, h1. split; [exact Hcopy|].
  pose proof Hinv as (Hn & Hbase & _). split; [lia|].
  split; [apply Hbase, Hlu|]. split; [exact Hcount|].
  intros fuel' ops Hops.
  destruct (mutate_all_apart fuel' h lv ops h1 Hinv Hops) as (h2 & Hrun & Hinv2).
  exists h2. split; [exact Hrun|].
  pose proof Hinv2 as (_ & Hbase2 & Ha2 & _).
  split; [apply Hbase2, Hlu|]. split; [exact Hbase2|]. split; [exact Ha2|].
  intros op Hop.
  destruct (mutate_apart fuel' h h2 lv op Hinv2 Hop) as (h3 & Hrun3 & Hinv3 & Hc).
  exists h3. split; [exact Hrun3|].
  pose proof Hinv3 as (_ & Hbase3 & _). split; [apply Hbase3, Hlu|].
  intros Hs. rewrite Hs in Hc. split; [exact Hc|]. rewrite Hc.
  destruct op; cbn [advance_of].
  - apply inc_mod_twice_changes.
  - apply inc_mod_changes.
  - apply inc_mod_changes.
Qed.

(** The object [{a: 1, n: {x: 1}}] with the counter 3 at payload 1, its
    member [n] at payload 0 with the counter 7.  The copy is at payload 3;
    in it [n] is set to the object at payload 0 and [a] is removed, and then
    [n] is removed. *)
Lemma object_copy_is_deep_witness :
  let inner := mkObjectValue [("x"%string, VInt 1)] 7 in
  let outer := mkObjectValue [("a"%string, VInt 1); ("n"%string, VObject 0%nat)] 3 in
  let h := mkStore [inner; outer] [] in
  let ops := [MSet "n" (VObject 0%nat); MRemove "a"] in
  closed 3 h (VObject 1%nat) = true
  /\ forallb (mutation_ok 3 h) ops = true
  /\ exists (h1 h2 h3 : store),
       Value_copy 3 (VObject 1%nat) h = Some (VObject 3%nat, h1)
       /\ mutate_all 3 h1 3%nat ops = Some h2
       /\ object_at h2 1%nat = Some outer
       /\ object_at h2 0%nat = Some inner
       /\ option_map (fun o => map fst (mMap o)) (object_at h2 3%nat) = Some ["n"%string]
       /\ modCount_at h2 3%nat = 6
       /\ mutate 3 h2 3%nat (MRemove "n") = Some h3
       /\ object_at h3 1%nat = Some outer
       /\ modCount_at h3 3%nat = 7.
Proof.
  intros inner outer h ops. split; [reflexivity|]. split; [reflexivity|].
  destruct (object_copy_is_deep 3 h 1%nat eq_refl) as (lv & h1 & Hcopy & _ & _ & _ & Hmut).
  assert (Some (VObject lv, h1)
          = Some (VObject 3%nat,
                  mkStore [inner; outer; inner;
                           mkObjectValue [("a"%string, VInt 1); ("n"%string, VObject 2%nat)] 3]
                    [])) as E1 by (rewrite <- Hcopy; reflexivity).
  injection E1 as -> ->.
  destruct (Hmut 3%nat ops eq_refl) as (h2 & Hrun & Hu & Hold & _ & Hnext).
  assert (Some h2
          = Some (mkStore [inner; outer; mkObjectValue [("x"%string, VInt 1)] 8;
                           mkObjectValue [("n"%string, VObject 2%nat)] 6;
                           mkObjectValue [("x"%string, VInt 1)] 8] []))
    as E2 by (rewrite <- Hrun; reflexivity).
  injection E2 as ->.
  destruct (Hnext (MRemove "n") eq_refl) as (h3 & Hrun3 & Hu3 & Hcount).
  eexists. eexists. exists h3. split; [exact Hcopy|]. split; [exact Hrun|].
  split; [exact Hu|]. split; [exact (Hold 0%nat ltac:(cbn; lia))|].
  split; [reflexivity|]. split; [reflexivity|]. split; [exact Hrun3|].
  split; [exact Hu3|].
  rewrite (proj1 (Hcount eq_refl)). reflexivity.
Defined.

End SharedFacts.

(** * More properties *)

(** ** vector_map: insertion, erasure and look-up *)

Section VectorMapFacts.
Context {V : Type}.
Implicit Types (m : list (string * V)) (k : string) (v : V).

Lemma subscript_const_lookup m k :
  subscript_const m k = match lookup m k with Some x => Defined x | None => Undefined end.
Proof.
  unfold subscript_const. pose proof (find_lookup m k) as H.
  destruct (find m k) as [it|].
  - destruct H as [kv [Hn [_ Hl]]]. rewrite Hn, Hl. reflexivity.
  - rewrite H. reflexivity.
Qed.

Lemma find_some_lookup m k :
  (exists it, find m k = Some it) <-> (exists x, lookup m k = Some x).
Proof.
  pose proof (find_lookup m k) as H. destruct (find m k) as [it|].
  - destruct H as [kv [_ [_ Hl]]]. split; intros _; eauto.
  - rewrite H. split; intros [x Hx]; discriminate Hx.
Qed.

Lemma insert_cases m k v :
  insert m (k, v) =
    match find m k with
    | Some it => (m, it, false)
    | None => (vector_insert m (lower_bound m k) (k, v), lower_bound m k, true)
    end.
Proof.
  unfold insert, find. cbn [fst].
  destruct (nth_error m (lower_bound m k)) as [kv|]; [|reflexivity].
  destruct (negb (KeyLess k (fst kv))); reflexivity.
Qed.

Lemma erase_cases m k :
  erase m k =
    match find m k with
    | Some it => (vector_erase m it, 1)
    | None => (m, 0)
    end.
Proof.
  unfold erase, find.
  destruct (nth_error m (lower_bound m k)) as [kv|]; [|reflexivity].
  destruct (negb (KeyLess k (fst kv))); reflexivity.
Qed.

Lemma assign_at_same m it k v : nth_error m it = Some (k, v) -> assign_at m it v = m.
Proof.
  revert it. induction m as [|kv m IH]; intros it H; [reflexivity|].
  destruct it; cbn in *.
  - injection H as ->. reflexivity.
  - rewrite (IH _ H). reflexivity.
Qed.

Lemma vector_insert_put m k v :
  find m k = None -> vector_insert m (lower_bound m k) (k, v) = put m k v.
Proof.
  intros Hf. destruct (insert_absent_put m k v v Hf) as [Hn Ha].
  rewrite <- Ha. symmetry. eapply assign_at_same, Hn.
Qed.

Lemma find_put m k v : find (put m k v) k = Some (lower_bound m k).
Proof.
  induction m as [|kv m IH].
  - cbn [put]. rewrite find_cons. cbn [fst]. rewrite KeyLess_irrefl. reflexivity.
  - cbn [put lower_bound]. key_cases (fst kv) k.
    + rewrite find_cons, Hlt, IH. reflexivity.
    + rewrite find_cons. cbn [fst]. rewrite KeyLess_irrefl. reflexivity.
    + rewrite find_cons. cbn [fst]. rewrite KeyLess_irrefl. reflexivity.
Qed.

Lemma put_length m k v :
  List.length (put m k v)
  = match lookup m k with Some _ => List.length m | None => S (List.length m) end.
Proof.
  induction m as [|kv m IH]; [reflexivity|].
  cbn [put lookup]. key_cases (fst kv) k; cbn [List.length].
  - rewrite IH. destruct (lookup m k); reflexivity.
  - reflexivity.
  - reflexivity.
Qed.

Lemma del_length m k :
  List.length m
  = match lookup m k with
    | Some _ => S (List.length (del m k))
    | None => List.length (del m k)
    end.
Proof.
  induction m as [|kv m IH]; [reflexivity|].
  cbn [del lookup]. key_cases (fst kv) k; cbn [List.length].
  - rewrite IH. destruct (lookup m k); reflexivity.
  - reflexivity.
  - reflexivity.
Qed.

Lemma lookup_none_find m k : lookup m k = None -> find m k = None.
Proof.
  intros H. pose proof (find_lookup m k) as Hf. destruct (find m k) as [it|]; [|reflexivity].
  destruct Hf as [kv [_ [_ Hl]]]. rewrite H in Hl. discriminate Hl.
Qed.

(** X1.  [insert] on a sorted vector: the vector stays sorted, the key is
    found at the position returned, a value that was there is not
    overwritten, and no other key changes. *)
Theorem vector_map_insert_find m k v :
  is_sorted m = true ->
  is_sorted (fst (fst (insert m (k, v)))) = true
  /\ find (fst (fst (insert m (k, v)))) k = Some (snd (fst (insert m (k, v))))
  /\ snd (insert m (k, v)) = match find m k with Some _ => false | None => true end
  /\ subscript_const (fst (fst (insert m (k, v)))) k
     = match subscript_const m k with
       | Defined old => Defined old
       | Undefined => Defined v
       end
  /\ List.length (fst (fst (insert m (k, v))))
     = (if snd (insert m (k, v)) then S (List.length m) else List.length m)
  /\ forall k', k' <> k ->
       subscript_const (fst (fst (insert m (k, v)))) k' = subscript_const m k'.
Proof.
  intros Hs. rewrite insert_cases.
  pose proof (find_lookup m k) as Hl.
  destruct (find m k) as [it|] eqn:Ef; cbn [fst snd].
  - destruct Hl as [kv [_ [_ Hl]]].
    repeat split; try assumption.
    rewrite subscript_const_lookup, Hl. reflexivity.
  - rewrite (vector_insert_put m k v Ef).
    split; [apply is_sorted_put, Hs|]. split; [apply find_put|].
    split; [reflexivity|]. split; [|split].
    + rewrite !subscript_const_lookup, lookup_put, String.eqb_refl, Hl. reflexivity.
    + rewrite put_length, Hl. reflexivity.
    + intros k' Hk. rewrite !subscript_const_lookup, lookup_put.
      rewrite String_eqb_false by congruence. reflexivity.
Qed.

(** X2.  [erase] by key on a sorted vector: the key is gone, the count
    returned is 1 when it was there and 0 otherwise, the length goes down
    by that count, the vector stays sorted and no other key changes. *)
Theorem vector_map_erase m k :
  is_sorted m = true ->
  is_sorted (fst (erase m k)) = true
  /\ find (fst (erase m k)) k = None
  /\ snd (erase m k) = match find m k with Some _ => 1 | None => 0 end
  /\ Z.of_nat (List.length (fst (erase m k))) + snd (erase m k) = Z.of_nat (List.length m)
  /\ forall k', k' <> k -> subscript_const (fst (erase m k)) k' = subscript_const m k'.
Proof.
  intros Hs. rewrite erase_cases.
  pose proof (find_lookup m k) as Hl.
  destruct (find m k) as [it|] eqn:Ef; cbn [fst snd].
  - destruct Hl as [kv [_ [_ Hl]]]. rewrite (erase_found m k it Ef).
    split; [apply is_sorted_del, Hs|]. split; [|split; [reflexivity|split]].
    + apply lookup_none_find. rewrite lookup_del by exact Hs.
      rewrite String.eqb_refl. reflexivity.
    + pose proof (del_length m k) as Hd. rewrite Hl in Hd. lia.
    + intros k' Hk. rewrite !subscript_const_lookup, lookup_del by exact Hs.
      rewrite String_eqb_false by congruence. reflexivity.
  - repeat split; try assumption. lia.
Qed.
End VectorMapFacts.

Lemma vector_map_insert_find_witness :
  is_sorted [("a"%string, 1); ("c"%string, 3)] = true
  /\ find (fst (fst (insert [("a"%string, 1); ("c"%string, 3)] ("b"%string, 2)))) "b"
     = Some (snd (fst (insert [("a"%string, 1); ("c"%string, 3)] ("b"%string, 2)))).
Proof.
  split; [reflexivity|].
  apply (vector_map_insert_find [("a"%string, 1); ("c"%string, 3)] "b"%string 2).
  reflexivity.
Defined.

Lemma vector_map_erase_witness :
  is_sorted [("a"%string, 1); ("c"%string, 3)] = true
  /\ find (fst (erase [("a"%string, 1); ("c"%string, 3)] "a")) "a" = None.
Proof.
  split; [reflexivity|].
  apply (vector_map_erase [("a"%string, 1); ("c"%string, 3)] "a"%string).
  reflexivity.
Defined.

(** ** ObjectValue: the members through the calls *)

Lemma UpdateMember_map (o : ObjectValue) (k : string) :
  mMap (fst (UpdateMember o k))
  = match lookup (mMap o) k with
    | Some _ => mMap o
    | None => put (mMap o) k VNull
    end.
Proof.
  unfold UpdateMember, IncModCount. cbn [mMap mModCount].
  pose proof (find_lookup (mMap o) k) as Hl.
  destruct (find (mMap o) k) as [it|] eqn:Ef.
  - destruct Hl as [kv [_ [_ Hl]]]. rewrite Hl. reflexivity.
  - rewrite insert_cases, Ef, Hl. cbn [fst mMap]. apply vector_insert_put, Ef.
Qed.

Lemma ObjectValue_Merge_sorted (oo : list (string * Value)) :
  forall this : ObjectValue,
    is_sorted (mMap this) = true ->
    is_sorted (mMap (fold_left (Merge_member Value_Merge) oo this)) = true.
Proof.
  induction oo as [|nv oo IH]; intros this Hs; [exact Hs|].
  cbn [fold_left]. apply IH, Merge_member_sorted, Hs.
Qed.

(** X3.  The member map is kept sorted by key, which is what the binary
    search of [find] relies on: [UpdateMember], [SetMember],
    [RemoveMember], [RemoveMembers] and [Merge] all leave it sorted. *)
Theorem member_map_stays_sorted (o overrides : ObjectValue) (k : string) (v : Value) :
  is_sorted (mMap o) = true ->
  is_sorted (mMap (fst (UpdateMember o k))) = true
  /\ is_sorted (mMap (SetMember o k v)) = true
  /\ is_sorted (mMap (fst (RemoveMember o k))) = true
  /\ is_sorted (mMap (RemoveMembers o)) = true
  /\ is_sorted (mMap (ObjectValue_Merge o overrides)) = true.
Proof.
  intros Hs. split; [|split; [|split; [|split]]].
  - rewrite UpdateMember_map. destruct (lookup (mMap o) k); [exact Hs|].
    apply is_sorted_put, Hs.
  - destruct (SetMember_spec o k v) as [Hm _]. rewrite Hm. apply is_sorted_put, Hs.
  - apply RemoveMember_sorted, Hs.
  - unfold RemoveMembers. destruct (mMap o) eqn:E; [rewrite E; reflexivity|reflexivity].
  - apply ObjectValue_Merge_sorted, Hs.
Qed.

Lemma member_map_stays_sorted_witness :
  is_sorted (mMap (mkObjectValue [("b"%string, VInt 1)] 0)) = true
  /\ is_sorted (mMap (SetMember (mkObjectValue [("b"%string, VInt 1)] 0) "a" (VInt 2))) = true.
Proof.
  split; [reflexivity|].
  apply (member_map_stays_sorted (mkObjectValue [("b"%string, VInt 1)] 0)
           (mkObjectValue [] 0) "a"%string (VInt 2)).
  reflexivity.
Defined.

(** X4.  [SetMember] and then [Member]: the member is there and holds the
    Value assigned, which is [v] itself unless an object is assigned onto
    an object; the number of members goes up by one when the key is new;
    the other members are as before. *)
Theorem SetMember_then_Member (o : ObjectValue) (k : string) (v : Value) :
  is_sorted (mMap o) = true ->
  HasMember (SetMember o k v) k = true
  /\ Member (SetMember o k v) k = Value_assign (Member o k) v
  /\ (IsObject (Member o k) && IsObject v = false -> Member (SetMember o k v) k = v)
  /\ NumMembers (SetMember o k v)
     = (if HasMember o k then NumMembers o else S (NumMembers o))
  /\ forall k', k' <> k ->
       HasMember (SetMember o k v) k' = HasMember o k'
       /\ Member (SetMember o k v) k' = Member o k'.
Proof.
  intros _. destruct (SetMember_spec o k v) as [Hm _].
  assert (Member (SetMember o k v) k = Value_assign (Member o k) v) as HM.
  { rewrite !Member_lookup, Hm, lookup_put, String.eqb_refl. reflexivity. }
  split; [|split; [exact HM|split; [|split]]].
  - rewrite HasMember_lookup, Hm, lookup_put, String.eqb_refl. reflexivity.
  - intros Hb. rewrite HM. apply Value_assign_not_both, Hb.
  - unfold NumMembers. rewrite HasMember_lookup, Hm, put_length.
    destruct (lookup (mMap o) k); reflexivity.
  - intros k' Hk. rewrite !HasMember_lookup, !Member_lookup, Hm, lookup_put.
    rewrite String_eqb_false by congruence. split; reflexivity.
Qed.

Lemma SetMember_then_Member_witness :
  is_sorted (mMap (mkObjectValue [("b"%string, VInt 1)] 0)) = true
  /\ Member (SetMember (mkObjectValue [("b"%string, VInt 1)] 0) "a" (VInt 2)) "a"
     = Value_assign (Member (mkObjectValue [("b"%string, VInt 1)] 0) "a") (VInt 2).
Proof.
  split; [reflexivity|].
  exact (proj1 (proj2 (SetMember_then_Member (mkObjectValue [("b"%string, VInt 1)] 0)
                         "a"%string (VInt 2) eq_refl))).
Defined.

(** X5.  [RemoveMember] returns whether the key was there; afterwards it is
    not, and reads as the null Value; an object without the key is left
    exactly as it was, counter included.  The other keys are there as
    before.  Their members are moved down with [Value::Swap] when they lie
    behind the member removed, which exchanges the member maps of two
    objects and raises both counters: a member is as before but for the
    counter of the object, and exactly as before when it lies before the
    member removed, or when it or the member removed is no object. *)
Theorem RemoveMember_removes_the_key (o : ObjectValue) (k : string) :
  is_sorted (mMap o) = true ->
  snd (RemoveMember o k) = HasMember o k
  /\ HasMember (fst (RemoveMember o k)) k = false
  /\ Member (fst (RemoveMember o k)) k = kNullValue
  /\ (HasMember o k = false -> fst (RemoveMember o k) = o)
  /\ (HasMember o k = true -> S (NumMembers (fst (RemoveMember o k))) = NumMembers o)
  /\ forall k', k' <> k ->
       HasMember (fst (RemoveMember o k)) k' = HasMember o k'
       /\ same_members (Member (fst (RemoveMember o k)) k') (Member o k')
       /\ (KeyLess k' k = true \/ IsObject (Member o k) = false
              \/ IsObject (Member o k') = false ->
           Member (fst (RemoveMember o k)) k' = Member o k').
Proof.
  intros Hs. destruct (RemoveMember_spec o k) as [Hm [Hr [_ [Hexact Hbefore]]]].
  split; [exact Hr|]. split; [|split; [|split; [|split]]].
  - rewrite HasMember_lookup, (alike_has _ _ k Hm), lookup_del by exact Hs.
    rewrite String.eqb_refl. reflexivity.
  - rewrite Member_lookup. pose proof (alike_lookup _ _ k Hm) as Hl.
    rewrite lookup_del in Hl by exact Hs. rewrite String.eqb_refl in Hl.
    destruct (lookup (mMap (fst (RemoveMember o k))) k); [contradiction|reflexivity].
  - unfold RemoveMember, HasMember. destruct (find (mMap o) k); [discriminate|reflexivity].
  - unfold NumMembers. rewrite HasMember_lookup, (Forall2_length Hm).
    pose proof (del_length (mMap o) k) as Hd.
    destruct (lookup (mMap o) k); [intros _; symmetry; exact Hd|discriminate].
  - intros k' Hk.
    assert (lookup (del (mMap o) k) k' = lookup (mMap o) k') as Hd
      by (rewrite lookup_del by exact Hs; rewrite String_eqb_false by congruence;
          reflexivity).
    assert (same_members (Member (fst (RemoveMember o k)) k') (Member o k')) as Hsame
      by (rewrite !Member_lookup, <- Hd; apply alike_or_null, Hm).
    split; [|split; [exact Hsame|]].
    + rewrite !HasMember_lookup, (alike_has _ _ k' Hm), Hd. reflexivity.
    + intros [Hlt|[Ho|Ho]].
      * rewrite !Member_lookup, (Hbefore Hs k' Hlt), Hd. reflexivity.
      * rewrite !Member_lookup, (Hexact Ho), Hd. reflexivity.
      * apply same_members_not_object; [exact Hsame|right; exact Ho].
Qed.

(** Of [{a: {}, b: {z: 1}, c: 7}], whose members [a] and [b] have the
    counters 5 and 1, the member [a] is removed. *)
Lemma RemoveMember_removes_the_key_witness :
  let o := mkObjectValue [("a"%string, VObject (mkObjectValue [] 5));
                          ("b"%string, VObject (mkObjectValue [("z"%string, VInt 1)] 1));
                          ("c"%string, VInt 7)] 0 in
  is_sorted (mMap o) = true
  /\ snd (RemoveMember o "a") = true
  /\ same_members (Member (fst (RemoveMember o "a")) "b") (Member o "b")
  /\ Member (fst (RemoveMember o "a")) "b"
     = VObject (mkObjectValue [("z"%string, VInt 1)] 6)
  /\ Member (fst (RemoveMember o "a")) "c" = VInt 7.
Proof.
  intros o. split; [reflexivity|].
  destruct (RemoveMember_removes_the_key o "a"%string eq_refl) as (H1 & _ & _ & _ & _ & H6).
  split; [exact H1|].
  split; [exact (proj1 (proj2 (H6 "b"%string ltac:(discriminate))))|].
  split; [reflexivity|].
  exact (proj2 (proj2 (H6 "c"%string ltac:(discriminate))) (or_intror (or_intror eq_refl))).
Defined.

(** ** Value: the object API on other kinds, and the STL-alike API *)

Lemma SetMember_on_empty (k : string) (x : Value) :
  mMap (SetMember (mkObjectValue [] 0) k x) = [(k, x)].
Proof.
  unfold SetMember, UpdateMember, IncModCount, store, deref, find, insert.
  cbn. destruct x; reflexivity.
Qed.

Lemma Member_singleton (k : string) (x : Value) (c : Z) :
  Member (mkObjectValue [(k, x)] c) k = x /\ HasMember (mkObjectValue [(k, x)] c) k = true.
Proof.
  unfold Member, HasMember, deref, find. cbn [mMap lower_bound fst].
  rewrite KeyLess_irrefl. cbn [nth_error fst]. rewrite KeyLess_irrefl.
  split; reflexivity.
Qed.

(** X6.  The object API fails gracefully.  On a Value that is neither null
    nor an object, [SetMember] and [RemoveMember] change nothing and the
    reads give the null Value; on a null Value, [SetMember] makes it an
    object with that one member, which [Member] reads back. *)
Theorem object_API_on_other_kinds (v x : Value) (k : string) :
  (IsNull v = false -> IsObject v = false ->
   Value_SetMember v k x = v
   /\ Value_RemoveMember v k = (v, false)
   /\ Value_Member v k = kNullValue
   /\ Value_HasMember v k = false
   /\ Value_NumMembers v = O)
  /\ (IsNull v = true ->
      IsObject (Value_SetMember v k x) = true
      /\ Value_HasMember (Value_SetMember v k x) k = true
      /\ Value_Member (Value_SetMember v k x) k = x
      /\ Value_NumMembers (Value_SetMember v k x) = 1%nat).
Proof.
  split.
  - intros Hn Ho. destruct v; try discriminate Hn; try discriminate Ho;
      repeat split; reflexivity.
  - intros Hn. destruct v; try discriminate Hn.
    unfold Value_SetMember, ToObject, Value_HasMember, Value_Member, Value_NumMembers,
      NumMembers.
    destruct (SetMember (mkObjectValue [] 0) k x) as [m c] eqn:E.
    pose proof (SetMember_on_empty k x) as Hm. rewrite E in Hm. cbn [mMap] in Hm. subst m.
    destruct (Member_singleton k x c) as [H1 H2].
    repeat split; assumption.
Qed.

Lemma object_API_on_other_kinds_witness :
  Value_SetMember (VInt 3) "a" (VInt 1) = VInt 3
  /\ Value_Member (Value_SetMember VNull "a" (VInt 1)) "a" = VInt 1.
Proof.
  destruct (object_API_on_other_kinds (VInt 3) (VInt 1) "a"%string) as [H1 _].
  destruct (object_API_on_other_kinds VNull (VInt 1) "a"%string) as [_ H2].
  split.
  - exact (proj1 (H1 eq_refl eq_refl)).
  - exact (proj1 (proj2 (proj2 (H2 eq_refl)))).
Defined.

Lemma size_of_int_zero (n : nat) :
  Z.of_nat n <= INT32_MAX -> (size_of_int n = 0 <-> n = O).
Proof.
  intros H. unfold size_of_int.
  rewrite to_int32_id
    by (unfold is_int32, INT32_MIN, INT32_MAX in *; apply andb_true_intro;
        split; apply Z.leb_le; lia).
  rewrite to_uint64_id
    by (unfold is_uint64, UINT64_MAX, INT32_MAX in *; apply andb_true_intro;
        split; apply Z.leb_le; lia).
  lia.
Qed.

(** X7.  [empty()] is not [size() == 0].  For a string, an array or an
    object the two agree, and a null Value is empty; but a bool or a number
    is not empty although its size is 0.  [clear()] keeps the type, makes
    the size 0, and leaves a Value that is empty unless it is a bool or a
    number, which it leaves as it is. *)
Theorem empty_size_and_clear (v : Value) :
  lengths_fit_int v = true ->
  (IsString v || IsArray v || IsObject v = true -> (empty v = true <-> size v = 0))
  /\ (IsNull v = true -> empty v = true /\ size v = 0)
  /\ (IsNull v || IsString v || IsArray v || IsObject v = false ->
      empty v = false /\ size v = 0 /\ clear v = v)
  /\ Type_ (clear v) = Type_ v
  /\ size (clear v) = 0
  /\ (IsNull v || IsString v || IsArray v || IsObject v = true -> empty (clear v) = true).
Proof.
  intros Hfit. split; [|split; [|split; [|split; [|split]]]].
  - intros Hk. destruct v; try discriminate Hk; cbn [empty size].
    + destruct mString as [str|]; [|split; reflexivity].
      cbn in Hfit. apply Z.leb_le in Hfit.
      rewrite Nat.eqb_eq. symmetry. apply size_of_int_zero, Hfit.
    + destruct mArray as [data|]; [|split; reflexivity].
      cbn in Hfit. apply Z.leb_le in Hfit.
      rewrite Nat.eqb_eq. symmetry. apply size_of_int_zero, Hfit.
    + cbn in Hfit. apply Z.leb_le in Hfit. unfold NumMembers.
      rewrite Nat.eqb_eq. symmetry. apply size_of_int_zero, Hfit.
  - intros Hn. destruct v; try discriminate Hn. split; reflexivity.
  - intros Hk. destruct v; try discriminate Hk; repeat split.
  - destruct v; reflexivity.
  - destruct v; try reflexivity. cbn [clear size]. unfold RemoveMembers, NumMembers.
    destruct (mMap mObject) eqn:E; [rewrite E|]; reflexivity.
  - intros Hk. destruct v; try discriminate Hk; try reflexivity.
    cbn [clear empty]. unfold RemoveMembers.
    destruct (mMap mObject) eqn:E; [rewrite E|]; reflexivity.
Qed.

Lemma empty_size_and_clear_witness :
  lengths_fit_int (VInt 0) = true
  /\ empty (VInt 0) = false /\ size (VInt 0) = 0 /\ clear (VInt 0) = VInt 0.
Proof.
  split; [reflexivity|].
  exact (proj1 (proj2 (proj2 (empty_size_and_clear (VInt 0) eq_refl))) eq_refl).
Defined.

(** X8.  Bool and integer sources: [AsInt], [AsUInt], [AsInt64] and
    [AsUInt64] return the number the source holds, clamped to the range of
    the destination; the conversion is always defined. *)
Theorem integer_coercions_clamp (v : Value) (kind : ValueType) (z : Z) :
  is_integer_value v = true -> payload_ok v = true -> is_integer_kind kind = true ->
  exact_value v = Some z ->
  exists r, As kind v = Defined r
            /\ kind_min kind <= r <= kind_max kind
            /\ (kind_min kind <= z <= kind_max kind -> r = z)
            /\ (z < kind_min kind -> r = kind_min kind)
            /\ (kind_max kind < z -> r = kind_max kind).
Proof.
  intros Hv Hok Hk Hz.
  exists (saturate (kind_min kind) (kind_max kind) z).
  split; [apply integer_sources_saturate; assumption|].
  assert (kind_min kind <= kind_max kind) as Hle
    by (destruct kind; try discriminate Hk; vm_compute; discriminate).
  unfold saturate.
  destruct (z <? kind_min kind) eqn:E1; [|destruct (kind_max kind <? z) eqn:E2];
    bool_to_Z; repeat split; intros; lia.
Qed.

Lemma integer_coercions_clamp_witness :
  exists r, As kValueUInt (VInt64 (-5)) = Defined r
            /\ kind_min kValueUInt <= r <= kind_max kValueUInt
            /\ (kind_min kValueUInt <= -5 <= kind_max kValueUInt -> r = -5)
            /\ (-5 < kind_min kValueUInt -> r = kind_min kValueUInt)
            /\ (kind_max kValueUInt < -5 -> r = kind_max kValueUInt).
Proof.
  apply (integer_coercions_clamp (VInt64 (-5)) kValueUInt (-5)); reflexivity.
Defined.

(** ** Value: comparisons *)

Lemma Value_nested_ind (P : Value -> Prop) :
  P VNull ->
  (forall b, P (VBool b)) ->
  (forall i, P (VInt i)) ->
  (forall u, P (VUInt u)) ->
  (forall i, P (VInt64 i)) ->
  (forall u, P (VUInt64 u)) ->
  (forall d, P (VDouble d)) ->
  (forall s, P (VString s)) ->
  P (VArray None) ->
  (forall xs, Forall P xs -> P (VArray (Some xs))) ->
  (forall o, Forall (fun kv => P (snd kv)) (mMap o) -> P (VObject o)) ->
  forall v, P v.
Proof.
  intros HNull HBool HInt HUInt HInt64 HUInt64 HDouble HString HArrayNull HArray HObject.
  fix IH 1. intros v. destruct v as [| | | | | | | |[xs|]|[m c]].
  - exact HNull.
  - apply HBool.
  - apply HInt.
  - apply HUInt.
  - apply HInt64.
  - apply HUInt64.
  - apply HDouble.
  - apply HString.
  - apply HArray.
    induction xs as [|x xs IHxs]; constructor; [apply IH|exact IHxs].
  - exact HArrayNull.
  - apply HObject. cbn [mMap].
    induction m as [|[k x] m IHm]; constructor; [apply IH|exact IHm].
Qed.

Section CompareFacts.
Variable char_is_signed : bool.
Variable strcmp : string -> string -> Z.

Lemma CompareT_lt (x y : Z) : (CompareT x y <? 0) = (x <? y).
Proof.
  unfold CompareT. destruct (x <? y); [reflexivity|]. destruct (y <? x); reflexivity.
Qed.

(** X9.  The comparison operators.  [a < b] holds exactly when
    [Compare] is negative, and [a > b] is [b < a]; but [a <= b] is computed
    as the negation of [a < b], which is what [a >= b] is: on two ints,
    [x <= y] is true exactly when [y <= x]. *)
Theorem comparison_operators (a b : Value) :
  Value_lt char_is_signed strcmp a b = (Value_Compare char_is_signed strcmp a b <? 0)
  /\ Value_gt char_is_signed strcmp a b = Value_lt char_is_signed strcmp b a
  /\ Value_ge char_is_signed strcmp a b = negb (Value_lt char_is_signed strcmp a b)
  /\ Value_le char_is_signed strcmp a b = Value_ge char_is_signed strcmp a b
  /\ (forall x y, a = VInt x -> b = VInt y ->
        Value_le char_is_signed strcmp a b = (y <=? x)).
Proof.
  split; [|split; [reflexivity|split; [reflexivity|split; [reflexivity|]]]].
  - destruct a, b; try reflexivity; unfold Value_lt; cbn [Type_ ValueType_index Z.sub];
      cbn [Z.sub Z.eqb negb Z.ltb Z.compare Z.opp Z.add Z.pos_sub Pos.compare Pos.compare_cont
             Pos.eqb Z.succ_double Z.pred_double Z.double Pos.pred_double];
      unfold Value_Compare; cbn [Type_ ValueType_eqb negb];
      try reflexivity.
    + unfold CompareT_bool. rewrite CompareT_lt. reflexivity.
    + rewrite CompareT_lt. reflexivity.
    + rewrite CompareT_lt. reflexivity.
    + rewrite CompareT_lt. reflexivity.
    + rewrite CompareT_lt. reflexivity.
    + unfold CompareT_double. destruct (dlt mDouble mDouble0); [reflexivity|].
      destruct (dlt mDouble0 mDouble); reflexivity.
  - intros x y -> ->. unfold Value_le, Value_gt, Value_lt. cbn.
    rewrite Z.leb_antisym. reflexivity.
Qed.

Hypothesis strcmp_sign : forall s t, Z.compare (strcmp s t) 0 = String.compare s t.

Lemma strcmp_refl (s : string) : strcmp s s = 0.
Proof.
  apply Z.compare_eq. rewrite strcmp_sign. apply string_compare_refl.
Qed.

Lemma sgn_compare (z : Z) :
  Z.sgn z = match Z.compare z 0 with Lt => -1 | Eq => 0 | Gt => 1 end.
Proof. destruct z; reflexivity. Qed.

Lemma strcmp_antisym (s t : string) : Z.sgn (strcmp t s) = - Z.sgn (strcmp s t).
Proof.
  rewrite !sgn_compare, !strcmp_sign, (String.compare_antisym t s).
  destruct (String.compare s t); reflexivity.
Qed.

Lemma HL_Compare_refl (s : string) : HL_Compare char_is_signed s s = 0.
Proof.
  induction s as [|c s IH]; [reflexivity|]. cbn [HL_Compare].
  rewrite Ascii.eqb_refl. exact IH.
Qed.

Lemma HL_Compare_antisym (s t : string) :
  HL_Compare char_is_signed t s = - HL_Compare char_is_signed s t.
Proof.
  revert t. induction s as [|c s IH]; intros [|d t]; cbn [HL_Compare]; try lia.
  rewrite (Ascii.eqb_sym d c). destruct (Ascii.eqb c d); [apply IH|lia].
Qed.

Lemma CompareT_antisym (x y : Z) : CompareT y x = - CompareT x y.
Proof.
  unfold CompareT. destruct (x <? y) eqn:E1, (y <? x) eqn:E2; try reflexivity.
  apply Z.ltb_lt in E1, E2. lia.
Qed.

Lemma CompareT_refl (x : Z) : CompareT x x = 0.
Proof. unfold CompareT. rewrite Z.ltb_irrefl. reflexivity. Qed.

Lemma dlt_asym (x y : double) : dlt x y = true -> dlt y x = false.
Proof.
  unfold dlt, SFltb. rewrite (SFcompare_antisym x y).
  destruct (SFcompare x y) as [[| |]|]; cbn; intros H; try discriminate H; reflexivity.
Qed.

Lemma CompareT_double_antisym (x y : double) :
  CompareT_double y x = - CompareT_double x y.
Proof.
  unfold CompareT_double. destruct (dlt x y) eqn:E1.
  - rewrite (dlt_asym _ _ E1). reflexivity.
  - destruct (dlt y x); reflexivity.
Qed.

Lemma CompareT_double_refl (x : double) : CompareT_double x x = 0.
Proof.
  unfold CompareT_double. destruct (dlt x x) eqn:E; [|reflexivity].
  pose proof (dlt_asym _ _ E) as E'. congruence.
Qed.

Lemma length_compare_antisym (n1 n2 : Z) :
  (n1 =? n2) = false ->
  Z.sgn (if n2 <? n1 then -1 else 1) = - Z.sgn (if n1 <? n2 then -1 else 1).
Proof.
  intros H. apply Z.eqb_neq in H.
  destruct (n2 <? n1) eqn:E1, (n1 <? n2) eqn:E2; try reflexivity;
    [apply Z.ltb_lt in E1, E2|apply Z.ltb_ge in E1, E2]; lia.
Qed.

Lemma sgn_zero (z : Z) : Z.sgn z = 0 <-> z = 0.
Proof. destruct z; cbn; split; intros H; try reflexivity; discriminate H. Qed.

Lemma eqb_zero_antisym (c c' : Z) : Z.sgn c' = - Z.sgn c -> (c' =? 0) = (c =? 0).
Proof.
  intros H. destruct c, c'; cbn in *; try reflexivity; discriminate H.
Qed.

Lemma ArrayValue_Compare_antisym (compare : Value -> Value -> Z) (xs : list Value) :
  Forall (fun x => forall y, Z.sgn (compare y x) = - Z.sgn (compare x y)) xs ->
  forall ys, Z.sgn (ArrayValue_Compare compare ys xs)
             = - Z.sgn (ArrayValue_Compare compare xs ys).
Proof.
  intros IH ys. unfold ArrayValue_Compare.
  rewrite (Z.eqb_sym (Z.of_nat (List.length ys))).
  destruct (Z.of_nat (List.length xs) =? Z.of_nat (List.length ys)) eqn:En; cbn [negb].
  2: { apply length_compare_antisym. exact En. }
  clear En. revert ys. induction IH as [|x xs Hx _ IHxs]; intros [|y ys];
    try reflexivity.
  pose proof (Hx y) as Hxy.
  rewrite (eqb_zero_antisym _ _ Hxy).
  destruct (compare x y =? 0); cbn [negb]; [apply IHxs|exact Hxy].
Qed.

Lemma ObjectValue_Compare_antisym (compare : Value -> Value -> Z) (o : ObjectValue) :
  Forall (fun kv => forall y, Z.sgn (compare y (snd kv)) = - Z.sgn (compare (snd kv) y))
         (mMap o) ->
  forall o', Z.sgn (ObjectValue_Compare char_is_signed compare o' o)
             = - Z.sgn (ObjectValue_Compare char_is_signed compare o o').
Proof.
  intros IH o'. unfold ObjectValue_Compare.
  destruct o as [m c], o' as [m' c']. cbn [mMap] in *.
  rewrite (Z.eqb_sym (Z.of_nat (List.length m'))).
  destruct (Z.of_nat (List.length m) =? Z.of_nat (List.length m')) eqn:En; cbn [negb].
  2: { apply length_compare_antisym. exact En. }
  clear En. revert m'. induction IH as [|[k x] m Hx _ IHm]; intros [|[k' y] m'];
    try reflexivity.
  cbn [fst snd] in *.
  rewrite (HL_Compare_antisym k k').
  replace (- HL_Compare char_is_signed k k' =? 0)
    with (HL_Compare char_is_signed k k' =? 0)
    by (destruct (HL_Compare char_is_signed k k'); reflexivity).
  destruct (HL_Compare char_is_signed k k' =? 0); cbn [negb];
    [|rewrite Z.sgn_opp; reflexivity].
  pose proof (Hx y) as Hxy.
  rewrite (eqb_zero_antisym _ _ Hxy).
  destruct (compare x y =? 0); cbn [negb]; [apply IHm|exact Hxy].
Qed.

Lemma ArrayValue_Compare_refl (compare : Value -> Value -> Z) (xs : list Value) :
  Forall (fun x => compare x x = 0) xs -> ArrayValue_Compare compare xs xs = 0.
Proof.
  intros IH. unfold ArrayValue_Compare. rewrite Z.eqb_refl. cbn [negb].
  induction IH as [|x xs Hx _ IHxs]; [reflexivity|].
  rewrite Hx. cbn [Z.eqb negb]. exact IHxs.
Qed.

Lemma ObjectValue_Compare_refl (compare : Value -> Value -> Z)
      (m : list (string * Value)) (c1 c2 : Z) :
  Forall (fun kv => compare (snd kv) (snd kv) = 0) m ->
  ObjectValue_Compare char_is_signed compare (mkObjectValue m c1) (mkObjectValue m c2) = 0.
Proof.
  intros IH. unfold ObjectValue_Compare. cbn [mMap]. rewrite Z.eqb_refl. cbn [negb].
  induction IH as [|[k x] m Hx _ IHm]; [reflexivity|].
  cbn [fst snd] in *. rewrite HL_Compare_refl, Hx. cbn [Z.eqb negb]. exact IHm.
Qed.

Lemma Value_Compare_antisym (a : Value) :
  forall b,
    Z.sgn (Value_Compare char_is_signed strcmp b a)
    = - Z.sgn (Value_Compare char_is_signed strcmp a b).
Proof.
  induction a as [|x|x|x|x|x|x|s| |xs IH|o IH] using Value_nested_ind; intros other;
    destruct other as [|y|y|y|y|y|y|t|[ys|]|o'];
    try reflexivity;
    cbn [Value_Compare Type_ ValueType_eqb negb];
    try (unfold CompareT_bool; rewrite CompareT_antisym, Z.sgn_opp; reflexivity);
    try (rewrite CompareT_antisym, Z.sgn_opp; reflexivity).
  - rewrite CompareT_double_antisym, Z.sgn_opp. reflexivity.
  - destruct s as [s|], t as [t|]; try reflexivity. apply strcmp_antisym.
  - apply ArrayValue_Compare_antisym. exact IH.
  - apply ObjectValue_Compare_antisym. exact IH.
Qed.

Lemma Value_Compare_object (m : list (string * Value)) (c1 c2 : Z) :
  Forall (fun kv => Value_Compare char_is_signed strcmp (snd kv) (snd kv) = 0) m ->
  Value_Compare char_is_signed strcmp
    (VObject (mkObjectValue m c1)) (VObject (mkObjectValue m c2)) = 0.
Proof.
  intros IH. cbn [Value_Compare Type_ ValueType_eqb negb].
  apply ObjectValue_Compare_refl. exact IH.
Qed.

Lemma Value_Compare_refl (a : Value) : Value_Compare char_is_signed strcmp a a = 0.
Proof.
  induction a as [|x|x|x|x|x|x|s| |xs IH|o IH] using Value_nested_ind;
    try reflexivity;
    cbn [Value_Compare Type_ ValueType_eqb negb].
  - unfold CompareT_bool. apply CompareT_refl.
  - apply CompareT_refl.
  - apply CompareT_refl.
  - apply CompareT_refl.
  - apply CompareT_refl.
  - apply CompareT_double_refl.
  - destruct s as [s|]; [apply strcmp_refl|reflexivity].
  - apply ArrayValue_Compare_refl. exact IH.
  - destruct o as [m c]. apply ObjectValue_Compare_refl. exact IH.
Qed.

(** X10.  [Compare] is a three-way comparison: a Value compares equal to
    itself, and exchanging the operands changes the sign of the result.
    The counter of an object takes no part in it. *)
Theorem Compare_is_three_way (a b : Value) :
  Value_Compare char_is_signed strcmp a a = 0
  /\ Z.sgn (Value_Compare char_is_signed strcmp b a)
     = - Z.sgn (Value_Compare char_is_signed strcmp a b)
  /\ (forall m c1 c2,
        Value_Compare char_is_signed strcmp
          (VObject (mkObjectValue m c1)) (VObject (mkObjectValue m c2)) = 0).
Proof.
  split; [apply Value_Compare_refl|]. split; [apply Value_Compare_antisym|].
  intros m c1 c2. apply Value_Compare_object.
  apply Forall_forall. intros kv _. apply Value_Compare_refl.
Qed.
End CompareFacts.

Lemma Compare_is_three_way_witness :
  let strcmp := fun s t : string =>
                  match String.compare s t with Lt => -1 | Eq => 0 | Gt => 1 end in
  (forall s t, Z.compare (strcmp s t) 0 = String.compare s t)
  /\ Z.sgn (Value_Compare true strcmp (VString (Some "b"%string)) (VString (Some "a"%string)))
     = - Z.sgn (Value_Compare true strcmp (VString (Some "a"%string))
                  (VString (Some "b"%string))).
Proof.
  intros strcmp.
  assert (forall s t, Z.compare (strcmp s t) 0 = String.compare s t) as H
    by (intros s t; unfold strcmp; destruct (String.compare s t); reflexivity).
  split; [exact H|].
  exact (proj1 (proj2 (Compare_is_three_way true strcmp H
                         (VString (Some "a"%string)) (VString (Some "b"%string))))).
Defined.
(** ** Value: MemberPath *)

Lemma strcspn_app (k s reject : string) :
  strcspn k reject = String.length k ->
  strcspn (k ++ s) reject = (String.length k + strcspn s reject)%nat.
Proof.
  induction k as [|c k IH]; intros H; [reflexivity|].
  cbn [strcspn String.length append] in *.
  destruct (one_of c reject); [discriminate|].
  injection H as H. rewrite (IH H). reflexivity.
Qed.

Lemma get_app_length (k s : string) :
  String.get (String.length k) (k ++ s) = String.get 0 s.
Proof.
  induction k as [|c k IH]; [reflexivity|]. cbn [String.length append String.get]. exact IH.
Qed.

Lemma substring_app_length (k s : string) :
  substring 0 (String.length k) (k ++ s) = k.
Proof.
  induction k as [|c k IH]; [destruct s; reflexivity|].
  cbn [String.length append substring]. rewrite IH. reflexivity.
Qed.

Lemma advance_by_app_length (k s : string) : advance_by (String.length k) (k ++ s) = s.
Proof.
  induction k as [|c k IH]; [reflexivity|]. cbn [String.length append advance_by]. exact IH.
Qed.

Lemma length_append (k s : string) :
  String.length (k ++ s) = (String.length k + String.length s)%nat.
Proof.
  induction k as [|c k IH]; [reflexivity|]. cbn [append String.length]. rewrite IH. reflexivity.
Qed.

(** One step of [MemberPath]: a first field followed by a separator, and a
    last field. *)
Lemma MemberPath_from_field (fuel : nat) (v : Value) (c0 sep : ascii) (r rest : string) :
  strcspn r ".[" = String.length r ->
  one_of sep ".[" = true ->
  MemberPath_from (S fuel) v (String c0 (r ++ String sep rest))
  = match PathField v (String c0 r) with
    | Defined f => MemberPath_from fuel f (String sep rest)
    | Undefined => Undefined
    end.
Proof.
  intros Hr Hsep. cbn [MemberPath_from].
  rewrite (strcspn_app r (String sep rest) ".[" Hr).
  cbn [strcspn]. rewrite Hsep, Nat.add_0_r.
  unfold char_at_or_nul. cbn [String.get].
  rewrite get_app_length. cbn [String.get].
  assert (Ascii.eqb sep zero = false) as Hz.
  { destruct (Ascii.eqb_spec sep zero) as [->|]; [discriminate Hsep|reflexivity]. }
  rewrite Hz. cbn [negb].
  change (substring 0 (S (String.length r)) (String c0 (r ++ String sep rest)))
    with (String c0 (substring 0 (String.length r) (r ++ String sep rest))).
  rewrite substring_app_length.
  change (advance_by (S (String.length r)) (String c0 (r ++ String sep rest)))
    with (advance_by (String.length r) (r ++ String sep rest)).
  rewrite advance_by_app_length. reflexivity.
Qed.

Lemma MemberPath_from_last (fuel : nat) (v : Value) (c0 : ascii) (r : string) :
  strcspn r ".[" = String.length r ->
  MemberPath_from (S fuel) v (String c0 r) = PathField v (String c0 r).
Proof.
  intros Hr. cbn [MemberPath_from]. rewrite Hr.
  unfold char_at_or_nul. cbn [String.get].
  replace (String.get (String.length r) r) with (@None ascii).
  - rewrite Ascii.eqb_refl. reflexivity.
  - clear Hr. induction r as [|c r IH]; [reflexivity|exact IH].
Qed.

Lemma is_path_key_inv (k : string) :
  is_path_key k = true ->
  exists c r, k = String c r /\ one_of c ".[" = false
              /\ strcspn r ".[" = String.length r.
Proof.
  unfold is_path_key. destruct k as [|c r]; [discriminate|].
  cbn [String.eqb negb andb strcspn String.length].
  destruct (one_of c ".[") eqn:Hc; [discriminate|].
  intros H. apply Nat.eqb_eq in H. injection H as H.
  exists c, r. repeat split; assumption.
Qed.

Lemma PathField_member (v : Value) (c : ascii) (r : string) :
  one_of c ".[" = false ->
  PathField v (String c r) = Defined (Value_Member v (String c r)).
Proof.
  intros Hc. unfold PathField, char_at_or_nul. cbn [String.get].
  cbn [one_of] in Hc.
  destruct (Ascii.eqb c ".") eqn:Hdot; [discriminate|].
  destruct (Ascii.eqb c "[") eqn:Hbr; [discriminate|].
  rewrite andb_false_r. reflexivity.
Qed.

Lemma PathField_dot_member (v : Value) (k : string) :
  PathField v (String "." k) = Defined (Value_Member v k).
Proof.
  unfold PathField, char_at_or_nul. cbn [String.get].
  replace (Ascii.eqb "." "[") with false by reflexivity.
  rewrite andb_false_r. reflexivity.
Qed.

Lemma MemberPath_from_dotted (keys : list string) :
  forall (fuel : nat) (v : Value),
    keys <> [] ->
    forallb is_path_key keys = true ->
    (String.length (String.concat "." keys) < fuel)%nat ->
    MemberPath_from fuel v (String "." (String.concat "." keys))
    = Defined (fold_left Value_Member keys v).
Proof.
  induction keys as [|k keys IH]; intros fuel v Hne Hkeys Hfuel; [contradiction|].
  cbn [forallb] in Hkeys. apply andb_prop in Hkeys. destruct Hkeys as [Hk Hkeys].
  destruct (is_path_key_inv k Hk) as (c & r & -> & Hc & Hr).
  assert (strcspn (String c r) ".[" = String.length (String c r)) as Hcr
    by (cbn [strcspn String.length]; rewrite Hc, Hr; reflexivity).
  destruct fuel as [|fuel]; [inversion Hfuel|].
  destruct keys as [|k2 keys].
  - cbn [String.concat fold_left].
    rewrite (MemberPath_from_last fuel v "." (String c r) Hcr).
    apply PathField_dot_member.
  - change (String.concat "." (String c r :: k2 :: keys))
      with (String c r ++ String "." (String.concat "." (k2 :: keys)))%string in *.
    rewrite (MemberPath_from_field fuel v "." "." (String c r) _ Hcr eq_refl).
    rewrite PathField_dot_member. cbn [fold_left].
    apply IH; [discriminate|exact Hkeys|].
    rewrite length_append in Hfuel. cbn [String.length] in Hfuel.
    cbn [String.length]. lia.
Qed.

(** X11.  A path of member names joined by '.' is followed name by name:
    [MemberPath] returns what the calls of [Member] return, one on the
    result of the other, and so the null Value from the first name on that
    is missing or that is looked up in a Value that is no object. *)
Theorem MemberPath_follows_the_names (v : Value) (keys : list string) :
  keys <> [] ->
  forallb is_path_key keys = true ->
  MemberPath v (String.concat "." keys) = Defined (fold_left Value_Member keys v).
Proof.
  intros Hne Hkeys. destruct keys as [|k keys]; [contradiction|].
  pose proof Hkeys as Hall.
  cbn [forallb] in Hkeys. apply andb_prop in Hkeys. destruct Hkeys as [Hk Hkeys].
  destruct (is_path_key_inv k Hk) as (c & r & -> & Hc & Hr).
  unfold MemberPath. destruct keys as [|k2 keys].
  - cbn [String.concat fold_left String.length].
    rewrite (MemberPath_from_last _ v c r Hr). apply PathField_member. exact Hc.
  - change (String.concat "." (String c r :: k2 :: keys))
      with (String c (r ++ String "." (String.concat "." (k2 :: keys))))%string.
    cbn [String.length].
    rewrite (MemberPath_from_field _ v c "." r _ Hr eq_refl).
    rewrite (PathField_member v c r Hc). cbn [fold_left].
    apply (MemberPath_from_dotted (k2 :: keys)); [discriminate|exact Hkeys|].
    rewrite length_append. cbn [String.length]. lia.
Qed.

Lemma MemberPath_follows_the_names_witness :
  MemberPath
    (VObject (mkObjectValue
                [("window"%string,
                  VObject (mkObjectValue [("width"%string, VInt 640)] 0))] 0))
    "window.width"
  = Defined (VInt 640).
Proof.
  exact (MemberPath_follows_the_names
           (VObject (mkObjectValue
                       [("window"%string,
                         VObject (mkObjectValue [("width"%string, VInt 640)] 0))] 0))
           ["window"%string; "width"%string]
           ltac:(discriminate) eq_refl).
Defined.

Lemma size_of_int_small (n : nat) :
  Z.of_nat n <= INT32_MAX -> size_of_int n = Z.of_nat n.
Proof.
  intros H. unfold size_of_int, to_uint64, to_int32. unfold INT32_MAX in H.
  rewrite (Z.mod_small (Z.of_nat n + 2 ^ 31) (2 ^ 32)) by lia.
  rewrite Z.mod_small by lia. lia.
Qed.

Lemma to_int32_small (z : Z) : 0 <= z <= INT32_MAX -> to_int32 z = z.
Proof.
  intros H. unfold to_int32. unfold INT32_MAX in H.
  rewrite Z.mod_small by lia. lia.
Qed.

Lemma to_uint64_nonneg (z : Z) : 0 <= to_uint64 z.
Proof.
  unfold to_uint64. apply Z.mod_pos_bound. lia.
Qed.

Lemma Member_null_or_member (o : ObjectValue) (key : string) :
  Member o key = kNullValue \/ In (Member o key) (map snd (mMap o)).
Proof.
  unfold Member. destruct (find (mMap o) key) as [it|]; [|left; reflexivity].
  unfold deref. destruct (nth_error (mMap o) it) as [kv|] eqn:E; [|left; reflexivity].
  right. apply in_map. apply (nth_error_In _ _ E).
Qed.

Lemma counts_fit_int_part (r v : Value) :
  counts_fit_int v = true -> part_of r v -> counts_fit_int r = true.
Proof.
  intros Hv [->|[(data & -> & Hin)|(o & -> & Hin)]]; [reflexivity| |].
  - cbn [counts_fit_int] in Hv. apply andb_prop in Hv. destruct Hv as [_ Hall].
    rewrite forallb_forall in Hall. apply Hall, Hin.
  - cbn [counts_fit_int] in Hv. rewrite forallb_forall in Hv.
    apply in_map_iff in Hin. destruct Hin as (kv & <- & Hkv). apply Hv, Hkv.
Qed.

Lemma PathField_stays_inside (v : Value) (key : string) :
  counts_fit_int v = true ->
  exists r, PathField v key = Defined r /\ part_of r v.
Proof.
  intros Hfit. unfold PathField.
  destruct (IsArray v && Ascii.eqb (char_at_or_nul key 0) "[") eqn:Harr.
  - apply andb_prop in Harr. destruct Harr as [Harr _].
    destruct v as [| | | | | | | |a|]; try discriminate Harr.
    destruct (strtol_10 (advance_by 1 key)) as [n last].
    destruct (negb (Ascii.eqb (char_at_or_nul (advance_by 1 key) last) "]")
              || (size (VArray a) <=? to_uint64 n)) eqn:Hcheck.
    + exists kNullValue. split; [reflexivity|left; reflexivity].
    + apply orb_false_elim in Hcheck. destruct Hcheck as [_ Hsize].
      apply Z.leb_gt in Hsize. pose proof (to_uint64_nonneg n) as Hpos.
      destruct a as [data|]; cbn [size] in Hsize; [|lia].
      cbn [counts_fit_int] in Hfit. apply andb_prop in Hfit. destruct Hfit as [Hfit _].
      apply Z.leb_le in Hfit.
      rewrite (size_of_int_small _ Hfit) in Hsize.
      rewrite (to_int32_small (to_uint64 n)) by lia.
      cbn [Elt]. unfold ArrayValue_index.
      destruct (to_uint64 n <? 0) eqn:Hneg; [apply Z.ltb_lt in Hneg; lia|].
      destruct (nth_error data (Z.to_nat (to_uint64 n))) as [x|] eqn:Hx.
      * exists x. split; [reflexivity|]. right. left. exists data.
        split; [reflexivity|apply (nth_error_In _ _ Hx)].
      * apply nth_error_None in Hx. lia.
  - match goal with |- exists r, Defined (Value_Member v ?k) = _ /\ _ =>
      exists (Value_Member v k); split; [reflexivity|]; generalize k; intros k' end.
    destruct v as [| | | | | | | | |o]; try (left; reflexivity).
    cbn [Value_Member]. destruct (Member_null_or_member o k') as [H|H].
    + left. exact H.
    + right. right. exists o. split; [reflexivity|exact H].
Qed.

Lemma get_advance_by (n : nat) (s : string) (c : ascii) :
  String.get n s = Some c ->
  exists s', advance_by n s = String c s'
             /\ (String.length (advance_by n s) + n = String.length s)%nat.
Proof.
  revert s. induction n as [|n IH]; intros [|d s] H; try discriminate.
  - injection H as ->. exists s. split; [reflexivity|cbn [advance_by]; lia].
  - cbn [String.get] in H. destruct (IH s H) as (s' & E & L).
    exists s'. cbn [advance_by String.length]. split; [exact E|lia].
Qed.

Lemma MemberPath_from_stays_inside (fuel : nat) :
  forall (v : Value) (path : string),
    counts_fit_int v = true ->
    path <> ""%string ->
    (String.length path <= fuel)%nat ->
    exists r, MemberPath_from fuel v path = Defined r /\ counts_fit_int r = true.
Proof.
  induction fuel as [|fuel IH]; intros v path Hv Hne Hfuel.
  - destruct path; [contradiction|inversion Hfuel].
  - destruct path as [|c0 path1]; [contradiction|].
    cbn [MemberPath_from].
    set (sep_pos := S (strcspn path1 ".[")).
    destruct (negb (Ascii.eqb (char_at_or_nul (String c0 path1) sep_pos) zero)) eqn:Hsep.
    + destruct (PathField_stays_inside v (substring 0 sep_pos (String c0 path1)) Hv)
        as (f & Ef & Hf).
      rewrite Ef. pose proof (counts_fit_int_part f v Hv Hf) as Hfit.
      unfold char_at_or_nul in Hsep.
      destruct (String.get sep_pos (String c0 path1)) as [c|] eqn:Hget;
        [|rewrite Ascii.eqb_refl in Hsep; discriminate].
      destruct (get_advance_by _ _ _ Hget) as (s' & Es & Hlen).
      apply IH; [exact Hfit|rewrite Es; discriminate|].
      cbn [String.length] in Hfuel, Hlen. lia.
    + destruct (PathField_stays_inside v (String c0 path1) Hv) as (f & Ef & Hf).
      exists f. split; [exact Ef|exact (counts_fit_int_part f v Hv Hf)].
Qed.

(** X12.  Whatever the path, [MemberPath] stays inside the Value: an index
    in brackets is compared with the size of the array before it is used,
    so each step gives an element, a member or the null Value, and a
    result is returned for every path that is not empty.  On the empty path
    the scan for the first separator starts behind the terminator. *)
Theorem MemberPath_stays_inside (v : Value) (path : string) :
  MemberPath v "" = Undefined
  /\ (counts_fit_int v = true ->
      path <> ""%string ->
      exists r, MemberPath v path = Defined r /\ counts_fit_int r = true).
Proof.
  split; [reflexivity|]. intros Hv Hne.
  apply MemberPath_from_stays_inside; [exact Hv|exact Hne|apply Nat.le_refl].
Qed.

Lemma MemberPath_stays_inside_witness :
  exists r, MemberPath (VArray (Some [VInt 7; VInt 8])) "[2]" = Defined r
            /\ counts_fit_int r = true.
Proof.
  exact (proj2 (MemberPath_stays_inside (VArray (Some [VInt 7; VInt 8])) "[2]")
           eq_refl ltac:(discriminate)).
Defined.
(** ** The parser: the %TAG directives of a document *)

Lemma has_handle_In (handle : string) (ds : list yaml_tag_directive_t) :
  has_handle handle ds = true <-> In handle (map tag_handle ds).
Proof.
  induction ds as [|d ds IH]; cbn [has_handle map In].
  - split; [discriminate|contradiction].
  - destruct (String.eqb_spec handle (tag_handle d)) as [->|Hne].
    + split; [left; reflexivity|reflexivity].
    + rewrite IH. split; [right; assumption|].
      intros [H|H]; [symmetry in H; contradiction|exact H].
Qed.

Lemma has_handle_app (handle : string) (ds es : list yaml_tag_directive_t) :
  has_handle handle (ds ++ es) = has_handle handle ds || has_handle handle es.
Proof.
  induction ds as [|d ds IH]; [reflexivity|]. cbn [app has_handle].
  destruct (String.eqb handle (tag_handle d)); [reflexivity|exact IH].
Qed.

Lemma NoDup_handles_snoc (ds : list yaml_tag_directive_t) (d : yaml_tag_directive_t) :
  NoDup (map tag_handle ds) ->
  has_handle (tag_handle d) ds = false ->
  NoDup (map tag_handle (ds ++ [d])).
Proof.
  intros Hnd Hnew. rewrite map_app. cbn [map].
  apply NoDup_app; [exact Hnd|constructor; [intros []|constructor]|].
  intros h Hin [<-|[]].
  apply has_handle_In in Hin. rewrite Hin in Hnew. discriminate.
Qed.

(** What a call of [yaml_parser_append_tag_directive] that returns 1 does
    to the parser. *)
Lemma append_tag_directive_ok (parser parser' : yaml_parser_t)
    (value : yaml_tag_directive_t) (allow_duplicates : bool) (m : yaml_mark_t) :
  yaml_parser_append_tag_directive parser value allow_duplicates m = (true, parser') ->
  error parser' = error parser
  /\ tokens parser' = tokens parser
  /\ ((has_handle (tag_handle value) (tag_directives parser) = false
       /\ tag_directives parser' = tag_directives parser ++ [value])
      \/ (has_handle (tag_handle value) (tag_directives parser) = true
          /\ allow_duplicates = true
          /\ tag_directives parser' = tag_directives parser)).
Proof.
  unfold yaml_parser_append_tag_directive.
  destruct (has_handle (tag_handle value) (tag_directives parser)) eqn:Hh.
  - destruct allow_duplicates; [|discriminate].
    intros H. injection H as <-. repeat split. right. repeat split.
  - intros H. injection H as <-. repeat split. left. repeat split.
Qed.

(** The loop over the directive tokens, when it ends without an error: the
    %TAG directives it has collected are the ones it has appended to the
    parser. *)
Lemma process_directives_loop_ok (ts : list yaml_token_t) :
  forall (parser parser' : yaml_parser_t) (version_directive version' : option (Z * Z))
         (collected collected' : list yaml_tag_directive_t) (token : yaml_token_t),
    process_directives_loop ts parser version_directive collected
    = (Some (version', collected', token), parser') ->
    exists added,
      collected' = collected ++ added
      /\ tag_directives parser' = tag_directives parser ++ added
      /\ error parser' = error parser
      /\ (NoDup (map tag_handle (tag_directives parser)) ->
          NoDup (map tag_handle (tag_directives parser'))).
Proof.
  induction ts as [|t ts IH];
    intros parser parser' version_directive version' collected collected' token H;
    cbn [process_directives_loop] in H; [discriminate|].
  destruct (token_type t).
  all: try (injection H as _ <- _ <-; exists []; rewrite !app_nil_r;
            repeat split; intros Hnd; exact Hnd).
  - destruct version_directive as [v|]; [discriminate|].
    destruct (token_data t) as [|major minor| |];
      try (cbn [negb Z.eqb orb] in H; discriminate H).
    destruct (negb (major =? 1) || negb (minor =? 1)); [discriminate|].
    exact (IH _ _ _ _ _ _ _ H).
  - set (value := match token_data t with
                  | data_tag_directive handle prefix => mkTagDirective handle prefix
                  | _ => mkTagDirective "" ""
                  end) in H.
    destruct (yaml_parser_append_tag_directive (with_tokens parser (t :: ts)) value false
                (start_mark t)) as [[|] parser1] eqn:Happend; [|discriminate].
    destruct (append_tag_directive_ok _ _ _ _ _ Happend)
      as (Herr & _ & [(Hnew & Htags)|(_ & Hdup & _)]); [|discriminate].
    destruct (IH _ _ _ _ _ _ _ H) as (added & Hc & Ht & He & Hnd).
    exists (value :: added).
    change (tag_directives (with_tokens parser (t :: ts))) with (tag_directives parser)
      in Htags, Hnew.
    change (error (with_tokens parser (t :: ts))) with (error parser) in Herr.
    split; [rewrite Hc, <- app_assoc; reflexivity|].
    split; [rewrite Ht, Htags, <- app_assoc; reflexivity|].
    split; [rewrite He, Herr; reflexivity|].
    intros Hnd0. apply Hnd. rewrite Htags.
    apply NoDup_handles_snoc; assumption.
Qed.

Lemma append_default_ok (parser : yaml_parser_t) (d : yaml_tag_directive_t)
    (m : yaml_mark_t) :
  let parser' := snd (yaml_parser_append_tag_directive parser d true m) in
  error parser' = error parser
  /\ tag_directives parser'
     = tag_directives parser
       ++ (if has_handle (tag_handle d) (tag_directives parser) then [] else [d]).
Proof.
  unfold yaml_parser_append_tag_directive.
  destruct (has_handle (tag_handle d) (tag_directives parser));
    cbn [snd]; [rewrite app_nil_r|]; split; reflexivity.
Qed.

(** X13.  The %TAG directives of a document.  When the directives are
    processed without an error, the parser holds the tag directives it
    had, then those of the document in the order they stand there, then the
    default for "!" and the default for "!!", each only when its handle has
    not been declared; no handle is held twice, and no error is set. *)
Theorem tag_directives_of_a_document (parser parser' : yaml_parser_t)
    (version : option (Z * Z)) (tags : list yaml_tag_directive_t) :
  NoDup (map tag_handle (tag_directives parser)) ->
  yaml_parser_process_directives parser = (Some (version, tags), parser') ->
  let declared := tag_directives parser ++ tags in
  tag_directives parser'
  = declared
    ++ (if has_handle "!" declared then [] else [mkTagDirective "!" "!"])
    ++ (if has_handle "!!" declared then []
        else [mkTagDirective "!!" "tag:yaml.org,2002:"])
  /\ NoDup (map tag_handle (tag_directives parser'))
  /\ has_handle "!" (tag_directives parser') = true
  /\ has_handle "!!" (tag_directives parser') = true
  /\ error parser' = error parser.
Proof.
  intros Hnd H. unfold yaml_parser_process_directives in H.
  destruct (process_directives_loop (tokens parser) parser None [])
    as [[[[version1 collected] token]|] parser1] eqn:Hloop; [|discriminate].
  injection H as <- <- <-.
  destruct (process_directives_loop_ok _ _ _ _ _ _ _ _ Hloop)
    as (added & Hc & Ht & He & Hnd1).
  cbn [app] in Hc. subst added. specialize (Hnd1 Hnd).
  unfold append_default_tag_directives, default_tag_directives. cbn [fold_left].
  set (m := start_mark token).
  destruct (append_default_ok parser1 (mkTagDirective "!" "!") m) as [He1 Ht1].
  set (parser2 := snd (yaml_parser_append_tag_directive parser1 (mkTagDirective "!" "!")
                         true m)) in *.
  destruct (append_default_ok parser2 (mkTagDirective "!!" "tag:yaml.org,2002:") m)
    as [He2 Ht2].
  set (parser3 := snd (yaml_parser_append_tag_directive parser2
                         (mkTagDirective "!!" "tag:yaml.org,2002:") true m)) in *.
  cbn [tag_handle] in Ht1, Ht2. cbv zeta.
  rewrite <- Ht.
  assert (has_handle "!!" (tag_directives parser2)
          = has_handle "!!" (tag_directives parser1)) as Hsame.
  { rewrite Ht1, has_handle_app.
    destruct (has_handle "!" (tag_directives parser1)); cbn [has_handle];
      [apply orb_false_r|].
    replace (String.eqb "!!" (tag_handle (mkTagDirective "!" "!"))) with false
      by reflexivity.
    apply orb_false_r. }
  rewrite Hsame in Ht2.
  assert (NoDup (map tag_handle (tag_directives parser2))) as Hnd2.
  { rewrite Ht1. destruct (has_handle "!" (tag_directives parser1)) eqn:Hb.
    - rewrite app_nil_r. exact Hnd1.
    - apply NoDup_handles_snoc; assumption. }
  split; [rewrite Ht2, Ht1, <- app_assoc; reflexivity|].
  split.
  { rewrite Ht2. destruct (has_handle "!!" (tag_directives parser1)) eqn:Hb.
    - rewrite app_nil_r. exact Hnd2.
    - apply NoDup_handles_snoc; [exact Hnd2|exact Hsame]. }
  split.
  { rewrite Ht2, Ht1, !has_handle_app.
    destruct (has_handle "!" (tag_directives parser1)); reflexivity. }
  split.
  { rewrite Ht2, has_handle_app, Hsame.
    destruct (has_handle "!!" (tag_directives parser1)); [reflexivity|].
    cbn [has_handle]. apply orb_true_r. }
  rewrite He2, He1, He. reflexivity.
Qed.

(** The directive [%TAG ! tag:e.org,2000:] before the start of a
    document. *)
Lemma tag_directives_of_a_document_witness :
  let tag := mkToken YAML_TAG_DIRECTIVE_TOKEN
               (data_tag_directive "!" "tag:e.org,2000:") (mkMark 0 0 0) (mkMark 23 0 23) in
  let doc := mkToken YAML_DOCUMENT_START_TOKEN data_none (mkMark 24 1 0) (mkMark 27 1 3) in
  exists parser',
    yaml_parser_process_directives (with_tokens (scanner_at []) [tag; doc])
    = (Some (None, [mkTagDirective "!" "tag:e.org,2000:"]), parser')
    /\ tag_directives parser'
       = [mkTagDirective "!" "tag:e.org,2000:"; mkTagDirective "!!" "tag:yaml.org,2002:"].
Proof.
  intros tag doc.
  exists (snd (yaml_parser_process_directives (with_tokens (scanner_at []) [tag; doc]))).
  split; [reflexivity|].
  exact (proj1 (tag_directives_of_a_document
                  (with_tokens (scanner_at []) [tag; doc])
                  (snd (yaml_parser_process_directives
                          (with_tokens (scanner_at []) [tag; doc])))
                  None [mkTagDirective "!" "tag:e.org,2000:"]
                  (NoDup_nil _) eq_refl)).
Defined.

(** X14.  A %TAG directive whose handle the parser already holds, from
    before or from an earlier %TAG directive of the same document, makes
    the parser fail with [found duplicate %TAG directive] at that
    directive. *)
Theorem duplicate_tag_directive_error (parser : yaml_parser_t)
    (pre rest : list yaml_token_t) (t : yaml_token_t) :
  tokens parser = pre ++ t :: rest ->
  fresh_tag_directives pre (tag_directives parser) = true ->
  token_type t = YAML_TAG_DIRECTIVE_TOKEN ->
  has_handle (tag_handle (directive_of t))
    (tag_directives parser ++ map directive_of pre) = true ->
  fails_with (yaml_parser_process_directives parser)
    "found duplicate %TAG directive" (start_mark t).
Proof.
  intros Htokens Hpre Htype Hdup.
  destruct (process_directives_loop_tags pre (t :: rest) parser None [] Hpre)
    as [parser1 [collected1 [Hloop Htags]]].
  erewrite process_directives_fails.
  2: { rewrite Htokens, Hloop. cbn [process_directives_loop]. rewrite Htype.
       fold (directive_of t). unfold yaml_parser_append_tag_directive.
       change (tag_directives (with_tokens parser1 (t :: rest)))
         with (tag_directives parser1).
       rewrite Htags, Hdup. reflexivity. }
  repeat split.
Qed.

(** The directives [%TAG !e! tag:e.org,2000:] and [%TAG !e! tag:f.org,2000:]. *)
Lemma duplicate_tag_directive_error_witness :
  let tag := mkToken YAML_TAG_DIRECTIVE_TOKEN
               (data_tag_directive "!e!" "tag:e.org,2000:") (mkMark 0 0 0) (mkMark 25 0 25) in
  let tag' := mkToken YAML_TAG_DIRECTIVE_TOKEN
                (data_tag_directive "!e!" "tag:f.org,2000:") (mkMark 26 1 0) (mkMark 51 1 25) in
  let doc := mkToken YAML_DOCUMENT_START_TOKEN data_none (mkMark 52 2 0) (mkMark 55 2 3) in
  fails_with (yaml_parser_process_directives (with_tokens (scanner_at []) [tag; tag'; doc]))
    "found duplicate %TAG directive" (mkMark 26 1 0).
Proof.
  intros tag tag' doc.
  exact (duplicate_tag_directive_error (with_tokens (scanner_at []) [tag; tag'; doc])
           [tag] [doc] tag' eq_refl eq_refl eq_refl eq_refl).
Defined.
(** ** The YAML binder: anchors, sequences and mappings of scalars *)

Lemma find_anchor_lookup (rd : YamlReader) (name : string) :
  find_anchor rd name = lookup (mAnchors rd) name.
Proof.
  unfold find_anchor. pose proof (find_lookup (mAnchors rd) name) as H.
  destruct (find (mAnchors rd) name) as [it|].
  - destruct H as [kv [Hn [_ Hl]]]. rewrite Hn, Hl. reflexivity.
  - symmetry. exact H.
Qed.

Lemma set_anchor_put (rd : YamlReader) (name : string) (v : Value) :
  set_anchor rd name v = mkYamlReader (mParser rd) (put (mAnchors rd) name v) (problem rd).
Proof.
  unfold set_anchor. rewrite insert_cases.
  destruct (find (mAnchors rd) name) as [it|] eqn:Ef.
  - rewrite (assign_at_found _ _ v _ Ef). reflexivity.
  - destruct (insert_absent_put (mAnchors rd) name VNull v Ef) as [_ Ha].
    rewrite Ha. reflexivity.
Qed.

Section BinderMoreFacts.
Variable strtod : string -> double * nat.

(** X15.  An anchor on a scalar.  The scalar is bound as any scalar is
    (one that is not plain to the string before its first NUL), but what is
    stored under the anchor is the pointer to the Value, through the
    assignment from [bool]: an alias of the anchor gives the Value [true],
    whatever the scalar was. *)
Theorem anchor_on_a_scalar_holds_true
    (fuel fuel' : nat) (scalar target : Value) (rd : YamlReader)
    (name valueStr : string) (style : yaml_scalar_style_t) (rest events : yaml_events) :
  is_sorted (mAnchors rd) = true ->
  mParser rd = Produce (YAML_SCALAR_EVENT (Some name) valueStr style) :: rest ->
  exists rd',
    ParseScalar strtod (S fuel) scalar rd
    = Returns (kYamlOk, scalar_value strtod scalar valueStr style) rd'
    /\ mParser rd' = rest
    /\ is_sorted (mAnchors rd') = true
    /\ ParseScalar strtod (S fuel') target
         (with_parser rd' (Produce (YAML_ALIAS_EVENT name) :: events))
       = Returns (kYamlOk, VBool true) (with_parser rd' events)
    /\ (is_plain style = false ->
        scalar_value strtod scalar valueStr style = VString (Some (c_str valueStr))).
Proof.
  intros Hs Hp.
  exists (set_anchor (with_parser rd rest) name (VBool true)).
  split; [cbn [ParseScalar]; rewrite Hp; reflexivity|].
  rewrite set_anchor_put. cbn [mParser mAnchors with_parser problem].
  split; [reflexivity|]. split; [apply is_sorted_put, Hs|]. split.
  - cbn [ParseScalar mParser with_parser mAnchors problem].
    rewrite find_anchor_lookup. unfold with_parser. cbn [mAnchors mParser problem].
    rewrite lookup_put, String.eqb_refl.
    destruct target; reflexivity.
  - intros Hstyle. unfold scalar_value. rewrite Hstyle.
    apply Value_assign_scalar. reflexivity.
Qed.

Lemma ParseSequence_scalar (fuel : nat) (array : list Value) (rd : YamlReader)
    (valueStr : string) (style : yaml_scalar_style_t) (rest : yaml_events) :
  ParseSequence strtod (S (S fuel)) array
    (with_parser rd (Produce (YAML_SCALAR_EVENT None valueStr style) :: rest))
  = ParseSequence strtod (S fuel) (array ++ [scalar_value strtod VNull valueStr style])
      (with_parser rd rest).
Proof. reflexivity. Qed.

Lemma ParseSequence_scalars (items : list (string * yaml_scalar_style_t)) :
  forall (n : nat) (array : list Value) (rd : YamlReader) (rest : yaml_events),
    ParseSequence strtod (S (S (List.length items + n))) array
      (with_parser rd (scalar_events items ++ Produce YAML_SEQUENCE_END_EVENT :: rest))
    = Returns (kYamlOk,
               array ++ map (fun item => scalar_value strtod VNull (fst item) (snd item)) items)
        (with_parser rd rest).
Proof.
  induction items as [|item items IH]; intros n array rd rest.
  - cbn [scalar_events map app]. rewrite (ParseSequence_end strtod), app_nil_r. reflexivity.
  - cbn [scalar_events map app List.length Nat.add].
    rewrite ParseSequence_scalar. fold (scalar_events items).
    rewrite IH, <- app_assoc. reflexivity.
Qed.

(** X16.  A sequence of scalars is bound to an array with one element for
    each scalar, in the order of the document, and the events up to the
    end of the sequence are consumed.  Each element is the Value that the
    scalar is bound to by itself, for a quoted scalar the string before its
    first NUL. *)
Theorem sequence_of_scalars_in_order
    (items : list (string * yaml_scalar_style_t)) (n : nat) (scalar : Value)
    (rd : YamlReader) (rest : yaml_events) :
  ParseScalar strtod (3 + (List.length items + n)) scalar
    (with_parser rd (Produce (YAML_SEQUENCE_START_EVENT None)
                     :: scalar_events items ++ Produce YAML_SEQUENCE_END_EVENT :: rest))
  = Returns (kYamlOk,
             VArray (Some (map (fun item => scalar_value strtod VNull (fst item) (snd item))
                             items)))
      (with_parser rd rest).
Proof.
  change (3 + (List.length items + n))%nat with (S (S (S (List.length items + n)))).
  apply ParseScalar_sequence_start. apply ParseSequence_scalars.
Qed.

(** X17.  A mapping of scalars is bound to an object whose member map is
    sorted.  The key of an entry is handed to [UpdateMember] as a C string,
    so it is the text before the first NUL, and two keys that differ only
    behind a NUL are one member.  The member under a key is the scalar of
    the last entry with that key, so of two entries with one key the later
    one counts, and a key with no entry gives the null Value. *)
Theorem mapping_of_scalars_last_entry_counts
    (entries : list (string * (string * yaml_scalar_style_t))) (n : nat)
    (rd : YamlReader) (rest : yaml_events) :
  forallb (fun e => negb (String.eqb (fst e) "<<")) entries = true ->
  exists o,
    ParseScalar strtod (2 + (List.length entries + n)) VNull
      (with_parser rd (Produce (YAML_MAPPING_START_EVENT None)
                       :: entries_events entries ++ Produce YAML_MAPPING_END_EVENT :: rest))
    = Returns (kYamlOk, VObject o) (with_parser rd rest)
    /\ is_sorted (mMap o) = true
    /\ forall k,
         Member o k
         = match last_entry entries k with
           | Some item => scalar_value strtod VNull (fst item) (snd item)
           | None => kNullValue
           end.
Proof.
  intros Hkeys.
  destruct (ParseMapping_entries strtod entries (S (List.length entries + n))
              (mkObjectValue [] 0) rd rest Hkeys ltac:(lia)) as (o & Hrun & Hmap).
  cbn [mMap] in Hmap.
  destruct (entries_members strtod entries (mMap o) Hmap) as [Hs Hl].
  exists o. split; [|split; [exact Hs|]].
  - change (2 + (List.length entries + n))%nat with (S (S (List.length entries + n))).
    apply ParseScalar_mapping_start, Hrun.
  - intros k. rewrite Member_lookup, Hl.
    destruct (last_entry entries k); reflexivity.
Qed.
End BinderMoreFacts.

(** The flow sequence of the double-quoted scalar [x], NUL, [y] with the
    anchor [a], and the alias of [a]. *)
Lemma anchor_on_a_scalar_holds_true_witness :
  let text := String "x" (String zero (String "y" EmptyString)) in
  let rd := mkYamlReader
              [Produce (YAML_SCALAR_EVENT (Some "a"%string) text
                          YAML_DOUBLE_QUOTED_SCALAR_STYLE);
               Produce (YAML_ALIAS_EVENT "a"); Produce YAML_SEQUENCE_END_EVENT] [] None in
  exists rd',
    ParseScalar strtod_none 1 VNull rd = Returns (kYamlOk, VString (Some "x"%string)) rd'
    /\ ParseScalar strtod_none 1 VNull
         (with_parser rd' [Produce (YAML_ALIAS_EVENT "a"); Produce YAML_SEQUENCE_END_EVENT])
       = Returns (kYamlOk, VBool true)
           (with_parser rd' [Produce YAML_SEQUENCE_END_EVENT]).
Proof.
  intros text rd.
  destruct (anchor_on_a_scalar_holds_true strtod_none 0 0 VNull VNull rd "a" text
              YAML_DOUBLE_QUOTED_SCALAR_STYLE
              [Produce (YAML_ALIAS_EVENT "a"); Produce YAML_SEQUENCE_END_EVENT]
              [Produce YAML_SEQUENCE_END_EVENT] eq_refl eq_refl)
    as (rd' & Hrun & _ & _ & Halias & _).
  exists rd'. split; [exact Hrun|exact Halias].
Defined.

(** A mapping with three entries: the double-quoted key [k], NUL, [x] with
    the value 1, the key [b] with the value [x], and the double-quoted key
    [k], NUL, [y] with the value 2. *)
Lemma mapping_of_scalars_last_entry_counts_witness :
  let kx := String "k" (String zero (String "x" EmptyString)) in
  let ky := String "k" (String zero (String "y" EmptyString)) in
  let entries := [(kx, ("1"%string, YAML_PLAIN_SCALAR_STYLE));
                  ("b"%string, ("x"%string, YAML_PLAIN_SCALAR_STYLE));
                  (ky, ("2"%string, YAML_PLAIN_SCALAR_STYLE))] in
  forallb (fun e => negb (String.eqb (fst e) "<<")) entries = true
  /\ exists o,
       ParseScalar strtod_none 5 VNull
         (mkYamlReader (Produce (YAML_MAPPING_START_EVENT None)
                        :: entries_events entries ++ [Produce YAML_MAPPING_END_EVENT]) [] None)
       = Returns (kYamlOk, VObject o) (mkYamlReader [] [] None)
       /\ Member o "k" = VInt 2
       /\ Member o "b" = VString (Some "x"%string)
       /\ Member o kx = kNullValue.
Proof.
  intros kx ky entries. split; [reflexivity|].
  destruct (mapping_of_scalars_last_entry_counts strtod_none entries 0
              (mkYamlReader [] [] None) [] eq_refl) as (o & Hrun & _ & Hmember).
  exists o. split; [exact Hrun|].
  split; [exact (Hmember "k"%string)|].
  split; [exact (Hmember "b"%string)|exact (Hmember kx)].
Defined.
(** * JSON: what is written is read back *)

(** ** Integers *)

Lemma digit_char_code (d : Z) :
  0 <= d <= 9 -> Z.of_N (N_of_ascii (digit_char d)) = d + 48.
Proof.
  intros H. unfold digit_char. rewrite N_ascii_embedding by lia. lia.
Qed.

Lemma digit_char_is_digit (d : Z) : 0 <= d <= 9 -> is_decimal_digit (digit_char d) = true.
Proof.
  intros H. unfold is_decimal_digit. rewrite (digit_char_code d H).
  apply andb_true_intro. split; apply Z.leb_le; lia.
Qed.

Lemma digits_value_app (a b : string) :
  forall v, digits_value (a ++ b) v = digits_value b (digits_value a v).
Proof.
  induction a as [|c a IH]; intros v; [reflexivity|]. cbn [append digits_value]. apply IH.
Qed.

Lemma all_digits_app (a b : string) :
  all_digits (a ++ b) = all_digits a && all_digits b.
Proof.
  induction a as [|c a IH]; [reflexivity|]. cbn [append all_digits].
  rewrite IH, andb_assoc. reflexivity.
Qed.

Lemma append_assoc (a b c : string) : ((a ++ b) ++ c = a ++ (b ++ c))%string.
Proof.
  induction a as [|x a IH]; [reflexivity|]. cbn [append]. rewrite IH. reflexivity.
Qed.

(** The loop of [UIntToString] puts the digits of [value] before
    [current]: one digit at least, and as many as it takes. *)
Lemma UIntToString_loop_digits (fuel : nat) :
  forall (value : Z) (current : string),
    0 <= value < 10 ^ Z.of_nat (S fuel) ->
    exists ds,
      UIntToString_loop (S fuel) value current = (ds ++ current)%string
      /\ all_digits ds = true
      /\ ds <> ""%string
      /\ digits_value ds 0 = value.
Proof.
  induction fuel as [|fuel IH]; intros value current Hv.
  - change (10 ^ Z.of_nat 1) with 10 in Hv.
    exists (String (digit_char value) "").
    cbn [UIntToString_loop].
    rewrite (Z.mod_small value 10), (Z.div_small value 10) by lia.
    cbn [Z.eqb negb append all_digits digits_value].
    rewrite digit_char_is_digit, digit_char_code by lia.
    repeat split; [discriminate|lia].
  - assert (10 ^ Z.of_nat (S (S fuel)) = 10 * 10 ^ Z.of_nat (S fuel)) as Hpow.
    { rewrite (Nat2Z.inj_succ (S fuel)), Z.pow_succ_r by lia. reflexivity. }
    pose proof (Z.div_mod value 10 ltac:(lia)) as Hdm.
    pose proof (Z.mod_pos_bound value 10 ltac:(lia)) as Hm.
    assert (0 <= value / 10 < 10 ^ Z.of_nat (S fuel)) as Hq.
    { split; [apply Z.div_pos; lia|].
      apply Z.div_lt_upper_bound; [lia|]. rewrite <- Hpow. lia. }
    change (UIntToString_loop (S (S fuel)) value current)
      with (if negb (value / 10 =? 0)
            then UIntToString_loop (S fuel) (value / 10)
                   (String (digit_char (value mod 10)) current)
            else String (digit_char (value mod 10)) current).
    destruct (Z.eqb_spec (value / 10) 0) as [Hz|Hnz]; cbn [negb].
    + exists (String (digit_char (value mod 10)) "").
      cbn [append all_digits digits_value].
      rewrite digit_char_is_digit, digit_char_code by lia.
      repeat split; [discriminate|lia].
    + destruct (IH (value / 10) (String (digit_char (value mod 10)) current) Hq)
        as (ds & Hloop & Hall & Hne & Hval).
      exists (ds ++ String (digit_char (value mod 10)) "")%string.
      rewrite Hloop, append_assoc. cbn [append].
      split; [reflexivity|]. split.
      { rewrite all_digits_app, Hall. cbn [all_digits andb].
        rewrite digit_char_is_digit by lia. reflexivity. }
      split; [destruct ds; [contradiction|discriminate]|].
      rewrite digits_value_app, Hval. cbn [digits_value].
      rewrite digit_char_code by lia. lia.
Qed.

Lemma UIntToString_digits (value : Z) :
  0 <= value <= UINT64_MAX ->
  exists ds,
    UIntToString value = ds
    /\ all_digits ds = true
    /\ ds <> ""%string
    /\ digits_value ds 0 = value.
Proof.
  intros Hv. unfold UIntToString.
  destruct (UIntToString_loop_digits 19 value "") as (ds & Hloop & Hrest).
  - split; [lia|]. apply Z.le_lt_trans with UINT64_MAX; [lia|]. reflexivity.
  - exists ds. split; [|exact Hrest]. rewrite Hloop. clear.
    induction ds as [|c ds IH]; [reflexivity|]. cbn [append]. rewrite IH. reflexivity.
Qed.

Lemma is_decimal_digit_code (c : ascii) :
  is_decimal_digit c = true -> 0 <= Z.of_N (N_of_ascii c) - 48 <= 9.
Proof.
  unfold is_decimal_digit. intros H. apply andb_prop in H. destruct H as [H1 H2].
  apply Z.leb_le in H1. apply Z.leb_le in H2. lia.
Qed.

Lemma digits_value_ge (ds : string) :
  forall v, all_digits ds = true -> 0 <= v -> v <= digits_value ds v.
Proof.
  induction ds as [|c ds IH]; intros v Hall Hv; [cbn [digits_value]; lia|].
  cbn [all_digits] in Hall. apply andb_prop in Hall. destruct Hall as [Hc Hall].
  pose proof (is_decimal_digit_code c Hc) as Hd.
  cbn [digits_value].
  specialize (IH (v * 10 + (Z.of_N (N_of_ascii c) - 48)) Hall ltac:(lia)). lia.
Qed.

(** The loop over the digits reads a run of digits exactly, as long as its
    value is a [uint64_t]. *)
Lemma decode_digits_exact (ds : string) :
  forall v,
    all_digits ds = true -> 0 <= v -> digits_value ds v <= UINT64_MAX ->
    decode_digits ds v = Digits (digits_value ds v).
Proof.
  induction ds as [|c ds IH]; intros v Hall Hv Hmax; [reflexivity|].
  cbn [all_digits] in Hall. apply andb_prop in Hall. destruct Hall as [Hc Hall].
  pose proof (is_decimal_digit_code c Hc) as Hd.
  cbn [digits_value] in Hmax.
  pose proof (digits_value_ge ds (v * 10 + (Z.of_N (N_of_ascii c) - 48)) Hall ltac:(lia))
    as Hge.
  cbn [decode_digits digits_value]. rewrite Hc. cbn [negb].
  set (d := Z.of_N (N_of_ascii c) - 48) in *.
  assert ((UINT64_MAX / 10 <? v) = false) as H1.
  { apply Z.ltb_ge. apply Z.div_le_lower_bound; lia. }
  assert ((UINT64_MAX - d <? v * 10) = false) as H2 by (apply Z.ltb_ge; lia).
  rewrite H1, H2. apply IH; [exact Hall|lia|exact Hmax].
Qed.

Lemma digit_is_no_sign (c : ascii) :
  is_decimal_digit c = true ->
  In_ c ".eE+" = false /\ Ascii.eqb c "-" = false /\ Ascii.eqb c "+" = false.
Proof.
  destruct c as [[] [] [] [] [] [] [] []]; vm_compute; intros H;
    try discriminate H; repeat split.
Qed.

Lemma inspect_token_digits (ds : string) :
  forall at_start, all_digits ds = true -> inspect_token ds at_start false = false.
Proof.
  induction ds as [|c ds IH]; intros at_start Hall; [reflexivity|].
  cbn [all_digits] in Hall. apply andb_prop in Hall. destruct Hall as [Hc Hall].
  destruct (digit_is_no_sign c Hc) as (H1 & H2 & _).
  cbn [inspect_token]. rewrite H1, H2. cbn [orb andb]. apply IH, Hall.
Qed.

Lemma skip_signs_digit (ds after : string) (isNegative : bool) :
  all_digits ds = true -> ds <> ""%string ->
  skip_signs (ds ++ after) isNegative = (O, isNegative).
Proof.
  intros Hall Hne. destruct ds as [|c ds]; [contradiction|].
  cbn [all_digits] in Hall. apply andb_prop in Hall. destruct Hall as [Hc _].
  destruct (digit_is_no_sign c Hc) as (_ & H2 & H3).
  cbn [append skip_signs]. rewrite H2, H3. reflexivity.
Qed.

Lemma ReadNumber_digits (ds after : string) :
  all_digits ds = true -> ReadNumber after = O ->
  ReadNumber (ds ++ after) = String.length ds.
Proof.
  intros Hall Hafter. induction ds as [|c ds IH]; [exact Hafter|].
  cbn [all_digits] in Hall. apply andb_prop in Hall. destruct Hall as [Hc Hall].
  cbn [append ReadNumber String.length]. rewrite Hc. cbn [negb andb].
  rewrite (IH Hall). reflexivity.
Qed.

(** The loop over the digits never wraps: it reads the run exactly, or
    leaves as soon as the value would pass [UINT64_MAX]. *)
Lemma decode_digits_total (ds : string) :
  forall v,
    all_digits ds = true -> 0 <= v <= UINT64_MAX ->
    decode_digits ds v
    = if digits_value ds v <=? UINT64_MAX then Digits (digits_value ds v) else TooLarge.
Proof.
  induction ds as [|c ds IH]; intros v Hall Hv.
  - cbn [decode_digits digits_value].
    replace (v <=? UINT64_MAX) with true by (symmetry; apply Z.leb_le; lia). reflexivity.
  - cbn [all_digits] in Hall. apply andb_prop in Hall. destruct Hall as [Hc Hall].
    pose proof (is_decimal_digit_code c Hc) as Hd.
    cbn [decode_digits digits_value]. rewrite Hc. cbn [negb].
    set (d := Z.of_N (N_of_ascii c) - 48) in *.
    pose proof (digits_value_ge ds (v * 10 + d) Hall ltac:(lia)) as Hge.
    change (UINT64_MAX / 10) with 1844674407370955161.
    unfold UINT64_MAX in *.
    destruct (Z.ltb_spec 1844674407370955161 v).
    { replace (digits_value ds (v * 10 + d) <=? 18446744073709551615) with false
        by (symmetry; apply Z.leb_gt; lia).
      reflexivity. }
    destruct (Z.ltb_spec (18446744073709551615 - d) (v * 10)).
    { replace (digits_value ds (v * 10 + d) <=? 18446744073709551615) with false
        by (symmetry; apply Z.leb_gt; lia).
      reflexivity. }
    apply IH; [exact Hall|unfold UINT64_MAX; lia].
Qed.

Lemma skip_signs_no_number (after : string) (isNegative : bool) :
  ReadNumber after = O -> skip_signs after isNegative = (O, isNegative).
Proof.
  destruct after as [|c after]; [reflexivity|].
  cbn [ReadNumber skip_signs].
  destruct (Ascii.eqb_spec c "-") as [->|_]; [discriminate|].
  destruct (Ascii.eqb_spec c "+") as [->|_]; [discriminate|]. reflexivity.
Qed.

Section JsonNumberFacts.
Variable sscanf_lf : string -> option double.

(** A run of digits that stands for a [uint64_t] is decoded to the
    narrowest kind. *)
Lemma DecodeNumber_digits (ds after : string) (z : Z) :
  all_digits ds = true -> ds <> ""%string -> digits_value ds 0 = z ->
  0 <= z <= UINT64_MAX ->
  DecodeNumber sscanf_lf ds after = Defined (Some (narrowest z)).
Proof.
  intros Hall Hne Hval Hz. unfold DecodeNumber.
  rewrite (inspect_token_digits ds true Hall).
  rewrite (skip_signs_digit ds after false Hall Hne). cbn [advance_by].
  rewrite (decode_digits_exact ds 0 Hall ltac:(lia)) by (rewrite Hval; lia).
  rewrite Hval. unfold narrowest, is_int32, is_uint32, is_int64.
  unfold INT32_MIN, INT32_MAX, UINT32_MAX, INT64_MIN, INT64_MAX, UINT64_MAX in *.
  destruct (Z.leb_spec z 2147483647).
  { rewrite to_int32_small by (unfold INT32_MAX; lia).
    replace (-2147483648 <=? z) with true by (symmetry; apply Z.leb_le; lia).
    reflexivity. }
  replace (-2147483648 <=? z) with true by (symmetry; apply Z.leb_le; lia).
  replace (0 <=? z) with true by (symmetry; apply Z.leb_le; lia).
  replace (-9223372036854775808 <=? z) with true by (symmetry; apply Z.leb_le; lia).
  cbn [andb].
  destruct (Z.leb_spec z 4294967295).
  { unfold to_uint32. rewrite Z.mod_small by lia. reflexivity. }
  destruct (Z.leb_spec z 9223372036854775807); [|reflexivity].
  unfold to_int64. rewrite Z.mod_small by lia. f_equal. f_equal. f_equal. lia.
Qed.

(** The same run of digits after a minus sign. *)
Lemma DecodeNumber_minus_digits (ds after : string) (z : Z) :
  all_digits ds = true -> ds <> ""%string -> digits_value ds 0 = z ->
  0 < z < - INT64_MIN -> z <> - INT32_MIN ->
  DecodeNumber sscanf_lf (String "-" ds) after = Defined (Some (narrowest (- z))).
Proof.
  intros Hall Hne Hval Hz Hz32. unfold DecodeNumber.
  cbn [inspect_token In_ one_of Ascii.eqb Bool.eqb orb andb negb].
  rewrite (inspect_token_digits ds false Hall).
  cbn [append skip_signs Ascii.eqb Bool.eqb negb].
  rewrite (skip_signs_digit ds after true Hall Hne). cbn [advance_by].
  rewrite (decode_digits_exact ds 0 Hall ltac:(lia))
    by (rewrite Hval; unfold INT64_MIN, UINT64_MAX in *; lia).
  rewrite Hval. unfold narrowest, is_int32, is_uint32, is_int64.
  unfold INT32_MIN, INT32_MAX, UINT32_MAX, INT64_MIN, INT64_MAX, UINT64_MAX in *.
  destruct (Z.leb_spec z 2147483648).
  { rewrite to_int32_small by (unfold INT32_MAX; lia).
    replace (z =? -2147483648) with false by (symmetry; apply Z.eqb_neq; lia).
    replace (-2147483648 <=? - z) with true by (symmetry; apply Z.leb_le; lia).
    replace (- z <=? 2147483647) with true by (symmetry; apply Z.leb_le; lia).
    reflexivity. }
  replace (-2147483648 <=? - z) with false by (symmetry; apply Z.leb_gt; lia).
  replace (0 <=? - z) with false by (symmetry; apply Z.leb_gt; lia).
  replace (-9223372036854775808 <=? - z) with true by (symmetry; apply Z.leb_le; lia).
  replace (- z <=? 9223372036854775807) with true by (symmetry; apply Z.leb_le; lia).
  replace (z <=? 9223372036854775808) with true by (symmetry; apply Z.leb_le; lia).
  cbn [andb]. unfold to_int64. rewrite Z.mod_small by lia.
  replace (z + 2 ^ 63 - 2 ^ 63) with z by lia.
  replace (z =? -9223372036854775808) with false by (symmetry; apply Z.eqb_neq; lia).
  reflexivity.
Qed.

Lemma exact_value_narrowest (z : Z) : exact_value (narrowest z) = Some z.
Proof.
  unfold narrowest.
  destruct (is_int32 z); [reflexivity|]. destruct (is_uint32 z); [reflexivity|].
  destruct (is_int64 z); reflexivity.
Qed.

(** The text of an integer: its digits, after a minus sign when it is
    negative. *)
Lemma ValueToString_int64_text (z : Z) :
  INT64_MIN < z <= INT64_MAX ->
  exists ds,
    ValueToString_int64 z = Defined (if z <? 0 then String "-" ds else ds)
    /\ all_digits ds = true /\ ds <> ""%string /\ digits_value ds 0 = Z.abs z.
Proof.
  intros Hz. unfold ValueToString_int64.
  unfold INT64_MIN, INT64_MAX in Hz.
  replace (z =? INT64_MIN) with false
    by (symmetry; apply Z.eqb_neq; unfold INT64_MIN; lia).
  rewrite andb_false_r.
  assert (to_uint64 (if z <? 0 then - z else z) = Z.abs z) as Habs.
  { unfold to_uint64. destruct (Z.ltb_spec z 0); rewrite Z.mod_small by lia; lia. }
  rewrite Habs.
  destruct (UIntToString_digits (Z.abs z)) as (ds & -> & Hrest);
    [unfold UINT64_MAX; lia|].
  exists ds. split; [reflexivity|exact Hrest].
Qed.

(** X18.  An integer Value written by the JSON writer and read by the
    JSON reader.  The text is a run of digits, after a minus sign for a
    negative number; the reader takes all of it as one number token and
    decodes it to the same number, held in the narrowest of the kinds
    int32, uint32, int64 and uint64.  Two numbers are left out: [INT64_MIN]
    is negated by the writer, and -2^31 is read as [-int32_t(2^31)]. *)
Theorem json_integer_round_trip (v : Value) (z : Z) (after : string) :
  (is_integer_kind (Type_ v) = true ->
   payload_ok v = true ->
   exact_value v = Some z ->
   z <> INT32_MIN -> z <> INT64_MIN ->
   exists c text,
     WriteValue_integer v = Some (Defined (String c text))
     /\ (ReadNumber after = O -> ReadNumber (text ++ after) = String.length text)
     /\ DecodeNumber sscanf_lf (String c text) after = Defined (Some (narrowest z))
     /\ exact_value (narrowest z) = Some z)
  /\ WriteValue_integer (VInt64 INT64_MIN) = Some Undefined
  /\ DecodeNumber sscanf_lf "-2147483648" after = Undefined.
Proof.
  split; [|split; reflexivity].
  intros Hkind Hok Hz H32 H64.
  assert (forall ds : string, all_digits ds = true -> ds <> ""%string ->
            digits_value ds 0 = z -> 0 <= z <= UINT64_MAX ->
            exists c text,
              Some (Defined ds) = Some (Defined (String c text))
              /\ (ReadNumber after = O -> ReadNumber (text ++ after) = String.length text)
              /\ DecodeNumber sscanf_lf (String c text) after = Defined (Some (narrowest z))
              /\ exact_value (narrowest z) = Some z) as Hpos.
  { intros ds Hall Hne Hval Hrange. destruct ds as [|c text]; [contradiction|].
    exists c, text. split; [reflexivity|]. split.
    - cbn [all_digits] in Hall. apply andb_prop in Hall. destruct Hall as [_ Hall].
      intros Hafter. apply ReadNumber_digits; assumption.
    - split; [|apply exact_value_narrowest].
      apply DecodeNumber_digits; assumption. }
  assert (forall x : Z, INT64_MIN < x <= INT64_MAX -> x = z ->
            exists c text,
              Some (ValueToString_int64 x) = Some (Defined (String c text))
              /\ (ReadNumber after = O -> ReadNumber (text ++ after) = String.length text)
              /\ DecodeNumber sscanf_lf (String c text) after = Defined (Some (narrowest z))
              /\ exact_value (narrowest z) = Some z) as Hsigned.
  { intros x Hx ->. destruct (ValueToString_int64_text z Hx) as (ds & Htext & Hall & Hne & Hval).
    rewrite Htext. unfold INT64_MIN, INT64_MAX, INT32_MIN in *.
    destruct (Z.ltb_spec z 0).
    - exists "-"%char, ds. split; [reflexivity|].
      split; [intros Hafter; apply ReadNumber_digits; assumption|].
      split; [|apply exact_value_narrowest].
      pose proof (DecodeNumber_minus_digits ds after (Z.abs z) Hall Hne Hval
                    ltac:(unfold INT64_MIN; lia) ltac:(unfold INT32_MIN; lia)) as Hd.
      replace (- Z.abs z) with z in Hd by lia. exact Hd.
    - apply Hpos; try assumption; [lia|unfold UINT64_MAX; lia]. }
  destruct v as [| |x|x|x|x| | | |]; try discriminate Hkind;
    cbn [payload_ok exact_value] in Hok, Hz; injection Hz as ->;
    cbn [WriteValue_integer].
  - unfold is_int32, INT32_MIN, INT32_MAX in Hok. apply andb_prop in Hok.
    destruct Hok as [H1 H2]. apply Z.leb_le in H1. apply Z.leb_le in H2.
    assert (to_int64 z = z) as -> by (unfold to_int64; rewrite Z.mod_small by lia; lia).
    apply Hsigned; [unfold INT64_MIN, INT64_MAX; lia|reflexivity].
  - unfold is_uint32, UINT32_MAX in Hok. apply andb_prop in Hok.
    destruct Hok as [H1 H2]. apply Z.leb_le in H1. apply Z.leb_le in H2.
    assert (to_uint64 z = z) as -> by (unfold to_uint64; rewrite Z.mod_small by lia; lia).
    unfold ValueToString_uint64.
    destruct (UIntToString_digits z) as (ds & -> & Hall & Hne & Hval);
      [unfold UINT64_MAX; lia|].
    apply Hpos; try assumption. unfold UINT64_MAX; lia.
  - unfold is_int64, INT64_MIN, INT64_MAX in Hok. apply andb_prop in Hok.
    destruct Hok as [H1 H2]. apply Z.leb_le in H1. apply Z.leb_le in H2.
    apply Hsigned; [unfold INT64_MIN, INT64_MAX in *; lia|reflexivity].
  - unfold is_uint64, UINT64_MAX in Hok. apply andb_prop in Hok.
    destruct Hok as [H1 H2]. apply Z.leb_le in H1. apply Z.leb_le in H2.
    unfold ValueToString_uint64.
    destruct (UIntToString_digits z) as (ds & -> & Hall & Hne & Hval);
      [unfold UINT64_MAX; lia|].
    apply Hpos; try assumption. unfold UINT64_MAX; lia.
Qed.

(** X19.  The reader does not wrap a number.  A token of digits is decoded
    to its value, in the narrowest kind, when that is a [uint64_t], and
    handed to [DecodeDouble] when it is larger.  After a minus sign the
    value is negated as an int32 below 2^31 and as an int64 below 2^63,
    where [-int32_t(2^31)] and [-int64_t(2^63)] overflow, and as a double
    above; the token "-" alone is read as 0. *)
Theorem DecodeNumber_does_not_wrap (ds after : string) :
  all_digits ds = true ->
  ReadNumber after = O ->
  (ds <> ""%string ->
   DecodeNumber sscanf_lf ds after
   = if digits_value ds 0 <=? UINT64_MAX
     then Defined (Some (narrowest (digits_value ds 0)))
     else Defined (DecodeDouble sscanf_lf ds))
  /\ DecodeNumber sscanf_lf (String "-" ds) after
     = (if digits_value ds 0 <? 2 ^ 31 then Defined (Some (VInt (- digits_value ds 0)))
        else if digits_value ds 0 =? 2 ^ 31 then Undefined
        else if digits_value ds 0 <? 2 ^ 63
             then Defined (Some (VInt64 (- digits_value ds 0)))
        else if digits_value ds 0 =? 2 ^ 63 then Undefined
        else if digits_value ds 0 <=? UINT64_MAX
             then Defined (Some (VDouble (SFopp (double_of_Z (digits_value ds 0)))))
        else Defined (DecodeDouble sscanf_lf (String "-" ds))).
Proof.
  intros Hall Hafter.
  pose proof (digits_value_ge ds 0 Hall ltac:(lia)) as Hge.
  pose proof (decode_digits_total ds 0 Hall ltac:(unfold UINT64_MAX; lia)) as Hdec.
  split.
  - intros Hne. destruct (Z.leb_spec (digits_value ds 0) UINT64_MAX) as [Hle|Hgt].
    + apply DecodeNumber_digits; try assumption; [reflexivity|lia].
    + unfold DecodeNumber.
      rewrite (inspect_token_digits ds true Hall).
      rewrite (skip_signs_digit ds after false Hall Hne). cbn [advance_by].
      rewrite Hdec.
      replace (digits_value ds 0 <=? UINT64_MAX) with false
        by (symmetry; apply Z.leb_gt; exact Hgt).
      reflexivity.
  - unfold DecodeNumber.
    cbn [inspect_token In_ one_of Ascii.eqb Bool.eqb orb andb negb].
    rewrite (inspect_token_digits ds false Hall).
    cbn [append skip_signs Ascii.eqb Bool.eqb negb].
    assert (skip_signs (ds ++ after) true = (O, true)) as Hskip.
    { destruct ds as [|c ds'].
      - apply skip_signs_no_number, Hafter.
      - apply skip_signs_digit; [exact Hall|discriminate]. }
    rewrite Hskip. cbn [advance_by]. rewrite Hdec.
    set (value := digits_value ds 0) in *.
    change (2 ^ 31) with 2147483648. change (2 ^ 63) with 9223372036854775808.
    unfold UINT64_MAX, INT32_MIN, INT64_MIN in *.
    destruct (Z.leb_spec value 18446744073709551615) as [Hle|Hgt].
    2: { replace (value <? 2147483648) with false by (symmetry; apply Z.ltb_ge; lia).
         replace (value =? 2147483648) with false by (symmetry; apply Z.eqb_neq; lia).
         replace (value <? 9223372036854775808) with false
           by (symmetry; apply Z.ltb_ge; lia).
         replace (value =? 9223372036854775808) with false
           by (symmetry; apply Z.eqb_neq; lia).
         reflexivity. }
    destruct (Z.ltb_spec value 2147483648) as [H31|H31].
    { replace (value <=? 2147483648) with true by (symmetry; apply Z.leb_le; lia).
      rewrite to_int32_small by (unfold INT32_MAX; lia).
      replace (value =? -2147483648) with false by (symmetry; apply Z.eqb_neq; lia).
      reflexivity. }
    destruct (Z.eqb_spec value 2147483648) as [E31|N31].
    { rewrite E31. reflexivity. }
    replace (value <=? 2147483648) with false by (symmetry; apply Z.leb_gt; lia).
    destruct (Z.ltb_spec value 9223372036854775808) as [H63|H63].
    { replace (value <=? 9223372036854775808) with true by (symmetry; apply Z.leb_le; lia).
      unfold to_int64. rewrite Z.mod_small by lia.
      replace (value + 2 ^ 63 - 2 ^ 63) with value by lia.
      replace (value =? -9223372036854775808) with false
        by (symmetry; apply Z.eqb_neq; lia).
      reflexivity. }
    destruct (Z.eqb_spec value 9223372036854775808) as [E63|N63].
    { rewrite E63. reflexivity. }
    replace (value <=? 9223372036854775808) with false by (symmetry; apply Z.leb_gt; lia).
    reflexivity.
Qed.
End JsonNumberFacts.

(** The Value [int64(-3000000000)], before a comma. *)
Lemma json_integer_round_trip_witness :
  exists c text,
    WriteValue_integer (VInt64 (-3000000000)) = Some (Defined (String c text))
    /\ DecodeNumber (fun _ => None) (String c text) "," = Defined (Some (VInt64 (-3000000000))).
Proof.
  destruct (proj1 (json_integer_round_trip (fun _ => None) (VInt64 (-3000000000))
                     (-3000000000) ",")
              eq_refl eq_refl eq_refl ltac:(discriminate) ltac:(discriminate))
    as (c & text & Hw & _ & Hd & _).
  exists c, text. split; [exact Hw|exact Hd].
Defined.

(** The tokens [18446744073709551616], which is 2^64, and [-]. *)
Lemma DecodeNumber_does_not_wrap_witness :
  DecodeNumber (fun _ => None) "18446744073709551616" "" = Defined None
  /\ DecodeNumber (fun _ => None) "-" "" = Defined (Some (VInt 0)).
Proof.
  split.
  - exact (proj1 (DecodeNumber_does_not_wrap (fun _ => None) "18446744073709551616" ""
                    eq_refl eq_refl) ltac:(discriminate)).
  - exact (proj2 (DecodeNumber_does_not_wrap (fun _ => None) "" "" eq_refl eq_refl)).
Defined.
(** ** Strings *)

Lemma without_last_snoc (body : string) (c : ascii) :
  without_last (body ++ String c "") = body.
Proof.
  induction body as [|d body IH]; [reflexivity|].
  cbn [append without_last]. rewrite IH.
  destruct body; reflexivity.
Qed.

Lemma append_nil_r (s : string) : (s ++ "")%string = s.
Proof.
  induction s as [|c s IH]; [reflexivity|]. cbn [append]. rewrite IH. reflexivity.
Qed.

(** A char that the writer does not look for is written as it is. *)
Lemma escape_char_plain (c : ascii) :
  one_of c escaped_chars = false -> IsControlCharacter c = false ->
  escape_char c = String c "".
Proof.
  destruct c as [[] [] [] [] [] [] [] []]; vm_compute; intros H1 H2;
    try discriminate H1; try discriminate H2; reflexivity.
Qed.

Lemma escape_chars_plain (s : string) :
  strpbrk_is_null s escaped_chars = true -> ContainsControlCharacter s = false ->
  escape_chars s = s.
Proof.
  induction s as [|c s IH]; [reflexivity|].
  cbn [strpbrk_is_null ContainsControlCharacter escape_chars].
  destruct (one_of c escaped_chars) eqn:H1; [discriminate|].
  destruct (IsControlCharacter c) eqn:H2; [discriminate|].
  intros Hs Hc. rewrite (escape_char_plain c H1 H2), (IH Hs Hc). reflexivity.
Qed.

(** The text of a string between its quotes. *)
Lemma ValueToQuotedString_text (s : string) :
  ValueToQuotedString s = String quote (escape_chars s ++ String quote "").
Proof.
  unfold ValueToQuotedString, ValueToStringInternal.
  destruct (strpbrk_is_null s escaped_chars) eqn:H1; cbn [andb]; [|reflexivity].
  destruct (ContainsControlCharacter s) eqn:H2; cbn [negb]; [reflexivity|].
  rewrite (escape_chars_plain s H1 H2). reflexivity.
Qed.

Ltac compute_escape_char :=
  repeat match goal with
         | |- context [escape_char (Ascii ?b0 ?b1 ?b2 ?b3 ?b4 ?b5 ?b6 ?b7)] =>
             let e := eval vm_compute in (escape_char (Ascii b0 b1 b2 b3 b4 b5 b6 b7)) in
             change (escape_char (Ascii b0 b1 b2 b3 b4 b5 b6 b7)) with e
         | |- context [is_lost (Ascii ?b0 ?b1 ?b2 ?b3 ?b4 ?b5 ?b6 ?b7)] =>
             let e := eval vm_compute in (is_lost (Ascii b0 b1 b2 b3 b4 b5 b6 b7)) in
             change (is_lost (Ascii b0 b1 b2 b3 b4 b5 b6 b7)) with e
         end.

(** [ReadString] goes over what is written for one char. *)
Lemma ReadString_escape_char (c : ascii) (rest : string) (n : nat) (ok : bool) :
  ReadString rest = (n, ok) ->
  ReadString (escape_char c ++ rest) = ((String.length (escape_char c) + n)%nat, ok).
Proof.
  intros H.
  destruct c as [[] [] [] [] [] [] [] []]; compute_escape_char;
    cbn [append ReadString Ascii.eqb Bool.eqb backslash quote String.length Nat.add];
    rewrite H; reflexivity.
Qed.

Lemma ReadString_escape_chars (s after : string) :
  ReadString (escape_chars s ++ String quote after)
  = (S (String.length (escape_chars s)), true).
Proof.
  induction s as [|c s IH]; [reflexivity|].
  cbn [escape_chars]. rewrite append_assoc.
  rewrite (ReadString_escape_char c _ _ _ IH), length_append.
  f_equal. lia.
Qed.

Section JsonStringFacts.
Variable isalnum : ascii -> bool.

(** [DecodeString] turns what is written for one char back into the char,
    or into nothing for a [\u] escape. *)
Lemma decode_chars_escape_char (c : ascii) (rest decoded : string) :
  decode_chars isalnum true (escape_char c ++ rest) decoded
  = decode_chars isalnum true rest
      (if is_lost c then decoded else (decoded ++ String c "")%string).
Proof.
  destruct c as [[] [] [] [] [] [] [] []]; compute_escape_char; reflexivity.
Qed.

Lemma decode_chars_escape_chars (s : string) :
  forall decoded,
    decode_chars isalnum true (escape_chars s) decoded
    = Some (decoded ++ without_lost s)%string.
Proof.
  induction s as [|c s IH]; intros decoded.
  - cbn [escape_chars decode_chars without_lost]. rewrite append_nil_r. reflexivity.
  - cbn [escape_chars without_lost]. rewrite decode_chars_escape_char, IH.
    destruct (is_lost c); [reflexivity|].
    rewrite append_assoc. reflexivity.
Qed.

Lemma without_lost_plain (s : string) :
  has_lost_char s = false -> without_lost s = s.
Proof.
  induction s as [|c s IH]; [reflexivity|].
  cbn [has_lost_char without_lost].
  destruct (is_lost c); [discriminate|].
  intros H. cbn [orb] in H. rewrite (IH H). reflexivity.
Qed.

(** X20.  A string written by the JSON writer and read by the JSON
    reader.  The text is the string between quotes, each char escaped as
    the writer escapes it; the reader takes the text up to the closing
    quote as one string token, and decodes it to the string without the
    control chars that the writer has written as [\u00XX], which the
    reader reads and drops.  So a string without such chars comes back as
    it was, new lines and tabs included; and the string of a null string
    pointer comes back as the empty string. *)
Theorem json_string_round_trip (s after : string) :
  ValueToQuotedString s = String quote (escape_chars s ++ String quote "")
  /\ ReadString (escape_chars s ++ String quote after)
     = (S (String.length (escape_chars s)), true)
  /\ DecodeString isalnum (ValueToQuotedString s) = Some (without_lost s)
  /\ (has_lost_char s = false ->
      DecodeString isalnum (ValueToQuotedString s) = Some s)
  /\ DecodeString isalnum (WriteValue_string None) = Some ""%string.
Proof.
  assert (DecodeString isalnum (ValueToQuotedString s) = Some (without_lost s)) as Hd.
  { rewrite ValueToQuotedString_text. unfold DecodeString, char_at_or_nul.
    cbn [String.get advance_by]. rewrite Ascii.eqb_refl.
    rewrite without_last_snoc. apply decode_chars_escape_chars. }
  split; [apply ValueToQuotedString_text|].
  split; [apply ReadString_escape_chars|].
  split; [exact Hd|].
  split; [|reflexivity].
  intros Hc. rewrite Hd, (without_lost_plain s Hc). reflexivity.
Qed.
End JsonStringFacts.

(** The string of the three chars [a], new line, [b]. *)
Lemma json_string_round_trip_witness :
  DecodeString (fun _ => false)
    (ValueToQuotedString (String "a" (String ch_n (String "b" ""))))
  = Some (String "a" (String ch_n (String "b" ""))).
Proof.
  exact (proj1 (proj2 (proj2 (proj2
           (json_string_round_trip (fun _ => false)
              (String "a" (String ch_n (String "b" ""))) ""))))
           eq_refl).
Defined.
(** ** String IDs *)

Lemma lor_bit_31 (a : Z) : 0 <= a < 2 ^ 32 -> 2 ^ 31 <= Z.lor a 2147483648 < 2 ^ 32.
Proof.
  intros Ha.
  assert (0 <= Z.lor a 2147483648) as Hnn by (apply Z.lor_nonneg; lia).
  assert (Z.lor a 2147483648 <> 0) as Hnz.
  { intros H. apply Z.lor_eq_0_iff in H. lia. }
  assert (Z.log2 (Z.lor a 2147483648) = Z.max (Z.log2 a) 31) as Hlog.
  { rewrite Z.log2_lor by lia. reflexivity. }
  assert (Z.log2 a < 32) as Hla.
  { destruct (Z.eq_dec a 0) as [->|Hne]; [reflexivity|].
    apply Z.log2_lt_pow2; lia. }
  split.
  - apply Z.le_trans with (2 ^ Z.log2 (Z.lor a 2147483648)).
    + apply Z.pow_le_mono_r; lia.
    + apply Z.log2_spec. lia.
  - apply Z.log2_lt_pow2; lia.
Qed.

Section IDFacts.
Variable char_is_signed : bool.

Lemma IDFromString_loop_range (s : string) :
  forall h, 0 <= h < 2 ^ 32 -> 0 <= IDFromString_loop char_is_signed s h < 2 ^ 32.
Proof.
  induction s as [|c s IH]; intros h Hh; [exact Hh|].
  cbn [IDFromString_loop]. apply IH. unfold to_uint32. apply Z.mod_pos_bound. lia.
Qed.

Lemma IDFromString_loop_EqualI (s : string) :
  forall t h, EqualI s t = true ->
              IDFromString_loop char_is_signed s h = IDFromString_loop char_is_signed t h.
Proof.
  induction s as [|c s IH]; intros [|d t] h H; try discriminate H; [reflexivity|].
  cbn [EqualI] in H. cbn [IDFromString_loop].
  destruct (Ascii.eqb_spec (tolower c) (tolower d)) as [->|]; [|discriminate H].
  apply IH, H.
Qed.

(** X21.  The ID of a string.  Two strings that [EqualI] takes for equal,
    that is, equal up to the case of letters, have the same ID; the ID
    has its top bit set, so [AsID] of a string Value is never [AsID] of an
    int, which is below 2^31; and [AsID] of an int64 above [UINT32_MAX]
    is the number modulo 2^32, where [AsID] of a uint64 is
    [UINT32_MAX]. *)
Theorem string_ids (s t : string) (x d d' : Z) :
  (EqualI s t = true -> IDFromString char_is_signed s = IDFromString char_is_signed t)
  /\ 2 ^ 31 <= IDFromString char_is_signed s <= UINT32_MAX
  /\ (is_int32 x = true ->
      0 <= AsID char_is_signed (VInt x) d < 2 ^ 31
      /\ AsID char_is_signed (VString (Some s)) d' <> AsID char_is_signed (VInt x) d)
  /\ (is_int64 x = true -> UINT32_MAX < x ->
      AsID char_is_signed (VInt64 x) d = x mod 2 ^ 32
      /\ AsID char_is_signed (VUInt64 x) d = UINT32_MAX).
Proof.
  assert (2 ^ 31 <= IDFromString char_is_signed s <= UINT32_MAX) as Hid.
  { unfold IDFromString.
    pose proof (lor_bit_31 (IDFromString_loop char_is_signed s kFNVOffset32)
                  (IDFromString_loop_range s kFNVOffset32 ltac:(unfold kFNVOffset32; lia)))
      as H.
    unfold UINT32_MAX. lia. }
  split.
  { intros H. unfold IDFromString. rewrite (IDFromString_loop_EqualI s t _ H). reflexivity. }
  split; [exact Hid|]. split.
  - intros Hx. unfold is_int32, INT32_MIN, INT32_MAX in Hx. apply andb_prop in Hx.
    destruct Hx as [H1 H2]. apply Z.leb_le in H1. apply Z.leb_le in H2.
    assert (0 <= AsID char_is_signed (VInt x) d < 2 ^ 31) as Hint.
    { cbn [AsID]. destruct (Z.ltb_spec x 0); [lia|].
      unfold to_uint32. rewrite Z.mod_small by lia. lia. }
    split; [exact Hint|]. cbn [AsID] in *. lia.
  - intros Hx Hbig. cbn [AsID]. unfold UINT32_MAX in *.
    replace (x <? 0) with false by (symmetry; apply Z.ltb_ge; lia).
    replace (4294967295 <? x) with true by (symmetry; apply Z.ltb_lt; lia).
    split; reflexivity.
Qed.
End IDFacts.

Lemma string_ids_witness :
  IDFromString true "Width" = IDFromString true "width"
  /\ AsID true (VString (Some "width"%string)) 0 <> AsID true (VInt 7) 0
  /\ AsID true (VInt64 4294967301) 0 = 5.
Proof.
  pose proof (string_ids true "Width" "width" 7 0 0) as (H1 & _ & H3 & _).
  pose proof (string_ids true "width" "width" 4294967301 0 0) as (_ & _ & _ & H4).
  split; [exact (H1 eq_refl)|].
  split; [exact (proj2 (H3 eq_refl))|].
  exact (proj1 (H4 eq_refl eq_refl)).
Defined.
(** ** SetFromValue and SetFromArray *)

Lemma map_outcome_VInt (xs : list Z) :
  map_outcome (fun x => AsInt x 0) (map VInt xs) = Defined xs.
Proof.
  induction xs as [|x xs IH]; [reflexivity|].
  cbn [map map_outcome AsInt]. rewrite IH. reflexivity.
Qed.

(** X22.  An array of ints set with [SetFromArray] is read back by
    [SetFromValue], unless it is empty: for an empty array [SetFromValue]
    returns false and leaves the vector alone.  Only the first element of
    an array is tested: a string after a number is read as 0, and a
    string in the first place makes the call return false.  On a null
    Value that [ToArray] has made an array, whose array pointer is null,
    the call dereferences the pointer. *)
Theorem SetFromValue_reads_SetFromArray (xs v : list Z) (x : Z) (s : option string) :
  (xs <> [] -> SetFromValue_int (SetFromArray_int xs) v = Defined (true, xs))
  /\ SetFromValue_int (SetFromArray_int []) v = Defined (false, v)
  /\ SetFromValue_int (VArray (Some [VInt x; VString s])) v = Defined (true, [x; 0])
  /\ SetFromValue_int (VArray (Some [VString s; VInt x])) v = Defined (false, v)
  /\ SetFromValue_int (fst (ToArray VNull)) v = Undefined.
Proof.
  split; [|repeat split].
  intros Hne. destruct xs as [|first xs]; [contradiction|].
  unfold SetFromArray_int, SetFromValue_int.
  rewrite map_outcome_VInt. reflexivity.
Qed.

Lemma SetFromValue_reads_SetFromArray_witness :
  SetFromValue_int (SetFromArray_int [3; -4]) [] = Defined (true, [3; -4]).
Proof.
  exact (proj1 (SetFromValue_reads_SetFromArray [3; -4] [] 0 None) ltac:(discriminate)).
Defined.

(** ** HL::Compare and strcmp *)

Lemma ascii_compare_codes (c d : ascii) :
  Ascii.compare c d = (Z.of_N (N_of_ascii c) ?= Z.of_N (N_of_ascii d)).
Proof.
  unfold Ascii.compare. rewrite N2Z.inj_compare. reflexivity.
Qed.

Lemma ascii_code_range (c : ascii) : 0 <= Z.of_N (N_of_ascii c) < 256.
Proof.
  pose proof (N_ascii_bounded c) as H. lia.
Qed.

Lemma ascii_code_zero (c : ascii) : Z.of_N (N_of_ascii c) = 0 -> c = zero.
Proof.
  intros H. rewrite <- (ascii_N_embedding c).
  replace (N_of_ascii c) with 0%N by lia. reflexivity.
Qed.

Section CompareSignFacts.
Variable char_is_signed : bool.

(** The chars of the two strings are compared as [strcmp] compares them:
    the platform has an unsigned [char], or the chars are below 128. *)
Lemma HL_Compare_sign (s : string) :
  forall t,
    has_no_nul s = true -> has_no_nul t = true ->
    char_is_signed = false \/ (is_ascii_text s = true /\ is_ascii_text t = true) ->
    (HL_Compare char_is_signed s t ?= 0) = String.compare s t.
Proof.
  induction s as [|c s IH]; intros [|d t] Hs Ht Hcs.
  - reflexivity.
  - cbn [has_no_nul] in Ht. apply andb_prop in Ht. destruct Ht as [Hd Ht].
    apply negb_true_iff in Hd.
    cbn [HL_Compare String.compare]. unfold char_to_int.
    pose proof (ascii_code_range d) as Hr.
    assert (Z.of_N (N_of_ascii d) <> 0) as Hnz.
    { intros H. apply ascii_code_zero in H. subst d. discriminate Hd. }
    destruct Hcs as [->|[_ Hat]].
    + cbn [andb]. apply Z.compare_lt_iff. lia.
    + cbn [is_ascii_text] in Hat. apply andb_prop in Hat. destruct Hat as [Hat _].
      apply andb_prop in Hat. destruct Hat as [_ H128]. apply Z.ltb_lt in H128.
      replace (127 <? Z.of_N (N_of_ascii d)) with false
        by (symmetry; apply Z.ltb_ge; lia).
      rewrite andb_false_r. apply Z.compare_lt_iff. lia.
  - cbn [has_no_nul] in Hs. apply andb_prop in Hs. destruct Hs as [Hc Hs].
    apply negb_true_iff in Hc.
    cbn [HL_Compare String.compare]. unfold char_to_int.
    pose proof (ascii_code_range c) as Hr.
    assert (Z.of_N (N_of_ascii c) <> 0) as Hnz.
    { intros H. apply ascii_code_zero in H. subst c. discriminate Hc. }
    destruct Hcs as [->|[Has _]].
    + cbn [andb]. apply Z.compare_gt_iff. lia.
    + cbn [is_ascii_text] in Has. apply andb_prop in Has. destruct Has as [Has _].
      apply andb_prop in Has. destruct Has as [_ H128]. apply Z.ltb_lt in H128.
      replace (127 <? Z.of_N (N_of_ascii c)) with false
        by (symmetry; apply Z.ltb_ge; lia).
      rewrite andb_false_r. apply Z.compare_gt_iff. lia.
  - cbn [has_no_nul] in Hs, Ht.
    apply andb_prop in Hs. destruct Hs as [_ Hs].
    apply andb_prop in Ht. destruct Ht as [_ Ht].
    cbn [HL_Compare String.compare].
    destruct (Ascii.eqb_spec c d) as [->|Hne].
    + rewrite ascii_compare_refl. apply IH; [exact Hs|exact Ht|].
      destruct Hcs as [H|[Has Hat]]; [left; exact H|right].
      cbn [is_ascii_text] in Has, Hat.
      apply andb_prop in Has. apply andb_prop in Hat. split; [apply Has|apply Hat].
    + rewrite ascii_compare_codes. unfold char_to_int.
      pose proof (ascii_code_range c) as Hrc. pose proof (ascii_code_range d) as Hrd.
      assert (Z.of_N (N_of_ascii c) <> Z.of_N (N_of_ascii d)) as Hcodes.
      { intros H. apply Hne. rewrite <- (ascii_N_embedding c), <- (ascii_N_embedding d).
        f_equal. lia. }
      assert (forall a b : Z, a <> b -> (a - b ?= 0) = (a ?= b)) as Hcmp.
      { intros a b Hab. destruct (Z.compare_spec a b) as [|Hlt|Hgt]; [contradiction| |].
        - apply Z.compare_lt_iff. lia.
        - apply Z.compare_gt_iff. lia. }
      destruct Hcs as [->|[Has Hat]].
      * cbn [andb].
        destruct (Z.of_N (N_of_ascii c) ?= Z.of_N (N_of_ascii d)) eqn:E.
        -- apply Z.compare_eq in E. contradiction.
        -- rewrite Hcmp, E by exact Hcodes. reflexivity.
        -- rewrite Hcmp, E by exact Hcodes. reflexivity.
      * cbn [is_ascii_text] in Has, Hat.
        apply andb_prop in Has. destruct Has as [Has _].
        apply andb_prop in Has. destruct Has as [_ Hc128]. apply Z.ltb_lt in Hc128.
        apply andb_prop in Hat. destruct Hat as [Hat _].
        apply andb_prop in Hat. destruct Hat as [_ Hd128]. apply Z.ltb_lt in Hd128.
        replace (127 <? Z.of_N (N_of_ascii c)) with false
          by (symmetry; apply Z.ltb_ge; lia).
        replace (127 <? Z.of_N (N_of_ascii d)) with false
          by (symmetry; apply Z.ltb_ge; lia).
        rewrite !andb_false_r.
        destruct (Z.of_N (N_of_ascii c) ?= Z.of_N (N_of_ascii d)) eqn:E.
        -- apply Z.compare_eq in E. contradiction.
        -- rewrite Hcmp, E by exact Hcodes. reflexivity.
        -- rewrite Hcmp, E by exact Hcodes. reflexivity.
Qed.
End CompareSignFacts.

(** X23.  [HL::Compare] and the order of the member map.  The member map
    is ordered by [strcmp], which compares chars as [unsigned char];
    [HL::Compare] subtracts plain chars.  The two agree in sign where the
    plain [char] is unsigned, and on strings of chars below 128; with a
    signed [char], a char above 127 is put before a char below 128, which
    [strcmp] puts after it. *)
Theorem HL_Compare_and_the_map_order (char_is_signed : bool) (s t : string) (c d : ascii) :
  (has_no_nul s = true -> has_no_nul t = true ->
   char_is_signed = false \/ (is_ascii_text s = true /\ is_ascii_text t = true) ->
   (HL_Compare char_is_signed s t <? 0) = KeyLess s t
   /\ (HL_Compare char_is_signed s t ?= 0) = String.compare s t)
  /\ (127 < Z.of_N (N_of_ascii c) -> Z.of_N (N_of_ascii d) < 128 ->
      HL_Compare true (String c s) (String d t) < 0
      /\ KeyLess (String c s) (String d t) = false).
Proof.
  split.
  - intros Hs Ht Hcs. pose proof (HL_Compare_sign char_is_signed s t Hs Ht Hcs) as H.
    split; [|exact H].
    unfold KeyLess, String.ltb, Z.ltb. rewrite H. reflexivity.
  - intros Hc Hd.
    pose proof (ascii_code_range c) as Hrc. pose proof (ascii_code_range d) as Hrd.
    assert (Ascii.eqb c d = false) as Hne.
    { destruct (Ascii.eqb_spec c d) as [->|]; [lia|reflexivity]. }
    split.
    + cbn [HL_Compare]. rewrite Hne. unfold char_to_int. cbn [andb].
      replace (127 <? Z.of_N (N_of_ascii c)) with true by (symmetry; apply Z.ltb_lt; lia).
      replace (127 <? Z.of_N (N_of_ascii d)) with false by (symmetry; apply Z.ltb_ge; lia).
      lia.
    + unfold KeyLess, String.ltb. cbn [String.compare].
      rewrite ascii_compare_codes.
      replace (Z.of_N (N_of_ascii c) ?= Z.of_N (N_of_ascii d)) with Gt
        by (symmetry; apply Z.compare_gt_iff; lia).
      reflexivity.
Qed.

Lemma HL_Compare_and_the_map_order_witness :
  (HL_Compare true "apple" "apply" <? 0) = KeyLess "apple" "apply"
  /\ HL_Compare true (String "233" "") (String "e" "") < 0.
Proof.
  pose proof (HL_Compare_and_the_map_order true "apple" "apply" "233" "e") as [H1 _].
  pose proof (HL_Compare_and_the_map_order true "" "" "233" "e") as [_ H2].
  split.
  - exact (proj1 (H1 eq_refl eq_refl (or_intror (conj eq_refl eq_refl)))).
  - exact (proj1 (H2 ltac:(vm_compute; reflexivity) ltac:(vm_compute; reflexivity))).
Defined.
(** ** MemberPath: an index in brackets *)

Lemma digit_value_decimal (c : ascii) :
  is_decimal_digit c = true -> digit_value c = Some (Z.of_N (N_of_ascii c) - 48).
Proof.
  unfold is_decimal_digit, digit_value. intros H. rewrite H. reflexivity.
Qed.

Lemma strtol_digits_run (ds : string) :
  forall (rest : string) (acc : Z) (n : nat),
    all_digits ds = true ->
    strtol_digits 10 (ds ++ rest) acc n
    = strtol_digits 10 rest (digits_value ds acc) (n + String.length ds).
Proof.
  induction ds as [|c ds IH]; intros rest acc n Hall.
  - cbn [append digits_value String.length]. rewrite Nat.add_0_r. reflexivity.
  - cbn [all_digits] in Hall. apply andb_prop in Hall. destruct Hall as [Hc Hall].
    pose proof (is_decimal_digit_code c Hc) as Hd.
    cbn [append strtol_digits digits_value String.length].
    rewrite (digit_value_decimal c Hc).
    replace (Z.of_N (N_of_ascii c) - 48 <? 10) with true
      by (symmetry; apply Z.ltb_lt; lia).
    rewrite (IH rest _ _ Hall). f_equal. lia.
Qed.

Lemma strtol_10_index (ds rest : string) :
  all_digits ds = true -> ds <> ""%string ->
  strtol_10 (ds ++ String "]" rest)
  = (clamp_long (digits_value ds 0), String.length ds).
Proof.
  intros Hall Hne. destruct ds as [|c ds]; [contradiction|].
  pose proof Hall as Hall'.
  cbn [all_digits] in Hall. apply andb_prop in Hall. destruct Hall as [Hc _].
  destruct (digit_is_no_sign c Hc) as (_ & Hminus & Hplus).
  unfold strtol_10.
  assert (isspace c = false) as Hsp.
  { revert Hc. clear. destruct c as [[] [] [] [] [] [] [] []]; vm_compute;
      intros H; try discriminate H; reflexivity. }
  assert (skip_spaces (String c ds ++ String "]" rest) = (O, (String c ds ++ String "]" rest)%string))
    as Hskip by (cbn [append skip_spaces]; rewrite Hsp; reflexivity).
  rewrite Hskip.
  assert (match (String c ds ++ String "]" rest)%string with
          | String "-"%char r => (true, 1%nat, r)
          | String "+"%char r => (false, 1%nat, r)
          | _ => (false, O, (String c ds ++ String "]" rest)%string)
          end = (false, O, (String c ds ++ String "]" rest)%string)) as Hsign.
  { cbn [append].
    destruct (Ascii.eqb_spec c "-") as [->|]; [discriminate Hminus|].
    destruct (Ascii.eqb_spec c "+") as [->|]; [discriminate Hplus|].
    destruct c as [[] [] [] [] [] [] [] []]; try reflexivity; contradiction. }
  rewrite Hsign.
  rewrite (strtol_digits_run (String c ds) (String "]" rest) 0 O Hall').
  cbn [strtol_digits digit_value]. cbn [String.length Nat.add]. reflexivity.
Qed.

Lemma strcspn_digits (ds : string) :
  all_digits ds = true ->
  strcspn (ds ++ "]") ".[" = String.length (ds ++ "]").
Proof.
  induction ds as [|c ds IH]; intros Hall; [reflexivity|].
  cbn [all_digits] in Hall. apply andb_prop in Hall. destruct Hall as [Hc Hall].
  cbn [append strcspn String.length].
  replace (one_of c ".[") with false.
  - rewrite (IH Hall). reflexivity.
  - revert Hc. clear. destruct c as [[] [] [] [] [] [] [] []]; vm_compute;
      intros H; try discriminate H; reflexivity.
Qed.

(** X24.  An index in brackets.  On an array, the path of a decimal
    number in brackets gives the element with that index, and the null
    Value when the array has no such element, however large the number;
    the path [[]] gives the first element. *)
Theorem MemberPath_index (data : list Value) (ds : string) :
  Z.of_nat (List.length data) <= INT32_MAX ->
  all_digits ds = true ->
  (ds <> ""%string ->
   MemberPath (VArray (Some data)) (String "[" (ds ++ "]"))
   = Defined (match nth_error data (Z.to_nat (digits_value ds 0)) with
              | Some x => x
              | None => kNullValue
              end))
  /\ MemberPath (VArray (Some data)) "[]"
     = Defined (match data with x :: _ => x | [] => kNullValue end).
Proof.
  intros Hfit Hall. split.
  - intros Hne. unfold MemberPath. cbn [String.length].
    rewrite (MemberPath_from_last _ _ "[" (ds ++ "]") (strcspn_digits ds Hall)).
    unfold PathField, char_at_or_nul. cbn [IsArray Type_ ValueType_eqb String.get].
    rewrite Ascii.eqb_refl. cbn [andb advance_by].
    rewrite (strtol_10_index ds "" Hall Hne).
    rewrite get_app_length. cbn [String.get]. rewrite Ascii.eqb_refl. cbn [negb orb size].
    rewrite (size_of_int_small _ Hfit).
    pose proof (digits_value_ge ds 0 Hall ltac:(lia)) as Hge.
    set (i := digits_value ds 0) in *.
    assert (0 <= clamp_long i <= i /\ (i <= INT64_MAX -> clamp_long i = i)
            /\ (INT64_MAX < i -> clamp_long i = INT64_MAX)) as (Hc1 & Hc2 & Hc3).
    { unfold clamp_long, LONG_MIN, LONG_MAX, INT64_MIN, INT64_MAX.
      destruct (Z.ltb_spec i (-9223372036854775808)); [lia|].
      destruct (Z.ltb_spec 9223372036854775807 i); lia. }
    assert (to_uint64 (clamp_long i) = clamp_long i) as Hu.
    { unfold to_uint64. apply Z.mod_small. unfold INT64_MAX in *.
      destruct (Z.le_gt_cases i 9223372036854775807) as [Hle|Hgt].
      - rewrite (Hc2 Hle). lia.
      - rewrite (Hc3 ltac:(lia)). lia. }
    rewrite Hu. unfold INT32_MAX, INT64_MAX in *.
    destruct (Z.leb_spec (Z.of_nat (List.length data)) (clamp_long i)) as [Hout|Hin].
    + replace (nth_error data (Z.to_nat i)) with (@None Value); [reflexivity|].
      symmetry. apply nth_error_None. lia.
    + assert (clamp_long i = i) as Hci.
      { destruct (Z.le_gt_cases i 9223372036854775807) as [Hle|Hgt]; [exact (Hc2 Hle)|].
        rewrite (Hc3 ltac:(lia)) in Hin. lia. }
      rewrite Hci in *. rewrite to_int32_small by (unfold INT32_MAX; lia).
      cbn [Elt]. unfold ArrayValue_index.
      replace (i <? 0) with false by (symmetry; apply Z.ltb_ge; lia).
      destruct (nth_error data (Z.to_nat i)) as [x|] eqn:Hx; [reflexivity|].
      apply nth_error_None in Hx. lia.
  - unfold MemberPath. cbn [String.length].
    rewrite (MemberPath_from_last _ _ "[" "]" eq_refl).
    unfold PathField, char_at_or_nul. cbn [IsArray Type_ ValueType_eqb String.get].
    rewrite Ascii.eqb_refl. cbn [andb advance_by].
    change (strtol_10 "]") with (0, O). cbn [String.get].
    rewrite Ascii.eqb_refl. cbn [negb orb size].
    rewrite (size_of_int_small _ Hfit).
    change (to_uint64 0) with 0. change (to_int32 0) with 0.
    destruct data as [|x data]; [reflexivity|].
    replace (Z.of_nat (List.length (x :: data)) <=? 0) with false
      by (symmetry; apply Z.leb_gt; cbn [List.length]; lia).
    reflexivity.
Qed.

Lemma MemberPath_index_witness :
  MemberPath (VArray (Some [VInt 7; VInt 8; VInt 9])) "[2]" = Defined (VInt 9).
Proof.
  exact (proj1 (MemberPath_index [VInt 7; VInt 8; VInt 9] "2"
                  ltac:(vm_compute; discriminate) eq_refl)
           ltac:(discriminate)).
Defined.
(** ** The JSON writer and the JSON reader on a tree *)

Lemma token_text (text rest : string) :
  substring 0 (String.length (text ++ rest) - String.length rest) (text ++ rest) = text.
Proof.
  rewrite length_append.
  replace (String.length text + String.length rest - String.length rest)%nat
    with (String.length text) by lia.
  apply substring_app_length.
Qed.

Lemma is_delimiter_cases (c : ascii) :
  is_delimiter c = true ->
  c = ","%char \/ c = "]"%char \/ c = "}"%char \/ c = ch_space.
Proof.
  unfold is_delimiter. intros H.
  destruct (Ascii.eqb_spec c ","); [auto|].
  destruct (Ascii.eqb_spec c "]"); [auto|].
  destruct (Ascii.eqb_spec c "}"); [auto|].
  destruct (Ascii.eqb_spec c ch_space); [auto|discriminate H].
Qed.

Lemma ReadNumber_delimited (rest : string) : delimited rest = true -> ReadNumber rest = O.
Proof.
  destruct rest as [|c rest]; [reflexivity|]. cbn [delimited]. intros H.
  destruct (is_delimiter_cases c H) as [->|[->|[->| ->]]]; reflexivity.
Qed.

Lemma advance_by_closing (k s : string) (c : ascii) :
  advance_by (S (String.length k)) (k ++ String c s) = s.
Proof.
  induction k as [|d k IH]; [reflexivity|].
  cbn [String.length append advance_by] in *. exact IH.
Qed.

Lemma append_not_empty (a : string) (c : ascii) (b : string) :
  String.eqb (a ++ String c b) "" = false.
Proof. destruct a; reflexivity. Qed.

Lemma digit_is_plain (c : ascii) :
  is_decimal_digit c = true ->
  is_json_space c = false /\ Ascii.eqb c "I" = false /\ Ascii.eqb c "i" = false.
Proof.
  destruct c as [[] [] [] [] [] [] [] []]; intros H; vm_compute in H;
    try discriminate H; repeat split; reflexivity.
Qed.

Lemma inc_mod_count {A : Type} (ms : list A) :
  forall c, 0 <= c < 2 ^ 32 ->
    fold_left (fun c _ => inc_mod c) ms c = to_uint32 (c + Z.of_nat (List.length ms)).
Proof.
  induction ms as [|m ms IH]; intros c Hc.
  - cbn [fold_left List.length]. unfold to_uint32. rewrite Z.add_0_r, Z.mod_small; lia.
  - cbn [fold_left]. rewrite IH by (unfold inc_mod, to_uint32; apply Z.mod_pos_bound; lia).
    unfold inc_mod, to_uint32. rewrite Zplus_mod_idemp_l. f_equal.
    cbn [List.length]. lia.
Qed.

(** A key above all the keys of a sorted map is put at its end. *)
Lemma is_sorted_above {V : Type} (l tail : list (string * V)) :
  forall (kv : string * V) (k : string) (v0 : V),
    is_sorted (kv :: l ++ (k, v0) :: tail) = true -> KeyLess (fst kv) k = true.
Proof.
  induction l as [|kv' l IH]; intros kv k v0 H.
  - cbn [app is_sorted fst] in H. apply andb_prop in H. exact (proj1 H).
  - change (is_sorted (kv :: kv' :: (l ++ (k, v0) :: tail)) = true) in H.
    cbn [is_sorted] in H. apply andb_prop in H. destruct H as [H1 H2].
    apply (KeyLess_trans _ (fst kv')); [exact H1|]. apply (IH kv' k v0). exact H2.
Qed.

Lemma put_at_end {V : Type} (l tail : list (string * V)) (k : string) (v0 v : V) :
  is_sorted (l ++ (k, v0) :: tail) = true -> put l k v = l ++ [(k, v)].
Proof.
  induction l as [|kv l IH]; intros H; [reflexivity|].
  cbn [put app]. change ((kv :: l) ++ (k, v0) :: tail) with (kv :: l ++ (k, v0) :: tail) in H.
  rewrite (is_sorted_above l tail kv k v0 H).
  rewrite IH; [reflexivity|]. exact (is_sorted_tail _ _ H).
Qed.

Lemma is_sorted_member_read {V : Type} (l tail : list (string * V)) (k : string) (v0 v : V) :
  is_sorted (l ++ (k, v0) :: tail) = true ->
  is_sorted ((l ++ [(k, v)]) ++ tail) = true.
Proof.
  intros H. rewrite <- H. apply is_sorted_keys.
  rewrite <- app_assoc, !map_app. reflexivity.
Qed.

Lemma write_separator (b : bool) (doc : string) (c : ascii) :
  (if b then doc ++ String c (String ch_space "") else doc ++ String c "")%string
  = (doc ++ String c (if b then String ch_space "" else ""))%string.
Proof. destruct b; reflexivity. Qed.

Section JsonRoundTrip.
Variable isalpha : ascii -> bool.
Variable isalnum : ascii -> bool.
Variable sscanf_lf : string -> option double.
Variable ValueToString_double : double -> string.
Variable spaces : bool.
Hypothesis isalnum_delimiter : forall c : ascii, is_delimiter c = true -> isalnum c = false.

Lemma IsTokenChar_delimiter (c : ascii) :
  is_delimiter c = true -> IsTokenChar isalnum c = false.
Proof.
  intros H. unfold IsTokenChar. rewrite (isalnum_delimiter c H).
  destruct (is_delimiter_cases c H) as [->|[->|[->| ->]]]; reflexivity.
Qed.

(** [Match] on a literal in front of the text behind a value. *)
Lemma Match_literal (pattern rest : string) :
  delimited rest = true -> Match isalnum (pattern ++ rest) pattern = (true, rest).
Proof.
  intros Hrest. unfold Match.
  rewrite length_append.
  replace (String.length pattern + String.length rest <? String.length pattern)%nat
    with false by (symmetry; apply Nat.ltb_ge; lia).
  rewrite substring_app_length, String.eqb_refl. cbn [negb].
  unfold char_at_or_nul. rewrite get_app_length, advance_by_app_length.
  destruct rest as [|c rest].
  - cbn [String.length].
    replace (String.length pattern + 1 <? String.length pattern + 0)%nat
      with false by (symmetry; apply Nat.ltb_ge; lia).
    reflexivity.
  - cbn [String.get]. cbn [delimited] in Hrest.
    rewrite (IsTokenChar_delimiter c Hrest), andb_false_r. reflexivity.
Qed.

Lemma Match_other (c p : ascii) (cur pattern : string) :
  Ascii.eqb c p = false ->
  Match isalnum (String c cur) (String p pattern) = (false, String c cur).
Proof.
  intros H. unfold Match.
  destruct (String.length (String c cur) <? String.length (String p pattern))%nat;
    [reflexivity|].
  cbn [String.length substring String.eqb]. rewrite H. reflexivity.
Qed.

(** ** One token *)

Lemma ReadToken_at (c : ascii) (text rest : string) (type : TokenType) (validUnquoted : bool) :
  is_json_space c = false ->
  ReadToken_switch isalpha isalnum c (text ++ rest) = (type, true, validUnquoted, rest) ->
  ReadToken isalpha isalnum (String c text ++ rest) = (mkJsonToken type (String c text), rest).
Proof.
  intros Hc Hs. unfold ReadToken. cbn [append SkipSpaces]. rewrite Hc.
  cbn [GetNextChar]. rewrite Hs. cbn [negb andb].
  change (String c (text ++ rest)) with (String c text ++ rest)%string.
  rewrite token_text. reflexivity.
Qed.

Lemma ReadToken_space (b : bool) (s : string) :
  ReadToken isalpha isalnum ((if b then String ch_space "" else "") ++ s)
  = ReadToken isalpha isalnum s.
Proof. destruct b; reflexivity. Qed.

Lemma ReadNonCommentToken_other (input : string) (token : Token) (cur : string) :
  ReadToken isalpha isalnum input = (token, cur) ->
  TokenType_eqb (mType token) kTokenComment = false ->
  ReadNonCommentToken isalpha isalnum input = (token, cur).
Proof.
  intros H1 H2. unfold ReadNonCommentToken.
  destruct (String.length input); cbn [ReadNonCommentToken_from]; rewrite H1;
    [reflexivity|]. rewrite H2. reflexivity.
Qed.

Lemma ReadToken_punctuation (c : ascii) (rest : string) (type : TokenType) :
  is_json_space c = false ->
  (forall cur, ReadToken_switch isalpha isalnum c cur = (type, true, false, cur)) ->
  TokenType_eqb type kTokenComment = false ->
  ReadNonCommentToken isalpha isalnum (String c rest) = (mkJsonToken type (String c ""), rest).
Proof.
  intros Hc Hs E. apply ReadNonCommentToken_other; [|exact E].
  apply (ReadToken_at c "" rest type false Hc). apply Hs.
Qed.

Lemma ReadToken_literal (c : ascii) (pattern rest : string) (type : TokenType) :
  is_json_space c = false ->
  (forall cur,
     ReadToken_switch isalpha isalnum c cur
     = let (ok, cur') := Match isalnum cur pattern in (type, ok, true, cur')) ->
  delimited rest = true ->
  ReadToken isalpha isalnum (String c pattern ++ rest)
  = (mkJsonToken type (String c pattern), rest).
Proof.
  intros Hc Hs Hrest. apply (ReadToken_at c pattern rest type true Hc).
  rewrite Hs, (Match_literal pattern rest Hrest). reflexivity.
Qed.

Lemma ReadToken_switch_digit (c : ascii) (cur : string) :
  is_decimal_digit c = true ->
  ReadToken_switch isalpha isalnum c cur
  = (kTokenNumber, true, false, advance_by (ReadNumber cur) cur).
Proof.
  destruct c as [[] [] [] [] [] [] [] []]; intros H; vm_compute in H;
    try discriminate H; reflexivity.
Qed.

Lemma ReadToken_digits (ds rest : string) :
  all_digits ds = true -> ds <> ""%string -> delimited rest = true ->
  ReadToken isalpha isalnum (ds ++ rest) = (mkJsonToken kTokenNumber ds, rest).
Proof.
  intros Hall Hne Hrest. destruct ds as [|c ds]; [contradiction|].
  cbn [all_digits] in Hall. apply andb_prop in Hall. destruct Hall as [Hc Hall].
  apply (ReadToken_at c ds rest kTokenNumber false); [apply (digit_is_plain c Hc)|].
  rewrite (ReadToken_switch_digit c _ Hc).
  rewrite (ReadNumber_digits ds rest Hall (ReadNumber_delimited rest Hrest)).
  rewrite advance_by_app_length. reflexivity.
Qed.

Lemma ReadToken_minus_digits (ds rest : string) :
  all_digits ds = true -> ds <> ""%string -> delimited rest = true ->
  ReadToken isalpha isalnum (String "-" ds ++ rest)
  = (mkJsonToken kTokenNumber (String "-" ds), rest).
Proof.
  intros Hall Hne Hrest.
  apply (ReadToken_at "-" ds rest kTokenNumber false); [reflexivity|].
  transitivity
    (let (m1, cur1) := Match isalnum (ds ++ rest) "Infinity" in
     if m1 then (kTokenMinusInfinity, true, false, cur1)
     else
       let (m2, cur2) := Match isalnum (ds ++ rest) "inf" in
       if m2 then (kTokenMinusInfinity, true, false, cur2)
       else (kTokenNumber, true, false, advance_by (ReadNumber (ds ++ rest)) (ds ++ rest)));
    [reflexivity|].
  rewrite (ReadNumber_digits ds rest Hall (ReadNumber_delimited rest Hrest)).
  rewrite advance_by_app_length.
  destruct ds as [|c ds]; [contradiction|].
  cbn [all_digits] in Hall. apply andb_prop in Hall. destruct Hall as [Hc _].
  destruct (digit_is_plain c Hc) as (_ & HI & Hi).
  cbn [append]. rewrite (Match_other c "I" _ _ HI), (Match_other c "i" _ _ Hi).
  reflexivity.
Qed.

Lemma ReadToken_quoted (s rest : string) :
  ReadToken isalpha isalnum (ValueToQuotedString s ++ rest)
  = (mkJsonToken kTokenString (ValueToQuotedString s), rest).
Proof.
  rewrite ValueToQuotedString_text.
  apply (ReadToken_at quote (escape_chars s ++ String quote "") rest kTokenString false);
    [reflexivity|].
  transitivity
    (let (n, ok) := ReadString ((escape_chars s ++ String quote "") ++ rest) in
     (kTokenString, ok, false, advance_by n ((escape_chars s ++ String quote "") ++ rest)));
    [reflexivity|].
  rewrite append_assoc. cbn [append].
  rewrite ReadString_escape_chars, advance_by_closing. reflexivity.
Qed.

Lemma DecodeString_quoted (s : string) :
  DecodeString isalnum (ValueToQuotedString s) = Some (without_lost s).
Proof.
  rewrite ValueToQuotedString_text. unfold DecodeString, char_at_or_nul.
  cbn [String.get advance_by]. rewrite Ascii.eqb_refl.
  rewrite without_last_snoc. apply decode_chars_escape_chars.
Qed.

(** ** One step of the reader *)

Lemma ReadValue_token_step (fuel : nat) (token : Token) (node : Value) (rd : JsonReader) :
  ReadValue_token isalpha isalnum sscanf_lf (S fuel) token node rd
  = match mType token with
    | kTokenObjectBegin => ReadObject isalpha isalnum sscanf_lf fuel (mkObjectValue [] 0) rd
    | kTokenArrayBegin => ReadArray isalpha isalnum sscanf_lf fuel [] node rd
    | kTokenNumber =>
        match DecodeNumber sscanf_lf (mText token) (mCurrent rd) with
        | Defined (Some v) => assigned v rd
        | Defined None => failed node (AddError rd)
        | Undefined => ReadUndefined
        end
    | kTokenString =>
        match DecodeString isalnum (mText token) with
        | Some decoded => assigned (VString (Some decoded)) rd
        | None => failed node (AddError rd)
        end
    | kTokenMinusInfinity => assigned (VDouble (dinfinity true)) rd
    | kTokenInfinity => assigned (VDouble (dinfinity false)) rd
    | kTokenNaN => assigned (VDouble dnan) rd
    | kTokenTrue => assigned (VBool true) rd
    | kTokenFalse => assigned (VBool false) rd
    | kTokenNull => assigned VNull rd
    | _ => failed node (AddError rd)
    end.
Proof. reflexivity. Qed.

Lemma ReadArray_step (fuel : nat) (array : list Value) (node : Value) (rd : JsonReader) :
  ReadArray isalpha isalnum sscanf_lf (S fuel) array node rd
  = let (token, cur) := ReadNonCommentToken isalpha isalnum (mCurrent rd) in
    let rd := at_text rd cur in
    if TokenType_eqb (mType token) kTokenArrayEnd
    then assigned (VArray (Some array)) rd
    else
      match ReadValue_token isalpha isalnum sscanf_lf fuel token VNull rd with
      | ReadDone (ok, element, rd) =>
          if negb ok then failed node (RecoverFromError isalpha isalnum kTokenArrayEnd rd)
          else
            let array := array ++ [element] in
            let (token, cur) := ReadNonCommentToken isalpha isalnum (mCurrent rd) in
            let rd := at_text rd cur in
            if TokenType_eqb (mType token) kTokenArrayEnd
            then assigned (VArray (Some array)) rd
            else if negb (TokenType_eqb (mType token) kTokenArraySeparator)
            then failed node (AddErrorAndRecover isalpha isalnum kTokenArrayEnd rd)
            else ReadArray isalpha isalnum sscanf_lf fuel array node rd
      | ReadUndefined => ReadUndefined
      | ReadOutOfFuel => ReadOutOfFuel
      end.
Proof. reflexivity. Qed.

Lemma ReadObject_step (fuel : nat) (objectValue : ObjectValue) (rd : JsonReader) :
  ReadObject isalpha isalnum sscanf_lf (S fuel) objectValue rd
  = let (tokenName, cur) := ReadNonCommentToken isalpha isalnum (mCurrent rd) in
    let rd := at_text rd cur in
    if TokenType_eqb (mType tokenName) kTokenObjectEnd
    then assigned (VObject objectValue) rd
    else if negb (TokenType_eqb (mType tokenName) kTokenString)
    then failed (VObject objectValue) (AddErrorAndRecover isalpha isalnum kTokenObjectEnd rd)
    else
      match DecodeString isalnum (mText tokenName) with
      | None =>
          failed (VObject objectValue)
            (RecoverFromError isalpha isalnum kTokenObjectEnd (AddError rd))
      | Some name =>
          let (colon, cur) := ReadNonCommentToken isalpha isalnum (mCurrent rd) in
          let rd := at_text rd cur in
          if negb (TokenType_eqb (mType colon) kTokenMemberSeparator)
          then failed (VObject objectValue)
                 (AddErrorAndRecover isalpha isalnum kTokenObjectEnd rd)
          else
            let (o1, it) := UpdateMember objectValue name in
            let (token, cur) := ReadNonCommentToken isalpha isalnum (mCurrent rd) in
            match
              ReadValue_token isalpha isalnum sscanf_lf fuel token (deref o1 it)
                (at_text rd cur)
            with
            | ReadDone (ok, member, rd) =>
                let objectValue := store o1 it member in
                if negb ok
                then failed (VObject objectValue)
                       (RecoverFromError isalpha isalnum kTokenObjectEnd rd)
                else
                  let (comma, cur) := ReadNonCommentToken isalpha isalnum (mCurrent rd) in
                  let rd := at_text rd cur in
                  if negb (TokenType_eqb (mType comma) kTokenObjectEnd)
                     && negb (TokenType_eqb (mType comma) kTokenArraySeparator)
                  then failed (VObject objectValue)
                         (AddErrorAndRecover isalpha isalnum kTokenObjectEnd rd)
                  else if TokenType_eqb (mType comma) kTokenObjectEnd
                  then assigned (VObject objectValue) rd
                  else ReadObject isalpha isalnum sscanf_lf fuel objectValue rd
            | ReadUndefined => ReadUndefined
            | ReadOutOfFuel => ReadOutOfFuel
            end
      end.
Proof. reflexivity. Qed.

Lemma ReadArray_end (fuel : nat) (array : list Value) (node : Value) (input rest : string)
    (errors : nat) (token : Token) :
  ReadNonCommentToken isalpha isalnum input = (token, rest) ->
  mType token = kTokenArrayEnd ->
  ReadArray isalpha isalnum sscanf_lf (S fuel) array node (mkJsonReader input errors)
  = ReadDone (true, VArray (Some array), mkJsonReader rest errors).
Proof.
  intros H1 H2. rewrite ReadArray_step. cbn [mCurrent]. rewrite H1, H2. reflexivity.
Qed.

Lemma ReadArray_element (fuel : nat) (array : list Value) (node : Value)
    (input cur rest : string) (errors : nat) (token : Token) (element : Value) :
  ReadNonCommentToken isalpha isalnum input = (token, cur) ->
  TokenType_eqb (mType token) kTokenArrayEnd = false ->
  ReadValue_token isalpha isalnum sscanf_lf fuel token VNull (mkJsonReader cur errors)
  = ReadDone (true, element, mkJsonReader rest errors) ->
  ReadArray isalpha isalnum sscanf_lf (S fuel) array node (mkJsonReader input errors)
  = let (token, cur) := ReadNonCommentToken isalpha isalnum rest in
    let rd := mkJsonReader cur errors in
    if TokenType_eqb (mType token) kTokenArrayEnd
    then assigned (VArray (Some (array ++ [element]))) rd
    else if negb (TokenType_eqb (mType token) kTokenArraySeparator)
    then failed node (AddErrorAndRecover isalpha isalnum kTokenArrayEnd rd)
    else ReadArray isalpha isalnum sscanf_lf fuel (array ++ [element]) node rd.
Proof.
  intros H1 H2 H3. rewrite ReadArray_step. cbn [mCurrent]. rewrite H1, H2.
  unfold at_text. cbn [mErrors]. rewrite H3. reflexivity.
Qed.

Lemma ReadObject_end (fuel : nat) (objectValue : ObjectValue) (input rest : string)
    (errors : nat) (token : Token) :
  ReadNonCommentToken isalpha isalnum input = (token, rest) ->
  mType token = kTokenObjectEnd ->
  ReadObject isalpha isalnum sscanf_lf (S fuel) objectValue (mkJsonReader input errors)
  = ReadDone (true, VObject objectValue, mkJsonReader rest errors).
Proof.
  intros H1 H2. rewrite ReadObject_step. cbn [mCurrent]. rewrite H1, H2. reflexivity.
Qed.

Lemma ReadObject_member (fuel : nat) (objectValue : ObjectValue)
    (input cur1 cur2 cur3 rest : string) (errors : nat)
    (tokenName colon token : Token) (name : string) (member : Value) :
  ReadNonCommentToken isalpha isalnum input = (tokenName, cur1) ->
  mType tokenName = kTokenString ->
  DecodeString isalnum (mText tokenName) = Some name ->
  ReadNonCommentToken isalpha isalnum cur1 = (colon, cur2) ->
  mType colon = kTokenMemberSeparator ->
  ReadNonCommentToken isalpha isalnum cur2 = (token, cur3) ->
  (forall node,
     ReadValue_token isalpha isalnum sscanf_lf fuel token node (mkJsonReader cur3 errors)
     = ReadDone (true, member, mkJsonReader rest errors)) ->
  ReadObject isalpha isalnum sscanf_lf (S fuel) objectValue (mkJsonReader input errors)
  = let objectValue :=
      store (fst (UpdateMember objectValue name)) (snd (UpdateMember objectValue name)) member in
    let (comma, cur) := ReadNonCommentToken isalpha isalnum rest in
    let rd := mkJsonReader cur errors in
    if negb (TokenType_eqb (mType comma) kTokenObjectEnd)
       && negb (TokenType_eqb (mType comma) kTokenArraySeparator)
    then failed (VObject objectValue) (AddErrorAndRecover isalpha isalnum kTokenObjectEnd rd)
    else if TokenType_eqb (mType comma) kTokenObjectEnd
    then assigned (VObject objectValue) rd
    else ReadObject isalpha isalnum sscanf_lf fuel objectValue rd.
Proof.
  intros H1 H2 H3 H4 H5 H6 H7. rewrite ReadObject_step. cbn [mCurrent]. rewrite H1, H2.
  cbn [TokenType_eqb TokenType_index Z.eqb negb]. rewrite H3.
  unfold at_text. cbn [mCurrent mErrors]. rewrite H4, H5.
  cbn [TokenType_eqb TokenType_index Z.eqb negb].
  destruct (UpdateMember objectValue name) as [o1 it]. cbn [fst snd].
  rewrite H6. cbn [mErrors]. rewrite H7. reflexivity.
Qed.
(** ** Scalars *)

Lemma reads_back_scalar (v : Value) (t : string) (token : Token) :
  fuel_for v = 1%nat ->
  (forall rest, delimited rest = true ->
     ReadToken isalpha isalnum (t ++ rest) = (token, rest)) ->
  TokenType_eqb (mType token) kTokenComment = false ->
  TokenType_eqb (mType token) kTokenArrayEnd = false ->
  (forall fuel node rest errors,
     delimited rest = true ->
     ReadValue_token isalpha isalnum sscanf_lf (S fuel) token node (mkJsonReader rest errors)
     = ReadDone (true, read_back v, mkJsonReader rest errors)) ->
  reads_back isalpha isalnum sscanf_lf v t.
Proof.
  intros Hfuel Htoken H1 H2 Hread rest Hrest. exists token, rest.
  split; [apply Htoken, Hrest|]. split; [exact H1|]. split; [exact H2|].
  intros fuel node errors Hf. rewrite Hfuel in Hf.
  destruct fuel as [|fuel]; [lia|]. apply Hread, Hrest.
Qed.

Lemma reads_back_digits (v : Value) (ds : string) (z : Z) :
  fuel_for v = 1%nat -> read_back v = narrowest z ->
  all_digits ds = true -> ds <> ""%string -> digits_value ds 0 = z ->
  0 <= z <= UINT64_MAX ->
  reads_back isalpha isalnum sscanf_lf v ds.
Proof.
  intros Hfuel Hback Hall Hne Hval Hz.
  apply (reads_back_scalar v ds (mkJsonToken kTokenNumber ds) Hfuel);
    [intros rest Hrest; apply ReadToken_digits; assumption|reflexivity|reflexivity|].
  intros fuel node rest errors Hrest. rewrite ReadValue_token_step. cbn [mType mText mCurrent].
  rewrite (DecodeNumber_digits sscanf_lf ds rest z Hall Hne Hval Hz), Hback. reflexivity.
Qed.

Lemma reads_back_minus_digits (v : Value) (ds : string) (z : Z) :
  fuel_for v = 1%nat -> read_back v = narrowest (- z) ->
  all_digits ds = true -> ds <> ""%string -> digits_value ds 0 = z ->
  0 < z < - INT64_MIN -> z <> - INT32_MIN ->
  reads_back isalpha isalnum sscanf_lf v (String "-" ds).
Proof.
  intros Hfuel Hback Hall Hne Hval Hz Hz32.
  apply (reads_back_scalar v (String "-" ds) (mkJsonToken kTokenNumber (String "-" ds)) Hfuel);
    [intros rest Hrest; apply ReadToken_minus_digits; assumption|reflexivity|reflexivity|].
  intros fuel node rest errors Hrest. rewrite ReadValue_token_step. cbn [mType mText mCurrent].
  rewrite (DecodeNumber_minus_digits sscanf_lf ds rest z Hall Hne Hval Hz Hz32), Hback.
  reflexivity.
Qed.

Lemma signed_reads_back (v : Value) (x : Z) (doc : string) :
  fuel_for v = 1%nat -> read_back v = narrowest x ->
  INT64_MIN < x <= INT64_MAX -> x <> INT32_MIN ->
  exists t,
    PushValue (ValueToString_int64 x) doc = Defined (doc ++ t)%string
    /\ reads_back isalpha isalnum sscanf_lf v t.
Proof.
  intros Hfuel Hback Hx H32.
  destruct (ValueToString_int64_text x Hx) as (ds & Htext & Hall & Hne & Hval).
  rewrite Htext. unfold INT64_MIN, INT64_MAX, INT32_MIN in *.
  destruct (Z.ltb_spec x 0).
  - exists (String "-" ds). split; [reflexivity|].
    apply (reads_back_minus_digits v ds (Z.abs x)); try assumption.
    + rewrite Hback. f_equal. lia.
    + unfold INT64_MIN. lia.
    + unfold INT32_MIN. lia.
  - exists ds. split; [reflexivity|].
    apply (reads_back_digits v ds x); try assumption; [lia|unfold UINT64_MAX; lia].
Qed.

Lemma unsigned_reads_back (v : Value) (x : Z) (doc : string) :
  fuel_for v = 1%nat -> read_back v = narrowest x ->
  0 <= x <= UINT64_MAX ->
  exists t,
    PushValue (Defined (ValueToString_uint64 x)) doc = Defined (doc ++ t)%string
    /\ reads_back isalpha isalnum sscanf_lf v t.
Proof.
  intros Hfuel Hback Hx. unfold ValueToString_uint64.
  destruct (UIntToString_digits x Hx) as (ds & -> & Hall & Hne & Hval).
  exists ds. split; [reflexivity|].
  apply (reads_back_digits v ds x); assumption.
Qed.

Lemma literal_reads_back (v : Value) (c : ascii) (pattern : string) (type : TokenType) :
  fuel_for v = 1%nat ->
  is_json_space c = false ->
  (forall cur,
     ReadToken_switch isalpha isalnum c cur
     = let (ok, cur') := Match isalnum cur pattern in (type, ok, true, cur')) ->
  TokenType_eqb type kTokenComment = false ->
  TokenType_eqb type kTokenArrayEnd = false ->
  (forall fuel node rd,
     ReadValue_token isalpha isalnum sscanf_lf (S fuel)
       (mkJsonToken type (String c pattern)) node rd
     = ReadDone (true, read_back v, rd)) ->
  reads_back isalpha isalnum sscanf_lf v (String c pattern).
Proof.
  intros Hfuel Hc Hs H1 H2 Hread.
  apply (reads_back_scalar v (String c pattern) (mkJsonToken type (String c pattern)) Hfuel);
    [|exact H1|exact H2|intros; apply Hread].
  intros rest Hrest. apply (ReadToken_literal c pattern rest type Hc Hs Hrest).
Qed.
Lemma null_reads_back : reads_back isalpha isalnum sscanf_lf VNull "null".
Proof.
  apply (reads_back_scalar VNull "null" (mkJsonToken kTokenNull "null") eq_refl);
    [|reflexivity|reflexivity|reflexivity].
  intros rest Hrest. apply (ReadToken_at "n" "ull" rest kTokenNull true); [reflexivity|].
  transitivity
    (let (m1, cur1) := Match isalnum ("ull" ++ rest) "ull" in
     if m1 then (kTokenNull, true, true, cur1)
     else
       let (m2, cur2) := Match isalnum ("ull" ++ rest) "an" in
       if m2 then (kTokenNaN, true, true, cur2)
       else (kTokenError, false, true, cur2));
    [reflexivity|].
  rewrite (Match_literal "ull" rest Hrest). reflexivity.
Qed.

(** ** Arrays and objects *)

Lemma WriteArrayValue_elements_read (xs : list Value) :
  Forall (written_and_read isalpha isalnum sscanf_lf ValueToString_double spaces) xs ->
  forallb writable xs = true ->
  forall (first : bool) (doc : string),
  exists t : string,
    WriteArrayValue_elements spaces
      (WriteValue isalpha isalnum ValueToString_double spaces true) xs first doc
    = Defined (doc ++ match xs with
                      | [] => ""
                      | _ :: _ => if first then t else String "," t
                      end)%string
    /\ (xs = [] -> t = ""%string)
    /\ forall (rest : string) (array : list Value) (node : Value) (errors fuel : nat),
         (S (fold_right (fun x n => S (fuel_for x + n)) O xs) <= fuel)%nat ->
         ReadArray isalpha isalnum sscanf_lf fuel array node
           (mkJsonReader (t ++ String "]" rest) errors)
         = ReadDone (true, VArray (Some (array ++ map read_back xs)), mkJsonReader rest errors).
Proof.
  induction xs as [|x xs IH]; intros HP Hw first doc.
  - exists ""%string. split; [cbn [WriteArrayValue_elements]; rewrite append_nil_r; reflexivity|].
    split; [reflexivity|].
    intros rest array node errors fuel Hfuel.
    destruct fuel as [|fuel]; [cbn [fold_right] in Hfuel; lia|].
    cbn [map append]. rewrite app_nil_r.
    apply (ReadArray_end fuel array node _ rest errors (mkJsonToken kTokenArrayEnd "]"));
      [|reflexivity].
    apply ReadToken_punctuation; [reflexivity|intros; reflexivity|reflexivity].
  - cbn [forallb] in Hw. apply andb_prop in Hw. destruct Hw as [Hwx Hwxs].
    pose proof (Forall_inv HP) as Hx. pose proof (Forall_inv_tail HP) as Hxs.
    unfold written_and_read in Hx.
    set (pre := if negb first && spaces then String ch_space "" else ""%string).
    set (doc1 := (doc ++ (if first then "" else String "," pre))%string).
    assert (WriteArrayValue_elements spaces
              (WriteValue isalpha isalnum ValueToString_double spaces true)
              (x :: xs) first doc
            = match WriteValue isalpha isalnum ValueToString_double spaces true x doc1 with
              | Defined mDocument =>
                  WriteArrayValue_elements spaces
                    (WriteValue isalpha isalnum ValueToString_double spaces true)
                    xs false mDocument
              | Undefined => Undefined
              end) as Hstep.
    { cbn [WriteArrayValue_elements]. unfold doc1, pre.
      destruct first; cbn [negb andb]; [rewrite append_nil_r; reflexivity|].
      rewrite write_separator. reflexivity. }
    rewrite Hstep. clear Hstep.
    destruct (Hx Hwx doc1) as (tx & Hwrite & Hread). rewrite Hwrite.
    destruct (IH Hxs Hwxs false (doc1 ++ tx)%string) as (t' & Hwrite' & _ & Hread').
    rewrite Hwrite'.
    set (tail := match xs with [] => ""%string | _ :: _ => String "," t' end) in *.
    exists (pre ++ tx ++ tail)%string. split; [|split; [discriminate|]].
    + f_equal. unfold doc1, pre.
      destruct first; cbn [negb andb append]; rewrite ?append_nil_r, ?append_assoc;
        cbn [append]; rewrite ?append_assoc; reflexivity.
    + intros rest array node errors fuel Hfuel.
      destruct fuel as [|fuel]; [lia|]. cbn [fold_right] in Hfuel.
      assert (delimited (tail ++ String "]" rest) = true) as Hdel
        by (unfold tail; destruct xs; reflexivity).
      destruct (Hread _ Hdel) as (token & cur & Htoken & Hnc & Hne & Hvalue).
      rewrite !append_assoc.
      rewrite (ReadArray_element fuel array node _ cur (tail ++ String "]" rest) errors
                 token (read_back x)).
      * unfold tail. destruct xs as [|y ys].
        { cbn [append].
          rewrite (ReadToken_punctuation "]" rest kTokenArrayEnd eq_refl
                     ltac:(intros; reflexivity) eq_refl).
          reflexivity. }
        { cbn [append].
          rewrite (ReadToken_punctuation "," (t' ++ String "]" rest) kTokenArraySeparator
                     eq_refl ltac:(intros; reflexivity) eq_refl).
          cbn [mType TokenType_eqb TokenType_index Z.eqb negb].
          rewrite Hread' by (cbn [fold_right] in *; lia).
          rewrite <- app_assoc. reflexivity. }
      * apply ReadNonCommentToken_other; [|exact Hnc].
        unfold pre. rewrite ReadToken_space. exact Htoken.
      * exact Hne.
      * apply Hvalue. lia.
Qed.
Lemma WriteIndent_text (doc : string) :
  WriteIndent spaces doc
  = (doc ++ (if spaces && negb (String.eqb doc "") then String ch_space "" else ""))%string.
Proof.
  unfold WriteIndent. destruct (spaces && negb (String.eqb doc "")); [reflexivity|].
  rewrite append_nil_r. reflexivity.
Qed.

Lemma WriteValue_members_read (ms : list (string * Value)) :
  Forall (fun m => written_and_read isalpha isalnum sscanf_lf ValueToString_double spaces
                     (snd m)) ms ->
  forallb (fun m => negb (has_lost_char (fst m)) && writable (snd m)) ms = true ->
  forall doc : string,
  exists t : string,
    WriteValue_members isalpha isalnum spaces true
      (WriteValue isalpha isalnum ValueToString_double spaces true) ms doc
    = Defined (doc ++ t)%string
    /\ (ms = [] -> t = ""%string)
    /\ forall (close rest : string) (objectValue : ObjectValue) (errors fuel : nat)
              (tokenEnd : Token),
         is_sorted (mMap objectValue ++ ms) = true ->
         ReadToken isalpha isalnum close = (tokenEnd, rest) ->
         mType tokenEnd = kTokenObjectEnd ->
         delimited close = true ->
         (S (fold_right (fun m n => S (fuel_for (snd m) + n)) O ms) <= fuel)%nat ->
         ReadObject isalpha isalnum sscanf_lf fuel objectValue
           (mkJsonReader (t ++ close) errors)
         = ReadDone
             (true,
              VObject
                (mkObjectValue
                   (mMap objectValue ++ map (fun m => (fst m, read_back (snd m))) ms)
                   (fold_left (fun c _ => inc_mod c) ms (mModCount objectValue))),
              mkJsonReader rest errors).
Proof.
  induction ms as [|m ms IH]; intros HP Hw doc.
  - exists ""%string. split; [cbn [WriteValue_members]; rewrite append_nil_r; reflexivity|].
    split; [reflexivity|].
    intros close rest objectValue errors fuel tokenEnd Hsorted Hclose Hend Hdel Hfuel.
    destruct fuel as [|fuel]; [lia|].
    cbn [map append fold_left]. rewrite app_nil_r.
    rewrite (ReadObject_end fuel objectValue close rest errors tokenEnd);
      [destruct objectValue; reflexivity| |exact Hend].
    apply ReadNonCommentToken_other; [exact Hclose|]. rewrite Hend. reflexivity.
  - destruct m as [key value].
    cbn [forallb fst snd] in Hw. apply andb_prop in Hw. destruct Hw as [Hwm Hwms].
    apply andb_prop in Hwm. destruct Hwm as [Hkey Hwv].
    apply negb_true_iff in Hkey.
    pose proof (Forall_inv HP) as Hv. pose proof (Forall_inv_tail HP) as Hms.
    cbn [snd] in Hv. unfold written_and_read in Hv.
    set (pre := if spaces && negb (String.eqb doc "") then String ch_space "" else ""%string).
    set (sp := if spaces then String ch_space "" else ""%string).
    set (doc2 := (doc ++ pre ++ ValueToQuotedString key ++ String ":" sp)%string).
    destruct (Hv Hwv doc2) as (tv & Hwrite & Hread).
    set (comma := match ms with [] => ""%string | _ :: _ => ","%string end).
    destruct (IH Hms Hwms (doc2 ++ tv ++ comma)%string) as (t' & Hwrite' & Hnil & Hread').
    exists (pre ++ ValueToQuotedString key ++ String ":" (sp ++ tv ++ comma ++ t'))%string.
    split; [|split; [discriminate|]].
    + cbn [WriteValue_members fst snd]. unfold write_name.
      rewrite WriteIndent_text. fold pre. rewrite write_separator. fold sp.
      replace ((doc ++ pre) ++ ValueToQuotedString key ++ String ":" sp)%string with doc2
        by (unfold doc2; rewrite !append_assoc; reflexivity).
      replace (((doc ++ pre) ++ ValueToQuotedString key) ++ String ":" sp)%string with doc2
        by (unfold doc2; rewrite !append_assoc; reflexivity).
      rewrite Hwrite.
      replace (match ms with
               | [] => (doc2 ++ tv)%string
               | _ :: _ => ((doc2 ++ tv) ++ ",")%string
               end) with (doc2 ++ tv ++ comma)%string
        by (unfold comma; destruct ms; rewrite ?append_nil_r, ?append_assoc; reflexivity).
      rewrite Hwrite'. f_equal. unfold doc2.
      rewrite !append_assoc. cbn [append]. rewrite ?append_assoc. reflexivity.
    + intros close rest objectValue errors fuel tokenEnd Hsorted Hclose Hend Hdel Hfuel.
      destruct fuel as [|fuel]; [lia|]. cbn [fold_right snd] in Hfuel.
      assert (delimited (comma ++ t' ++ close) = true) as Hdelv.
      { unfold comma. destruct ms; [|reflexivity]. rewrite (Hnil eq_refl). exact Hdel. }
      destruct (Hread _ Hdelv) as (token & cur & Htoken & Hnc & Hne & Hvalue).
      rewrite !append_assoc. cbn [append]. rewrite !append_assoc.
      rewrite (ReadObject_member fuel objectValue _
                 (String ":" (sp ++ tv ++ comma ++ t' ++ close))
                 (sp ++ tv ++ comma ++ t' ++ close)%string cur
                 (comma ++ t' ++ close)%string errors
                 (mkJsonToken kTokenString (ValueToQuotedString key))
                 (mkJsonToken kTokenMemberSeparator ":") token key (read_back value)).
      * pose proof (UpdateMember_spec objectValue key) as (Hc & _ & _ & Hput).
        destruct (Hput (read_back value)) as [Hmap Hcount].
        set (o2 := store (fst (UpdateMember objectValue key))
                     (snd (UpdateMember objectValue key)) (read_back value)) in *.
        assert (o2 = mkObjectValue (mMap objectValue ++ [(key, read_back value)])
                       (inc_mod (mModCount objectValue))) as Ho2.
        { destruct o2 as [m2 c2]. cbn [mMap mModCount] in Hmap, Hcount.
          rewrite Hmap, Hcount.
          rewrite (put_at_end (mMap objectValue) ms key value (read_back value) Hsorted).
          reflexivity. }
        cbv zeta. rewrite Ho2. clear Ho2 Hmap Hcount o2.
        unfold comma. destruct ms as [|m' ms'].
        { rewrite (Hnil eq_refl). cbn [append].
          rewrite (ReadNonCommentToken_other close tokenEnd rest Hclose)
            by (rewrite Hend; reflexivity).
          rewrite Hend. reflexivity. }
        { cbn [append].
          rewrite (ReadToken_punctuation "," (t' ++ close) kTokenArraySeparator
                     eq_refl ltac:(intros; reflexivity) eq_refl).
          cbn [mType TokenType_eqb TokenType_index Z.eqb negb andb].
          rewrite (Hread' close rest _ errors fuel tokenEnd); try assumption.
          - cbn [mMap mModCount map fold_left fst snd]. rewrite <- app_assoc. reflexivity.
          - cbn [mMap]. apply (is_sorted_member_read _ _ key value). exact Hsorted.
          - cbn [fold_right] in *. lia. }
      * apply ReadNonCommentToken_other; [|reflexivity].
        unfold pre. rewrite ReadToken_space.
        rewrite <- append_assoc. apply ReadToken_quoted.
      * reflexivity.
      * cbn [mText]. rewrite DecodeString_quoted, (without_lost_plain key Hkey). reflexivity.
      * apply ReadToken_punctuation; [reflexivity|intros; reflexivity|reflexivity].
      * reflexivity.
      * apply ReadNonCommentToken_other; [|exact Hnc].
        unfold sp. rewrite ReadToken_space. exact Htoken.
      * intros node. apply Hvalue. lia.
Qed.
Lemma WriteValue_written_and_read (v : Value) :
  written_and_read isalpha isalnum sscanf_lf ValueToString_double spaces v.
Proof.
  induction v as [|b|x|x|x|x|d|s| |xs IH|o IH] using Value_nested_ind;
    unfold written_and_read; intros Hw doc; cbn [writable] in Hw.
  - exists "null"%string. split; [reflexivity|apply null_reads_back].
  - destruct b.
    + exists "true"%string. split; [reflexivity|].
      apply (literal_reads_back (VBool true) "t" "rue" kTokenTrue); reflexivity.
    + exists "false"%string. split; [reflexivity|].
      apply (literal_reads_back (VBool false) "f" "alse" kTokenFalse); reflexivity.
  - apply andb_prop in Hw. destruct Hw as [Hx H32].
    apply negb_true_iff, Z.eqb_neq in H32.
    unfold is_int32, INT32_MIN, INT32_MAX in Hx. apply andb_prop in Hx.
    destruct Hx as [H1 H2]. apply Z.leb_le in H1. apply Z.leb_le in H2.
    cbn [WriteValue].
    assert (to_int64 x = x) as ->
      by (unfold to_int64; rewrite Z.mod_small by lia; lia).
    apply signed_reads_back; [reflexivity|reflexivity| |exact H32].
    unfold INT64_MIN, INT64_MAX. lia.
  - unfold is_uint32, UINT32_MAX in Hw. apply andb_prop in Hw.
    destruct Hw as [H1 H2]. apply Z.leb_le in H1. apply Z.leb_le in H2.
    cbn [WriteValue].
    assert (to_uint64 x = x) as ->
      by (unfold to_uint64; rewrite Z.mod_small by lia; lia).
    apply unsigned_reads_back; [reflexivity|reflexivity|]. unfold UINT64_MAX. lia.
  - apply andb_prop in Hw. destruct Hw as [Hw H32]. apply andb_prop in Hw.
    destruct Hw as [Hx H64].
    apply negb_true_iff, Z.eqb_neq in H32. apply negb_true_iff, Z.eqb_neq in H64.
    unfold is_int64 in Hx. apply andb_prop in Hx.
    destruct Hx as [H1 H2]. apply Z.leb_le in H1. apply Z.leb_le in H2.
    cbn [WriteValue].
    apply signed_reads_back; [reflexivity|reflexivity| |exact H32]. lia.
  - unfold is_uint64 in Hw. apply andb_prop in Hw.
    destruct Hw as [H1 H2]. apply Z.leb_le in H1. apply Z.leb_le in H2.
    cbn [WriteValue].
    apply unsigned_reads_back; [reflexivity|reflexivity|]. lia.
  - discriminate Hw.
  - exists (WriteValue_string s). split; [reflexivity|].
    apply (reads_back_scalar (VString s) _ (mkJsonToken kTokenString (WriteValue_string s)));
      [reflexivity| |reflexivity|reflexivity|].
    + intros rest _. apply ReadToken_quoted.
    + intros fuel node rest errors _. rewrite ReadValue_token_step. cbn [mType mText].
      unfold WriteValue_string. rewrite DecodeString_quoted. reflexivity.
  - exists "[]"%string. split; [reflexivity|]. intros rest Hrest.
    exists (mkJsonToken kTokenArrayBegin "["), (String "]" rest).
    split; [apply (ReadToken_at "[" "" (String "]" rest) kTokenArrayBegin false);
            reflexivity|].
    split; [reflexivity|]. split; [reflexivity|].
    intros fuel node errors Hfuel. cbn [fuel_for] in Hfuel.
    destruct fuel as [|[|fuel]]; try lia.
    rewrite ReadValue_token_step. cbn [mType].
    apply (ReadArray_end fuel [] node _ rest errors (mkJsonToken kTokenArrayEnd "]"));
      [|reflexivity].
    apply ReadToken_punctuation; [reflexivity|intros; reflexivity|reflexivity].
  - destruct (WriteArrayValue_elements_read xs IH Hw true (doc ++ "[")%string)
      as (t & Hwrite & Hnil & Hread).
    exists (String "[" (t ++ "]"))%string. split.
    + destruct xs as [|x xs].
      * rewrite (Hnil eq_refl). reflexivity.
      * cbn [WriteValue]. rewrite Hwrite. f_equal.
        rewrite !append_assoc. reflexivity.
    + intros rest Hrest.
      exists (mkJsonToken kTokenArrayBegin "["), (t ++ String "]" rest)%string.
      split.
      { replace (String "[" (t ++ "]") ++ rest)%string
          with (String "[" "" ++ (t ++ String "]" rest))%string
          by (cbn [append]; rewrite append_assoc; reflexivity).
        apply (ReadToken_at "[" "" _ kTokenArrayBegin false); reflexivity. }
      split; [reflexivity|]. split; [reflexivity|].
      intros fuel node errors Hfuel. cbn [fuel_for] in Hfuel.
      destruct fuel as [|fuel]; [lia|].
      rewrite ReadValue_token_step. cbn [mType].
      rewrite (Hread rest [] node errors fuel) by lia. reflexivity.
  - apply andb_prop in Hw. destruct Hw as [Hsorted Hw].
    destruct (WriteValue_members_read (mMap o) IH Hw (WriteWithIndent spaces "{" doc))
      as (t & Hwrite & Hnil & Hread).
    set (pre := if spaces && negb (String.eqb doc "") then String ch_space "" else ""%string).
    set (sp := if spaces then String ch_space "" else ""%string).
    assert (WriteWithIndent spaces "{" doc = (doc ++ pre ++ "{")%string) as Hopen
      by (unfold WriteWithIndent; rewrite WriteIndent_text, append_assoc; reflexivity).
    assert (forall rest,
              ReadToken isalpha isalnum (sp ++ String "}" rest)
              = (mkJsonToken kTokenObjectEnd "}", rest)) as Hclose.
    { intros rest. unfold sp. rewrite ReadToken_space.
      apply (ReadToken_at "}" "" rest kTokenObjectEnd false); reflexivity. }
    assert (forall rest, delimited (sp ++ String "}" rest) = true) as Hdel
      by (intros rest; unfold sp; destruct spaces; reflexivity).
    assert (forall rest fuel node errors,
              (fuel_for (VObject o) <= S fuel)%nat ->
              ReadValue_token isalpha isalnum sscanf_lf (S fuel)
                (mkJsonToken kTokenObjectBegin "{") node
                (mkJsonReader (t ++ sp ++ String "}" rest) errors)
              = ReadDone (true, read_back (VObject o), mkJsonReader rest errors)) as Hvalue.
    { intros rest fuel node errors Hfuel. cbn [fuel_for] in Hfuel.
      rewrite ReadValue_token_step. cbn [mType].
      rewrite (Hread (sp ++ String "}" rest)%string rest (mkObjectValue [] 0) errors fuel
                 (mkJsonToken kTokenObjectEnd "}") Hsorted (Hclose rest) eq_refl (Hdel rest))
        by lia.
      cbn [read_back mMap mModCount app].
      rewrite (inc_mod_count (mMap o) 0) by lia. reflexivity. }
    destruct (mMap o) as [|m ms] eqn:Hmap.
    + exists "{}"%string. split; [cbn [WriteValue]; rewrite Hmap; reflexivity|].
      intros rest Hrest.
      exists (mkJsonToken kTokenObjectBegin "{"), (String "}" rest).
      split; [apply (ReadToken_at "{" "" (String "}" rest) kTokenObjectBegin false);
              reflexivity|].
      split; [reflexivity|]. split; [reflexivity|].
      intros fuel node errors Hfuel.
      destruct fuel as [|fuel]; [cbn [fuel_for] in Hfuel; lia|].
      rewrite ReadValue_token_step. cbn [mType].
      cbn [fuel_for] in Hfuel. rewrite Hmap in Hfuel. cbn [fold_right] in Hfuel.
      destruct fuel as [|fuel]; [lia|].
      rewrite (ReadObject_end fuel (mkObjectValue [] 0) (String "}" rest) rest errors
                 (mkJsonToken kTokenObjectEnd "}"));
        [cbn [read_back]; rewrite Hmap; reflexivity| |reflexivity].
      apply ReadToken_punctuation; [reflexivity|intros; reflexivity|reflexivity].
    + exists (pre ++ String "{" (t ++ sp ++ "}"))%string. split.
      * cbn [WriteValue]. rewrite Hmap, Hwrite, Hopen. f_equal.
        unfold WriteWithIndent. rewrite WriteIndent_text.
        replace ((doc ++ pre ++ "{") ++ t)%string with ((doc ++ pre) ++ String "{" t)%string
          by (rewrite !append_assoc; reflexivity).
        rewrite append_not_empty, andb_true_r. fold sp.
        rewrite !append_assoc. cbn [append]. rewrite ?append_assoc. reflexivity.
      * intros rest Hrest.
        exists (mkJsonToken kTokenObjectBegin "{"), (t ++ sp ++ String "}" rest)%string.
        split.
        { rewrite append_assoc. unfold pre. rewrite ReadToken_space.
          replace (String "{" (t ++ sp ++ "}") ++ rest)%string
            with (String "{" "" ++ (t ++ sp ++ String "}" rest))%string
            by (cbn [append]; rewrite !append_assoc; reflexivity).
          apply (ReadToken_at "{" "" _ kTokenObjectBegin false); reflexivity. }
        split; [reflexivity|]. split; [reflexivity|].
        intros fuel node errors Hfuel.
        destruct fuel as [|fuel]; [cbn [fuel_for] in Hfuel; lia|].
        apply Hvalue. exact Hfuel.
Qed.
(** X25.  A tree written by the JSON writer and read by the JSON reader.
    With the member names in quotes and the text on one line, with or
    without spaces, every Value without a double whose numbers can be
    written and read, and whose objects hold their members sorted under
    names that lose no char, is written; and the reader, which takes no
    char of the classes [,]} ] and space for a token char, reads the text
    without an error as [read_back v]: the same tree with each integer in
    the narrowest kind, each string without the control chars written as
    [\u00XX], an array for each array Value without one, and in each
    object a counter that has counted its members. *)
Theorem json_write_read_round_trip (v : Value) :
  writable v = true ->
  exists text : string,
    Write isalpha isalnum ValueToString_double spaces true v = Defined text
    /\ forall fuel : nat,
         (fuel_for v <= fuel)%nat ->
         Read isalpha isalnum sscanf_lf fuel text = ReadDone (true, read_back v).
Proof.
  intros Hw.
  destruct (WriteValue_written_and_read v Hw ""%string) as (text & Hwrite & Hread).
  exists text. split; [exact Hwrite|].
  intros fuel Hfuel.
  destruct (Hread ""%string eq_refl) as (token & cur & Htoken & Hnc & _ & Hvalue).
  rewrite append_nil_r in Htoken.
  unfold Read, ReadValue. cbn [mCurrent].
  rewrite (ReadNonCommentToken_other text token cur Htoken Hnc).
  unfold at_text. cbn [mErrors]. rewrite (Hvalue fuel VNull O Hfuel).
  reflexivity.
Qed.
End JsonRoundTrip.

(** An object of a string and an array, written with spaces. *)
Lemma json_write_read_round_trip_witness :
  exists text : string,
    Write isalpha_C isalnum_C (fun _ => ""%string) true true
      (VObject (mkObjectValue
         [("name"%string, VString (Some "a b"%string));
          ("sizes"%string, VArray (Some [VInt 1; VInt64 (-5000000000); VBool true; VNull]))]
         0))
    = Defined text
    /\ forall fuel : nat,
         (fuel_for
            (VObject (mkObjectValue
               [("name"%string, VString (Some "a b"%string));
                ("sizes"%string,
                 VArray (Some [VInt 1; VInt64 (-5000000000); VBool true; VNull]))]
               0)) <= fuel)%nat ->
         Read isalpha_C isalnum_C (fun _ => None) fuel text
         = ReadDone
             (true,
              read_back
                (VObject (mkObjectValue
                   [("name"%string, VString (Some "a b"%string));
                    ("sizes"%string,
                     VArray (Some [VInt 1; VInt64 (-5000000000); VBool true; VNull]))]
                   0))).
Proof.
  apply (json_write_read_round_trip isalpha_C isalnum_C (fun _ => None)
           (fun _ => ""%string) true).
  - intros c H. destruct (is_delimiter_cases c H) as [->|[->|[->| ->]]]; reflexivity.
  - reflexivity.
Defined.

(** X26.  Member names written without quotes.  When the format does not
    ask for quotes, which is the default, [IsToken] decides whether a name
    is written bare.  It tests the first char, steps over the second, and
    tests the chars from the third on: so on a name of one char that may
    start a token it reads behind the terminator, and the writer with it
    on any object whose first member has such a name; and a name of two
    chars that starts like a token is written bare whatever its second
    char is. *)
Theorem IsToken_steps_over_the_second_char
    (isalpha isalnum : ascii -> bool) (ValueToString_double : double -> string)
    (spaces : bool) (c0 : ascii) :
  IsStartTokenChar isalpha c0 = true ->
  IsToken isalpha isalnum (String c0 "") = Undefined
  /\ (forall (value : Value) (members : list (string * Value)) (count : Z) (doc : string),
        WriteValue isalpha isalnum ValueToString_double spaces false
          (VObject (mkObjectValue ((String c0 "", value) :: members) count)) doc
        = Undefined)
  /\ (forall c1 : ascii,
        IsToken isalpha isalnum (String c0 (String c1 "")) = Defined true)
  /\ (forall (c1 : ascii) (doc : string),
        write_name isalpha isalnum false (String c0 (String c1 "")) doc
        = Defined (doc ++ ValueToStringInternal (String c0 (String c1 "")) false)%string).
Proof.
  intros Hc0.
  assert (IsToken isalpha isalnum (String c0 "") = Undefined) as H1.
  { unfold IsToken, char_at_or_nul. cbn [String.get]. rewrite Hc0. reflexivity. }
  assert (forall c1, IsToken isalpha isalnum (String c0 (String c1 "")) = Defined true) as H2.
  { intros c1. unfold IsToken, char_at_or_nul. cbn [String.get]. rewrite Hc0. reflexivity. }
  split; [exact H1|]. split; [|split; [exact H2|]].
  - intros value members count doc.
    cbn [WriteValue mMap WriteValue_members fst]. unfold write_name. rewrite H1. reflexivity.
  - intros c1 doc. unfold write_name. rewrite H2. reflexivity.
Qed.

(** The name [x], and the name of [x] and a space. *)
Lemma IsToken_steps_over_the_second_char_witness :
  WriteValue isalpha_C isalnum_C (fun _ => ""%string) true false
    (VObject (mkObjectValue [("x"%string, VInt 1)] 0)) ""
  = Undefined
  /\ IsToken isalpha_C isalnum_C (String "x" (String ch_space "")) = Defined true.
Proof.
  pose proof (IsToken_steps_over_the_second_char isalpha_C isalnum_C (fun _ => ""%string)
                true "x" eq_refl) as (_ & Hwrite & Htoken & _).
  split; [apply Hwrite|apply Htoken].
Defined.

(** ** The reader comes to an end on every text *)

Lemma advance_by_length (n : nat) (s : string) :
  (String.length (advance_by n s) <= String.length s)%nat.
Proof.
  revert s. induction n as [|n IH]; intros s; [cbn [advance_by]; lia|].
  destruct s as [|c s]; cbn [advance_by String.length]; [lia|].
  specialize (IH s). lia.
Qed.

Lemma SkipSpaces_length (s : string) :
  (String.length (SkipSpaces s) <= String.length s)%nat.
Proof.
  induction s as [|c s IH]; cbn [SkipSpaces String.length]; [lia|].
  destruct (is_json_space c); cbn [String.length]; lia.
Qed.

Lemma ReadCStyleComment_length (s : string) :
  (String.length (snd (ReadCStyleComment s)) <= String.length s)%nat.
Proof.
  induction s as [|c s IH]; cbn [ReadCStyleComment String.length snd]; [lia|].
  destruct (Ascii.eqb c "*" && Ascii.eqb (char_at_or_nul s 0) "/"); cbn [snd]; [|lia].
  pose proof (advance_by_length 1 s). lia.
Qed.

Lemma ReadCppStyleComment_length (s : string) :
  (String.length (snd (ReadCppStyleComment s)) <= String.length s)%nat.
Proof.
  induction s as [|c s IH]; cbn [ReadCppStyleComment String.length snd]; [lia|].
  destruct (Ascii.eqb c ch_r || Ascii.eqb c ch_n); cbn [snd]; lia.
Qed.

Lemma ReadComment_length (s : string) :
  (String.length (snd (ReadComment s)) <= String.length s)%nat.
Proof.
  unfold ReadComment, GetNextChar. destruct s as [|c s].
  - destruct (Ascii.eqb zero "*"); [|destruct (Ascii.eqb zero "/")]; cbn; lia.
  - cbn [String.length].
    destruct (Ascii.eqb c "*");
      [pose proof (ReadCStyleComment_length s); lia|].
    destruct (Ascii.eqb c "/");
      [pose proof (ReadCppStyleComment_length s); lia|].
    cbn [snd]. lia.
Qed.

Section ReaderComesToAnEnd.
Variable isalpha : ascii -> bool.
Variable isalnum : ascii -> bool.
Variable sscanf_lf : string -> option double.

Lemma Match_length (s pattern : string) :
  (String.length (snd (Match isalnum s pattern)) <= String.length s)%nat.
Proof.
  unfold Match.
  destruct (String.length s <? String.length pattern)%nat; [cbn [snd]; lia|].
  destruct (negb (String.eqb (substring 0 (String.length pattern) s) pattern));
    [cbn [snd]; lia|].
  destruct ((String.length pattern + 1 <? String.length s)%nat
            && IsTokenChar isalnum (char_at_or_nul s (String.length pattern)));
    cbn [snd]; [lia|apply advance_by_length].
Qed.

Lemma ReadUnquotedString_length (s : string) :
  (String.length (ReadUnquotedString isalnum s) <= String.length s)%nat.
Proof.
  induction s as [|c s IH]; cbn [ReadUnquotedString String.length]; [lia|].
  destruct (negb (IsTokenChar isalnum c)); cbn [String.length]; lia.
Qed.

Lemma ReadToken_switch_length (c : ascii) (cur : string) :
  (String.length (snd (ReadToken_switch isalpha isalnum c cur)) <= String.length cur)%nat.
Proof.
  pose proof (advance_by_length (ReadNumber cur) cur) as Hnumber.
  pose proof (advance_by_length (fst (ReadString cur)) cur) as Hstring.
  pose proof (ReadComment_length cur) as Hcomment.
  assert (forall pattern,
            String.length (snd (Match isalnum cur pattern)) <= String.length cur)%nat
    as Hmatch by (intros; apply Match_length).
  unfold ReadToken_switch.
  repeat match goal with
         | |- context [if Ascii.eqb c ?d then _ else _] => destruct (Ascii.eqb c d)
         | |- context [if is_decimal_digit c || ?b then _ else _] =>
             destruct (is_decimal_digit c || b)
         end;
    try (cbn [snd]; lia).
  - destruct (ReadString cur) as [n ok]. exact Hstring.
  - destruct (ReadComment cur) as [ok cur']. exact Hcomment.
  - pose proof (Hmatch "Infinity"%string) as H1. pose proof (Hmatch "inf"%string) as H2.
    destruct (Match isalnum cur "Infinity") as [m1 cur1].
    destruct m1; [exact H1|].
    destruct (Match isalnum cur "inf") as [m2 cur2].
    destruct m2; [exact H2|exact Hnumber].
  - pose proof (Hmatch "nfinity"%string) as H1.
    destruct (Match isalnum cur "nfinity"). exact H1.
  - pose proof (Hmatch "nf"%string) as H1.
    destruct (Match isalnum cur "nf"). exact H1.
  - pose proof (Hmatch "aN"%string) as H1.
    destruct (Match isalnum cur "aN"). exact H1.
  - pose proof (Hmatch "rue"%string) as H1.
    destruct (Match isalnum cur "rue"). exact H1.
  - pose proof (Hmatch "alse"%string) as H1.
    destruct (Match isalnum cur "alse"). exact H1.
  - pose proof (Hmatch "ull"%string) as H1. pose proof (Hmatch "an"%string) as H2.
    destruct (Match isalnum cur "ull") as [m1 cur1].
    destruct m1; [exact H1|].
    destruct (Match isalnum cur "an") as [m2 cur2].
    destruct m2; exact H2.
Qed.

(** A token is read forwards, and takes a char unless the text is at its
    end. *)
Lemma ReadToken_length (input : string) (token : Token) (cur : string) :
  ReadToken isalpha isalnum input = (token, cur) ->
  (String.length cur <= String.length input)%nat
  /\ (mType token <> kTokenEndOfStream -> (String.length cur < String.length input)%nat).
Proof.
  unfold ReadToken. pose proof (SkipSpaces_length input) as Hskip.
  destruct (SkipSpaces input) as [|c cur0].
  - cbn. intros H. injection H as <- <-. split; [cbn; lia|]. cbn. congruence.
  - cbn [GetNextChar]. pose proof (ReadToken_switch_length c cur0) as Hs.
    destruct (ReadToken_switch isalpha isalnum c cur0) as [[[type ok] validUnquoted] cur1].
    cbn [snd] in Hs. pose proof (ReadUnquotedString_length cur1) as Hu.
    cbn [String.length] in Hskip.
    destruct (negb ok && validUnquoted); intros H; injection H as <- <-; split; intros; lia.
Qed.

Lemma ReadNonCommentToken_from_length (fuel : nat) :
  forall (input : string) (token : Token) (cur : string),
    ReadNonCommentToken_from isalpha isalnum fuel input = (token, cur) ->
    (String.length cur <= String.length input)%nat
    /\ (mType token <> kTokenEndOfStream -> (String.length cur < String.length input)%nat).
Proof.
  induction fuel as [|fuel IH]; intros input token cur; cbn [ReadNonCommentToken_from];
    destruct (ReadToken isalpha isalnum input) as [token1 cur1] eqn:H1;
    pose proof (ReadToken_length input token1 cur1 H1) as [Hle Hlt].
  - intros H. injection H as <- <-. split; assumption.
  - destruct (TokenType_eqb (mType token1) kTokenComment) eqn:Hc.
    + intros H. destruct (IH cur1 token cur H) as [Hle' Hlt'].
      split; [lia|]. intros Hne. specialize (Hlt' Hne). lia.
    + intros H. injection H as <- <-. split; assumption.
Qed.

Lemma ReadNonCommentToken_length (input : string) (token : Token) (cur : string) :
  ReadNonCommentToken isalpha isalnum input = (token, cur) ->
  (String.length cur <= String.length input)%nat
  /\ (mType token <> kTokenEndOfStream -> (String.length cur < String.length input)%nat).
Proof. apply ReadNonCommentToken_from_length. Qed.

Lemma RecoverFromError_from_length (fuel : nat) (skipUntilToken : TokenType) :
  forall input : string,
    (String.length (RecoverFromError_from isalpha isalnum fuel skipUntilToken input)
     <= String.length input)%nat.
Proof.
  induction fuel as [|fuel IH]; intros input; cbn [RecoverFromError_from];
    destruct (ReadToken isalpha isalnum input) as [skip cur] eqn:H;
    pose proof (ReadToken_length input skip cur H) as [Hle _]; [exact Hle|].
  destruct (TokenType_eqb (mType skip) skipUntilToken
            || TokenType_eqb (mType skip) kTokenEndOfStream); [exact Hle|].
  specialize (IH cur). lia.
Qed.

Lemma RecoverFromError_length (skipUntilToken : TokenType) (rd : JsonReader) :
  (String.length (mCurrent (RecoverFromError isalpha isalnum skipUntilToken rd))
   <= String.length (mCurrent rd))%nat.
Proof. unfold RecoverFromError, at_text. cbn [mCurrent]. apply RecoverFromError_from_length. Qed.

Lemma AddErrorAndRecover_length (skipUntilToken : TokenType) (rd : JsonReader) :
  (String.length (mCurrent (AddErrorAndRecover isalpha isalnum skipUntilToken rd))
   <= String.length (mCurrent rd))%nat.
Proof.
  unfold AddErrorAndRecover.
  pose proof (RecoverFromError_length skipUntilToken (AddError rd)) as H. exact H.
Qed.

Lemma returns_within_le (n m : nat) (r : read_result) :
  (n <= m)%nat -> returns_within n r -> returns_within m r.
Proof.
  intros Hle. destruct r as [[[ok v] rd]| |]; cbn [returns_within]; [lia|trivial|trivial].
Qed.

Lemma separator_is_no_end (token : Token) :
  TokenType_eqb (mType token) kTokenArraySeparator = true ->
  mType token <> kTokenEndOfStream.
Proof. intros H E. rewrite E in H. discriminate H. Qed.

(** With fuel for twice the chars of the text every call returns. *)
Lemma reader_returns (fuel : nat) :
  (forall (input : string) (token : Token) (cur : string) (node : Value) (errors : nat),
     ReadNonCommentToken isalpha isalnum input = (token, cur) ->
     (2 * String.length input + 1 <= fuel)%nat ->
     returns_within (String.length cur)
       (ReadValue_token isalpha isalnum sscanf_lf fuel token node (mkJsonReader cur errors)))
  /\ (forall (objectValue : ObjectValue) (rd : JsonReader),
        (2 * String.length (mCurrent rd) + 2 <= fuel)%nat ->
        returns_within (String.length (mCurrent rd))
          (ReadObject isalpha isalnum sscanf_lf fuel objectValue rd))
  /\ (forall (array : list Value) (node : Value) (rd : JsonReader),
        (2 * String.length (mCurrent rd) + 2 <= fuel)%nat ->
        returns_within (String.length (mCurrent rd))
          (ReadArray isalpha isalnum sscanf_lf fuel array node rd)).
Proof.
  induction fuel as [|fuel IH]; [split; [|split]; intros; lia|].
  destruct IH as (IHV & IHO & IHA).
  split; [|split].
  - intros input token cur node errors Htoken Hfuel.
    destruct (ReadNonCommentToken_length input token cur Htoken) as [Hle Hlt].
    rewrite ReadValue_token_step.
    destruct (mType token) eqn:Htype;
      try (cbn [returns_within assigned failed AddError mCurrent]; lia).
    + apply (IHO (mkObjectValue [] 0) (mkJsonReader cur errors)). cbn [mCurrent].
      assert (String.length cur < String.length input)%nat by (apply Hlt; discriminate).
      lia.
    + apply (IHA [] node (mkJsonReader cur errors)). cbn [mCurrent].
      assert (String.length cur < String.length input)%nat by (apply Hlt; discriminate).
      lia.
    + destruct (DecodeString isalnum (mText token));
        cbn [returns_within assigned failed AddError mCurrent]; lia.
    + cbn [mCurrent].
      destruct (DecodeNumber sscanf_lf (mText token) cur) as [[v|]|];
        cbn [returns_within assigned failed AddError mCurrent]; lia.
  - intros objectValue [text errors] Hfuel. cbn [mCurrent] in Hfuel.
    rewrite ReadObject_step. cbn [mCurrent].
    destruct (ReadNonCommentToken isalpha isalnum text) as [tokenName cur1] eqn:H1.
    destruct (ReadNonCommentToken_length text tokenName cur1 H1) as [Hle1 _].
    unfold at_text. cbn [mErrors mCurrent].
    destruct (TokenType_eqb (mType tokenName) kTokenObjectEnd);
      [cbn [returns_within assigned mCurrent]; lia|].
    destruct (negb (TokenType_eqb (mType tokenName) kTokenString)).
    { cbn [returns_within failed].
      pose proof (AddErrorAndRecover_length kTokenObjectEnd (mkJsonReader cur1 errors)) as H.
      cbn [mCurrent] in H. lia. }
    destruct (DecodeString isalnum (mText tokenName)) as [name|].
    2:{ cbn [returns_within failed].
        pose proof (RecoverFromError_length kTokenObjectEnd
                      (AddError (mkJsonReader cur1 errors))) as H.
        cbn [mCurrent AddError] in H. lia. }
    destruct (ReadNonCommentToken isalpha isalnum cur1) as [colon cur2] eqn:H2.
    destruct (ReadNonCommentToken_length cur1 colon cur2 H2) as [Hle2 _].
    cbn [mErrors mCurrent].
    destruct (negb (TokenType_eqb (mType colon) kTokenMemberSeparator)).
    { cbn [returns_within failed].
      pose proof (AddErrorAndRecover_length kTokenObjectEnd (mkJsonReader cur2 errors)) as H.
      cbn [mCurrent] in H. lia. }
    destruct (UpdateMember objectValue name) as [o1 it].
    destruct (ReadNonCommentToken isalpha isalnum cur2) as [token cur3] eqn:H3.
    destruct (ReadNonCommentToken_length cur2 token cur3 H3) as [Hle3 _].
    pose proof (IHV cur2 token cur3 (deref o1 it) errors H3 ltac:(lia)) as Hv.
    destruct (ReadValue_token isalpha isalnum sscanf_lf fuel token (deref o1 it)
                (mkJsonReader cur3 errors)) as [[[ok member] [text' errors']]| |];
      cbn [returns_within mCurrent] in Hv; [|trivial|contradiction].
    destruct (negb ok).
    { cbn [returns_within failed].
      pose proof (RecoverFromError_length kTokenObjectEnd (mkJsonReader text' errors')) as H.
      cbn [mCurrent] in H. lia. }
    cbn [mCurrent mErrors].
    destruct (ReadNonCommentToken isalpha isalnum text') as [comma cur4] eqn:H4.
    destruct (ReadNonCommentToken_length text' comma cur4 H4) as [Hle4 Hlt4].
    destruct (TokenType_eqb (mType comma) kTokenObjectEnd) eqn:Hend; cbn [negb andb].
    { cbn [returns_within assigned mCurrent]. lia. }
    destruct (TokenType_eqb (mType comma) kTokenArraySeparator) eqn:Hsep; cbn [negb].
    2:{ cbn [returns_within failed].
        pose proof (AddErrorAndRecover_length kTokenObjectEnd (mkJsonReader cur4 errors'))
          as H.
        cbn [mCurrent] in H. lia. }
    specialize (Hlt4 (separator_is_no_end comma Hsep)).
    apply (returns_within_le (String.length cur4)); [lia|].
    apply (IHO _ (mkJsonReader cur4 errors')). cbn [mCurrent]. lia.
  - intros array node [text errors] Hfuel. cbn [mCurrent] in Hfuel.
    rewrite ReadArray_step. cbn [mCurrent].
    destruct (ReadNonCommentToken isalpha isalnum text) as [token cur1] eqn:H1.
    destruct (ReadNonCommentToken_length text token cur1 H1) as [Hle1 _].
    unfold at_text. cbn [mErrors mCurrent].
    destruct (TokenType_eqb (mType token) kTokenArrayEnd);
      [cbn [returns_within assigned mCurrent]; lia|].
    pose proof (IHV text token cur1 VNull errors H1 ltac:(lia)) as Hv.
    destruct (ReadValue_token isalpha isalnum sscanf_lf fuel token VNull
                (mkJsonReader cur1 errors)) as [[[ok element] [text' errors']]| |];
      cbn [returns_within mCurrent] in Hv; [|trivial|contradiction].
    destruct (negb ok).
    { cbn [returns_within failed].
      pose proof (RecoverFromError_length kTokenArrayEnd (mkJsonReader text' errors')) as H.
      cbn [mCurrent] in H. lia. }
    cbn [mCurrent mErrors].
    destruct (ReadNonCommentToken isalpha isalnum text') as [token2 cur2] eqn:H2.
    destruct (ReadNonCommentToken_length text' token2 cur2 H2) as [Hle2 Hlt2].
    destruct (TokenType_eqb (mType token2) kTokenArrayEnd);
      [cbn [returns_within assigned mCurrent]; lia|].
    destruct (TokenType_eqb (mType token2) kTokenArraySeparator) eqn:Hsep; cbn [negb].
    2:{ cbn [returns_within failed].
        pose proof (AddErrorAndRecover_length kTokenArrayEnd (mkJsonReader cur2 errors'))
          as H.
        cbn [mCurrent] in H. lia. }
    specialize (Hlt2 (separator_is_no_end token2 Hsep)).
    apply (returns_within_le (String.length cur2)); [lia|].
    apply (IHA _ node (mkJsonReader cur2 errors')). cbn [mCurrent]. lia.
Qed.

(** A call that returns with some fuel returns the same with more. *)
Lemma reader_more_fuel (fuel : nat) :
  (forall (token : Token) (node : Value) (rd : JsonReader),
     ReadValue_token isalpha isalnum sscanf_lf fuel token node rd <> ReadOutOfFuel ->
     ReadValue_token isalpha isalnum sscanf_lf (S fuel) token node rd
     = ReadValue_token isalpha isalnum sscanf_lf fuel token node rd)
  /\ (forall (objectValue : ObjectValue) (rd : JsonReader),
        ReadObject isalpha isalnum sscanf_lf fuel objectValue rd <> ReadOutOfFuel ->
        ReadObject isalpha isalnum sscanf_lf (S fuel) objectValue rd
        = ReadObject isalpha isalnum sscanf_lf fuel objectValue rd)
  /\ (forall (array : list Value) (node : Value) (rd : JsonReader),
        ReadArray isalpha isalnum sscanf_lf fuel array node rd <> ReadOutOfFuel ->
        ReadArray isalpha isalnum sscanf_lf (S fuel) array node rd
        = ReadArray isalpha isalnum sscanf_lf fuel array node rd).
Proof.
  induction fuel as [|fuel IH];
    [split; [|split]; intros; exfalso; match goal with H : _ <> _ |- _ => apply H end;
     reflexivity|].
  destruct IH as (IHV & IHO & IHA).
  split; [|split].
  - intros token node rd H.
    rewrite (ReadValue_token_step isalpha isalnum sscanf_lf (S fuel)), (ReadValue_token_step isalpha isalnum sscanf_lf fuel).
    rewrite (ReadValue_token_step isalpha isalnum sscanf_lf fuel) in H.
    destruct (mType token); try reflexivity; [apply IHO|apply IHA]; exact H.
  - intros objectValue [text errors] H.
    rewrite (ReadObject_step isalpha isalnum sscanf_lf (S fuel)),
      (ReadObject_step isalpha isalnum sscanf_lf fuel).
    rewrite (ReadObject_step isalpha isalnum sscanf_lf fuel) in H.
    unfold at_text in *. cbn [mCurrent mErrors] in *.
    destruct (ReadNonCommentToken isalpha isalnum text) as [tokenName cur1].
    cbn [mCurrent mErrors] in *.
    destruct (TokenType_eqb (mType tokenName) kTokenObjectEnd); [reflexivity|].
    destruct (negb (TokenType_eqb (mType tokenName) kTokenString)); [reflexivity|].
    destruct (DecodeString isalnum (mText tokenName)) as [name|]; [|reflexivity].
    destruct (ReadNonCommentToken isalpha isalnum cur1) as [colon cur2].
    cbn [mCurrent mErrors] in *.
    destruct (negb (TokenType_eqb (mType colon) kTokenMemberSeparator)); [reflexivity|].
    destruct (UpdateMember objectValue name) as [o1 it].
    destruct (ReadNonCommentToken isalpha isalnum cur2) as [token cur3].
    cbn [mCurrent mErrors] in *.
    destruct (ReadValue_token isalpha isalnum sscanf_lf fuel token (deref o1 it)
                (mkJsonReader cur3 errors))
      as [[[ok member] [text' errors']]| |] eqn:E;
      [|rewrite (IHV _ _ _ ltac:(rewrite E; discriminate)), E; reflexivity
       |exfalso; apply H; reflexivity].
    rewrite (IHV _ _ _ ltac:(rewrite E; discriminate)), E.
    cbn [mCurrent mErrors] in *.
    destruct (negb ok); [reflexivity|].
    destruct (ReadNonCommentToken isalpha isalnum text') as [comma cur4].
    cbn [mCurrent mErrors] in *.
    destruct (negb (TokenType_eqb (mType comma) kTokenObjectEnd)
              && negb (TokenType_eqb (mType comma) kTokenArraySeparator)); [reflexivity|].
    destruct (TokenType_eqb (mType comma) kTokenObjectEnd); [reflexivity|].
    apply IHO. exact H.
  - intros array node [text errors] H.
    rewrite (ReadArray_step isalpha isalnum sscanf_lf (S fuel)),
      (ReadArray_step isalpha isalnum sscanf_lf fuel).
    rewrite (ReadArray_step isalpha isalnum sscanf_lf fuel) in H.
    unfold at_text in *. cbn [mCurrent mErrors] in *.
    destruct (ReadNonCommentToken isalpha isalnum text) as [token cur1].
    cbn [mCurrent mErrors] in *.
    destruct (TokenType_eqb (mType token) kTokenArrayEnd); [reflexivity|].
    destruct (ReadValue_token isalpha isalnum sscanf_lf fuel token VNull
                (mkJsonReader cur1 errors))
      as [[[ok element] [text' errors']]| |] eqn:E;
      [|rewrite (IHV _ _ _ ltac:(rewrite E; discriminate)), E; reflexivity
       |exfalso; apply H; reflexivity].
    rewrite (IHV _ _ _ ltac:(rewrite E; discriminate)), E.
    cbn [mCurrent mErrors] in *.
    destruct (negb ok); [reflexivity|].
    destruct (ReadNonCommentToken isalpha isalnum text') as [token2 cur2].
    cbn [mCurrent mErrors] in *.
    destruct (TokenType_eqb (mType token2) kTokenArrayEnd); [reflexivity|].
    destruct (negb (TokenType_eqb (mType token2) kTokenArraySeparator)); [reflexivity|].
    apply IHA. exact H.
Qed.

Lemma Read_more_fuel (fuel : nat) (document : string) :
  Read isalpha isalnum sscanf_lf fuel document <> ReadOutOfFuel ->
  Read isalpha isalnum sscanf_lf (S fuel) document
  = Read isalpha isalnum sscanf_lf fuel document.
Proof.
  unfold Read, ReadValue. cbn [mCurrent].
  destruct (ReadNonCommentToken isalpha isalnum document) as [token cur].
  intros H.
  rewrite (proj1 (reader_more_fuel fuel)); [reflexivity|].
  intros E. rewrite E in H. apply H. reflexivity.
Qed.

(** X27.  The JSON reader comes to an end on every document.  Each token
    is read forwards and each turn of the loops over the members of an
    object and the elements of an array takes a char, so the calls of
    [ReadValue], [ReadObject] and [ReadArray] are nested at most twice as
    deep as the document is long: with that much fuel [Read] returns a
    result, or stops at a number that it cannot negate, and more fuel
    does not change what it returns. *)
Theorem Read_comes_to_an_end (document : string) (more : nat) :
  Read isalpha isalnum sscanf_lf (2 * String.length document + 1) document <> ReadOutOfFuel
  /\ Read isalpha isalnum sscanf_lf (2 * String.length document + 1 + more) document
     = Read isalpha isalnum sscanf_lf (2 * String.length document + 1) document.
Proof.
  assert (Read isalpha isalnum sscanf_lf (2 * String.length document + 1) document
          <> ReadOutOfFuel) as Hend.
  { unfold Read, ReadValue. cbn [mCurrent].
    destruct (ReadNonCommentToken isalpha isalnum document) as [token cur] eqn:Htoken.
    pose proof (proj1 (reader_returns (2 * String.length document + 1))
                  document token cur VNull O Htoken (Nat.le_refl _)) as Hv.
    unfold at_text. cbn [mErrors].
    destruct (ReadValue_token isalpha isalnum sscanf_lf (2 * String.length document + 1)
                token VNull (mkJsonReader cur O)) as [[[ok root] rd]| |];
      [|discriminate|contradiction].
    destruct (Nat.eqb (mErrors rd) O && negb (String.eqb (SkipSpaces (mCurrent rd)) ""));
      discriminate. }
  split; [exact Hend|].
  induction more as [|more IH]; [rewrite Nat.add_0_r; reflexivity|].
  rewrite Nat.add_succ_r, Read_more_fuel; [exact IH|]. rewrite IH. exact Hend.
Qed.
End ReaderComesToAnEnd.

(** ** Comments *)

Lemma ReadCStyleComment_body (body text : string) :
  has_comment_end body = false ->
  ReadCStyleComment (body ++ String "*" (String "/" text)) = (true, text).
Proof.
  induction body as [|c body IH]; [reflexivity|].
  cbn [has_comment_end append ReadCStyleComment]. intros H.
  apply orb_false_elim in H. destruct H as [Hc Hbody].
  replace (Ascii.eqb c "*"
           && Ascii.eqb (char_at_or_nul (body ++ String "*" (String "/" text)) 0) "/")
    with false; [apply IH, Hbody|].
  destruct body as [|d body]; [|symmetry; exact Hc].
  cbn [append]. unfold char_at_or_nul. cbn [String.get].
  rewrite andb_false_r. reflexivity.
Qed.

Lemma ReadCppStyleComment_line (line text : string) (c : ascii) :
  has_line_end line = false ->
  Ascii.eqb c ch_r || Ascii.eqb c ch_n = true ->
  ReadCppStyleComment (line ++ String c text) = (true, text).
Proof.
  intros Hline Hc. induction line as [|d line IH].
  - cbn [append ReadCppStyleComment]. rewrite Hc. reflexivity.
  - cbn [has_line_end] in Hline. apply orb_false_elim in Hline. destruct Hline as [Hd Hline].
    cbn [append ReadCppStyleComment]. rewrite Hd. apply IH, Hline.
Qed.

Section Comments.
Variable isalpha : ascii -> bool.
Variable isalnum : ascii -> bool.
Variable sscanf_lf : string -> option double.

(** The fuel of [ReadNonCommentToken] is enough. *)
Lemma ReadNonCommentToken_from_fuel (fuel : nat) :
  forall input : string,
    (String.length input <= fuel)%nat ->
    ReadNonCommentToken_from isalpha isalnum fuel input
    = ReadNonCommentToken isalpha isalnum input.
Proof.
  induction fuel as [fuel IH] using lt_wf_ind. intros input Hlen.
  unfold ReadNonCommentToken.
  destruct fuel as [|fuel].
  - replace (String.length input) with O by lia. reflexivity.
  - destruct (String.length input) as [|n] eqn:Hn.
    + destruct input; [|discriminate Hn]. reflexivity.
    + cbn [ReadNonCommentToken_from].
      destruct (ReadToken isalpha isalnum input) as [token cur] eqn:Htoken.
      destruct (TokenType_eqb (mType token) kTokenComment) eqn:Hc; [|reflexivity].
      destruct (ReadToken_length isalpha isalnum input token cur Htoken) as [_ Hlt].
      assert (String.length cur < String.length input)%nat as Hcur
        by (apply Hlt; intros E; rewrite E in Hc; discriminate Hc).
      rewrite (IH fuel ltac:(lia) cur ltac:(lia)), (IH n ltac:(lia) cur ltac:(lia)).
      reflexivity.
Qed.

Lemma ReadNonCommentToken_comment (input cur : string) (text : string) :
  ReadToken isalpha isalnum input = (mkJsonToken kTokenComment text, cur) ->
  ReadNonCommentToken isalpha isalnum input = ReadNonCommentToken isalpha isalnum cur.
Proof.
  intros Htoken.
  destruct (ReadToken_length isalpha isalnum input _ cur Htoken) as [_ Hlt].
  assert (String.length cur < String.length input)%nat as Hcur
    by (apply Hlt; discriminate).
  unfold ReadNonCommentToken at 1.
  destruct (String.length input) as [|n] eqn:Hn; [lia|].
  cbn [ReadNonCommentToken_from]. rewrite Htoken. cbn [mType].
  replace (TokenType_eqb kTokenComment kTokenComment) with true by reflexivity.
  apply ReadNonCommentToken_from_fuel. lia.
Qed.

(** X28.  Comments between the tokens.  A comment in C style, up to the
    first [*/], and a comment in C++ style, up to the end of its line, are
    read as one token each, and [ReadNonCommentToken], through which every
    token of a value is read, goes on to the token behind it: a document
    with such a comment in front is read as the document without it. *)
Theorem comments_are_skipped (body text : string) (fuel : nat) :
  (has_comment_end body = false ->
   ReadNonCommentToken isalpha isalnum
     (String "/" (String "*" (body ++ String "*" (String "/" text))))
   = ReadNonCommentToken isalpha isalnum text
   /\ Read isalpha isalnum sscanf_lf fuel
        (String "/" (String "*" (body ++ String "*" (String "/" text))))
      = Read isalpha isalnum sscanf_lf fuel text)
  /\ (has_line_end body = false ->
      ReadNonCommentToken isalpha isalnum
        (String "/" (String "/" (body ++ String ch_n text)))
      = ReadNonCommentToken isalpha isalnum text
      /\ Read isalpha isalnum sscanf_lf fuel
           (String "/" (String "/" (body ++ String ch_n text)))
         = Read isalpha isalnum sscanf_lf fuel text).
Proof.
  split; intros Hbody.
  - assert (ReadNonCommentToken isalpha isalnum
              (String "/" (String "*" (body ++ String "*" (String "/" text))))
            = ReadNonCommentToken isalpha isalnum text) as Htoken.
    { apply (ReadNonCommentToken_comment _ text
               (String "/" (String "*" (body ++ String "*" (String "/" ""))))).
      replace (String "/" (String "*" (body ++ String "*" (String "/" text))))
        with (String "/" (String "*" (body ++ String "*" (String "/" ""))) ++ text)%string
        by (cbn [append]; rewrite append_assoc; reflexivity).
      apply (ReadToken_at isalpha isalnum "/" _ text kTokenComment false); [reflexivity|].
      cbn [append]. rewrite append_assoc. cbn [append].
      transitivity
        (let (ok, cur') :=
           ReadCStyleComment (body ++ String "*" (String "/" text)) in
         (kTokenComment, ok, false, cur'));
        [reflexivity|].
      rewrite (ReadCStyleComment_body body text Hbody). reflexivity. }
    split; [exact Htoken|].
    unfold Read, ReadValue. cbn [mCurrent]. rewrite Htoken. reflexivity.
  - assert (ReadNonCommentToken isalpha isalnum
              (String "/" (String "/" (body ++ String ch_n text)))
            = ReadNonCommentToken isalpha isalnum text) as Htoken.
    { apply (ReadNonCommentToken_comment _ text
               (String "/" (String "/" (body ++ String ch_n "")))).
      replace (String "/" (String "/" (body ++ String ch_n text)))
        with (String "/" (String "/" (body ++ String ch_n "")) ++ text)%string
        by (cbn [append]; rewrite append_assoc; reflexivity).
      apply (ReadToken_at isalpha isalnum "/" _ text kTokenComment false); [reflexivity|].
      cbn [append]. rewrite append_assoc. cbn [append].
      transitivity
        (let (ok, cur') := ReadCppStyleComment (body ++ String ch_n text) in
         (kTokenComment, ok, false, cur'));
        [reflexivity|].
      rewrite (ReadCppStyleComment_line body text ch_n Hbody eq_refl). reflexivity. }
    split; [exact Htoken|].
    unfold Read, ReadValue. cbn [mCurrent]. rewrite Htoken. reflexivity.
Qed.
End Comments.

(** A comment in each style in front of a number. *)
Lemma comments_are_skipped_witness :
  Read isalpha_C isalnum_C (fun _ => None) 1 (String "/" (String "*" (" a " ++ String "*" (String "/" "12"))))
  = Read isalpha_C isalnum_C (fun _ => None) 1 "12"
  /\ Read isalpha_C isalnum_C (fun _ => None) 1 (String "/" (String "/" (" a " ++ String ch_n "12")))
     = Read isalpha_C isalnum_C (fun _ => None) 1 "12".
Proof.
  pose proof (comments_are_skipped isalpha_C isalnum_C (fun _ => None) " a " "12" 1)
    as [H1 H2].
  split; [exact (proj2 (H1 eq_refl))|exact (proj2 (H2 eq_refl))].
Defined.

(** ** Errors *)

Section ReaderErrors.
Variable isalpha : ascii -> bool.
Variable isalnum : ascii -> bool.
Variable sscanf_lf : string -> option double.

Ltac told :=
  let H := fresh "H" in
  intros H; injection H as <- <- <-;
  unfold errors_tell, assigned, failed, AddErrorAndRecover, RecoverFromError, AddError,
    at_text in *;
  cbn [mErrors mCurrent] in *; try lia; try reflexivity.

Lemma reader_errors (fuel : nat) :
  (forall (token : Token) (node : Value) (rd : JsonReader)
          (ok : bool) (v : Value) (rd' : JsonReader),
     ReadValue_token isalpha isalnum sscanf_lf fuel token node rd = ReadDone (ok, v, rd') ->
     errors_tell rd ok rd')
  /\ (forall (objectValue : ObjectValue) (rd : JsonReader)
             (ok : bool) (v : Value) (rd' : JsonReader),
        ReadObject isalpha isalnum sscanf_lf fuel objectValue rd = ReadDone (ok, v, rd') ->
        errors_tell rd ok rd')
  /\ (forall (array : list Value) (node : Value) (rd : JsonReader)
             (ok : bool) (v : Value) (rd' : JsonReader),
        ReadArray isalpha isalnum sscanf_lf fuel array node rd = ReadDone (ok, v, rd') ->
        errors_tell rd ok rd').
Proof.
  induction fuel as [|fuel IH]; [split; [|split]; intros; discriminate|].
  destruct IH as (IHV & IHO & IHA).
  split; [|split].
  - intros token node [text errors] ok v rd'.
    rewrite (ReadValue_token_step isalpha isalnum sscanf_lf fuel).
    destruct (mType token); try told; try (unfold assigned, failed; told).
    + apply IHO.
    + apply IHA.
    + destruct (DecodeString isalnum (mText token)); told.
    + cbn [mCurrent].
      destruct (DecodeNumber sscanf_lf (mText token) text) as [[n|]|];
        [told|told|discriminate].
  - intros objectValue [text errors] ok v rd'.
    rewrite (ReadObject_step isalpha isalnum sscanf_lf fuel).
    unfold at_text. cbn [mCurrent mErrors].
    destruct (ReadNonCommentToken isalpha isalnum text) as [tokenName cur1].
    cbn [mCurrent mErrors].
    destruct (TokenType_eqb (mType tokenName) kTokenObjectEnd); [told|].
    destruct (negb (TokenType_eqb (mType tokenName) kTokenString)); [told|].
    destruct (DecodeString isalnum (mText tokenName)) as [name|]; [|told].
    destruct (ReadNonCommentToken isalpha isalnum cur1) as [colon cur2].
    cbn [mCurrent mErrors].
    destruct (negb (TokenType_eqb (mType colon) kTokenMemberSeparator)); [told|].
    destruct (UpdateMember objectValue name) as [o1 it].
    destruct (ReadNonCommentToken isalpha isalnum cur2) as [token cur3].
    cbn [mCurrent mErrors].
    destruct (ReadValue_token isalpha isalnum sscanf_lf fuel token (deref o1 it)
                (mkJsonReader cur3 errors))
      as [[[ok1 member] [text1 errors1]]| |] eqn:E; [|discriminate|discriminate].
    pose proof (IHV _ _ _ _ _ _ E) as Hv. unfold errors_tell in Hv. cbn [mErrors] in Hv.
    destruct ok1; cbn [negb]; [|told].
    cbn [mCurrent mErrors].
    destruct (ReadNonCommentToken isalpha isalnum text1) as [comma cur4].
    cbn [mCurrent mErrors].
    destruct (negb (TokenType_eqb (mType comma) kTokenObjectEnd)
              && negb (TokenType_eqb (mType comma) kTokenArraySeparator)); [told|].
    destruct (TokenType_eqb (mType comma) kTokenObjectEnd); [told|].
    intros H. pose proof (IHO _ _ _ _ _ H) as Ho.
    unfold errors_tell in *. cbn [mErrors] in *. destruct ok; lia.
  - intros array node [text errors] ok v rd'.
    rewrite (ReadArray_step isalpha isalnum sscanf_lf fuel).
    unfold at_text. cbn [mCurrent mErrors].
    destruct (ReadNonCommentToken isalpha isalnum text) as [token cur1].
    cbn [mCurrent mErrors].
    destruct (TokenType_eqb (mType token) kTokenArrayEnd); [told|].
    destruct (ReadValue_token isalpha isalnum sscanf_lf fuel token VNull
                (mkJsonReader cur1 errors))
      as [[[ok1 element] [text1 errors1]]| |] eqn:E; [|discriminate|discriminate].
    pose proof (IHV _ _ _ _ _ _ E) as Hv. unfold errors_tell in Hv. cbn [mErrors] in Hv.
    destruct ok1; cbn [negb]; [|told].
    cbn [mCurrent mErrors].
    destruct (ReadNonCommentToken isalpha isalnum text1) as [token2 cur2].
    cbn [mCurrent mErrors].
    destruct (TokenType_eqb (mType token2) kTokenArrayEnd); [told|].
    destruct (negb (TokenType_eqb (mType token2) kTokenArraySeparator)); [told|].
    intros H. pose proof (IHA _ _ _ _ _ _ H) as Ha.
    unfold errors_tell in *. cbn [mErrors] in *. destruct ok; lia.
Qed.

(** X29.  The result of [ReadValue] and the list of errors.  [ReadValue]
    returns true exactly when it has added no error: when it returns true
    the list of errors is as long as before, and when it returns false the
    list is longer, whatever [RecoverFromError] has skipped. *)
Theorem ReadValue_returns_false_with_an_error
    (fuel : nat) (node : Value) (rd : JsonReader) (ok : bool) (v : Value) (rd' : JsonReader) :
  ReadValue isalpha isalnum sscanf_lf fuel node rd = ReadDone (ok, v, rd') ->
  if ok then mErrors rd' = mErrors rd else (mErrors rd < mErrors rd')%nat.
Proof.
  unfold ReadValue.
  destruct (ReadNonCommentToken isalpha isalnum (mCurrent rd)) as [token cur].
  intros H. apply (proj1 (reader_errors fuel)) in H.
  unfold errors_tell, at_text in H. cbn [mErrors] in H. exact H.
Qed.
End ReaderErrors.

(** An array with a closing brace in it. *)
Lemma ReadValue_returns_false_with_an_error_witness :
  (mErrors (mkJsonReader "[1, }, 2]" O) < mErrors (mkJsonReader "" 1))%nat.
Proof.
  apply (ReadValue_returns_false_with_an_error isalpha_C isalnum_C (fun _ => None)
           5 VNull (mkJsonReader "[1, }, 2]" O) false VNull (mkJsonReader "" 1)).
  vm_compute. reflexivity.
Defined.
